(** * mem-vfs: an in-memory virtual file system

    A shallow embedding of the core of [mem-vfs] (TypeScript) and the
    verification of ten properties of its specification.

    Conventions of the embedding.
    - A JavaScript string is a [string]: a sequence of 8-bit code units.  The
      path functions only inspect the separator characters, the period, the
      space, the control characters and the ASCII letters.
    - A [Buffer] is a list of bytes.
    - Timestamps ([createdTime], [modifiedTime], [accessedTime]) are wall-clock
      readings and are left out of the node model, and so are [uid] and [gid],
      which no operation of the class sets.
    - An exception is the [Throw] result; the state reached when the exception
      is thrown is kept, as nothing in the source rolls a mutation back.
    - Every node object carries the identity it received when it was
      constructed ([oid]).  A mutating method acts on the object, so it acts on
      every place of the store that holds this object: the live tree and every
      stored snapshot. *)

From Stdlib Require Import List String Ascii Bool Arith NArith Lia.
From Stdlib Require Import Numbers.DecimalString Numbers.DecimalNat.
From Stdlib Require Import Sorting.Sorted Sorting.Permutation.
Import ListNotations.
Open Scope list_scope.
Open Scope string_scope.

Set Implicit Arguments.
Set Warnings "-register-all".

(* ================================================================= *)
(** ** JavaScript string primitives *)

Module JS.

Definition slash : ascii := "/"%char.
Definition backslash : ascii := "\"%char.

(** [!s] for a string: true on the empty string only. *)
Definition isEmpty (s : string) : bool :=
  match s with EmptyString => true | String _ _ => false end.

(** [s.startsWith(c)] for a one-character [c]. *)
Definition startsWithChar (c : ascii) (s : string) : bool :=
  match s with
  | EmptyString => false
  | String d _ => Ascii.eqb d c
  end.

(** [s.endsWith(c)] for a one-character [c]. *)
Fixpoint endsWithChar (c : ascii) (s : string) : bool :=
  match s with
  | EmptyString => false
  | String d EmptyString => Ascii.eqb d c
  | String _ s' => endsWithChar c s'
  end.

(** [s.includes(c)] for a one-character [c]. *)
Fixpoint includesChar (c : ascii) (s : string) : bool :=
  match s with
  | EmptyString => false
  | String d s' => Ascii.eqb d c || includesChar c s'
  end.

(** [s.split(c)]: the pieces between the occurrences of [c]; never empty. *)
Fixpoint split (c : ascii) (s : string) : list string :=
  match s with
  | EmptyString => [EmptyString]
  | String d s' =>
      if Ascii.eqb d c then EmptyString :: split c s'
      else match split c s' with
           | [] => [String d EmptyString]
           | p :: ps => String d p :: ps
           end
  end.

(** [parts.join(sep)]. *)
Definition join (sep : string) (parts : list string) : string :=
  String.concat sep parts.

(** [parts.filter(Boolean)]: the non-empty strings. *)
Definition filterBoolean (parts : list string) : list string :=
  filter (fun p => negb (isEmpty p)) parts.

(** [s.replace(/\\/g, '/')]. *)
Fixpoint replaceBackslashes (s : string) : string :=
  match s with
  | EmptyString => EmptyString
  | String d s' =>
      String (if Ascii.eqb d backslash then slash else d) (replaceBackslashes s')
  end.

(** [s.replace(/\/+/g, '/')]: every run of slashes becomes one slash. *)
Fixpoint collapseSlashes (s : string) : string :=
  match s with
  | EmptyString => EmptyString
  | String d s' =>
      if Ascii.eqb d slash && startsWithChar slash s' then collapseSlashes s'
      else String d (collapseSlashes s')
  end.

(** [s.lastIndexOf(c)], [None] standing for [-1]. *)
Fixpoint lastIndexOf (c : ascii) (s : string) : option nat :=
  match s with
  | EmptyString => None
  | String d s' =>
      match lastIndexOf c s' with
      | Some i => Some (S i)
      | None => if Ascii.eqb d c then Some 0 else None
      end
  end.

(** [s.slice(start)] for [start >= 0]. *)
Fixpoint sliceFrom (start : nat) (s : string) : string :=
  match start, s with
  | 0, _ => s
  | S n, EmptyString => EmptyString
  | S n, String _ s' => sliceFrom n s'
  end.

(** [s.slice(0, stop)] for [stop >= 0]. *)
Fixpoint sliceTo (stop : nat) (s : string) : string :=
  match stop, s with
  | 0, _ => EmptyString
  | S n, EmptyString => EmptyString
  | S n, String d s' => String d (sliceTo n s')
  end.

(** [s.toUpperCase()] on the ASCII letters. *)
Definition upperChar (c : ascii) : ascii :=
  let n := nat_of_ascii c in
  if (97 <=? n)%nat && (n <=? 122)%nat then ascii_of_nat (n - 32) else c.

Fixpoint toUpperCase (s : string) : string :=
  match s with
  | EmptyString => EmptyString
  | String d s' => String (upperChar d) (toUpperCase s')
  end.

(** [/[\x00-\x1f]/.test(s)]. *)
Fixpoint hasControlChar (s : string) : bool :=
  match s with
  | EmptyString => false
  | String d s' => (nat_of_ascii d <? 32)%nat || hasControlChar s'
  end.

(** [s.startsWith(p)]. *)
Definition startsWith (p s : string) : bool := String.prefix p s.

(** [s.replace(/p/g, r)] for a literal, non-empty [p]: leftmost matches,
    not overlapping.  The recursion is on a bound on the characters left. *)
Fixpoint replaceAll_fuel (fuel : nat) (p r s : string) : string :=
  match fuel with
  | 0 => s
  | S fuel' =>
      match s with
      | EmptyString => EmptyString
      | String d s' =>
          if String.prefix p s
          then r ++ replaceAll_fuel fuel' p r (sliceFrom (String.length p) s)
          else String d (replaceAll_fuel fuel' p r s')
      end
  end.

Definition replaceAll (p r s : string) : string :=
  replaceAll_fuel (String.length s) p r s.

End JS.

(* ================================================================= *)
(** ** Errors *)

(** The reason carried by an [InvalidPathError]. *)
Inductive InvalidReason : Type :=
| PathEmpty
| PathInvalidChars
| PathTooLong
| SegmentTooLong (segment : string)
| SegmentReserved (segment : string)
| SegmentTrailing (segment : string).

(** The exceptions the core throws: the error classes of
    [file-system-errors], each with its path, and the plain [Error] of the
    snapshot functions. *)
Inductive FileSystemError : Type :=
| FileNotFoundError (path : string)
| DirectoryNotFoundError (path : string)
| DirectoryNotEmptyError (path : string)
| NotAFileError (path : string)
| NotADirectoryError (path : string)
| NotASymlinkError (path : string)
| SymlinkLoopError (path : string)
| FileAlreadyExistsError (path : string)
| InvalidPathError (path : string) (reason : InvalidReason)
| SnapshotNotFound (id : string).

Inductive Result (A : Type) : Type :=
| Ok (a : A)
| Throw (e : FileSystemError).

Arguments Ok {A} a.
Arguments Throw {A} e.

Definition isInvalidPath {A} (r : Result A) : bool :=
  match r with Throw (InvalidPathError _ _) => true | _ => false end.

Definition isSymlinkLoop {A} (r : Result A) : bool :=
  match r with Throw (SymlinkLoopError _) => true | _ => false end.

(* ================================================================= *)
(** ** Path normalizer, validator and resolver *)

(** One turn of the loop of [normalizePath].  The stack is kept with its top
    at the head of the list. *)
Definition normStep (isAbsolute : bool) (stack : list string) (part : string)
  : list string :=
  if String.eqb part "" || String.eqb part "." then stack
  else if String.eqb part ".." then
    match stack with
    | top :: below =>
        if negb (String.eqb top "..") then below
        else if negb isAbsolute then ".." :: stack else stack
    | [] => if negb isAbsolute then ".." :: stack else stack
    end
  else part :: stack.

Definition normalizePath (inputPath : string) : string :=
  if JS.isEmpty inputPath then "/"
  else
    let normalized := JS.collapseSlashes (JS.replaceBackslashes inputPath) in
    let parts := JS.split JS.slash normalized in
    let isAbsolute := JS.startsWithChar JS.slash normalized in
    let stack := fold_left (normStep isAbsolute) parts [] in
    let result := JS.join "/" (rev stack) in
    let result := if isAbsolute then "/" ++ result else result in
    if JS.isEmpty result then (if isAbsolute then "/" else ".") else result.

Definition dirname (inputPath : string) : string :=
  let normalized := normalizePath inputPath in
  if String.eqb normalized "/" then "/"
  else match JS.lastIndexOf JS.slash normalized with
       | None => "."
       | Some 0 => "/"
       | Some lastSlash => JS.sliceTo lastSlash normalized
       end.

(** [basename(inputPath)], without the optional extension. *)
Definition basename (inputPath : string) : string :=
  let normalized := normalizePath inputPath in
  if String.eqb normalized "/" then ""
  else match JS.lastIndexOf JS.slash normalized with
       | None => normalized
       | Some lastSlash => JS.sliceFrom (lastSlash + 1) normalized
       end.

(** The loop of [join]. *)
Definition joinStep (joined path : string) : string :=
  if JS.isEmpty path then joined
  else if JS.isEmpty joined then path
  else joined ++ "/" ++ path.

Definition join (paths : list string) : string :=
  match paths with
  | [] => "."
  | _ => normalizePath (fold_left joinStep paths "")
  end.

Definition splitPath (inputPath : string) : list string :=
  JS.filterBoolean (JS.split JS.slash (normalizePath inputPath)).

Definition RESERVED_NAMES : list string :=
  [ "CON"; "PRN"; "AUX"; "NUL";
    "COM1"; "COM2"; "COM3"; "COM4"; "COM5"; "COM6"; "COM7"; "COM8"; "COM9";
    "LPT1"; "LPT2"; "LPT3"; "LPT4"; "LPT5"; "LPT6"; "LPT7"; "LPT8"; "LPT9" ].

Definition validatePathSegment (segment fullPath : string) : Result unit :=
  if (255 <? String.length segment)%nat
  then Throw (InvalidPathError fullPath (SegmentTooLong segment))
  else
    let upperSegment := JS.toUpperCase segment in
    let baseSegment := hd "" (JS.split "."%char upperSegment) in
    if existsb (String.eqb baseSegment) RESERVED_NAMES
    then Throw (InvalidPathError fullPath (SegmentReserved segment))
    else if JS.endsWithChar " "%char segment || JS.endsWithChar "."%char segment
    then Throw (InvalidPathError fullPath (SegmentTrailing segment))
    else Ok tt.

(** The loop of [validatePath] over the parts. *)
Fixpoint validateParts (parts : list string) (inputPath : string) : Result unit :=
  match parts with
  | [] => Ok tt
  | part :: rest =>
      if String.eqb part "." || String.eqb part ".."
      then validateParts rest inputPath
      else match validatePathSegment part inputPath with
           | Throw e => Throw e
           | Ok _ => validateParts rest inputPath
           end
  end.

Definition validatePath (inputPath : string) : Result unit :=
  if JS.isEmpty inputPath then Throw (InvalidPathError "" PathEmpty)
  else if JS.hasControlChar inputPath
  then Throw (InvalidPathError inputPath PathInvalidChars)
  else if (4096 <? String.length inputPath)%nat
  then Throw (InvalidPathError inputPath PathTooLong)
  else validateParts (JS.filterBoolean (JS.split JS.slash inputPath)) inputPath.

Record PathResolution : Type := mkPathResolution {
  fullPath : string;
  parentPath : string;
  name : string;
  segments : list string;
  isRoot : bool
}.

Definition resolvePath (inputPath : string) : Result PathResolution :=
  match validatePath inputPath with
  | Throw e => Throw e
  | Ok _ =>
      let fullPath := normalizePath inputPath in
      let isRoot := String.eqb fullPath "/" in
      Ok {| fullPath := fullPath;
            parentPath := if isRoot then "/" else dirname fullPath;
            name := if isRoot then "" else basename fullPath;
            segments := splitPath fullPath;
            isRoot := isRoot |}
  end.


(* ================================================================= *)
(** ** Node model *)

Definition Buffer : Type := list Byte.byte.

(** The [string | Buffer] argument of the write operations. *)
Inductive Content : Type :=
| Str (s : string)
| Buf (b : Buffer).

(** [Buffer.from(s, 'utf-8')] on 8-bit code units: one byte below 128, two
    bytes from 128 on. *)
Definition utf8Char (c : ascii) : Buffer :=
  let n := nat_of_ascii c in
  if (n <? 128)%nat then [byte_of_ascii c]
  else [byte_of_ascii (ascii_of_nat (192 + n / 64));
        byte_of_ascii (ascii_of_nat (128 + n mod 64))].

Fixpoint utf8 (s : string) : Buffer :=
  match s with
  | EmptyString => []
  | String c s' => utf8Char c ++ utf8 s'
  end%list.

Definition toBuffer (data : Content) : Buffer :=
  match data with
  | Str s => utf8 s
  | Buf b => b
  end.

(** A JavaScript [Map<string, V>]: the entries in insertion order, the keys
    distinct. *)
Module JSMap.

Fixpoint get {V} (k : string) (m : list (string * V)) : option V :=
  match m with
  | [] => None
  | (k', v) :: m' => if String.eqb k' k then Some v else get k m'
  end.

Definition has {V} (k : string) (m : list (string * V)) : bool :=
  match get k m with Some _ => true | None => false end.

(** [m.set(k, v)]: an existing key keeps its place. *)
Fixpoint set {V} (k : string) (v : V) (m : list (string * V)) : list (string * V) :=
  match m with
  | [] => [(k, v)]
  | (k', v') :: m' =>
      if String.eqb k' k then (k, v) :: m' else (k', v') :: set k v m'
  end.

Fixpoint delete {V} (k : string) (m : list (string * V)) : list (string * V) :=
  match m with
  | [] => []
  | (k', v') :: m' =>
      if String.eqb k' k then m' else (k', v') :: delete k m'
  end.

End JSMap.

(** The three node classes.  [oid] is the identity of the object. *)
Inductive VFSNode : Type :=
| VFSFile (oid : nat) (name : string) (content : Buffer) (mode : N)
| VFSDirectory (oid : nat) (name : string)
               (children : list (string * VFSNode)) (mode : N)
| VFSSymlink (oid : nat) (name : string) (targetPath : string) (mode : N).

Definition oidOf (n : VFSNode) : nat :=
  match n with
  | VFSFile o _ _ _ | VFSDirectory o _ _ _ | VFSSymlink o _ _ _ => o
  end.

Definition nodeName (n : VFSNode) : string :=
  match n with
  | VFSFile _ nm _ _ | VFSDirectory _ nm _ _ | VFSSymlink _ nm _ _ => nm
  end.

Definition isFile (n : VFSNode) : bool :=
  match n with VFSFile _ _ _ _ => true | _ => false end.

Definition isDirectory (n : VFSNode) : bool :=
  match n with VFSDirectory _ _ _ _ => true | _ => false end.

Definition isSymlink (n : VFSNode) : bool :=
  match n with VFSSymlink _ _ _ _ => true | _ => false end.

(** The private [children] map of a directory (empty for the other kinds,
    on which the source never reads it). *)
Definition childrenOf (n : VFSNode) : list (string * VFSNode) :=
  match n with VFSDirectory _ _ ch _ => ch | _ => [] end.

(** [VFSSymlink.target]. *)
Definition target (n : VFSNode) : string :=
  match n with VFSSymlink _ _ t _ => t | _ => "" end.

(** [VFSFile.read()] without an encoding: a copy of the content. *)
Definition read (n : VFSNode) : Buffer :=
  match n with VFSFile _ _ c _ => c | _ => [] end.

(** [VFSDirectory] accessors. *)
Definition getChild (dir : VFSNode) (nm : string) : option VFSNode :=
  JSMap.get nm (childrenOf dir).

Definition hasChild (dir : VFSNode) (nm : string) : bool :=
  JSMap.has nm (childrenOf dir).

Definition getChildNames (dir : VFSNode) : list string :=
  map fst (childrenOf dir).

Definition getChildren (dir : VFSNode) : list VFSNode :=
  map snd (childrenOf dir).

Definition dirIsEmpty (dir : VFSNode) : bool :=
  match childrenOf dir with [] => true | _ => false end.

(** The mutating methods, as functions on the object they are called on. *)
Definition write (data : Content) (n : VFSNode) : VFSNode :=
  match n with
  | VFSFile o nm _ md => VFSFile o nm (toBuffer data) md
  | _ => n
  end.

Definition append (data : Content) (n : VFSNode) : VFSNode :=
  match n with
  | VFSFile o nm c md => VFSFile o nm (c ++ toBuffer data)%list md
  | _ => n
  end.

Definition addChild (node : VFSNode) (dir : VFSNode) : VFSNode :=
  match dir with
  | VFSDirectory o nm ch md => VFSDirectory o nm (JSMap.set (nodeName node) node ch) md
  | _ => dir
  end.

Definition removeChild (nm : string) (dir : VFSNode) : VFSNode :=
  match dir with
  | VFSDirectory o n ch md => VFSDirectory o n (JSMap.delete nm ch) md
  | _ => dir
  end.

(** The effect of a method [f] called on the object [o] on a tree that may
    hold this object. *)
Fixpoint updateNode (o : nat) (f : VFSNode -> VFSNode) (n : VFSNode) : VFSNode :=
  if Nat.eqb (oidOf n) o then f n
  else match n with
       | VFSDirectory o' nm ch md =>
           VFSDirectory o' nm
             (map (fun kv => (fst kv, updateNode o f (snd kv))) ch) md
       | _ => n
       end.

(** [clone()]: new objects throughout, numbered from [next] in construction
    order; the second component is the next free identity. *)
Fixpoint clone (n : VFSNode) (next : nat) : VFSNode * nat :=
  match n with
  | VFSFile _ nm c md => (VFSFile next nm c md, S next)
  | VFSSymlink _ nm t md => (VFSSymlink next nm t md, S next)
  | VFSDirectory _ nm ch md =>
      let cloneChildren :=
        fix cloneChildren (l : list (string * VFSNode)) (nx : nat)
          : list (string * VFSNode) * nat :=
          match l with
          | [] => ([], nx)
          | (k, c) :: rest =>
              let (c', nx1) := clone c nx in
              let (rest', nx2) := cloneChildren rest nx1 in
              ((k, c') :: rest', nx2)
          end in
      let (ch', nx') := cloneChildren ch (S next) in
      (VFSDirectory next nm ch' md, nx')
  end.

(* ================================================================= *)
(** ** The file system object *)

Record VFSOptions : Type := mkOptions {
  defaultFileMode : N;
  defaultDirectoryMode : N;
  maxSymlinkDepth : nat
}.

Definition DEFAULT_OPTIONS : VFSOptions :=
  {| defaultFileMode := 420; defaultDirectoryMode := 493; maxSymlinkDepth := 40 |}.

Definition DEFAULT_SYMLINK_MODE : N := 511.

(** [SnapshotInfo], without its creation date. *)
Record SnapshotInfo : Type := mkSnapshotInfo {
  infoId : string;
  infoName : option string;
  fileCount : nat;
  directoryCount : nat;
  totalSize : nat
}.

Record Snapshot : Type := mkSnapshot {
  snapRoot : VFSNode;
  snapInfo : SnapshotInfo
}.

(** The fields of [VirtualFileSystem], and the allocator of object
    identities.  No watcher is registered: [watch] belongs to the
    notification layer, outside the core. *)
Record VFS : Type := mkVFS {
  root : VFSNode;
  options : VFSOptions;
  snapshots : list (string * Snapshot);
  snapshotCounter : nat;
  nextOid : nat
}.

(** [new VirtualFileSystem(options)]. *)
Definition createVFS (opts : VFSOptions) : VFS :=
  {| root := VFSDirectory 0 "" [] (defaultDirectoryMode opts);
     options := opts;
     snapshots := [];
     snapshotCounter := 0;
     nextOid := 1 |}.

(** *** The monad of the operations: state and exceptions *)

Definition M (A : Type) : Type := VFS -> VFS * Result A.

Definition ret {A} (a : A) : M A := fun s => (s, Ok a).

Definition throw {A} (e : FileSystemError) : M A := fun s => (s, Throw e).

Definition bind {A B} (m : M A) (k : A -> M B) : M B :=
  fun s => match m s with
           | (s', Ok a) => k a s'
           | (s', Throw e) => (s', Throw e)
           end.

Notation "x <- m ;; k" := (bind m (fun x => k))
  (at level 100, m at next level, right associativity).
Notation "m ;;; k" := (bind m (fun _ => k))
  (at level 100, right associativity).

(** A computation that only reads the store. *)
Definition reading {A} (f : VFS -> Result A) : M A := fun s => (s, f s).

Definition liftR {A} (r : Result A) : M A := fun s => (s, r).

(** [obj.f(...)] for the object of identity [o]: the method acts wherever
    the store holds this object. *)
Definition mutate (o : nat) (f : VFSNode -> VFSNode) : M unit :=
  fun s =>
    ({| root := updateNode o f (root s);
        options := options s;
        snapshots :=
          map (fun kv => (fst kv,
                          {| snapRoot := updateNode o f (snapRoot (snd kv));
                             snapInfo := snapInfo (snd kv) |}))
              (snapshots s);
        snapshotCounter := snapshotCounter s;
        nextOid := nextOid s |}, Ok tt).

(** The identity of the object a constructor is about to build. *)
Definition fresh : M nat :=
  fun s =>
    ({| root := root s; options := options s; snapshots := snapshots s;
        snapshotCounter := snapshotCounter s; nextOid := S (nextOid s) |},
     Ok (nextOid s)).

Definition newFile (nm : string) (data : Content) (md : N) : M VFSNode :=
  o <- fresh ;; ret (VFSFile o nm (toBuffer data) md).

Definition newDirectory (nm : string) (md : N) : M VFSNode :=
  o <- fresh ;; ret (VFSDirectory o nm [] md).

Definition newSymlink (nm tgt : string) : M VFSNode :=
  o <- fresh ;; ret (VFSSymlink o nm tgt DEFAULT_SYMLINK_MODE).

(* ================================================================= *)
(** ** Tree traversal and symlink resolution *)

Definition isNil {A} (l : list A) : bool :=
  match l with [] => true | _ => false end.

(** The path a symlink found at index [i] is followed to; [visited] is
    [segments.slice(0, i)]. *)
Definition symlinkTargetPath (visited : list string) (symlink : VFSNode) : string :=
  if JS.startsWithChar JS.slash (target symlink) then target symlink
  else join [dirname ("/" ++ JS.join "/" visited); target symlink].

(** The loop of [resolveNode] from index [i] on: [visited] holds the
    segments before [i] and [rest] the segments from [i] on, so that
    [i < segments.length - 1] reads "the tail of [rest] is not empty".
    [rec] is the recursive call at [depth + 1]. *)
Fixpoint resolveLoop (rec : string -> Result (option VFSNode))
    (followSymlinks : bool) (visited rest : list string) (current : VFSNode)
  : Result (option VFSNode) :=
  match rest with
  | [] => Ok (Some current)
  | segment :: rest' =>
      if negb (isDirectory current) then Ok None
      else match getChild current segment with
           | None => Ok None
           | Some child =>
               if isSymlink child then
                 if followSymlinks || negb (isNil rest') then
                   match rec (symlinkTargetPath visited child) with
                   | Throw e => Throw e
                   | Ok None => Ok None
                   | Ok (Some resolved) =>
                       if isNil rest'
                       then Ok (Some (if followSymlinks then resolved else child))
                       else resolveLoop rec followSymlinks
                              (visited ++ [segment])%list rest' resolved
                   end
                 else Ok (Some child)
               else resolveLoop rec followSymlinks
                      (visited ++ [segment])%list rest' child
           end
  end.

(** [resolveNode] with [fuel = maxSymlinkDepth + 1 - depth] calls left:
    [depth > maxSymlinkDepth] reads [fuel = 0]. *)
Fixpoint resolveNodeFuel (fuel : nat) (rt : VFSNode) (inputPath : string)
    (followSymlinks : bool) : Result (option VFSNode) :=
  match fuel with
  | 0 => Throw (SymlinkLoopError inputPath)
  | S fuel' =>
      match resolvePath inputPath with
      | Throw e => Throw e
      | Ok r =>
          if isRoot r then Ok (Some rt)
          else resolveLoop (fun p => resolveNodeFuel fuel' rt p true)
                 followSymlinks [] (segments r) rt
      end
  end.

Definition resolveNodeAt (s : VFS) (inputPath : string) (followSymlinks : bool)
    (depth : nat) : Result (option VFSNode) :=
  resolveNodeFuel (S (maxSymlinkDepth (options s)) - depth) (root s)
    inputPath followSymlinks.

(** [resolveNode(inputPath, followSymlinks)], at the default depth 0. *)
Definition resolveNode (s : VFS) (inputPath : string) (followSymlinks : bool)
  : Result (option VFSNode) :=
  resolveNodeAt s inputPath followSymlinks 0.

Definition getDirectory (s : VFS) (dirPath : string) : Result VFSNode :=
  match resolveNode s dirPath true with
  | Throw e => Throw e
  | Ok None => Throw (DirectoryNotFoundError dirPath)
  | Ok (Some node) =>
      if negb (isDirectory node) then Throw (NotADirectoryError dirPath)
      else Ok node
  end.

Definition getDirectoryOrNull (s : VFS) (dirPath : string) : option VFSNode :=
  match getDirectory s dirPath with
  | Ok d => Some d
  | Throw _ => None
  end.

(** The kinds of change handed to [notifyWatchers]. *)
Inductive ChangeKind : Type := Change | Add | Unlink | AddDir | UnlinkDir.

(** [notifyWatchers]: the stats of the path are looked up for every kind
    but the two removals, and this lookup can throw; the set of watchers is
    empty. *)
Definition notifyWatchers (path : string) (kind : ChangeKind) : M unit :=
  match kind with
  | Unlink | UnlinkDir => ret tt
  | _ => _ <- reading (fun s => resolveNode s path true) ;; ret tt
  end.

(* ================================================================= *)
(** ** File and directory operations *)

(** [readFile(filePath)] without an encoding. *)
Definition readFile (filePath : string) : M Buffer :=
  node <- reading (fun s => resolveNode s filePath true) ;;
  match node with
  | None => throw (FileNotFoundError filePath)
  | Some node =>
      if isDirectory node then throw (NotAFileError filePath)
      else if isFile node then ret (read node)
      else throw (FileNotFoundError filePath)
  end.

(** The loop of [createDirectory] over the segments from index [i] on;
    [i < segments.length - 1] reads "the tail of [segs] is not empty". *)
Fixpoint createDirectoryLoop (recursive : bool) (segs : list string)
    (current : VFSNode) (currentPath : string) : M unit :=
  match segs with
  | [] => ret tt
  | segment :: rest =>
      let currentPath := currentPath ++ "/" ++ segment in
      match getChild current segment with
      | Some child =>
          if isDirectory child then
            createDirectoryLoop recursive rest child currentPath
          else if isSymlink child then
            resolved <- reading (fun s => resolveNode s currentPath true) ;;
            match resolved with
            | Some r =>
                if isDirectory r
                then createDirectoryLoop recursive rest r currentPath
                else throw (NotADirectoryError currentPath)
            | None => throw (NotADirectoryError currentPath)
            end
          else throw (NotADirectoryError currentPath)
      | None =>
          if negb recursive && negb (isNil rest)
          then throw (DirectoryNotFoundError currentPath)
          else
            md <- reading (fun s => Ok (defaultDirectoryMode (options s))) ;;
            newDir <- newDirectory segment md ;;
            mutate (oidOf current) (addChild newDir) ;;;
            notifyWatchers currentPath AddDir ;;;
            createDirectoryLoop recursive rest newDir currentPath
      end
  end.

Definition createDirectory (dirPath : string) (recursive : bool) : M unit :=
  r <- liftR (resolvePath dirPath) ;;
  if String.eqb (fullPath r) "/" then ret tt
  else
    rt <- reading (fun s => Ok (root s)) ;;
    createDirectoryLoop recursive (segments r) rt "".

(** The tail of [writeFileInternal]: a new file object under [parent]. *)
Definition writeNewFile (parent : VFSNode) (r : PathResolution)
    (content : Content) : M unit :=
  md <- reading (fun s => Ok (defaultFileMode (options s))) ;;
  file <- newFile (name r) content md ;;
  mutate (oidOf parent) (addChild file) ;;;
  notifyWatchers (fullPath r) Add.

Definition writeFileInternal (filePath : string) (content : Content) : M unit :=
  r <- liftR (resolvePath filePath) ;;
  createDirectory (parentPath r) true ;;;
  parent <- reading (fun s => getDirectory s (parentPath r)) ;;
  match getChild parent (name r) with
  | Some existing =>
      if isDirectory existing then throw (NotAFileError filePath)
      else if isFile existing then
        mutate (oidOf existing) (write content) ;;;
        notifyWatchers (fullPath r) Change
      else
        resolved <- reading (fun s => resolveNode s filePath true) ;;
        match resolved with
        | Some rn =>
            if isFile rn then
              mutate (oidOf rn) (write content) ;;;
              notifyWatchers (fullPath r) Change
            else writeNewFile parent r content
        | None => writeNewFile parent r content
        end
  | None => writeNewFile parent r content
  end.

Definition deleteFile (filePath : string) : M unit :=
  r <- liftR (resolvePath filePath) ;;
  parent <- reading (fun s => Ok (getDirectoryOrNull s (parentPath r))) ;;
  match parent with
  | None => throw (FileNotFoundError (fullPath r))
  | Some parent =>
      match getChild parent (name r) with
      | None => throw (FileNotFoundError (fullPath r))
      | Some node =>
          if isDirectory node then throw (NotAFileError (fullPath r))
          else
            mutate (oidOf parent) (removeChild (name r)) ;;;
            notifyWatchers (fullPath r) Unlink
      end
  end.

(** [AtomicWriteOptions], reduced to the temp suffix; an absent and an
    empty suffix are both falsy.  The content is encoded as UTF-8. *)
Definition tempSuffixOf (opts : option string) : option string :=
  match opts with
  | Some suffix => if JS.isEmpty suffix then None else Some suffix
  | None => None
  end.

(** [writeFile], [copyFile] and [moveFile] call one another; they are
    defined bottom-up: the plain write, then copy and move on top of it, then
    the write with its atomic mode. *)
Definition writeFilePlain (filePath : string) (content : Content) : M unit :=
  writeFileInternal filePath content.

Definition copyFile (srcPath destPath : string) : M unit :=
  content <- readFile srcPath ;;
  writeFilePlain destPath (Buf content).

Definition moveFile (srcPath destPath : string) : M unit :=
  copyFile srcPath destPath ;;;
  deleteFile srcPath.

Definition writeFile (filePath : string) (content : Content)
    (tempSuffix : option string) : M unit :=
  match tempSuffixOf tempSuffix with
  | Some suffix =>
      let tempPath := filePath ++ suffix in
      writeFileInternal tempPath content ;;;
      moveFile tempPath filePath
  | None => writeFileInternal filePath content
  end.

Definition appendFile (filePath : string) (content : Content) : M unit :=
  node <- reading (fun s => resolveNode s filePath true) ;;
  match node with
  | None => writeFile filePath content None
  | Some node =>
      if negb (isFile node) then throw (NotAFileError filePath)
      else mutate (oidOf node) (append content)
  end.

(** The loop that empties the root: one [removeChild] per name. *)
Fixpoint removeChildren (o : nat) (names : list string) : M unit :=
  match names with
  | [] => ret tt
  | childName :: rest => mutate o (removeChild childName) ;;; removeChildren o rest
  end.

Definition deleteDirectory (dirPath : string) (recursive : bool) : M unit :=
  r <- liftR (resolvePath dirPath) ;;
  if isRoot r then
    if negb recursive then throw (DirectoryNotEmptyError "/")
    else
      rt <- reading (fun s => Ok (root s)) ;;
      removeChildren (oidOf rt) (getChildNames rt)
  else
    parent <- reading (fun s => getDirectory s (parentPath r)) ;;
    match getChild parent (name r) with
    | None => throw (DirectoryNotFoundError (fullPath r))
    | Some node =>
        if negb (isDirectory node) then throw (NotADirectoryError (fullPath r))
        else if negb recursive && negb (dirIsEmpty node)
        then throw (DirectoryNotEmptyError (fullPath r))
        else
          mutate (oidOf parent) (removeChild (name r)) ;;;
          notifyWatchers (fullPath r) UnlinkDir
    end.

(** [exists]: any exception of the lookup is caught. *)
Definition exists_ (s : VFS) (targetPath : string) : bool :=
  match resolveNode s targetPath false with
  | Ok (Some _) => true
  | Ok None => false
  | Throw _ => false
  end.

Definition isDirectoryAt (s : VFS) (targetPath : string) : bool :=
  match resolveNode s targetPath true with
  | Ok (Some node) => isDirectory node
  | _ => false
  end.

Definition createSymlink (tgt linkPath : string) : M unit :=
  r <- liftR (resolvePath linkPath) ;;
  createDirectory (parentPath r) true ;;;
  parent <- reading (fun s => getDirectory s (parentPath r)) ;;
  if hasChild parent (name r) then throw (FileAlreadyExistsError linkPath)
  else
    symlink <- newSymlink (name r) tgt ;;
    mutate (oidOf parent) (addChild symlink).

Definition readSymlink (s : VFS) (linkPath : string) : Result string :=
  match resolveNode s linkPath false with
  | Throw e => Throw e
  | Ok None => Throw (FileNotFoundError linkPath)
  | Ok (Some node) =>
      if negb (isSymlink node) then Throw (NotASymlinkError linkPath)
      else Ok (target node)
  end.

(* ================================================================= *)
(** ** Glob matcher *)

(** The characters escaped by the first replacement of [patternToRegex]:
    [. + ^ $ { } ( ) | [ ] \]. *)
Definition isRegexSpecial (c : ascii) : bool :=
  existsb (Ascii.eqb c)
    [ "."; "+"; "^"; "$"; "{"; "}"; "("; ")"; "|"; "["; "]"; "\" ]%char.

Fixpoint escapeSpecial (s : string) : string :=
  match s with
  | EmptyString => EmptyString
  | String c s' =>
      if isRegexSpecial c then String "\"%char (String c (escapeSpecial s'))
      else String c (escapeSpecial s')
  end.

(** The source text between [^] and [$] of the regular expression built by
    [patternToRegex]. *)
Definition patternToRegex (pattern : string) : string :=
  JS.replaceAll "<<<GLOBSTAR>>>" ".*"
    (JS.replaceAll "?" "[^/]"
       (JS.replaceAll "*" "[^/]*"
          (JS.replaceAll "**" "<<<GLOBSTAR>>>"
             (escapeSpecial pattern)))).

(** The constructs a source text built by [patternToRegex] is made of. *)
Inductive RegexToken : Type :=
| Lit (c : ascii)        (* a character, escaped or not *)
| NonSlash               (* [^/]   *)
| StarNonSlash           (* [^/]*  *)
| StarAny.               (* .*     *)

(** Reading a source text, on a bound on the characters left. *)
Fixpoint tokensFuel (fuel : nat) (src : string) : list RegexToken :=
  match fuel with
  | 0 => []
  | S fuel' =>
      match src with
      | EmptyString => []
      | String c rest =>
          if Ascii.eqb c "\"%char then
            match rest with
            | String d rest' => Lit d :: tokensFuel fuel' rest'
            | EmptyString => [Lit c]
            end
          else if String.prefix "[^/]*" src
          then StarNonSlash :: tokensFuel fuel' (JS.sliceFrom 5 src)
          else if String.prefix "[^/]" src
          then NonSlash :: tokensFuel fuel' (JS.sliceFrom 4 src)
          else if String.prefix ".*" src
          then StarAny :: tokensFuel fuel' (JS.sliceFrom 2 src)
          else Lit c :: tokensFuel fuel' rest
      end
  end.

Definition tokens (src : string) : list RegexToken :=
  tokensFuel (String.length src) src.

(** What [.] matches: every character but a line terminator. *)
Definition isDotChar (c : ascii) : bool :=
  negb (Ascii.eqb c "010"%char || Ascii.eqb c "013"%char).

Definition isNonSlash (c : ascii) : bool := negb (Ascii.eqb c JS.slash).

(** The whole of [s] matches the sequence of constructs. *)
Fixpoint matchTokens (ts : list RegexToken) (s : string) : bool :=
  match ts with
  | [] => JS.isEmpty s
  | Lit c :: ts' =>
      match s with
      | String d s' => Ascii.eqb d c && matchTokens ts' s'
      | EmptyString => false
      end
  | NonSlash :: ts' =>
      match s with
      | String d s' => isNonSlash d && matchTokens ts' s'
      | EmptyString => false
      end
  | StarNonSlash :: ts' =>
      (fix star (s : string) : bool :=
         matchTokens ts' s ||
         match s with
         | String d s' => isNonSlash d && star s'
         | EmptyString => false
         end) s
  | StarAny :: ts' =>
      (fix star (s : string) : bool :=
         matchTokens ts' s ||
         match s with
         | String d s' => isDotChar d && star s'
         | EmptyString => false
         end) s
  end.

(** [new RegExp(`^${src}$`).test(s)]. *)
Definition regexTest (src : string) (s : string) : bool :=
  matchTokens (tokens src) s.

Definition matchesIgnore (path : string) (ignorePatterns : list string) : bool :=
  existsb (fun pattern =>
             let regex := patternToRegex pattern in
             regexTest regex path || regexTest regex (basename path))
          ignorePatterns.

(** [GlobOptions] after the defaults are applied; [maxDepth = None] is
    [Infinity]. *)
Record GlobOptions : Type := mkGlobOptions {
  cwd : option string;
  maxDepth : option nat;
  onlyFiles : bool;
  onlyDirectories : bool;
  followSymlinks : bool;
  dot : bool;
  absolute : bool;
  ignore : list string
}.

Definition defaultGlobOptions : GlobOptions :=
  {| cwd := None; maxDepth := None; onlyFiles := false;
     onlyDirectories := false; followSymlinks := true; dot := false;
     absolute := true; ignore := [] |}.

Definition globCwd (o : GlobOptions) : string :=
  match cwd o with
  | Some c => if JS.isEmpty c then "/" else normalizePath c
  | None => "/"
  end.

Definition exceedsDepth (depth : nat) (maxDepth : option nat) : bool :=
  match maxDepth with
  | Some m => (m <? depth)%nat
  | None => false
  end.

(** [nodePath.slice(cwd.length + 1) || node.name]. *)
Definition relativePathOf (cwd nodePath nodeName : string) : string :=
  let sliced := JS.sliceFrom (String.length cwd + 1) nodePath in
  if JS.isEmpty sliced then nodeName else sliced.

(** The closure [traverse] of [glob].  It recurses through resolved
    symlinks, so through paths of any length: [fuel] bounds the nesting of
    the calls, and [None] says that the bound was reached.  The results are
    returned in the order in which they are pushed. *)
Fixpoint traverse (fuel : nat) (s : VFS) (o : GlobOptions) (regex cwd : string)
    (dir : VFSNode) (currentPath : string) (depth : nat)
  : option (Result (list string)) :=
  match fuel with
  | 0 => None
  | S fuel' =>
      if exceedsDepth depth (maxDepth o) then Some (Ok [])
      else
        (fix each (nodes : list VFSNode) : option (Result (list string)) :=
           match nodes with
           | [] => Some (Ok [])
           | node :: nodes' =>
               let nodePath :=
                 if String.eqb currentPath "/" then "/" ++ nodeName node
                 else currentPath ++ "/" ++ nodeName node in
               let relativePath := relativePathOf cwd nodePath (nodeName node) in
               if negb (dot o) && JS.startsWithChar "."%char (nodeName node)
               then each nodes'
               else if matchesIgnore nodePath (ignore o) then each nodes'
               else
                 let visit (effectiveNode : VFSNode) :=
                   let here :=
                     if regexTest regex relativePath
                        && ((negb (onlyFiles o) && negb (onlyDirectories o))
                            || (onlyFiles o && isFile effectiveNode)
                            || (onlyDirectories o && isDirectory effectiveNode))
                     then [if absolute o then nodePath else relativePath]
                     else [] in
                   let below :=
                     if isDirectory effectiveNode
                     then traverse fuel' s o regex cwd effectiveNode nodePath (depth + 1)
                     else Some (Ok []) in
                   match below with
                   | None => None
                   | Some (Throw e) => Some (Throw e)
                   | Some (Ok sub) =>
                       match each nodes' with
                       | None => None
                       | Some (Throw e) => Some (Throw e)
                       | Some (Ok others) => Some (Ok (here ++ sub ++ others)%list)
                       end
                   end in
                 if isSymlink node && followSymlinks o then
                   match resolveNode s nodePath true with
                   | Throw e => Some (Throw e)
                   | Ok None => each nodes'
                   | Ok (Some resolved) => visit resolved
                   end
                 else visit node
           end) (getChildren dir)
  end.

(** [results.sort()]: insertion into a list ordered by code units. *)
Fixpoint insertSorted (x : string) (l : list string) : list string :=
  match l with
  | [] => [x]
  | y :: l' => if String.leb x y then x :: l else y :: insertSorted x l'
  end.

Definition sortStrings (l : list string) : list string :=
  fold_right insertSorted [] l.

Definition glob (fuel : nat) (s : VFS) (pattern : string) (o : GlobOptions)
  : option (Result (list string)) :=
  let cwd := globCwd o in
  let regex := patternToRegex pattern in
  match getDirectoryOrNull s cwd with
  | None => Some (Ok [])
  | Some startDir =>
      match traverse fuel s o regex cwd startDir cwd 0 with
      | None => None
      | Some (Throw e) => Some (Throw e)
      | Some (Ok results) => Some (Ok (sortStrings results))
      end
  end.

(* ================================================================= *)
(** ** Snapshot and diff engine *)

(** The three counters of [countNodes], updated by its closure [traverse]
    in one pass. *)
Record Counters : Type := mkCounters {
  cFiles : nat;
  cDirectories : nat;
  cSize : nat
}.

Fixpoint countTraverse (node : VFSNode) (acc : Counters) : Counters :=
  match node with
  | VFSFile _ _ c _ =>
      {| cFiles := S (cFiles acc); cDirectories := cDirectories acc;
         cSize := cSize acc + List.length c |}
  | VFSDirectory _ _ ch _ =>
      (fix each (l : list (string * VFSNode)) (acc : Counters) : Counters :=
         match l with
         | [] => acc
         | kv :: l' => each l' (countTraverse (snd kv) acc)
         end) ch
        {| cFiles := cFiles acc; cDirectories := S (cDirectories acc);
           cSize := cSize acc |}
  | VFSSymlink _ _ _ _ => acc
  end.

Definition countNodes (dir : VFSNode) : Counters :=
  countTraverse dir {| cFiles := 0; cDirectories := 0; cSize := 0 |}.

(** [`snapshot-${n}`]. *)
Definition snapshotId (n : nat) : string :=
  "snapshot-" ++ NilEmpty.string_of_uint (Nat.to_uint n).

Definition createSnapshot (nm : option string) : M string :=
  fun s =>
    let counter := S (snapshotCounter s) in
    let id := snapshotId counter in
    let (clonedRoot, next) := clone (root s) (nextOid s) in
    let counts := countNodes (root s) in
    let info := {| infoId := id; infoName := nm;
                   fileCount := cFiles counts;
                   directoryCount := cDirectories counts;
                   totalSize := cSize counts |} in
    ({| root := root s;
        options := options s;
        snapshots := JSMap.set id {| snapRoot := clonedRoot; snapInfo := info |}
                       (snapshots s);
        snapshotCounter := counter;
        nextOid := next |}, Ok id).

(** [snapshot.root.clone()] on the stored snapshot [id], as the store holds
    it when the call is made. *)
Definition cloneSnapshotRoot (id : string) : M VFSNode :=
  fun s =>
    match JSMap.get id (snapshots s) with
    | None => (s, Throw (SnapshotNotFound id))
    | Some snapshot =>
        let (cloned, next) := clone (snapRoot snapshot) (nextOid s) in
        ({| root := root s; options := options s; snapshots := snapshots s;
            snapshotCounter := snapshotCounter s; nextOid := next |}, Ok cloned)
    end.

(** The loop that hands the entries of the clone to the root. *)
Fixpoint addChildren (o : nat) (nodes : list VFSNode) : M unit :=
  match nodes with
  | [] => ret tt
  | node :: rest => mutate o (addChild node) ;;; addChildren o rest
  end.

Definition restoreSnapshot (id : string) : M unit :=
  found <- reading (fun s => Ok (JSMap.has id (snapshots s))) ;;
  if negb found then throw (SnapshotNotFound id)
  else
    rt <- reading (fun s => Ok (root s)) ;;
    removeChildren (oidOf rt) (getChildNames rt) ;;;
    cloned <- cloneSnapshotRoot id ;;
    addChildren (oidOf rt) (getChildren cloned).

Inductive DiffType : Type := Added | Modified | Deleted.

(** [FileDiff], without the stats records (they hold the timestamps). *)
Record FileDiff : Type := mkFileDiff {
  diffType : DiffType;
  diffPath : string;
  oldContent : option Buffer;
  newContent : option Buffer
}.

(** [buffer.equals(other)]. *)
Definition bufferEquals (a b : Buffer) : bool :=
  if list_eq_dec Byte.byte_eq_dec a b then true else false.

(** [new Map()] filled by [set(node.name, item)] over the children. *)
Definition childMap {V} (nameOf : V -> string) (items : list V) : list (string * V) :=
  fold_left (fun m item => JSMap.set (nameOf item) item m) items [].

Definition diffPathOf (basePath nm : string) : string :=
  if JS.isEmpty basePath then "/" ++ nm else basePath ++ "/" ++ nm.

(** The second loop of [computeDiff]: the names of [from] that [to] lacks. *)
Definition deletedDiffs {V} (fromChildren : list (string * VFSNode))
    (toChildren : list (string * V)) (basePath : string) : list FileDiff :=
  flat_map (fun kv =>
              let (nm, fromNode) := (fst kv, snd kv) in
              if negb (JSMap.has nm toChildren) && isFile fromNode
              then [ {| diffType := Deleted; diffPath := diffPathOf basePath nm;
                        oldContent := Some (read fromNode);
                        newContent := None |} ]
              else [])
           fromChildren.

(** [computeDiff(from, to, basePath, diffs)]: the records it pushes, in
    order.  Each entry of [toChildren] is kept together with the recursive
    call on it, so that the recursion is on the structure of [to]. *)
Fixpoint computeDiff (from : option VFSNode) (to : VFSNode) (basePath : string)
  : list FileDiff :=
  let fromChildren :=
    match from with
    | Some f => childMap nodeName (getChildren f)
    | None => []
    end in
  let toChildren :=
    childMap (fun item => nodeName (fst item))
      (match to with
       | VFSDirectory _ _ ch _ =>
           map (fun kv =>
                  (snd kv, fun from path => computeDiff from (snd kv) path))
               ch
       | _ => []
       end) in
  (flat_map
     (fun entry =>
        let nm := fst entry in
        let toNode := fst (snd entry) in
        let recurse := snd (snd entry) in
        let path := diffPathOf basePath nm in
        let fromNode := JSMap.get nm fromChildren in
        (match fromNode with
         | None =>
             if isFile toNode
             then [ {| diffType := Added; diffPath := path;
                       oldContent := None;
                       newContent := Some (read toNode) |} ]
             else []
         | Some fromNode =>
             if isFile toNode && isFile fromNode then
               if negb (bufferEquals (read fromNode) (read toNode))
               then [ {| diffType := Modified; diffPath := path;
                         oldContent := Some (read fromNode);
                         newContent := Some (read toNode) |} ]
               else []
             else []
         end)
        ++
        (if isDirectory toNode
         then recurse
                (match fromNode with
                 | Some f => if isDirectory f then Some f else None
                 | None => None
                 end)
                path
         else []))
     toChildren
   ++ deletedDiffs fromChildren toChildren basePath)%list.

(** A snapshot id of [diff]: an absent and an empty id are both falsy. *)
Definition givenId (id : option string) : option string :=
  match id with
  | Some i => if JS.isEmpty i then None else Some i
  | None => None
  end.

Definition DEFAULT_DIRECTORY_MODE : N := 493.

(** The tree a given snapshot id stands for. *)
Definition snapshotRoot (s : VFS) (id : string) : Result VFSNode :=
  match JSMap.get id (snapshots s) with
  | Some snapshot => Ok (snapRoot snapshot)
  | None => Throw (SnapshotNotFound id)
  end.

(** [diff(fromId, toId)]: [from] defaults to a new empty directory and
    [to] to the live tree; an unknown [fromId] is reported first. *)
Definition diff (s : VFS) (fromId toId : option string) : Result (list FileDiff) :=
  let fromRoot :=
    match givenId fromId with
    | Some i => snapshotRoot s i
    | None => Ok (VFSDirectory (nextOid s) "" [] DEFAULT_DIRECTORY_MODE)
    end in
  let toRoot :=
    match givenId toId with
    | Some i => snapshotRoot s i
    | None => Ok (root s)
    end in
  match fromRoot with
  | Throw e => Throw e
  | Ok from =>
      match toRoot with
      | Throw e => Throw e
      | Ok to => Ok (computeDiff (Some from) to "")
      end
  end.

(** Running a computation: the state it leaves and its outcome. *)
Definition exec {A} (m : M A) (s : VFS) : VFS := fst (m s).
Definition outcome {A} (m : M A) (s : VFS) : Result A := snd (m s).

(** [deleteSnapshot(id)]. *)
Definition deleteSnapshot (id : string) : M bool :=
  fun s =>
    ({| root := root s; options := options s;
        snapshots := JSMap.delete id (snapshots s);
        snapshotCounter := snapshotCounter s; nextOid := nextOid s |},
     Ok (JSMap.has id (snapshots s))).

(** [reset()]. *)
Definition reset : M unit :=
  rt <- reading (fun s => Ok (root s)) ;;
  removeChildren (oidOf rt) (getChildNames rt) ;;;
  fun s =>
    ({| root := root s; options := options s; snapshots := [];
        snapshotCounter := 0; nextOid := nextOid s |}, Ok tt).

(* ================================================================= *)
(** ** The other path tools *)

Module JSMore.

(** [s.endsWith(suffix)]. *)
Definition endsWith (suffix s : string) : bool :=
  (String.length suffix <=? String.length s)%nat &&
  String.eqb (JS.sliceFrom (String.length s - String.length suffix) s) suffix.

(** [parts.slice(start)] on an array. *)
Definition arraySliceFrom {A} (start : nat) (l : list A) : list A := skipn start l.

End JSMore.

(** [basename(inputPath, ext)]. *)
Definition basenameExt (inputPath : string) (ext : string) : string :=
  let name := basename inputPath in
  if negb (JS.isEmpty ext) && JSMore.endsWith ext name
  then JS.sliceTo (String.length name - String.length ext) name
  else name.

Definition extname (inputPath : string) : string :=
  let name := basename inputPath in
  match JS.lastIndexOf "."%char name with
  | None => ""
  | Some 0 => ""
  | Some dotIndex => JS.sliceFrom dotIndex name
  end.

Definition isAbsolute (inputPath : string) : bool :=
  JS.startsWithChar JS.slash inputPath.

(** One turn of the loop of [resolve]. *)
Definition resolveStep (resolved path : string) : string :=
  if JS.isEmpty path then resolved
  else
    let normalizedPath := normalizePath path in
    if JS.startsWithChar JS.slash normalizedPath then normalizedPath
    else join [resolved; normalizedPath].

(** [resolve(basePath, ...paths)]. *)
Definition resolve (basePath : string) (paths : list string) : string :=
  let resolved := fold_left resolveStep paths (normalizePath basePath) in
  if negb (JS.startsWithChar JS.slash resolved) then "/" ++ resolved
  else resolved.

(** The loop that counts the common leading parts. *)
Fixpoint commonLength (a b : list string) : nat :=
  match a, b with
  | x :: a', y :: b' => if String.eqb x y then S (commonLength a' b') else 0
  | _, _ => 0
  end.

(** [relative(from, to)]. *)
Definition relative (from to : string) : string :=
  let fromNormalized := normalizePath from in
  let toNormalized := normalizePath to in
  if String.eqb fromNormalized toNormalized then ""
  else
    let fromParts := JS.filterBoolean (JS.split JS.slash fromNormalized) in
    let toParts := JS.filterBoolean (JS.split JS.slash toNormalized) in
    let common := commonLength fromParts toParts in
    let upCount := List.length fromParts - common in
    let ups := repeat ".." upCount in
    let remaining := JSMore.arraySliceFrom common toParts in
    let result := JS.join "/" (ups ++ remaining)%list in
    if JS.isEmpty result then "." else result.

(** The loop of [getAncestorPaths] over [segments[0 .. length - 2]]:
    the paths pushed, given the path built so far. *)
Fixpoint ancestorLoop (current : string) (segs : list string) : list string :=
  match segs with
  | [] => []
  | [_] => []
  | segment :: rest =>
      let current := current ++ "/" ++ segment in
      current :: ancestorLoop current rest
  end.

Definition getAncestorPaths (inputPath : string) : Result (list string) :=
  match resolvePath inputPath with
  | Throw e => Throw e
  | Ok r => Ok ("/" :: ancestorLoop "" (segments r))
  end.

Definition isSubPath (childPath parentPath : string) : bool :=
  let normalizedChild := normalizePath childPath in
  let normalizedParent := normalizePath parentPath in
  if String.eqb normalizedChild normalizedParent then false
  else
    let parentPrefix :=
      if String.eqb normalizedParent "/" then "/" else normalizedParent ++ "/" in
    JS.startsWith parentPrefix normalizedChild.

Definition getPathDepth (inputPath : string) : Result nat :=
  match resolvePath inputPath with
  | Throw e => Throw e
  | Ok r => Ok (List.length (segments r))
  end.

(** The loop of [getCommonAncestor]: the common leading segments. *)
Fixpoint commonSegments (a b : list string) : list string :=
  match a, b with
  | x :: a', y :: b' => if String.eqb x y then x :: commonSegments a' b' else []
  | _, _ => []
  end.

Definition getCommonAncestor (path1 path2 : string) : string :=
  let common := commonSegments (splitPath path1) (splitPath path2) in
  match common with
  | [] => "/"
  | _ => "/" ++ JS.join "/" common
  end.

(** What [validateFileName] throws: an [InvalidPathError] with one of its
    own two messages, or the error of [validatePathSegment]. *)
Inductive FileNameError : Type :=
| NameEmpty
| NameHasSeparator (name : string)
| NameSegment (e : FileSystemError).

Definition validateFileName (nm : string) : FileNameError + unit :=
  if JS.isEmpty nm then inl NameEmpty
  else if JS.includesChar JS.slash nm || JS.includesChar JS.backslash nm
  then inl (NameHasSeparator nm)
  else match validatePathSegment nm nm with
       | Throw e => inl (NameSegment e)
       | Ok _ => inr tt
       end.

Definition isValidPath (inputPath : string) : bool :=
  match validatePath inputPath with Ok _ => true | Throw _ => false end.

Definition isValidFileName (nm : string) : bool :=
  match validateFileName nm with inr _ => true | inl _ => false end.

(* ================================================================= *)
(** ** The other queries of the file system *)

(** [node.size]. *)
Definition nodeSize (n : VFSNode) : nat :=
  match n with
  | VFSFile _ _ c _ => List.length c
  | VFSDirectory _ _ _ _ => 4096
  | VFSSymlink _ _ t _ => List.length (utf8 t)
  end.

Definition modeOf (n : VFSNode) : N :=
  match n with
  | VFSFile _ _ _ md | VFSDirectory _ _ _ md | VFSSymlink _ _ _ md => md
  end.

(** [FileStats], without the three dates. *)
Record FileStats : Type := mkFileStats {
  statsIsFile : bool;
  statsIsDirectory : bool;
  statsIsSymlink : bool;
  statsSize : nat;
  statsMode : N
}.

(** [node.getStats()]. *)
Definition statsOf (n : VFSNode) : FileStats :=
  {| statsIsFile := isFile n; statsIsDirectory := isDirectory n;
     statsIsSymlink := isSymlink n; statsSize := nodeSize n;
     statsMode := modeOf n |}.

Definition getStats (s : VFS) (targetPath : string) : Result FileStats :=
  match resolveNode s targetPath true with
  | Throw e => Throw e
  | Ok None => Throw (FileNotFoundError targetPath)
  | Ok (Some node) => Ok (statsOf node)
  end.

Definition getLinkStats (s : VFS) (targetPath : string) : Result FileStats :=
  match resolveNode s targetPath false with
  | Throw e => Throw e
  | Ok None => Throw (FileNotFoundError targetPath)
  | Ok (Some node) => Ok (statsOf node)
  end.

(** [isFile(targetPath)] and [isSymlink(targetPath)]: any exception of the
    lookup is caught. *)
Definition isFileAt (s : VFS) (targetPath : string) : bool :=
  match resolveNode s targetPath true with
  | Ok (Some node) => isFile node
  | _ => false
  end.

Definition isSymlinkAt (s : VFS) (targetPath : string) : bool :=
  match resolveNode s targetPath false with
  | Ok (Some node) => isSymlink node
  | _ => false
  end.

(** [DirectoryEntry], without the modification date. *)
Record DirectoryEntry : Type := mkDirectoryEntry {
  entryName : string;
  entryPath : string;
  entryIsFile : bool;
  entryIsDirectory : bool;
  entryIsSymlink : bool;
  entrySize : nat
}.

Definition readDirectory (s : VFS) (dirPath : string)
  : Result (list DirectoryEntry) :=
  match getDirectory s dirPath with
  | Throw e => Throw e
  | Ok dir =>
      let normalized := normalizePath dirPath in
      Ok (map (fun node =>
                 {| entryName := nodeName node;
                    entryPath :=
                      if String.eqb normalized "/" then "/" ++ nodeName node
                      else normalized ++ "/" ++ nodeName node;
                    entryIsFile := isFile node;
                    entryIsDirectory := isDirectory node;
                    entryIsSymlink := isSymlink node;
                    entrySize := nodeSize node |})
              (getChildren dir))
  end.

Definition getSnapshotInfo (s : VFS) (id : string) : option SnapshotInfo :=
  match JSMap.get id (snapshots s) with
  | Some snapshot => Some (snapInfo snapshot)
  | None => None
  end.

Definition listSnapshots (s : VFS) : list SnapshotInfo :=
  map (fun kv => snapInfo (snd kv)) (snapshots s).

(* ================================================================= *)
(** ** Vocabulary of the properties *)

Unset Implicit Arguments.

(** What [normalizePath] returns once its loop has left [stack]. *)
Definition renderPath (isAbsolute : bool) (stack : list string) : string :=
  let result := JS.join "/" (rev stack) in
  let result := if isAbsolute then "/" ++ result else result in
  if JS.isEmpty result then (if isAbsolute then "/" else ".") else result.

(** A part the loop of [normalizePath] pushes. *)
Definition cleanPart (x : string) : Prop :=
  x <> "" /\ x <> "." /\
  JS.includesChar JS.slash x = false /\
  JS.includesChar JS.backslash x = false.

(** The [..] parts of a stack lie at its bottom. *)
Fixpoint dotsBelow (stack : list string) : Prop :=
  match stack with
  | [] => True
  | x :: below => (x = ".." -> Forall (eq "..") below) /\ dotsBelow below
  end.

(** The stacks the loop of [normalizePath] ends with. *)
Definition canonicalStack (isAbsolute : bool) (stack : list string) : Prop :=
  Forall cleanPart stack /\ dotsBelow stack /\
  (isAbsolute = true -> ~ In ".." stack).

(** The prefix [isSubPath] looks for in the child, given the normalized
    parent. *)
Definition parentPrefix (normalizedParent : string) : string :=
  if String.eqb normalizedParent "/" then "/" else normalizedParent ++ "/".

(** *** Following symlinks *)

(** The path of the first symlink-following the loop of [resolveNode]
    performs, if it performs one: the loop of [resolveNode] up to its first
    recursive call. *)
Fixpoint firstLinkLoop (followSymlinks : bool) (visited rest : list string)
    (current : VFSNode) : option string :=
  match rest with
  | [] => None
  | segment :: rest' =>
      if negb (isDirectory current) then None
      else match getChild current segment with
           | None => None
           | Some child =>
               if isSymlink child then
                 if followSymlinks || negb (isNil rest')
                 then Some (symlinkTargetPath visited child)
                 else None
               else firstLinkLoop followSymlinks
                      (visited ++ [segment])%list rest' child
           end
  end.

Definition firstLink (rt : VFSNode) (inputPath : string) (followSymlinks : bool)
  : option string :=
  match resolvePath inputPath with
  | Throw _ => None
  | Ok r =>
      if isRoot r then None
      else firstLinkLoop followSymlinks [] (segments r) rt
  end.

(** The path a symlink stands for under the rule of the specification: an
    absolute target as it is, a relative target from the directory that
    holds the link. *)
Definition specTargetPath (linkPath tgt : string) : string :=
  if JS.startsWithChar JS.slash tgt then normalizePath tgt
  else join [dirname linkPath; tgt].

(** Going down from [current] through directories that are there. *)
Fixpoint descend (current : VFSNode) (dirs : list string) : option VFSNode :=
  match dirs with
  | [] => Some current
  | d :: rest =>
      match getChild current d with
      | Some child => if isDirectory child then descend child rest else None
      | None => None
      end
  end.

(** The file system of the second scenario: two symlinks pointing at each
    other. *)
Definition emptyVFS : VFS := createVFS DEFAULT_OPTIONS.

Definition twoLinkLoop : VFS :=
  exec (createSymlink "/b" "/a" ;;; createSymlink "/a" "/b") emptyVFS.

(** Two symlinks of the directory [/d] with relative targets, each the name
    of the other. *)
Definition relativeLoop : VFS :=
  exec (createSymlink "b" "/d/a" ;;; createSymlink "a" "/d/b") emptyVFS.

(** A symlink whose target is missing, inside a directory. *)
Definition danglingLink : VFS :=
  exec (createSymlink "/nowhere" "/d/link") emptyVFS.

(** *** Scenario file systems *)

(** [/a/b/t] holds [x], [/a/t] holds [y], and [/a/b/link] is a symlink with
    the relative target [t]. *)
Definition relativeLink : VFS :=
  exec (writeFile "/a/b/t" (Str "x") None ;;;
        writeFile "/a/t" (Str "y") None ;;;
        createSymlink "t" "/a/b/link") emptyVFS.

(** [/d/f.txt] is written and a snapshot is taken. *)
Definition snapshotWithDir : VFS :=
  exec (writeFile "/d/f.txt" (Str "x") None ;;; createSnapshot None) emptyVFS.

(** The directory [/d] and, in it, the symlink [s] to [/d]. *)
Definition linkToOwnDirectory : VFS :=
  exec (createDirectory "/d" false ;;; createSymlink "/d" "/d/s") emptyVFS.

(** One file, [/ab]. *)
Definition oneFile : VFS := exec (writeFile "/ab" (Str "x") None) emptyVFS.

(** One file, [/d/ab]. *)
Definition oneFileInDir : VFS := exec (writeFile "/d/ab" (Str "x") None) emptyVFS.

Definition globIn (dir : string) : GlobOptions :=
  {| cwd := Some dir; maxDepth := None; onlyFiles := false;
     onlyDirectories := false; followSymlinks := true; dot := false;
     absolute := true; ignore := [] |}.

(** Two files in the root, written in descending order of their names. *)
Definition twoFiles : VFS :=
  exec (writeFile "/b" (Str "x") None ;;; writeFile "/a" (Str "y") None) emptyVFS.

(** The path of an entry called [nm] of the directory at [currentPath], as
    [glob] builds it. *)
Definition childPath (currentPath nm : string) : string :=
  if String.eqb currentPath "/" then "/" ++ nm else currentPath ++ "/" ++ nm.

(** The node [glob] looks at for the entry [node] it finds at [nodePath]:
    the node a symlink leads to when symlinks are followed, the entry itself
    otherwise. *)
Definition effectiveNode (s : VFS) (o : GlobOptions) (nodePath : string)
    (node : VFSNode) : option VFSNode :=
  if isSymlink node && followSymlinks o then
    match resolveNode s nodePath true with
    | Ok (Some resolved) => Some resolved
    | _ => None
    end
  else Some node.

(** The entries that lead from the directory [dir], found at [currentPath],
    down to [path]: the first is an entry of [dir], and each of the others
    is an entry of the directory that [glob] looks at for the entry before
    it; none is a symlink that leads nowhere when symlinks are followed.
    The path grows by the name of one entry at a time. *)
Inductive leadsTo (s : VFS) (o : GlobOptions)
  : VFSNode -> string -> list VFSNode -> string -> Prop :=
| leadsTo_entry dir currentPath node effective :
    In node (getChildren dir) ->
    effectiveNode s o (childPath currentPath (nodeName node)) node
    = Some effective ->
    leadsTo s o dir currentPath [node] (childPath currentPath (nodeName node))
| leadsTo_below dir currentPath node effective entries path :
    In node (getChildren dir) ->
    effectiveNode s o (childPath currentPath (nodeName node)) node
    = Some effective ->
    isDirectory effective = true ->
    leadsTo s o effective (childPath currentPath (nodeName node)) entries path ->
    leadsTo s o dir currentPath (node :: entries) path.

(** What [glob] promises of a path it returns, [depth] levels below the
    directory it started from: entries of the tree lead to it from [dir],
    none of them hidden unless [dot] is set, and no more of them than
    [maxDepth] allows. *)
Definition reported (s : VFS) (o : GlobOptions) (dir : VFSNode)
    (currentPath : string) (depth : nat) (path : string) : Prop :=
  exists entries,
    leadsTo s o dir currentPath entries path /\
    (dot o = false ->
     Forall (fun node => JS.startsWithChar "." (nodeName node) = false)
            entries) /\
    (forall m, maxDepth o = Some m -> depth + List.length entries <= S m).

(** A hidden file, a file in a directory and a file two directories
    down; and a search that stops one directory down. *)
Definition hiddenAndDeep : VFS :=
  exec (writeFile "/.hidden" (Str "h") None ;;;
        writeFile "/d/a" (Str "a") None ;;;
        writeFile "/d/e/b" (Str "b") None) emptyVFS.

Definition shallow : GlobOptions :=
  {| cwd := None; maxDepth := Some 1; onlyFiles := false;
     onlyDirectories := false; followSymlinks := true; dot := false;
     absolute := true; ignore := [] |}.

(** *** Glob patterns, construct by construct *)

(** The constructs of a glob pattern: a character standing for itself,
    [?], [*] and [**]. *)
Inductive GlobToken : Type :=
| GChar (c : ascii)
| GQuestion
| GStar
| GGlobstar.

(** Reading a pattern from the left; two stars in a row are a [**]. *)
Fixpoint parseGlob (pattern : string) : list GlobToken :=
  match pattern with
  | EmptyString => []
  | String c rest =>
      if Ascii.eqb c "*" then
        match rest with
        | String d rest' =>
            if Ascii.eqb d "*" then GGlobstar :: parseGlob rest'
            else GStar :: parseGlob rest
        | EmptyString => [GStar]
        end
      else if Ascii.eqb c "?" then GQuestion :: parseGlob rest
      else GChar c :: parseGlob rest
  end.

(** What each construct of a pattern means in the regular expression. *)
Definition regexOf (t : GlobToken) : RegexToken :=
  match t with
  | GChar c => Lit c
  | GQuestion => NonSlash
  | GStar => StarNonSlash
  | GGlobstar => StarAny
  end.

(** The text that stands for a construct after [stage] of the replacements
    of [patternToRegex] that follow the escaping: [**], then [*], then [?],
    then the placeholder. *)
Definition glyph (stage : nat) (t : GlobToken) : string :=
  match t with
  | GChar c =>
      if isRegexSpecial c then String "\" (String c "") else String c ""
  | GQuestion => if (stage <? 3)%nat then "?" else "[^/]"
  | GStar => if (stage <? 2)%nat then "*" else "[^/]*"
  | GGlobstar =>
      if (stage <? 1)%nat then "**"
      else if (stage <? 4)%nat then "<<<GLOBSTAR>>>" else ".*"
  end.

Fixpoint render (stage : nat) (ts : list GlobToken) : string :=
  match ts with
  | [] => ""
  | t :: ts' => glyph stage t ++ render stage ts'
  end.

(** What [parseGlob] returns on a pattern without [<]: the characters that
    stand for themselves are none of [*], [?] and [<], and a [*] is not
    followed by another star. *)
Fixpoint parsed (ts : list GlobToken) : Prop :=
  match ts with
  | [] => True
  | t :: ts' =>
      match t with
      | GChar c => c <> "*"%char /\ c <> "?"%char /\ c <> "<"%char
      | GStar =>
          match ts' with
          | GStar :: _ | GGlobstar :: _ => False
          | _ => True
          end
      | _ => True
      end /\ parsed ts'
  end.

(** *** Object identities, and the separation of the snapshots *)

(** The identities of the objects of a tree. *)
Fixpoint oids (n : VFSNode) : list nat :=
  oidOf n ::
  match n with
  | VFSDirectory _ _ ch _ => flat_map (fun kv => oids (snd kv)) ch
  | _ => []
  end.

(** The identities held by the stored snapshots. *)
Definition storedOids (snaps : list (string * Snapshot)) : list nat :=
  flat_map (fun kv => oids (snapRoot (snd kv))) snaps.

(** The children of every directory are keyed by their names, each name
    once: what a [Map] filled by [addChild] looks like. *)
Inductive wellKeyed : VFSNode -> Prop :=
| wellKeyed_file o nm c md : wellKeyed (VFSFile o nm c md)
| wellKeyed_symlink o nm t md : wellKeyed (VFSSymlink o nm t md)
| wellKeyed_directory o nm ch md :
    NoDup (map fst ch) ->
    Forall (fun kv => nodeName (snd kv) = fst kv /\ wellKeyed (snd kv)) ch ->
    wellKeyed (VFSDirectory o nm ch md).

(** A tree of objects that no stored snapshot holds, all of them built
    before [next]. *)
Definition live (snaps : list (string * Snapshot)) (next : nat) (n : VFSNode)
  : Prop :=
  (forall o, In o (oids n) -> o < next /\ ~ In o (storedOids snaps)) /\
  wellKeyed n.

(** The invariant of the store: the live tree shares no object with a
    stored snapshot, every object was built before [nextOid], every map of
    children is keyed by the names, and the root is a directory. *)
Definition good (s : VFS) : Prop :=
  live (snapshots s) (nextOid s) (root s) /\
  isDirectory (root s) = true /\
  (forall o, In o (storedOids (snapshots s)) -> o < nextOid s) /\
  Forall (fun kv => wellKeyed (snapRoot (snd kv))) (snapshots s).

(** A method that can be called on a live object: it keeps the name and the
    kind of the object, and leaves it live. *)
Definition method (snaps : list (string * Snapshot)) (next : nat)
    (f : VFSNode -> VFSNode) : Prop :=
  forall n,
    nodeName (f n) = nodeName n /\
    isDirectory (f n) = isDirectory n /\
    oidOf (f n) = oidOf n /\
    (live snaps next n -> live snaps next (f n)).

(** The states an operation may end in, from a good state [s0], when it
    leaves the snapshots alone. *)
Definition evolved (s0 s : VFS) : Prop :=
  good s /\
  snapshots s = snapshots s0 /\
  snapshotCounter s = snapshotCounter s0 /\
  options s = options s0 /\
  oidOf (root s) = oidOf (root s0) /\
  nextOid s0 <= nextOid s.

(** The table of the snapshots: the ids are distinct, and each was handed
    out by the counter. *)
Definition tableOk (s : VFS) : Prop :=
  NoDup (map fst (snapshots s)) /\
  forall id, In id (map fst (snapshots s)) ->
             exists n, id = snapshotId n /\ 1 <= n <= snapshotCounter s.

(** What the first loop of [computeDiff] pushes for one entry of [to]: the
    entry comes with the recursive call on it. *)
Definition diffEntry (fromChildren : list (string * VFSNode)) (basePath : string)
    (entry : string * (VFSNode * (option VFSNode -> string -> list FileDiff)))
  : list FileDiff :=
  let nm := fst entry in
  let toNode := fst (snd entry) in
  let recurse := snd (snd entry) in
  let path := diffPathOf basePath nm in
  let fromNode := JSMap.get nm fromChildren in
  ((match fromNode with
    | None =>
        if isFile toNode
        then [ {| diffType := Added; diffPath := path;
                  oldContent := None;
                  newContent := Some (read toNode) |} ]
        else []
    | Some fromNode =>
        if isFile toNode && isFile fromNode then
          if negb (bufferEquals (read fromNode) (read toNode))
          then [ {| diffType := Modified; diffPath := path;
                    oldContent := Some (read fromNode);
                    newContent := Some (read toNode) |} ]
          else []
        else []
    end)
   ++
   (if isDirectory toNode
    then recurse
           (match fromNode with
            | Some f => if isDirectory f then Some f else None
            | None => None
            end)
           path
    else []))%list.

(** *** One object, one place *)

(** Every object of the live tree is there once, and was built before
    [nextOid]. *)
Definition distinct (s : VFS) : Prop :=
  NoDup (oids (root s)) /\
  forall x, In x (oids (root s)) -> x < nextOid s.

(** A computation that keeps an invariant of the store, whether it returns
    or raises. *)
Definition keeps {A} (I : VFS -> Prop) (m : M A) : Prop :=
  forall s, I s -> I (exec m s).

(** The three methods that bring no object into the tree. *)
Inductive plainMethod : (VFSNode -> VFSNode) -> Prop :=
| plain_write c : plainMethod (write c)
| plain_append c : plainMethod (append c)
| plain_removeChild nm : plainMethod (removeChild nm).

(** The constructors of a file and of an empty directory, waiting for the
    identity of the object. *)
Inductive leafBuilder : (nat -> VFSNode) -> Prop :=
| build_file nm c md : leafBuilder (fun x => VFSFile x nm c md)
| build_directory nm md : leafBuilder (fun x => VFSDirectory x nm [] md).

(** A method that brings at most the objects [extra] into the object it is
    called on. *)
Definition grows (f : VFSNode -> VFSNode) (extra : list nat) : Prop :=
  forall n,
    NoDup (oids n) -> (forall x, In x extra -> ~ In x (oids n)) ->
    NoDup (oids (f n)) /\ incl (oids (f n)) (oids n ++ extra).

(** The objects of a tree, the tree itself first. *)
Fixpoint nodes (n : VFSNode) : list VFSNode :=
  n ::
  match n with
  | VFSDirectory _ _ ch _ => flat_map (fun kv => nodes (snd kv)) ch
  | _ => []
  end.

(** No directory of the tree is the object [o]. *)
Definition noDirectoryAt (o : nat) (n : VFSNode) : Prop :=
  forall d, In d (nodes n) -> isDirectory d = true -> oidOf d <> o.

(** The result of a lookup, once [f] has been called on the object [o]. *)
Definition updated (o : nat) (f : VFSNode -> VFSNode)
    (r : Result (option VFSNode)) : Result (option VFSNode) :=
  match r with
  | Ok (Some n) => Ok (Some (updateNode o f n))
  | _ => r
  end.

(** *** File systems without symlinks *)

Inductive linkFree : VFSNode -> Prop :=
| linkFree_file o nm c md : linkFree (VFSFile o nm c md)
| linkFree_directory o nm ch md :
    Forall (fun kv => linkFree (snd kv)) ch ->
    linkFree (VFSDirectory o nm ch md).

(** Neither the live tree nor a stored snapshot holds a symlink. *)
Definition noLinks (s : VFS) : Prop :=
  linkFree (root s) /\
  Forall (fun kv => linkFree (snapRoot (snd kv))) (snapshots s).

(** Going down from [current] by the names [rest], with no symlink to
    follow. *)
Fixpoint walk (current : VFSNode) (rest : list string) : option VFSNode :=
  match rest with
  | [] => Some current
  | segment :: rest' =>
      if negb (isDirectory current) then None
      else match getChild current segment with
           | None => None
           | Some child => walk child rest'
           end
  end.

(** *** Operations as data *)

Inductive Op : Type :=
| OpWriteFile (p : string) (c : Content) (tempSuffix : option string)
| OpAppendFile (p : string) (c : Content)
| OpDeleteFile (p : string)
| OpCreateDirectory (p : string) (recursive : bool)
| OpDeleteDirectory (p : string) (recursive : bool)
| OpCreateSymlink (tgt link : string)
| OpCopyFile (src dest : string)
| OpMoveFile (src dest : string)
| OpCreateSnapshot (nm : option string)
| OpRestoreSnapshot (id : string)
| OpDeleteSnapshot (id : string)
| OpReset.

(** The state after a call, whether it returned or raised. *)
Definition runOp (op : Op) (s : VFS) : VFS :=
  match op with
  | OpWriteFile p c t => exec (writeFile p c t) s
  | OpAppendFile p c => exec (appendFile p c) s
  | OpDeleteFile p => exec (deleteFile p) s
  | OpCreateDirectory p r => exec (createDirectory p r) s
  | OpDeleteDirectory p r => exec (deleteDirectory p r) s
  | OpCreateSymlink t l => exec (createSymlink t l) s
  | OpCopyFile a b => exec (copyFile a b) s
  | OpMoveFile a b => exec (moveFile a b) s
  | OpCreateSnapshot nm => exec (createSnapshot nm) s
  | OpRestoreSnapshot id => exec (restoreSnapshot id) s
  | OpDeleteSnapshot id => exec (deleteSnapshot id) s
  | OpReset => exec reset s
  end.

Definition runOps (ops : list Op) (s : VFS) : VFS :=
  fold_left (fun s op => runOp op s) ops s.

(** The calls that create no symlink. *)
Definition createsNoLink (op : Op) : bool :=
  match op with
  | OpCreateSymlink _ _ => false
  | _ => true
  end.

(** The calls that neither delete a snapshot nor clear them. *)
Definition keepsSnapshots (op : Op) : bool :=
  match op with
  | OpDeleteSnapshot _ | OpReset => false
  | _ => true
  end.

(** What a tree is made of, without the identities of its objects: names,
    kinds, contents, targets and modes. *)
Inductive Tree : Type :=
| TFile (nm : string) (content : Buffer) (md : N)
| TDirectory (nm : string) (entries : list (string * Tree)) (md : N)
| TSymlink (nm : string) (tgt : string) (md : N).

Fixpoint erase (n : VFSNode) : Tree :=
  match n with
  | VFSFile _ nm c md => TFile nm c md
  | VFSDirectory _ nm ch md =>
      TDirectory nm (map (fun kv => (fst kv, erase (snd kv))) ch) md
  | VFSSymlink _ nm t md => TSymlink nm t md
  end.

(** The entries of a directory, without the identities. *)
Definition contents (n : VFSNode) : list (string * Tree) :=
  map (fun kv => (fst kv, erase (snd kv))) (childrenOf n).

(** The loop of [VFSDirectory.clone] over the children, by itself. *)
Fixpoint cloneChildren (l : list (string * VFSNode)) (nx : nat)
  : list (string * VFSNode) * nat :=
  match l with
  | [] => ([], nx)
  | (k, c) :: rest =>
      let (c', nx1) := clone c nx in
      let (rest', nx2) := cloneChildren rest nx1 in
      ((k, c') :: rest', nx2)
  end.

(** What a clone is: new objects, numbered from [next] up to the number
    returned, around the same names, kinds and contents. *)
Definition cloneFacts (n : VFSNode) (next : nat) : Prop :=
  let c := fst (clone n next) in
  let next' := snd (clone n next) in
  next < next' /\
  (forall o, In o (oids c) -> next <= o < next') /\
  erase c = erase n /\
  nodeName c = nodeName n /\
  (wellKeyed n -> wellKeyed c).


(** Two paths lead, through the symlinks on the way, to one and the same
    object of the tree. *)
Definition sameObject (s : VFS) (p q : string) : bool :=
  match resolveNode s p true, resolveNode s q true with
  | Ok (Some a), Ok (Some b) => Nat.eqb (oidOf a) (oidOf b)
  | _, _ => false
  end.
(** The unit tests of the path tools, replayed on the embedding. *)
Example normalizePath_tests :
  normalizePath "" = "/" /\
  normalizePath "a\b\c" = "a/b/c" /\
  normalizePath "a//b///c" = "a/b/c" /\
  normalizePath "/a/b/../c/./d" = "/a/c/d" /\
  normalizePath "/a/b/../../c" = "/c" /\
  normalizePath "/../a" = "/a" /\
  normalizePath "a/b/c" = "a/b/c".
Proof. repeat split; reflexivity. Qed.

Example dirname_basename_tests :
  dirname "/path/to/file.txt" = "/path/to" /\
  dirname "/file.txt" = "/" /\
  dirname "/" = "/" /\
  basename "/path/to/file.txt" = "file.txt" /\
  basename "/" = "" /\
  join ["/a"; "b"; "c"] = "/a/b/c" /\
  join ["/a"; ""; "c"] = "/a/c" /\
  join [] = "." /\
  splitPath "/a/b/c" = ["a"; "b"; "c"] /\
  splitPath "/" = [].
Proof. repeat split; reflexivity. Qed.

Example resolvePath_tests :
  resolvePath "/a/b/c.txt" =
    Ok {| fullPath := "/a/b/c.txt"; parentPath := "/a/b"; name := "c.txt";
          segments := ["a"; "b"; "c.txt"]; isRoot := false |} /\
  resolvePath "/" =
    Ok {| fullPath := "/"; parentPath := "/"; name := "";
          segments := []; isRoot := true |} /\
  isInvalidPath (validatePath "") = true /\
  validatePath "/a/../b" = Ok tt /\
  validatePath "/a/./b" = Ok tt /\
  isInvalidPath (validatePath "/a.") = true /\
  isInvalidPath (validatePath "/con.txt") = true.
Proof. repeat split; reflexivity. Qed.

Example more_path_tests :
  extname "/path/to/file.txt" = ".txt" /\
  extname "/path/to/file.tar.gz" = ".gz" /\
  extname "/path/to/file" = "" /\
  extname "/path/to/.hidden" = "" /\
  basenameExt "/path/to/file.txt" ".txt" = "file" /\
  resolve "/a/b" ["c"] = "/a/b/c" /\
  resolve "/a/b" ["/c"] = "/c" /\
  resolve "/a/b" ["../c"] = "/a/c" /\
  relative "/a/b/c" "/a/b/d" = "../d" /\
  relative "/a/b" "/a/b/c/d" = "c/d" /\
  relative "/a/b/c" "/a/b/c" = "" /\
  relative "/a/b" "/c/d" = "../../c/d" /\
  isAbsolute "/a/b" = true /\ isAbsolute "a/b" = false /\
  getAncestorPaths "/a/b/c" = Ok ["/"; "/a"; "/a/b"] /\
  getAncestorPaths "/" = Ok ["/"] /\
  isSubPath "/a/b/c" "/a" = true /\
  isSubPath "/a/b" "/a/b" = false /\
  isSubPath "/a/b" "/c" = false /\
  isSubPath "/abc" "/a" = false /\
  getPathDepth "/" = Ok 0 /\ getPathDepth "/a/b/c" = Ok 3 /\
  getCommonAncestor "/a/b/c" "/a/b/d" = "/a/b" /\
  getCommonAncestor "/a/b" "/c/d" = "/" /\
  getCommonAncestor "/a/b/c" "/a/b/c/d" = "/a/b/c" /\
  isValidFileName "file.txt" = true /\ isValidFileName "" = false /\
  isValidFileName "a/b" = false.
Proof. repeat split; reflexivity. Qed.

(* ================================================================= *)
(** ** Properties of the string primitives *)

Section StringFacts.

Variable c : ascii.

Lemma split_parts_free (s : string) :
  Forall (fun p => JS.includesChar c p = false) (JS.split c s).
Proof.
  induction s as [|d s IH]; simpl.
  - constructor; [reflexivity|constructor].
  - destruct (Ascii.eqb d c) eqn:E.
    + constructor; [reflexivity|exact IH].
    + destruct (JS.split c s) as [|p ps]; inversion IH; subst;
        constructor; simpl; try rewrite E; auto.
Qed.

Lemma includesChar_app (s t : string) :
  JS.includesChar c (s ++ t) = JS.includesChar c s || JS.includesChar c t.
Proof.
  induction s as [|d s IH]; simpl; [reflexivity|].
  rewrite IH. now rewrite orb_assoc.
Qed.

(** A piece without the separator is one part. *)
Lemma split_free (x : string) :
  JS.includesChar c x = false -> JS.split c x = [x].
Proof.
  induction x as [|d x IH]; simpl; [reflexivity|].
  intros H. apply orb_false_iff in H as [Hd Hx].
  rewrite Hd, (IH Hx). reflexivity.
Qed.

Lemma split_free_sep (x t : string) :
  JS.includesChar c x = false ->
  JS.split c (x ++ String c t) = x :: JS.split c t.
Proof.
  induction x as [|d x IH]; simpl; intros H.
  - now rewrite Ascii.eqb_refl.
  - apply orb_false_iff in H as [Hd Hx].
    rewrite Hd, (IH Hx). reflexivity.
Qed.

(** Parts without the separator, their other characters untouched, are
    found again by [split] after [join]. *)
Lemma split_join (parts : list string) :
  parts <> [] ->
  Forall (fun p => JS.includesChar c p = false) parts ->
  JS.split c (JS.join (String c "") parts) = parts.
Proof.
  induction parts as [|x rest IH]; [congruence|].
  intros _ Hall. inversion Hall as [|? ? Hx Hrest]; subst.
  destruct rest as [|y rest'].
  - simpl. now apply split_free.
  - change (JS.join (String c "") (x :: y :: rest'))
      with (x ++ String c (JS.join (String c "") (y :: rest'))).
    rewrite split_free_sep by exact Hx.
    rewrite IH; [reflexivity|discriminate|exact Hrest].
Qed.

Lemma includesChar_join (sep : string) (parts : list string) :
  JS.includesChar c sep = false ->
  Forall (fun p => JS.includesChar c p = false) parts ->
  JS.includesChar c (JS.join sep parts) = false.
Proof.
  intros Hsep. induction parts as [|x rest IH]; intros Hall; [reflexivity|].
  inversion Hall as [|? ? Hx Hrest]; subst.
  destruct rest as [|y rest']; [exact Hx|].
  change (JS.join sep (x :: y :: rest'))
    with (x ++ sep ++ JS.join sep (y :: rest')).
  rewrite !includesChar_app, Hx, Hsep, (IH Hrest). reflexivity.
Qed.

End StringFacts.

Lemma split_join_slash (parts : list string) :
  parts <> [] ->
  Forall (fun p => JS.includesChar JS.slash p = false) parts ->
  JS.split JS.slash (JS.join "/" parts) = parts.
Proof. exact (split_join JS.slash parts). Qed.

Lemma replaceBackslashes_free (s : string) :
  JS.includesChar JS.backslash (JS.replaceBackslashes s) = false.
Proof.
  induction s as [|d s IH]; simpl; [reflexivity|].
  rewrite IH, orb_false_r.
  destruct (Ascii.eqb d JS.backslash) eqn:E; [reflexivity|exact E].
Qed.

Lemma replaceBackslashes_id (s : string) :
  JS.includesChar JS.backslash s = false -> JS.replaceBackslashes s = s.
Proof.
  induction s as [|d s IH]; simpl; [reflexivity|].
  intros H. apply orb_false_iff in H as [Hd Hs].
  now rewrite Hd, (IH Hs).
Qed.

Lemma collapseSlashes_keeps_free (c : ascii) (s : string) :
  JS.includesChar c s = false ->
  JS.includesChar c (JS.collapseSlashes s) = false.
Proof.
  induction s as [|d s IH]; simpl; [reflexivity|].
  intros H. apply orb_false_iff in H as [Hd Hs].
  destruct (Ascii.eqb d JS.slash && JS.startsWithChar JS.slash s); simpl;
    [auto|now rewrite Hd, (IH Hs)].
Qed.

(** [collapseSlashes] leaves a slash-free piece alone and goes on after it. *)
Lemma collapseSlashes_free_app (x t : string) :
  JS.includesChar JS.slash x = false ->
  JS.collapseSlashes (x ++ t) = x ++ JS.collapseSlashes t.
Proof.
  induction x as [|d x IH]; simpl; intros H; [reflexivity|].
  apply orb_false_iff in H as [Hd Hx].
  rewrite Hd. simpl. now rewrite (IH Hx).
Qed.

Lemma collapseSlashes_sep (t : string) :
  JS.startsWithChar JS.slash t = false ->
  JS.collapseSlashes (String JS.slash t) = String JS.slash (JS.collapseSlashes t).
Proof.
  intros H. simpl. rewrite H. reflexivity.
Qed.

Lemma startsWithChar_free (c : ascii) (x t : string) :
  x <> "" -> JS.includesChar c x = false ->
  JS.startsWithChar c (x ++ t) = false.
Proof.
  destruct x as [|d x]; [congruence|]. simpl.
  intros _ H. now apply orb_false_iff in H as [Hd _].
Qed.

Lemma app_empty_r (s : string) : s ++ "" = s.
Proof. induction s; simpl; congruence. Qed.

Lemma startsWithChar_join_free (c : ascii) (x : string) (rest : list string) :
  x <> "" -> JS.includesChar c x = false ->
  JS.startsWithChar c (JS.join "/" (x :: rest)) = false.
Proof.
  intros Hne Hx. destruct rest as [|y rest'].
  - simpl. rewrite <- (app_empty_r x). now apply startsWithChar_free.
  - change (JS.join "/" (x :: y :: rest'))
      with (x ++ "/" ++ JS.join "/" (y :: rest')).
    now apply startsWithChar_free.
Qed.

(** Non-empty slash-free parts joined by single slashes hold no run of
    slashes. *)
Lemma collapseSlashes_join (parts : list string) :
  Forall (fun p => p <> "" /\ JS.includesChar JS.slash p = false) parts ->
  JS.collapseSlashes (JS.join "/" parts) = JS.join "/" parts.
Proof.
  induction parts as [|x rest IH]; intros Hall; [reflexivity|].
  inversion Hall as [|? ? [Hne Hx] Hrest]; subst.
  destruct rest as [|y rest'].
  - simpl. rewrite <- (app_empty_r x) at 1.
    rewrite collapseSlashes_free_app by exact Hx. simpl. apply app_empty_r.
  - change (JS.join "/" (x :: y :: rest'))
      with (x ++ String JS.slash (JS.join "/" (y :: rest'))).
    rewrite collapseSlashes_free_app by exact Hx.
    rewrite collapseSlashes_sep.
    + now rewrite (IH Hrest).
    + inversion Hrest as [|? ? [Hney Hy] _]; subst.
      now apply startsWithChar_join_free.
Qed.

(* ================================================================= *)
(** ** [normalizePath] *)

Lemma normalizePath_unfold (p : string) :
  p <> "" ->
  normalizePath p =
    let normalized := JS.collapseSlashes (JS.replaceBackslashes p) in
    let isAbsolute := JS.startsWithChar JS.slash normalized in
    renderPath isAbsolute
      (fold_left (normStep isAbsolute) (JS.split JS.slash normalized) []).
Proof.
  intros H. destruct p; [congruence|reflexivity].
Qed.

Section NormLoop.

Variable isAbsolute : bool.

Lemma normStep_canonical (stack : list string) (part : string) :
  JS.includesChar JS.slash part = false ->
  JS.includesChar JS.backslash part = false ->
  canonicalStack isAbsolute stack ->
  canonicalStack isAbsolute (normStep isAbsolute stack part).
Proof.
  intros Hs Hb Hc. unfold normStep.
  destruct (String.eqb part "") eqn:E1; [exact Hc|].
  destruct (String.eqb part ".") eqn:E2; [exact Hc|]. simpl.
  apply String.eqb_neq in E1, E2.
  assert (Hpart : cleanPart part) by (unfold cleanPart; auto).
  destruct Hc as (Hclean & Hdots & Habs).
  assert (Hpush : isAbsolute = false ->
                  (forall top below, stack = top :: below -> top = "..") ->
                  canonicalStack isAbsolute (".." :: stack)).
  { intros Hrel Htop. split; [|split].
    - constructor; [|exact Hclean].
      unfold cleanPart. repeat split; discriminate.
    - simpl. split; [|exact Hdots]. intros _.
      destruct stack as [|top below]; [constructor|].
      rewrite (Htop top below eq_refl) in *.
      constructor; [reflexivity|]. now apply Hdots.
    - rewrite Hrel. discriminate. }
  destruct (String.eqb part "..") eqn:E3.
  - destruct stack as [|top below].
    + destruct isAbsolute eqn:Ea; simpl.
      * split; [|split]; auto.
      * apply Hpush; [reflexivity|discriminate].
    + destruct (String.eqb top "..") eqn:E4; simpl.
      * apply String.eqb_eq in E4. subst top.
        destruct isAbsolute eqn:Ea; simpl.
        -- split; [|split]; auto.
        -- apply Hpush; [reflexivity|congruence].
      * inversion Hclean; subst. destruct Hdots as [_ Hd2].
        split; [|split]; auto.
        intros Ha Hin. apply (Habs Ha). now right.
  - apply String.eqb_neq in E3.
    split; [|split].
    + now constructor.
    + simpl. split; [congruence|exact Hdots].
    + intros Ha [Hin|Hin]; [congruence|now apply (Habs Ha)].
Qed.

Lemma normLoop_canonical (parts stack : list string) :
  Forall (fun p => JS.includesChar JS.slash p = false) parts ->
  Forall (fun p => JS.includesChar JS.backslash p = false) parts ->
  canonicalStack isAbsolute stack ->
  canonicalStack isAbsolute (fold_left (normStep isAbsolute) parts stack).
Proof.
  revert stack. induction parts as [|x parts IH]; intros stack Hs Hb Hc;
    [exact Hc|].
  inversion Hs; inversion Hb; subst. simpl.
  apply IH; auto. now apply normStep_canonical.
Qed.

(** Replaying a canonical stack from its bottom rebuilds it. *)
Lemma normLoop_replay (stack : list string) :
  canonicalStack isAbsolute stack ->
  fold_left (normStep isAbsolute) (rev stack) [] = stack.
Proof.
  induction stack as [|x below IH]; intros (Hclean & Hdots & Habs);
    [reflexivity|].
  inversion Hclean as [|? ? (Hne & Hnd & _ & _) Hbelow]; subst.
  destruct Hdots as [Hd1 Hd2].
  simpl. rewrite fold_left_app. simpl. rewrite IH.
  2:{ split; [|split]; auto. intros Ha Hin. apply (Habs Ha). now right. }
  unfold normStep.
  apply String.eqb_neq in Hne, Hnd. rewrite Hne, Hnd. simpl.
  destruct (String.eqb x "..") eqn:E; [|reflexivity].
  apply String.eqb_eq in E. subst x.
  assert (Hrel : isAbsolute = false).
  { destruct isAbsolute; [|reflexivity]. exfalso. apply Habs; simpl; auto. }
  rewrite Hrel. simpl.
  destruct below as [|top below']; [reflexivity|].
  specialize (Hd1 eq_refl). inversion Hd1; subst. reflexivity.
Qed.

End NormLoop.

Lemma canonical_parts_free (c : ascii) (isAbsolute : bool) (stack : list string) :
  (c = JS.slash \/ c = JS.backslash) ->
  canonicalStack isAbsolute stack ->
  Forall (fun p => JS.includesChar c p = false) (rev stack).
Proof.
  intros Hc (Hclean & _ & _). apply Forall_rev.
  eapply Forall_impl; [|exact Hclean].
  intros x (_ & _ & Hs & Hb). destruct Hc; subst; assumption.
Qed.

(** The result for a canonical stack is a fixed point of [normalizePath]. *)
Lemma normalizePath_render (isAbsolute : bool) (stack : list string) :
  canonicalStack isAbsolute stack ->
  normalizePath (renderPath isAbsolute stack) = renderPath isAbsolute stack.
Proof.
  intros Hc.
  destruct stack as [|x below] using rev_ind.
  { destruct isAbsolute; reflexivity. }
  clear IHbelow.
  assert (Hfree_s := canonical_parts_free _ _ _ (or_introl eq_refl) Hc).
  assert (Hfree_b := canonical_parts_free _ _ _ (or_intror eq_refl) Hc).
  assert (Hclean : Forall (fun p => p <> "" /\ JS.includesChar JS.slash p = false)
                     (rev (below ++ [x]))).
  { destruct Hc as (H & _ & _). apply Forall_rev.
    eapply Forall_impl; [|exact H]. intros y (? & _ & ? & _). now split. }
  set (st := rev (below ++ [x])) in *.
  assert (Hst : exists y st', st = y :: st').
  { unfold st. rewrite rev_app_distr. simpl. eauto. }
  destruct Hst as (y & st' & Hst).
  assert (Hy : y <> "" /\ JS.includesChar JS.slash y = false).
  { rewrite Hst in Hclean. now inversion Hclean. }
  assert (Hjoin_ne : JS.join "/" st <> "").
  { rewrite Hst. destruct Hy as [Hne _]. destruct y; [congruence|].
    destruct st'; simpl; discriminate. }
  assert (Hrender : renderPath isAbsolute (below ++ [x])
                    = if isAbsolute then "/" ++ JS.join "/" st else JS.join "/" st).
  { unfold renderPath. fold st.
    destruct isAbsolute; [reflexivity|].
    destruct (JS.join "/" st); [congruence|reflexivity]. }
  rewrite Hrender.
  assert (Hnob : JS.includesChar JS.backslash (JS.join "/" st) = false)
    by (apply includesChar_join; [reflexivity|exact Hfree_b]).
  assert (Hstart : JS.startsWithChar JS.slash (JS.join "/" st) = false)
    by (rewrite Hst; now apply startsWithChar_join_free).
  rewrite normalizePath_unfold by (destruct isAbsolute; [discriminate|exact Hjoin_ne]).
  destruct isAbsolute.
  - rewrite replaceBackslashes_id by (simpl; exact Hnob).
    change ("/" ++ JS.join "/" st) with (String JS.slash (JS.join "/" st)).
    rewrite collapseSlashes_sep by exact Hstart.
    rewrite collapseSlashes_join by exact Hclean.
    cbv zeta.
    change (JS.startsWithChar JS.slash (String JS.slash (JS.join "/" st)))
      with true.
    change (JS.split JS.slash (String JS.slash (JS.join "/" st)))
      with ("" :: JS.split JS.slash (JS.join "/" st)).
    rewrite split_join_slash; [|rewrite Hst; discriminate|exact Hfree_s].
    change (fold_left (normStep true) ("" :: st) [])
      with (fold_left (normStep true) st []).
    unfold st. rewrite normLoop_replay by exact Hc. exact Hrender.
  - rewrite replaceBackslashes_id by exact Hnob.
    rewrite collapseSlashes_join by exact Hclean.
    cbv zeta. rewrite Hstart.
    rewrite split_join_slash; [|rewrite Hst; discriminate|exact Hfree_s].
    unfold st. rewrite normLoop_replay by exact Hc. exact Hrender.
Qed.

(** C7. [normalizePath] is idempotent: for every input path [p], normalizing
    the normalized path gives the normalized path. *)
Theorem normalizePath_idempotent (p : string) :
  normalizePath (normalizePath p) = normalizePath p.
Proof.
  destruct (string_dec p "") as [->|Hne]; [reflexivity|].
  rewrite (normalizePath_unfold _ Hne). cbv zeta.
  apply normalizePath_render.
  apply normLoop_canonical.
  - apply split_parts_free.
  - assert (H : JS.includesChar JS.backslash
                  (JS.collapseSlashes (JS.replaceBackslashes p)) = false)
      by (apply collapseSlashes_keeps_free, replaceBackslashes_free).
    revert H. generalize (JS.collapseSlashes (JS.replaceBackslashes p)).
    intros s. induction s as [|d s IH]; simpl; intros H.
    + constructor; [reflexivity|constructor].
    + apply orb_false_iff in H as [Hd Hs]. specialize (IH Hs).
      destruct (Ascii.eqb d JS.slash).
      * constructor; [reflexivity|exact IH].
      * destruct (JS.split JS.slash s) as [|q qs];
          inversion IH; subst; constructor; simpl; try rewrite Hd; auto.
  - split; [constructor|split; [exact I|intros _ []]].
Qed.

(* ================================================================= *)
(** ** Symlink resolution *)

(** Walking down real directories needs no following. *)
Lemma resolveLoop_descend (rec : string -> Result (option VFSNode))
    (follow : bool) (dirs rest visited : list string) (current d : VFSNode) :
  descend current dirs = Some d ->
  rest <> [] ->
  resolveLoop rec follow visited (dirs ++ rest)%list current =
  resolveLoop rec follow (visited ++ dirs)%list rest d.
Proof.
  intros Hd Hrest. revert visited current Hd.
  induction dirs as [|x dirs IH]; intros visited current; simpl.
  - intros H. injection H as <-. now rewrite app_nil_r.
  - destruct (getChild current x) as [child|] eqn:Ec; [|discriminate].
    destruct (isDirectory child) eqn:Ek; [|discriminate].
    intros Hd.
    assert (Hcur : isDirectory current = true).
    { destruct current; try reflexivity; discriminate Ec. }
    rewrite Hcur. simpl.
    assert (Hl : isSymlink child = false) by (destruct child; auto; discriminate).
    rewrite Hl, (IH _ _ Hd), <- app_assoc. reflexivity.
Qed.

Lemma splitPath_root_segments (p : string) (r : PathResolution) :
  resolvePath p = Ok r -> isRoot r = true -> segments r = [].
Proof.
  unfold resolvePath. destruct (validatePath p); [|discriminate].
  intros H. injection H as <-. simpl. intros Hroot.
  apply String.eqb_eq in Hroot. rewrite Hroot. reflexivity.
Qed.

(** C9. [exists(p)] does not follow a symlink at the final segment: when
    the segments before the last one name directories that exist and the
    last one names a symlink in the directory reached, [exists(p)] is true,
    whatever the target of the symlink is. *)
Theorem exists_keeps_final_symlink (s : VFS) (p : string) (r : PathResolution)
    (dirs : list string) (last : string) (d link : VFSNode)
    (Hvalid : resolvePath p = Ok r)
    (Hsegments : segments r = (dirs ++ [last])%list)
    (Hdirs : descend (root s) dirs = Some d)
    (Hchild : getChild d last = Some link)
    (Hlink : isSymlink link = true) :
  exists_ s p = true /\ resolveNode s p false = Ok (Some link).
Proof.
  assert (Hres : resolveNode s p false = Ok (Some link)).
  { unfold resolveNode, resolveNodeAt.
    rewrite Nat.sub_0_r. simpl. rewrite Hvalid.
    destruct (isRoot r) eqn:Hroot.
    - rewrite (splitPath_root_segments _ _ Hvalid Hroot) in Hsegments.
      now destruct dirs.
    - rewrite Hsegments.
      rewrite (resolveLoop_descend _ _ _ _ _ _ _ Hdirs) by discriminate.
      simpl.
      assert (Hd : isDirectory d = true).
      { destruct d; try reflexivity; discriminate Hchild. }
      rewrite Hd, Hchild, Hlink. reflexivity. }
  split; [|exact Hres].
  unfold exists_. now rewrite Hres.
Qed.

(** An instance: a symlink in a directory, its target missing. *)
Lemma exists_keeps_final_symlink_witness :
  let r := {| fullPath := "/d/link"; parentPath := "/d"; name := "link";
              segments := ["d"; "link"]; isRoot := false |} in
  let link := VFSSymlink 2 "link" "/nowhere" 511 in
  let d := VFSDirectory 1 "d" [("link", link)] 493 in
  resolvePath "/d/link" = Ok r /\
  segments r = (["d"] ++ ["link"])%list /\
  descend (root danglingLink) ["d"] = Some d /\
  getChild d "link" = Some link /\
  isSymlink link = true /\
  exists_ danglingLink "/d/link" = true /\
  resolveNode danglingLink "/d/link" false = Ok (Some link).
Proof.
  intros r link d.
  assert (H1 : resolvePath "/d/link" = Ok r) by reflexivity.
  assert (H2 : segments r = (["d"] ++ ["link"])%list) by reflexivity.
  assert (H3 : descend (root danglingLink) ["d"] = Some d) by reflexivity.
  assert (H4 : getChild d "link" = Some link) by reflexivity.
  assert (H5 : isSymlink link = true) by reflexivity.
  split; [exact H1|]. split; [exact H2|]. split; [exact H3|].
  split; [exact H4|]. split; [exact H5|].
  exact (exists_keeps_final_symlink danglingLink "/d/link" r ["d"] "link" d link
           H1 H2 H3 H4 H5).
Defined.

(** In the cases of the claim, [readFile] raises while [exists] is true. *)
Example exists_versus_readFile :
  (exists_ danglingLink "/d/link" = true /\
   outcome (readFile "/d/link") danglingLink = Throw (FileNotFoundError "/d/link")) /\
  (exists_ twoLinkLoop "/a" = true /\
   outcome (readFile "/a") twoLinkLoop = Throw (SymlinkLoopError "/b")).
Proof. repeat split; reflexivity. Qed.

(* ================================================================= *)
(** ** Where the code departs from the specification *)

(** C1 (defect of the code).  A symlink [/a/b/link] with the relative
    target [t] is in the directory [/a/b], so the claim resolves it to
    [/a/b/t].  The code joins the target to [dirname] of the directory that
    holds the link: it follows [/a/t], and [readFile] returns the content of
    the wrong file.  With the link one level down ([/a/link], target [t]) it
    follows [/t] and raises [FileNotFound] although [/a/t] is there. *)
Theorem relative_target_misses_link_directory :
  symlinkTargetPath ["a"; "b"] (VFSSymlink 0 "link" "t" 511) = "/a/t" /\
  firstLink (root relativeLink) "/a/b/link" true = Some "/a/t" /\
  outcome (readFile "/a/b/t") relativeLink = Ok (utf8 "x") /\
  outcome (readFile "/a/b/link") relativeLink = Ok (utf8 "y") /\
  (let s := exec (writeFile "/a/t" (Str "x") None ;;;
                  createSymlink "t" "/a/link") emptyVFS in
   firstLink (root s) "/a/link" true = Some "/t" /\
   outcome (readFile "/a/t") s = Ok (utf8 "x") /\
   outcome (readFile "/a/link") s = Throw (FileNotFoundError "/a/link")).
Proof. repeat split; reflexivity. Qed.

(** For a link in the root directory the two readings agree. *)
Example relative_target_in_root :
  let s := exec (writeFile "/t" (Str "x") None ;;; createSymlink "t" "/link")
             emptyVFS in
  outcome (readFile "/link") s = Ok (utf8 "x").
Proof. reflexivity. Qed.

(** C4 (defect of the code).  The symlinks [/d/a] and [/d/b] have the
    relative targets [b] and [a]: resolved from the directory that holds
    them, as the specification has it, each leads to the other, and the
    claim has [readFile] on either raise [SymlinkLoop].  The code follows
    [/d/a] to [/b], outside the directory, finds nothing there and raises
    [FileNotFound]; the cycle is not seen.  With the absolute targets of the
    second scenario the code does raise [SymlinkLoop]. *)
Theorem relative_symlink_cycle_not_detected :
  readSymlink relativeLoop "/d/a" = Ok "b" /\
  readSymlink relativeLoop "/d/b" = Ok "a" /\
  specTargetPath "/d/a" "b" = "/d/b" /\
  specTargetPath "/d/b" "a" = "/d/a" /\
  firstLink (root relativeLoop) "/d/a" true = Some "/b" /\
  firstLink (root relativeLoop) "/d/b" true = Some "/a" /\
  resolveNode relativeLoop "/d/a" true = Ok None /\
  outcome (readFile "/d/a") relativeLoop = Throw (FileNotFoundError "/d/a") /\
  outcome (readFile "/d/b") relativeLoop = Throw (FileNotFoundError "/d/b") /\
  isSymlinkLoop (outcome (readFile "/d/a") relativeLoop) = false /\
  specTargetPath "/a" "/b" = "/b" /\
  specTargetPath "/b" "/a" = "/a" /\
  outcome (readFile "/a") twoLinkLoop = Throw (SymlinkLoopError "/b").
Proof. repeat split; reflexivity. Qed.

(** C2 (defect of the code).  [/d/f.txt] is in the snapshot; the directory
    [/d] is then removed whole.  The file is in the snapshot and not in the
    live tree, so the claim has one [Deleted] record for it; [diff] returns no
    record, because the loop over the names of [from] does not go into a
    directory.  The same holds when a file takes the place of the directory.
    The other direction does go into a new directory. *)
Theorem diff_skips_removed_directories :
  let removed := exec (deleteDirectory "/d" true) snapshotWithDir in
  let replaced := exec (deleteDirectory "/d" true ;;;
                        writeFile "/d" (Str "zz") None) snapshotWithDir in
  let added := exec (createSnapshot None ;;;
                     writeFile "/d/f.txt" (Str "x") None) emptyVFS in
  outcome (readFile "/d/f.txt") snapshotWithDir = Ok (utf8 "x") /\
  exists_ removed "/d/f.txt" = false /\
  diff removed (Some "snapshot-1") None = Ok [] /\
  diff replaced (Some "snapshot-1") None = Ok [] /\
  diff added (Some "snapshot-1") None =
    Ok [ {| diffType := Added; diffPath := "/d/f.txt";
            oldContent := None; newContent := Some (utf8 "x") |} ].
Proof. repeat split; reflexivity. Qed.

(** The third scenario of the specification. *)
Example diff_modified_scenario :
  let s := exec (writeFile "/f" (Str "v1") None ;;; createSnapshot None ;;;
                 writeFile "/f" (Str "v2") None) emptyVFS in
  diff s (Some "snapshot-1") None =
    Ok [ {| diffType := Modified; diffPath := "/f";
            oldContent := Some (utf8 "v1"); newContent := Some (utf8 "v2") |} ].
Proof. reflexivity. Qed.

(** C6 (defect of the code).  ['/'] passes the validation and
    [writeFile('/', c)] succeeds: it has no case for the root and stores a
    file with the empty name under it.  The following [readFile('/')] raises
    [NotAFile].  A relative path of one segment is written under a
    directory named [.] and not found again.  With a symlink [/d/s] to the
    directory [/d], writing [/d/s/s] puts a file in the place of the symlink,
    and the path no longer resolves. *)
Theorem write_then_read_fails_on_root :
  validatePath "/" = Ok tt /\
  outcome (writeFile "/" (Str "x") None) emptyVFS = Ok tt /\
  root (exec (writeFile "/" (Str "x") None) emptyVFS) =
    VFSDirectory 0 "" [("", VFSFile 1 "" (utf8 "x") 420)] 493 /\
  outcome (readFile "/") (exec (writeFile "/" (Str "x") None) emptyVFS) =
    Throw (NotAFileError "/") /\
  validatePath "a" = Ok tt /\
  outcome (writeFile "a" (Str "x") None) emptyVFS = Ok tt /\
  outcome (readFile "a") (exec (writeFile "a" (Str "x") None) emptyVFS) =
    Throw (FileNotFoundError "a") /\
  root linkToOwnDirectory =
    VFSDirectory 0 ""
      [("d", VFSDirectory 1 "d" [("s", VFSSymlink 2 "s" "/d" 511)] 493)] 493 /\
  outcome (writeFile "/d/s/s" (Str "x") None) linkToOwnDirectory = Ok tt /\
  outcome (readFile "/d/s/s")
    (exec (writeFile "/d/s/s" (Str "x") None) linkToOwnDirectory) =
    Throw (FileNotFoundError "/d/s/s").
Proof. repeat split; reflexivity. Qed.

(** The first scenario of the specification, and the empty buffer. *)
Example write_then_read_scenario :
  let s := exec (writeFile "/a/b/c.txt" (Str "hi") None) emptyVFS in
  isDirectoryAt s "/a" = true /\ isDirectoryAt s "/a/b" = true /\
  outcome (readFile "/a/b/c.txt") s = Ok (utf8 "hi") /\
  outcome (readFile "/empty.bin")
    (exec (writeFile "/empty.bin" (Buf []) None) emptyVFS) = Ok [].
Proof. repeat split; reflexivity. Qed.

(** C8 (defect of the code).  With the working directory ['/'] the relative
    path is taken as [nodePath.slice(2)], which drops the first character of
    the name: for [/ab] it is [b].  The pattern [ab] matches the path of the
    node relative to ['/'], which is [ab], and the node passes every filter,
    yet [glob('ab')] returns nothing.  Under another working directory the
    same pattern finds the node. *)
Theorem glob_root_cwd_drops_first_character :
  relativePathOf "/" "/ab" "ab" = "b" /\
  regexTest (patternToRegex "ab") "ab" = true /\
  glob 2 oneFile "ab" defaultGlobOptions = Some (Ok []) /\
  glob 2 oneFile "b" defaultGlobOptions = Some (Ok ["/ab"]) /\
  glob 3 oneFileInDir "ab" (globIn "/d") = Some (Ok ["/d/ab"]) /\
  glob 3 oneFileInDir "d/ab" defaultGlobOptions = Some (Ok []).
Proof. repeat split; reflexivity. Qed.

(** With the root as working directory every name of two characters or
    more loses its first character. *)
Lemma relativePathOf_root (a b : ascii) (rest : string) :
  relativePathOf "/" ("/" ++ String a (String b rest)) (String a (String b rest))
  = String b rest.
Proof. reflexivity. Qed.

(** The fourth scenario of the specification. *)
Example glob_maxDepth_scenario :
  let s := exec (writeFile "/src/index.ts" (Str "") None ;;;
                 writeFile "/src/utils/helper.ts" (Str "") None) emptyVFS in
  glob 4 s "**/*.ts"
    {| cwd := None; maxDepth := Some 1; onlyFiles := false;
       onlyDirectories := false; followSymlinks := true; dot := false;
       absolute := true; ignore := [] |} = Some (Ok ["/src/index.ts"]).
Proof. reflexivity. Qed.

(* ================================================================= *)
(** ** Path validation before mutation *)





(** [readFile] leaves the store as it is. *)
Lemma readFile_state (p : string) (s : VFS) : exec (readFile p) s = s.
Proof.
  unfold exec, readFile, bind, reading.
  destruct (resolveNode s p true) as [[node|]|e]; simpl; try reflexivity.
  destruct (isDirectory node); [reflexivity|].
  destruct (isFile node); reflexivity.
Qed.






(* ================================================================= *)
(** ** The store: maps, identities and methods *)

(** Induction on a tree, with the hypothesis for every child. *)
Lemma node_induction (P : VFSNode -> Prop)
    (Hfile : forall o nm c md, P (VFSFile o nm c md))
    (Hdir : forall o nm ch md,
        Forall (fun kv => P (snd kv)) ch -> P (VFSDirectory o nm ch md))
    (Hlink : forall o nm t md, P (VFSSymlink o nm t md)) :
  forall n, P n.
Proof.
  fix IH 1. intros [o nm c md|o nm ch md|o nm t md].
  - apply Hfile.
  - apply Hdir. revert ch. fix IHch 1.
    intros [|kv ch]; constructor; [apply IH|apply IHch].
  - apply Hlink.
Qed.

Section MapFacts.

Context {V : Type}.

Lemma get_In (k : string) (m : list (string * V)) (v : V) :
  JSMap.get k m = Some v -> In (k, v) m.
Proof.
  induction m as [|[k' v'] m IH]; simpl; [discriminate|].
  destruct (String.eqb k' k) eqn:E.
  - apply String.eqb_eq in E. subst k'. intros H. injection H as ->. now left.
  - intros H. right. now apply IH.
Qed.

Lemma set_In (k : string) (v : V) (m : list (string * V)) (kv : string * V) :
  In kv (JSMap.set k v m) -> kv = (k, v) \/ In kv m.
Proof.
  induction m as [|[k' v'] m IH]; simpl.
  - intros [H|[]]; now left.
  - destruct (String.eqb k' k); simpl.
    + intros [H|H]; [now left|right; now right].
    + intros [H|H]; [right; now left|].
      destruct (IH H) as [H'|H']; [now left|right; now right].
Qed.

Lemma set_keys (k : string) (v : V) (m : list (string * V)) (k0 : string) :
  In k0 (map fst (JSMap.set k v m)) -> k0 = k \/ In k0 (map fst m).
Proof.
  intros H. apply in_map_iff in H as (kv & <- & Hin).
  apply set_In in Hin as [->|Hin]; [now left|].
  right. now apply in_map.
Qed.

Lemma set_NoDup (k : string) (v : V) (m : list (string * V)) :
  NoDup (map fst m) -> NoDup (map fst (JSMap.set k v m)).
Proof.
  induction m as [|[k' v'] m IH]; simpl; intros Hnd.
  - constructor; [intros []|constructor].
  - inversion Hnd as [|? ? Hnotin Hnd']; subst.
    destruct (String.eqb k' k) eqn:E; simpl.
    + apply String.eqb_eq in E. subst k'. now constructor.
    + apply String.eqb_neq in E. constructor; [|now apply IH].
      intros Hin. apply set_keys in Hin as [Hin|Hin]; [congruence|contradiction].
Qed.

Lemma delete_In (k : string) (m : list (string * V)) (kv : string * V) :
  In kv (JSMap.delete k m) -> In kv m.
Proof.
  induction m as [|[k' v'] m IH]; simpl; [tauto|].
  destruct (String.eqb k' k); simpl; [now right|].
  intros [H|H]; [now left|right; now apply IH].
Qed.

Lemma delete_NoDup (k : string) (m : list (string * V)) :
  NoDup (map fst m) -> NoDup (map fst (JSMap.delete k m)).
Proof.
  induction m as [|[k' v'] m IH]; simpl; intros Hnd; [constructor|].
  inversion Hnd as [|? ? Hnotin Hnd']; subst.
  destruct (String.eqb k' k); simpl; [exact Hnd'|].
  constructor; [|now apply IH].
  intros Hin. apply Hnotin. apply in_map_iff in Hin as (kv & <- & Hin).
  apply in_map. now apply delete_In in Hin.
Qed.

(** A key that is not there is set at the end. *)
Lemma set_fresh (k : string) (v : V) (m : list (string * V)) :
  ~ In k (map fst m) -> JSMap.set k v m = (m ++ [(k, v)])%list.
Proof.
  induction m as [|[k' v'] m IH]; simpl; intros Hnotin; [reflexivity|].
  destruct (String.eqb k' k) eqn:E.
  - apply String.eqb_eq in E. subst k'. exfalso. apply Hnotin. now left.
  - rewrite IH; [reflexivity|]. intros Hin. apply Hnotin. now right.
Qed.

End MapFacts.

Lemma oids_head (n : VFSNode) : In (oidOf n) (oids n).
Proof. destruct n; now left. Qed.

Lemma oids_child (o : nat) (nm : string) (ch : list (string * VFSNode)) (md : N)
    (kv : string * VFSNode) (x : nat) :
  In kv ch -> In x (oids (snd kv)) -> In x (oids (VFSDirectory o nm ch md)).
Proof.
  intros Hin Hx. simpl. right. apply in_flat_map. now exists kv.
Qed.

Lemma getChild_In (d : VFSNode) (nm : string) (c : VFSNode) :
  getChild d nm = Some c ->
  exists o n ch md, d = VFSDirectory o n ch md /\ In (nm, c) ch.
Proof.
  unfold getChild. destruct d as [| o n ch md |]; simpl; try discriminate.
  intros H. exists o, n, ch, md. split; [reflexivity|now apply get_In].
Qed.

Section Live.

Variable snaps : list (string * Snapshot).

Lemma live_mono (next next' : nat) (n : VFSNode) :
  next <= next' -> live snaps next n -> live snaps next' n.
Proof.
  intros Hle [Ho Hk]. split; [|exact Hk].
  intros o Hin. destruct (Ho o Hin). split; [lia|assumption].
Qed.

Lemma live_entry (next : nat) (o : nat) (nm : string)
    (ch : list (string * VFSNode)) (md : N) (kv : string * VFSNode) :
  live snaps next (VFSDirectory o nm ch md) -> In kv ch ->
  live snaps next (snd kv).
Proof.
  intros [Ho Hk] Hin. split.
  - intros x Hx. apply Ho. eapply oids_child; eauto.
  - inversion Hk as [| |? ? ? ? _ Hall]; subst.
    rewrite Forall_forall in Hall. now apply Hall.
Qed.

Lemma live_child (next : nat) (d : VFSNode) (nm : string) (c : VFSNode) :
  live snaps next d -> getChild d nm = Some c -> live snaps next c.
Proof.
  intros Hd Hc. apply getChild_In in Hc as (o & n & ch & md & -> & Hin).
  exact (live_entry _ _ _ _ _ _ Hd Hin).
Qed.

Lemma live_not_stored (next : nat) (n : VFSNode) :
  live snaps next n -> ~ In (oidOf n) (storedOids snaps).
Proof. intros [Ho _]. apply Ho, oids_head. Qed.

(** A directory is live when its own object and its entries are. *)
Lemma live_directory (next : nat) (o : nat) (nm : string)
    (ch : list (string * VFSNode)) (md : N) :
  o < next -> ~ In o (storedOids snaps) ->
  NoDup (map fst ch) ->
  (forall kv, In kv ch -> nodeName (snd kv) = fst kv /\ live snaps next (snd kv)) ->
  live snaps next (VFSDirectory o nm ch md).
Proof.
  intros Hlt Hns Hnd Hall. split.
  - intros x [<-|Hx]; [now split|].
    apply in_flat_map in Hx as (kv & Hin & Hx).
    destruct (Hall kv Hin) as [_ [Ho _]]. now apply Ho.
  - constructor; [exact Hnd|]. apply Forall_forall. intros kv Hin.
    destruct (Hall kv Hin) as [Hname [_ Hk]]. now split.
Qed.

Lemma live_directory_inv (next : nat) (o : nat) (nm : string)
    (ch : list (string * VFSNode)) (md : N) :
  live snaps next (VFSDirectory o nm ch md) ->
  o < next /\ ~ In o (storedOids snaps) /\ NoDup (map fst ch) /\
  (forall kv, In kv ch -> nodeName (snd kv) = fst kv /\ live snaps next (snd kv)).
Proof.
  intros Hl. pose proof Hl as [Ho Hk].
  destruct (Ho o (or_introl eq_refl)) as [Hlt Hns].
  inversion Hk as [| |? ? ? ? Hnd Hall]; subst.
  repeat (split; [assumption|]).
  intros kv Hin. rewrite Forall_forall in Hall.
  split; [now apply Hall|]. exact (live_entry _ _ _ _ _ _ Hl Hin).
Qed.

(** *** The four methods *)

Lemma live_leaf (next : nat) (n n' : VFSNode) :
  oids n' = oids n -> wellKeyed n' -> live snaps next n -> live snaps next n'.
Proof.
  intros Ho Hk [Hl _]. split; [|exact Hk]. now rewrite Ho.
Qed.

Lemma method_write (next : nat) (c : Content) : method snaps next (write c).
Proof.
  intros n. split; [|split; [|split]]; try (now destruct n).
  destruct n; simpl; auto.
  apply live_leaf; [reflexivity|constructor].
Qed.

Lemma method_append (next : nat) (c : Content) : method snaps next (append c).
Proof.
  intros n. split; [|split; [|split]]; try (now destruct n).
  destruct n; simpl; auto.
  apply live_leaf; [reflexivity|constructor].
Qed.

Lemma method_removeChild (next : nat) (nm : string) :
  method snaps next (removeChild nm).
Proof.
  intros n. split; [|split; [|split]]; try (now destruct n).
  destruct n as [| o n ch md |]; simpl; auto.
  intros Hl. apply live_directory_inv in Hl as (Hlt & Hns & Hnd & Hall).
  apply live_directory; auto.
  - now apply delete_NoDup.
  - intros kv Hin. apply Hall. now apply delete_In in Hin.
Qed.

Lemma method_addChild (next : nat) (node : VFSNode) :
  live snaps next node -> method snaps next (addChild node).
Proof.
  intros Hnode n. split; [|split; [|split]]; try (now destruct n).
  destruct n as [| o n ch md |]; simpl; auto.
  intros Hl. apply live_directory_inv in Hl as (Hlt & Hns & Hnd & Hall).
  apply live_directory; auto.
  - now apply set_NoDup.
  - intros kv Hin. apply set_In in Hin as [->|Hin]; [now split|now apply Hall].
Qed.

(** *** A method called on an object acts on the trees that hold it *)

Lemma updateNode_absent (o : nat) (f : VFSNode -> VFSNode) (n : VFSNode) :
  ~ In o (oids n) -> updateNode o f n = n.
Proof.
  induction n as [o' nm c md|o' nm ch md IH|o' nm t md] using node_induction;
    intros Hnotin; simpl in *;
    (destruct (Nat.eqb o' o) eqn:E;
     [apply Nat.eqb_eq in E; exfalso; apply Hnotin; now left|]);
    try reflexivity.
  f_equal. rewrite <- (map_id ch) at 2. apply map_ext_in.
  intros [k c] Hin. simpl. f_equal.
  rewrite Forall_forall in IH. apply (IH (k, c) Hin).
  intros Hx. apply Hnotin. right. apply in_flat_map. now exists (k, c).
Qed.

Lemma updateNode_shape (next : nat) (o : nat) (f : VFSNode -> VFSNode)
    (n : VFSNode) :
  method snaps next f ->
  nodeName (updateNode o f n) = nodeName n /\
  isDirectory (updateNode o f n) = isDirectory n /\
  oidOf (updateNode o f n) = oidOf n.
Proof.
  intros Hf. destruct (Hf n) as (H1 & H2 & H3 & _).
  destruct n; simpl in *; destruct (Nat.eqb _ o); auto.
Qed.

Lemma updateNode_live (next : nat) (o : nat) (f : VFSNode -> VFSNode)
    (n : VFSNode) :
  method snaps next f -> live snaps next n -> live snaps next (updateNode o f n).
Proof.
  intros Hf.
  induction n as [o' nm c md|o' nm ch md IH|o' nm t md] using node_induction;
    intros Hl; simpl;
    (destruct (Nat.eqb o' o); [now apply Hf|]); try exact Hl.
  apply live_directory_inv in Hl as (Hlt & Hns & Hnd & Hall).
  apply live_directory; auto.
  - now rewrite map_map, (map_ext _ fst) by reflexivity.
  - intros kv Hin. apply in_map_iff in Hin as (kv0 & <- & Hin0). simpl.
    destruct (Hall kv0 Hin0) as [Hname Hlive]. split.
    + now rewrite (proj1 (updateNode_shape next o f (snd kv0) Hf)).
    + rewrite Forall_forall in IH. now apply IH.
Qed.

End Live.

(* ================================================================= *)
(** ** The invariant of the store *)

Lemma storedOids_In (snaps : list (string * Snapshot)) (kv : string * Snapshot)
    (o : nat) :
  In kv snaps -> In o (oids (snapRoot (snd kv))) -> In o (storedOids snaps).
Proof. intros Hin Ho. apply in_flat_map. now exists kv. Qed.

Lemma evolved_refl (s : VFS) : good s -> evolved s s.
Proof. intros H. split; [exact H|]. repeat split; reflexivity. Qed.

Lemma evolved_trans (s0 s1 s2 : VFS) :
  evolved s0 s1 -> evolved s1 s2 -> evolved s0 s2.
Proof.
  intros (_ & H1 & H2 & H3 & H4 & H5) (G & K1 & K2 & K3 & K4 & K5).
  split; [exact G|]. repeat split; try congruence. lia.
Qed.

Lemma evolved_good (s0 s : VFS) : evolved s0 s -> good s.
Proof. now intros [H _]. Qed.

(** An object that is live in a state is live in the states that follow. *)
Lemma live_evolved (s0 s : VFS) (n : VFSNode) :
  evolved s0 s ->
  live (snapshots s0) (nextOid s0) n -> live (snapshots s) (nextOid s) n.
Proof.
  intros (_ & H1 & _ & _ & _ & H5) Hl. rewrite H1.
  eapply live_mono; eauto.
Qed.

(** *** Running the primitives *)

Lemma bind_run {A B} (m : M A) (k : A -> M B) (s : VFS) :
  bind m k s =
  match m s with
  | (s', Ok a) => k a s'
  | (s', Throw e) => (s', Throw e)
  end.
Proof. reflexivity. Qed.

Lemma mutate_snapshots (o : nat) (f : VFSNode -> VFSNode) (s : VFS) :
  ~ In o (storedOids (snapshots s)) ->
  snapshots (exec (mutate o f) s) = snapshots s.
Proof.
  intros Hns. unfold exec, mutate. simpl.
  rewrite <- (map_id (snapshots s)) at 2. apply map_ext_in.
  intros [k [r i]] Hin. simpl. f_equal. f_equal.
  apply updateNode_absent. intros Hx. apply Hns.
  exact (storedOids_In _ _ _ Hin Hx).
Qed.

(** A method called on an object that no snapshot holds. *)
Lemma mutate_evolved (o : nat) (f : VFSNode -> VFSNode) (s : VFS) :
  good s ->
  ~ In o (storedOids (snapshots s)) ->
  method (snapshots s) (nextOid s) f ->
  evolved s (exec (mutate o f) s).
Proof.
  intros (Hl & Hd & Hb & Hk) Hns Hf.
  pose proof (mutate_snapshots o f s Hns) as Hsn.
  destruct (updateNode_shape (snapshots s) (nextOid s) o f (root s) Hf)
    as (_ & Hkind & Hoid).
  split; [|repeat split; auto].
  unfold good. rewrite Hsn. unfold exec, mutate. simpl.
  split; [|split; [|split]]; auto.
  - now apply updateNode_live.
  - now rewrite Hkind.
Qed.

Lemma mutate_run (o : nat) (f : VFSNode -> VFSNode) (s : VFS) :
  mutate o f s = (exec (mutate o f) s, Ok tt).
Proof. reflexivity. Qed.

Lemma fresh_evolved (s : VFS) :
  good s ->
  evolved s (exec fresh s) /\
  nextOid s < nextOid (exec fresh s) /\
  ~ In (nextOid s) (storedOids (snapshots s)).
Proof.
  intros (Hl & Hd & Hb & Hk). unfold exec, fresh. simpl.
  split; [|split; [lia|]].
  - split; [|repeat split; simpl; auto].
    split; [|split; [|split]]; simpl; auto.
    + eapply live_mono; [|exact Hl]. lia.
    + intros o Ho. specialize (Hb o Ho). lia.
  - intros Hin. specialize (Hb _ Hin). lia.
Qed.

(** The three constructors give live objects. *)
Lemma newNode_evolved (build : nat -> VFSNode) (s : VFS) :
  (forall o, oids (build o) = [o]) ->
  (forall o, wellKeyed (build o)) ->
  good s ->
  let m := (o <- fresh ;; ret (build o)) in
  evolved s (exec m s) /\
  exists node, snd (m s) = Ok node /\
               live (snapshots (exec m s)) (nextOid (exec m s)) node.
Proof.
  intros Hoids Hkeys Hg m.
  destruct (fresh_evolved s Hg) as (Hev & Hlt & Hns).
  split; [exact Hev|].
  exists (build (nextOid s)). split; [reflexivity|].
  split; [|apply Hkeys].
  intros o Ho. rewrite Hoids in Ho. destruct Ho as [<-|[]].
  split; [exact Hlt|].
  destruct Hev as (_ & Hsn & _). unfold m, exec, bind, ret, fresh in *.
  exact Hns.
Qed.

Lemma notifyWatchers_state (path : string) (kind : ChangeKind) (s : VFS) :
  exec (notifyWatchers path kind) s = s.
Proof.
  unfold exec, notifyWatchers, bind, reading, ret.
  destruct kind; try reflexivity; destruct (resolveNode s path true); reflexivity.
Qed.

(** *** What the resolver returns is part of the live tree *)

Section ResolveInvariant.

Variable P : VFSNode -> Prop.
Hypothesis Pchild : forall d nm c, P d -> getChild d nm = Some c -> P c.

Lemma resolveLoop_invariant (rec : string -> Result (option VFSNode))
    (follow : bool) (rest visited : list string) (current n : VFSNode) :
  (forall p m, rec p = Ok (Some m) -> P m) ->
  P current ->
  resolveLoop rec follow visited rest current = Ok (Some n) -> P n.
Proof.
  intros Hrec. revert visited current.
  induction rest as [|segment rest' IH]; intros visited current Hcur; simpl.
  - intros H. now injection H as <-.
  - destruct (negb (isDirectory current)); [discriminate|].
    destruct (getChild current segment) as [child|] eqn:Ec; [|discriminate].
    pose proof (Pchild _ _ _ Hcur Ec) as Hchild.
    destruct (isSymlink child).
    + destruct (follow || negb (isNil rest')).
      * destruct (rec (symlinkTargetPath visited child)) as [[resolved|]|e] eqn:Er;
          try discriminate.
        pose proof (Hrec _ _ Er) as Hres.
        destruct (isNil rest').
        -- intros H. injection H as <-. now destruct follow.
        -- now apply IH.
      * intros H. now injection H as <-.
    + now apply IH.
Qed.

Lemma resolveNodeFuel_invariant (fuel : nat) (rt : VFSNode) (p : string)
    (follow : bool) (n : VFSNode) :
  P rt -> resolveNodeFuel fuel rt p follow = Ok (Some n) -> P n.
Proof.
  intros Hrt. revert p follow n.
  induction fuel as [|fuel IH]; intros p follow n; simpl; [discriminate|].
  destruct (resolvePath p) as [r|e]; [|discriminate].
  destruct (isRoot r).
  - intros H. now injection H as <-.
  - apply resolveLoop_invariant; [|exact Hrt].
    intros q m. apply IH.
Qed.

End ResolveInvariant.

Lemma resolveNode_live (s : VFS) (p : string) (follow : bool) (n : VFSNode) :
  good s -> resolveNode s p follow = Ok (Some n) ->
  live (snapshots s) (nextOid s) n.
Proof.
  intros (Hl & _). unfold resolveNode, resolveNodeAt.
  apply resolveNodeFuel_invariant; [|exact Hl].
  intros d nm c. apply live_child.
Qed.

Lemma getDirectory_live (s : VFS) (p : string) (d : VFSNode) :
  good s -> getDirectory s p = Ok d -> live (snapshots s) (nextOid s) d.
Proof.
  intros Hg. unfold getDirectory.
  destruct (resolveNode s p true) as [[node|]|e] eqn:E; try discriminate.
  destruct (negb (isDirectory node)); [discriminate|].
  intros H. injection H as <-. exact (resolveNode_live _ _ _ _ Hg E).
Qed.

(* ================================================================= *)
(** ** Every operation keeps the invariant and leaves the snapshots alone *)

Lemma exec_bind {A B} (m : M A) (k : A -> M B) (s : VFS) :
  exec (bind m k) s =
  match outcome m s with
  | Ok a => exec (k a) (exec m s)
  | Throw _ => exec m s
  end.
Proof.
  unfold exec, outcome, bind. destruct (m s) as [s' [a|e]]; reflexivity.
Qed.

Lemma exec_reading {A} (f : VFS -> Result A) (s : VFS) : exec (reading f) s = s.
Proof. reflexivity. Qed.

Lemma outcome_reading {A} (f : VFS -> Result A) (s : VFS) :
  outcome (reading f) s = f s.
Proof. reflexivity. Qed.

Lemma exec_liftR {A} (r : Result A) (s : VFS) : exec (liftR r) s = s.
Proof. reflexivity. Qed.

Lemma outcome_liftR {A} (r : Result A) (s : VFS) : outcome (liftR r) s = r.
Proof. reflexivity. Qed.

(** The rule of sequencing for the states an operation may end in. *)
Lemma evolved_bind {A B} (m : M A) (k : A -> M B) (s0 s : VFS) :
  evolved s0 (exec m s) ->
  (forall a, outcome m s = Ok a -> evolved s0 (exec (k a) (exec m s))) ->
  evolved s0 (exec (bind m k) s).
Proof.
  intros Hm Hk. rewrite exec_bind.
  destruct (outcome m s) as [a|e] eqn:E; [now apply Hk|exact Hm].
Qed.

Lemma mutate_step (o : nat) (f : VFSNode -> VFSNode) (s0 s : VFS) :
  evolved s0 s ->
  ~ In o (storedOids (snapshots s)) ->
  method (snapshots s) (nextOid s) f ->
  evolved s0 (exec (mutate o f) s).
Proof.
  intros Hev Hns Hf. eapply evolved_trans; [exact Hev|].
  apply mutate_evolved; auto. exact (evolved_good _ _ Hev).
Qed.

Lemma notify_step (path : string) (kind : ChangeKind) (s0 s : VFS) :
  evolved s0 s -> evolved s0 (exec (notifyWatchers path kind) s).
Proof. now rewrite notifyWatchers_state. Qed.

(** Sequencing through a computation that only reads: the state stays, and
    the value read comes with the equation that gives it. *)
Ltac seq_read a H :=
  apply evolved_bind;
  [ first [rewrite exec_reading | rewrite exec_liftR]; assumption
  | intros a H;
    first [rewrite exec_reading; rewrite outcome_reading in H
          | rewrite exec_liftR; rewrite outcome_liftR in H] ].

Lemma createDirectoryLoop_cons (recursive : bool) (segment : string)
    (rest : list string) (current : VFSNode) (currentPath0 : string) :
  createDirectoryLoop recursive (segment :: rest) current currentPath0 =
  let currentPath := currentPath0 ++ "/" ++ segment in
  match getChild current segment with
  | Some child =>
      if isDirectory child then
        createDirectoryLoop recursive rest child currentPath
      else if isSymlink child then
        resolved <- reading (fun s => resolveNode s currentPath true) ;;
        match resolved with
        | Some r =>
            if isDirectory r
            then createDirectoryLoop recursive rest r currentPath
            else throw (NotADirectoryError currentPath)
        | None => throw (NotADirectoryError currentPath)
        end
      else throw (NotADirectoryError currentPath)
  | None =>
      if negb recursive && negb (isNil rest)
      then throw (DirectoryNotFoundError currentPath)
      else
        md <- reading (fun s => Ok (defaultDirectoryMode (options s))) ;;
        newDir <- newDirectory segment md ;;
        mutate (oidOf current) (addChild newDir) ;;;
        notifyWatchers currentPath AddDir ;;;
        createDirectoryLoop recursive rest newDir currentPath
  end.
Proof. reflexivity. Qed.

Lemma createDirectoryLoop_evolved (recursive : bool) (segs : list string) :
  forall (current : VFSNode) (currentPath : string) (s0 s : VFS),
    evolved s0 s ->
    live (snapshots s) (nextOid s) current ->
    evolved s0 (exec (createDirectoryLoop recursive segs current currentPath) s).
Proof.
  induction segs as [|segment rest IH]; intros current currentPath s0 s Hev Hcur.
  - exact Hev.
  - rewrite createDirectoryLoop_cons. cbv zeta.
    destruct (getChild current segment) as [child|] eqn:Ec.
    + pose proof (live_child _ _ _ _ _ Hcur Ec) as Hchild.
      destruct (isDirectory child); [now apply IH|].
      destruct (isSymlink child); [|exact Hev].
      seq_read resolved Hres.
      destruct resolved as [r|]; [|exact Hev].
      destruct (isDirectory r); [|exact Hev].
      apply IH; [exact Hev|].
      exact (resolveNode_live _ _ _ _ (evolved_good _ _ Hev) Hres).
    + destruct (negb recursive && negb (isNil rest)); [exact Hev|].
      seq_read md Hmd.
      pose proof (newNode_evolved (fun o => VFSDirectory o segment [] md) s
                    (fun o => eq_refl)
                    (fun o => wellKeyed_directory o segment [] md
                                (NoDup_nil _) (Forall_nil _))
                    (evolved_good _ _ Hev)) as (Hev1 & node & Hnode & Hlive).
      cbv zeta in *.
      fold (newDirectory segment md) in *.
      set (s1 := exec (newDirectory segment md) s) in *.
      assert (Hev01 : evolved s0 s1) by (eapply evolved_trans; eauto).
      apply evolved_bind; [exact Hev01|].
      intros newDir HnewDir. fold s1.
      assert (newDir = node) as -> by (unfold outcome in HnewDir; congruence).
      pose proof (live_evolved _ _ _ Hev1 Hcur) as Hcur1.
      assert (Hev02 : evolved s0 (exec (mutate (oidOf current) (addChild node)) s1)).
      { apply mutate_step; [exact Hev01| |].
        - exact (live_not_stored _ _ _ Hcur1).
        - now apply method_addChild. }
      apply evolved_bind; [exact Hev02|]. intros _ _.
      set (s2 := exec (mutate (oidOf current) (addChild node)) s1) in *.
      apply evolved_bind; [now apply notify_step|]. intros _ _.
      rewrite notifyWatchers_state.
      apply IH; [exact Hev02|].
      assert (Hev12 : evolved s1 s2).
      { apply mutate_evolved; [exact (evolved_good _ _ Hev01)| |].
        - exact (live_not_stored _ _ _ Hcur1).
        - now apply method_addChild. }
      exact (live_evolved _ _ _ Hev12 Hlive).
Qed.

Lemma createDirectory_evolved (dirPath : string) (recursive : bool) (s0 s : VFS) :
  evolved s0 s -> evolved s0 (exec (createDirectory dirPath recursive) s).
Proof.
  intros Hev. unfold createDirectory.
  seq_read r Hr.
  destruct (String.eqb (fullPath r) "/"); [exact Hev|].
  seq_read rt Hrt. injection Hrt as <-.
  apply createDirectoryLoop_evolved; [exact Hev|].
  apply (evolved_good _ _ Hev).
Qed.

(* ================================================================= *)
(** ** [clone] *)

Lemma clone_directory (o : nat) (nm : string) (ch : list (string * VFSNode))
    (md : N) (next : nat) :
  clone (VFSDirectory o nm ch md) next =
  let (ch', nx') := cloneChildren ch (S next) in
  (VFSDirectory next nm ch' md, nx').
Proof. reflexivity. Qed.

Lemma cloneChildren_facts (ch : list (string * VFSNode)) :
  Forall (fun kv => forall next, cloneFacts (snd kv) next) ch ->
  forall next,
    let ch' := fst (cloneChildren ch next) in
    let next' := snd (cloneChildren ch next) in
    next <= next' /\
    (forall kv o, In kv ch' -> In o (oids (snd kv)) -> next <= o < next') /\
    map (fun kv => (fst kv, erase (snd kv))) ch' =
      map (fun kv => (fst kv, erase (snd kv))) ch /\
    map fst ch' = map fst ch /\
    (Forall (fun kv => nodeName (snd kv) = fst kv /\ wellKeyed (snd kv)) ch ->
     Forall (fun kv => nodeName (snd kv) = fst kv /\ wellKeyed (snd kv)) ch').
Proof.
  induction ch as [|[k c] rest IH]; intros Hall next; simpl.
  - split; [lia|]. split; [intros ? ? []|]. split; [reflexivity|].
    split; [reflexivity|auto].
  - inversion Hall as [|? ? Hc Hrest]; subst.
    specialize (Hc next). unfold cloneFacts in Hc. simpl in Hc.
    destruct (clone c next) as [c' nx1] eqn:Ec. simpl in Hc.
    destruct Hc as (Hlt & Hrange & Herase & Hname & Hkeyed).
    specialize (IH Hrest nx1).
    destruct (cloneChildren rest nx1) as [rest' nx2] eqn:Er. simpl in IH.
    destruct IH as (Hle & Hrange' & Herase' & Hkeys' & Hkeyed').
    simpl. split; [lia|]. split; [|split; [|split]].
    + intros kv o [<-|Hin] Ho.
      * simpl in Ho. specialize (Hrange o Ho). lia.
      * specialize (Hrange' kv o Hin Ho). lia.
    + now rewrite Herase, Herase'.
    + now rewrite Hkeys'.
    + intros Hk. inversion Hk as [|? ? [Hn Hw] Hk']; subst. simpl in *.
      constructor; [|now apply Hkeyed'].
      simpl. split; [congruence|now apply Hkeyed].
Qed.

Lemma clone_facts (n : VFSNode) : forall next, cloneFacts n next.
Proof.
  induction n as [o nm c md|o nm ch md IH|o nm t md] using node_induction;
    intros next; unfold cloneFacts.
  - simpl. split; [lia|]. split; [intros x [<-|[]]; lia|].
    repeat split; constructor.
  - rewrite clone_directory.
    pose proof (cloneChildren_facts ch IH (S next)) as Hch.
    destruct (cloneChildren ch (S next)) as [ch' nx'] eqn:Ec. simpl in Hch.
    destruct Hch as (Hle & Hrange & Herase & Hkeys & Hkeyed).
    simpl. split; [lia|]. split; [|split; [|split]].
    + intros x [<-|Hx]; [lia|].
      apply in_flat_map in Hx as (kv & Hin & Hx).
      specialize (Hrange kv x Hin Hx). lia.
    + now rewrite Herase.
    + reflexivity.
    + intros Hk. inversion Hk as [| |? ? ? ? Hnd Hall]; subst.
      constructor; [now rewrite Hkeys|now apply Hkeyed].
  - simpl. split; [lia|]. split; [intros x [<-|[]]; lia|].
    repeat split; constructor.
Qed.

(** The entries of the clone of a directory are those of the directory,
    without the identities. *)
Lemma clone_contents (n : VFSNode) (next : nat) :
  contents (fst (clone n next)) = contents n.
Proof.
  pose proof (clone_facts n next) as (_ & _ & Herase & _).
  unfold contents. destruct n as [| o nm ch md |]; try reflexivity.
  rewrite clone_directory in *.
  destruct (cloneChildren ch (S next)) as [ch' nx']. simpl in *.
  now injection Herase.
Qed.

(** A clone made in a good state is live once it is made, when the tree it
    is made from is keyed by the names. *)
Lemma clone_live (snaps : list (string * Snapshot)) (n : VFSNode) (next : nat) :
  (forall o, In o (storedOids snaps) -> o < next) ->
  wellKeyed n ->
  live snaps (snd (clone n next)) (fst (clone n next)).
Proof.
  intros Hb Hk.
  pose proof (clone_facts n next) as (_ & Hrange & _ & _ & Hkeyed).
  split; [|now apply Hkeyed].
  intros o Ho. specialize (Hrange o Ho). split; [lia|].
  intros Hin. specialize (Hb o Hin). lia.
Qed.

Lemma readFile_step (p : string) (s0 s : VFS) :
  evolved s0 s -> evolved s0 (exec (readFile p) s).
Proof. now rewrite readFile_state. Qed.

Lemma writeNewFile_evolved (parent : VFSNode) (r : PathResolution)
    (content : Content) (s0 s : VFS) :
  evolved s0 s ->
  live (snapshots s) (nextOid s) parent ->
  evolved s0 (exec (writeNewFile parent r content) s).
Proof.
  intros Hev Hparent. unfold writeNewFile.
  seq_read md Hmd.
  pose proof (newNode_evolved (fun o => VFSFile o (name r) (toBuffer content) md) s
                (fun o => eq_refl) (fun o => wellKeyed_file _ _ _ _)
                (evolved_good _ _ Hev)) as (Hev1 & node & Hnode & Hlive).
  cbv zeta in *. fold (newFile (name r) content md) in *.
  set (s1 := exec (newFile (name r) content md) s) in *.
  assert (Hev01 : evolved s0 s1) by (eapply evolved_trans; eauto).
  apply evolved_bind; [exact Hev01|].
  intros file Hfile. fold s1.
  assert (file = node) as -> by (unfold outcome in Hfile; congruence).
  apply evolved_bind; [|intros _ _; apply notify_step];
    (apply mutate_step; [exact Hev01| |now apply method_addChild];
     exact (live_not_stored _ _ _ (live_evolved _ _ _ Hev1 Hparent))).
Qed.

(** Writing into an object found in the live tree, then notifying. *)
Lemma write_notify_evolved (node : VFSNode) (content : Content)
    (path : string) (s0 s : VFS) :
  evolved s0 s ->
  live (snapshots s) (nextOid s) node ->
  evolved s0 (exec (mutate (oidOf node) (write content) ;;;
                    notifyWatchers path Change) s).
Proof.
  intros Hev Hnode.
  apply evolved_bind; [|intros _ _; apply notify_step];
    (apply mutate_step; [exact Hev| |apply method_write];
     exact (live_not_stored _ _ _ Hnode)).
Qed.

Lemma writeFileInternal_evolved (filePath : string) (content : Content)
    (s0 s : VFS) :
  evolved s0 s -> evolved s0 (exec (writeFileInternal filePath content) s).
Proof.
  intros Hev. unfold writeFileInternal.
  seq_read r Hr.
  pose proof (createDirectory_evolved (parentPath r) true s0 s Hev) as Hev1.
  apply evolved_bind; [exact Hev1|]. intros _ _.
  set (s1 := exec (createDirectory (parentPath r) true) s) in *.
  seq_read parent Hparent.
  pose proof (getDirectory_live _ _ _ (evolved_good _ _ Hev1) Hparent) as Hlive.
  destruct (getChild parent (name r)) as [existing|] eqn:Ec;
    [|now apply writeNewFile_evolved].
  pose proof (live_child _ _ _ _ _ Hlive Ec) as Hexisting.
  destruct (isDirectory existing); [exact Hev1|].
  destruct (isFile existing); [now apply write_notify_evolved|].
  seq_read resolved Hres.
  destruct resolved as [rn|]; [|now apply writeNewFile_evolved].
  destruct (isFile rn); [|now apply writeNewFile_evolved].
  apply write_notify_evolved; [exact Hev1|].
  exact (resolveNode_live _ _ _ _ (evolved_good _ _ Hev1) Hres).
Qed.

Lemma getDirectoryOrNull_live (s : VFS) (p : string) (d : VFSNode) :
  good s -> getDirectoryOrNull s p = Some d -> live (snapshots s) (nextOid s) d.
Proof.
  intros Hg. unfold getDirectoryOrNull.
  destruct (getDirectory s p) as [d'|e] eqn:E; [|discriminate].
  intros H. injection H as <-. exact (getDirectory_live _ _ _ Hg E).
Qed.

Lemma deleteFile_evolved (filePath : string) (s0 s : VFS) :
  evolved s0 s -> evolved s0 (exec (deleteFile filePath) s).
Proof.
  intros Hev. unfold deleteFile.
  seq_read r Hr. seq_read parent Hparent. injection Hparent as Hparent.
  destruct parent as [parent|]; [|exact Hev].
  pose proof (getDirectoryOrNull_live _ _ _ (evolved_good _ _ Hev) Hparent)
    as Hlive.
  destruct (getChild parent (name r)) as [node|]; [|exact Hev].
  destruct (isDirectory node); [exact Hev|].
  apply evolved_bind; [|intros _ _; apply notify_step];
    (apply mutate_step; [exact Hev| |apply method_removeChild];
     exact (live_not_stored _ _ _ Hlive)).
Qed.

Lemma copyFile_evolved (srcPath destPath : string) (s0 s : VFS) :
  evolved s0 s -> evolved s0 (exec (copyFile srcPath destPath) s).
Proof.
  intros Hev. unfold copyFile.
  apply evolved_bind; [now apply readFile_step|]. intros content _.
  rewrite readFile_state. now apply writeFileInternal_evolved.
Qed.

Lemma moveFile_evolved (srcPath destPath : string) (s0 s : VFS) :
  evolved s0 s -> evolved s0 (exec (moveFile srcPath destPath) s).
Proof.
  intros Hev. unfold moveFile.
  pose proof (copyFile_evolved srcPath destPath s0 s Hev) as Hev1.
  apply evolved_bind; [exact Hev1|]. intros _ _.
  now apply deleteFile_evolved.
Qed.

Lemma writeFile_evolved (filePath : string) (content : Content)
    (tempSuffix : option string) (s0 s : VFS) :
  evolved s0 s -> evolved s0 (exec (writeFile filePath content tempSuffix) s).
Proof.
  intros Hev. unfold writeFile.
  destruct (tempSuffixOf tempSuffix) as [suffix|];
    [|now apply writeFileInternal_evolved].
  pose proof (writeFileInternal_evolved (filePath ++ suffix) content s0 s Hev)
    as Hev1.
  apply evolved_bind; [exact Hev1|]. intros _ _.
  now apply moveFile_evolved.
Qed.

Lemma appendFile_evolved (filePath : string) (content : Content) (s0 s : VFS) :
  evolved s0 s -> evolved s0 (exec (appendFile filePath content) s).
Proof.
  intros Hev. unfold appendFile.
  seq_read node Hnode.
  destruct node as [node|]; [|now apply writeFile_evolved].
  destruct (negb (isFile node)); [exact Hev|].
  apply mutate_step; [exact Hev| |apply method_append].
  exact (live_not_stored _ _ _
           (resolveNode_live _ _ _ _ (evolved_good _ _ Hev) Hnode)).
Qed.

Lemma removeChildren_evolved (o : nat) (names : list string) :
  forall s0 s,
    evolved s0 s -> ~ In o (storedOids (snapshots s0)) ->
    evolved s0 (exec (removeChildren o names) s).
Proof.
  induction names as [|nm rest IH]; intros s0 s Hev Hns; [exact Hev|].
  simpl.
  assert (Hev1 : evolved s0 (exec (mutate o (removeChild nm)) s)).
  { apply mutate_step; [exact Hev| |apply method_removeChild].
    destruct Hev as (_ & -> & _). exact Hns. }
  apply evolved_bind; [exact Hev1|]. intros _ _. now apply IH.
Qed.

Lemma root_not_stored (s : VFS) :
  good s -> ~ In (oidOf (root s)) (storedOids (snapshots s)).
Proof. intros (Hl & _). exact (live_not_stored _ _ _ Hl). Qed.

Lemma deleteDirectory_evolved (dirPath : string) (recursive : bool)
    (s0 s : VFS) :
  evolved s0 s -> evolved s0 (exec (deleteDirectory dirPath recursive) s).
Proof.
  intros Hev. unfold deleteDirectory.
  seq_read r Hr.
  destruct (isRoot r).
  - destruct (negb recursive); [exact Hev|].
    seq_read rt Hrt. injection Hrt as <-.
    apply removeChildren_evolved; [exact Hev|].
    pose proof (root_not_stored s (evolved_good _ _ Hev)) as H.
    destruct Hev as (_ & Hsn & _). now rewrite Hsn in H.
  - seq_read parent Hparent.
    pose proof (getDirectory_live _ _ _ (evolved_good _ _ Hev) Hparent) as Hlive.
    destruct (getChild parent (name r)) as [node|]; [|exact Hev].
    destruct (negb (isDirectory node)); [exact Hev|].
    destruct (negb recursive && negb (dirIsEmpty node)); [exact Hev|].
    apply evolved_bind; [|intros _ _; apply notify_step];
      (apply mutate_step; [exact Hev| |apply method_removeChild];
       exact (live_not_stored _ _ _ Hlive)).
Qed.

Lemma createSymlink_evolved (tgt linkPath : string) (s0 s : VFS) :
  evolved s0 s -> evolved s0 (exec (createSymlink tgt linkPath) s).
Proof.
  intros Hev. unfold createSymlink.
  seq_read r Hr.
  pose proof (createDirectory_evolved (parentPath r) true s0 s Hev) as Hev1.
  apply evolved_bind; [exact Hev1|]. intros _ _.
  set (s1 := exec (createDirectory (parentPath r) true) s) in *.
  seq_read parent Hparent.
  pose proof (getDirectory_live _ _ _ (evolved_good _ _ Hev1) Hparent) as Hlive.
  destruct (hasChild parent (name r)); [exact Hev1|].
  pose proof (newNode_evolved
                (fun o => VFSSymlink o (name r) tgt DEFAULT_SYMLINK_MODE) s1
                (fun o => eq_refl) (fun o => wellKeyed_symlink _ _ _ _)
                (evolved_good _ _ Hev1)) as (Hev2 & node & Hnode & Hnlive).
  cbv zeta in *. fold (newSymlink (name r) tgt) in *.
  set (s2 := exec (newSymlink (name r) tgt) s1) in *.
  assert (Hev02 : evolved s0 s2) by (eapply evolved_trans; eauto).
  apply evolved_bind; [exact Hev02|].
  intros symlink Hsymlink. fold s2.
  assert (symlink = node) as -> by (unfold outcome in Hsymlink; congruence).
  apply mutate_step; [exact Hev02| |now apply method_addChild].
  exact (live_not_stored _ _ _ (live_evolved _ _ _ Hev2 Hlive)).
Qed.

(** *** Restoring a snapshot *)

Lemma addChildren_evolved (o : nat) (nodes : list VFSNode) :
  forall s0 s,
    evolved s0 s -> ~ In o (storedOids (snapshots s0)) ->
    (forall n, In n nodes -> live (snapshots s) (nextOid s) n) ->
    evolved s0 (exec (addChildren o nodes) s).
Proof.
  induction nodes as [|node rest IH]; intros s0 s Hev Hns Hall; [exact Hev|].
  simpl.
  assert (Hstep : evolved s (exec (mutate o (addChild node)) s)).
  { apply mutate_evolved; [exact (evolved_good _ _ Hev)| |].
    - destruct Hev as (_ & -> & _). exact Hns.
    - apply method_addChild, Hall. now left. }
  apply evolved_bind; [eapply evolved_trans; eauto|]. intros _ _.
  apply IH; [eapply evolved_trans; eauto|exact Hns|].
  intros n Hin. apply (live_evolved _ _ _ Hstep). apply Hall. now right.
Qed.

Lemma get_stored {V} (id : string) (snaps : list (string * V)) (v : V)
    (P : V -> Prop) :
  Forall (fun kv => P (snd kv)) snaps -> JSMap.get id snaps = Some v -> P v.
Proof.
  intros Hall Hget. apply get_In in Hget.
  rewrite Forall_forall in Hall. exact (Hall _ Hget).
Qed.

Lemma cloneSnapshotRoot_evolved (id : string) (s : VFS) :
  good s ->
  evolved s (exec (cloneSnapshotRoot id) s) /\
  forall cloned,
    outcome (cloneSnapshotRoot id) s = Ok cloned ->
    live (snapshots s) (nextOid (exec (cloneSnapshotRoot id) s)) cloned /\
    exists snapshot,
      JSMap.get id (snapshots s) = Some snapshot /\
      cloned = fst (clone (snapRoot snapshot) (nextOid s)).
Proof.
  intros Hg. pose proof Hg as (Hl & Hd & Hb & Hk).
  unfold exec, outcome, cloneSnapshotRoot.
  destruct (JSMap.get id (snapshots s)) as [snapshot|] eqn:Eg.
  2:{ simpl. split; [now apply evolved_refl|discriminate]. }
  pose proof (get_stored id (snapshots s) snapshot (fun v => wellKeyed (snapRoot v))
                Hk Eg) as Hkeyed.
  pose proof (clone_facts (snapRoot snapshot) (nextOid s)) as (Hlt & _).
  pose proof (clone_live (snapshots s) (snapRoot snapshot) (nextOid s) Hb Hkeyed)
    as Hclive.
  destruct (clone (snapRoot snapshot) (nextOid s)) as [cloned next] eqn:Ec.
  simpl in *. split.
  - split; [|repeat split; simpl; auto; lia].
    split; [|split; [|split]]; simpl; auto.
    + eapply live_mono; [|exact Hl]. lia.
    + intros o Ho. specialize (Hb o Ho). lia.
  - intros c H. injection H as <-. split; [exact Hclive|].
    exists snapshot. split; [reflexivity|]. now rewrite Ec.
Qed.

Lemma getChildren_live (snaps : list (string * Snapshot)) (next : nat)
    (d n : VFSNode) :
  live snaps next d -> In n (getChildren d) -> live snaps next n.
Proof.
  intros Hd Hin. unfold getChildren in Hin.
  apply in_map_iff in Hin as (kv & <- & Hin).
  destruct d as [| o nm ch md |]; simpl in Hin; try contradiction.
  exact (live_entry _ _ _ _ _ _ _ Hd Hin).
Qed.

Lemma restoreSnapshot_evolved (id : string) (s0 s : VFS) :
  evolved s0 s -> evolved s0 (exec (restoreSnapshot id) s).
Proof.
  intros Hev. unfold restoreSnapshot.
  seq_read found Hfound.
  destruct (negb found); [exact Hev|].
  seq_read rt Hrt. injection Hrt as <-.
  assert (Hns : ~ In (oidOf (root s)) (storedOids (snapshots s0))).
  { pose proof (root_not_stored s (evolved_good _ _ Hev)) as H.
    destruct Hev as (_ & Hsn & _). now rewrite Hsn in H. }
  pose proof (removeChildren_evolved (oidOf (root s)) (getChildNames (root s))
                s0 s Hev Hns) as Hev1.
  apply evolved_bind; [exact Hev1|]. intros _ _.
  set (s1 := exec (removeChildren (oidOf (root s)) (getChildNames (root s))) s) in *.
  destruct (cloneSnapshotRoot_evolved id s1 (evolved_good _ _ Hev1))
    as (Hev12 & Hcloned).
  set (s2 := exec (cloneSnapshotRoot id) s1) in *.
  apply evolved_bind; [eapply evolved_trans; eauto|].
  intros cloned Hc. fold s2.
  destruct (Hcloned cloned Hc) as (Hlive & _).
  apply addChildren_evolved; [eapply evolved_trans; eauto|exact Hns|].
  intros n Hin.
  assert (Hsn : snapshots s2 = snapshots s1) by apply Hev12.
  rewrite Hsn. eapply getChildren_live; eauto.
Qed.

(* ================================================================= *)
(** ** Snapshots *)

Lemma snapshotId_injective (n m : nat) : snapshotId n = snapshotId m -> n = m.
Proof.
  unfold snapshotId. intros H. simpl in H. injection H as H.
  apply Unsigned.to_uint_inj.
  assert (Hs : Some (Nat.to_uint n) = Some (Nat.to_uint m))
    by (rewrite <- !NilEmpty.usu; now rewrite H).
  now injection Hs.
Qed.

Section SnapshotMap.

Context {V : Type}.

Lemma get_set_same (k : string) (v : V) (m : list (string * V)) :
  JSMap.get k (JSMap.set k v m) = Some v.
Proof.
  induction m as [|[k' v'] m IH]; simpl.
  - now rewrite String.eqb_refl.
  - destruct (String.eqb k' k) eqn:E; simpl.
    + now rewrite String.eqb_refl.
    + now rewrite E.
Qed.

Lemma get_set_other (k k' : string) (v : V) (m : list (string * V)) :
  k <> k' -> JSMap.get k (JSMap.set k' v m) = JSMap.get k m.
Proof.
  intros Hne. induction m as [|[k0 v0] m IH]; simpl.
  - apply not_eq_sym in Hne. apply String.eqb_neq in Hne. now rewrite Hne.
  - destruct (String.eqb k0 k') eqn:E; simpl.
    + apply String.eqb_eq in E. subst k0.
      apply not_eq_sym in Hne. apply String.eqb_neq in Hne. now rewrite Hne.
    + destruct (String.eqb k0 k); [reflexivity|exact IH].
Qed.

End SnapshotMap.

Lemma storedOids_set (id : string) (snap : Snapshot)
    (snaps : list (string * Snapshot)) (o : nat) :
  In o (storedOids (JSMap.set id snap snaps)) ->
  In o (oids (snapRoot snap)) \/ In o (storedOids snaps).
Proof.
  intros H. apply in_flat_map in H as (kv & Hin & Ho).
  apply set_In in Hin as [->|Hin]; [now left|].
  right. exact (storedOids_In _ _ _ Hin Ho).
Qed.

Lemma storedOids_delete (id : string) (snaps : list (string * Snapshot))
    (o : nat) :
  In o (storedOids (JSMap.delete id snaps)) -> In o (storedOids snaps).
Proof.
  intros H. apply in_flat_map in H as (kv & Hin & Ho).
  apply delete_In in Hin. exact (storedOids_In _ _ _ Hin Ho).
Qed.

Lemma createVFS_good (opts : VFSOptions) : good (createVFS opts).
Proof.
  split; [|split; [reflexivity|split; [intros o []|constructor]]].
  split.
  - intros o [<-|[]]. split; [simpl; lia|intros []].
  - constructor; constructor.
Qed.

Lemma createSnapshot_run (nm : option string) (s : VFS) :
  outcome (createSnapshot nm) s = Ok (snapshotId (S (snapshotCounter s))) /\
  root (exec (createSnapshot nm) s) = root s /\
  snapshotCounter (exec (createSnapshot nm) s) = S (snapshotCounter s) /\
  nextOid (exec (createSnapshot nm) s) = snd (clone (root s) (nextOid s)) /\
  exists info,
    snapshots (exec (createSnapshot nm) s) =
    JSMap.set (snapshotId (S (snapshotCounter s)))
      {| snapRoot := fst (clone (root s) (nextOid s)); snapInfo := info |}
      (snapshots s).
Proof.
  unfold outcome, exec, createSnapshot.
  destruct (clone (root s) (nextOid s)) as [cloned next]. simpl.
  repeat split. eexists. reflexivity.
Qed.

Lemma createSnapshot_good (nm : option string) (s : VFS) :
  good s -> good (exec (createSnapshot nm) s).
Proof.
  intros (Hl & Hd & Hb & Hk).
  destruct (createSnapshot_run nm s) as (_ & Hroot & _ & Hnext & info & Hsnaps).
  pose proof (clone_facts (root s) (nextOid s)) as (Hlt & Hrange & _ & _ & Hkeyed).
  unfold good. rewrite Hroot, Hnext, Hsnaps.
  split; [|split; [exact Hd|split]].
  - split; [|apply Hl].
    intros o Ho. destruct (proj1 Hl o Ho) as [Holt Hons]. split; [lia|].
    intros Hin. apply storedOids_set in Hin as [Hin|Hin]; [|contradiction].
    simpl in Hin. specialize (Hrange o Hin). lia.
  - intros o Hin. apply storedOids_set in Hin as [Hin|Hin].
    + simpl in Hin. specialize (Hrange o Hin). lia.
    + specialize (Hb o Hin). lia.
  - apply Forall_forall. intros kv Hin.
    apply set_In in Hin as [->|Hin].
    + simpl. apply Hkeyed, Hl.
    + rewrite Forall_forall in Hk. now apply Hk.
Qed.

Lemma deleteSnapshot_good (id : string) (s : VFS) :
  good s -> good (exec (deleteSnapshot id) s).
Proof.
  intros (Hl & Hd & Hb & Hk). unfold exec, deleteSnapshot, good. simpl.
  split; [|split; [exact Hd|split]].
  - split; [|apply Hl].
    intros o Ho. destruct (proj1 Hl o Ho) as [Holt Hons]. split; [lia|].
    intros Hin. now apply storedOids_delete in Hin.
  - intros o Hin. apply Hb. now apply storedOids_delete in Hin.
  - apply Forall_forall. intros kv Hin. apply delete_In in Hin.
    rewrite Forall_forall in Hk. now apply Hk.
Qed.

Lemma reset_good (s : VFS) : good s -> good (exec reset s).
Proof.
  intros Hg. unfold reset.
  rewrite exec_bind, outcome_reading, exec_reading.
  rewrite exec_bind.
  pose proof (removeChildren_evolved (oidOf (root s)) (getChildNames (root s))
                s s (evolved_refl s Hg) (root_not_stored s Hg)) as Hev.
  set (s1 := exec (removeChildren (oidOf (root s)) (getChildNames (root s))) s) in *.
  destruct (outcome _ s); [|exact (evolved_good _ _ Hev)].
  destruct Hev as ((Hl & Hd & Hb & Hk) & _).
  unfold exec, good. simpl.
  split; [|split; [exact Hd|split; [intros o []|constructor]]].
  split; [|apply Hl].
  intros o Ho. destruct (proj1 Hl o Ho) as [Holt _]. split; [exact Holt|intros []].
Qed.

(** Every call keeps the invariant, whether it returns or raises. *)
Lemma runOp_good (op : Op) (s : VFS) : good s -> good (runOp op s).
Proof.
  intros Hg. pose proof (evolved_refl s Hg) as Hev.
  destruct op; simpl;
    try (eapply evolved_good;
         first [ now apply writeFile_evolved
               | now apply appendFile_evolved
               | now apply deleteFile_evolved
               | now apply createDirectory_evolved
               | now apply deleteDirectory_evolved
               | now apply createSymlink_evolved
               | now apply copyFile_evolved
               | now apply moveFile_evolved
               | now apply restoreSnapshot_evolved ]).
  - now apply createSnapshot_good.
  - now apply deleteSnapshot_good.
  - now apply reset_good.
Qed.

Lemma runOps_good (ops : list Op) (s : VFS) : good s -> good (runOps ops s).
Proof.
  revert s. induction ops as [|op ops IH]; intros s Hg; [exact Hg|].
  simpl. apply IH. now apply runOp_good.
Qed.

(** A call that keeps the snapshots leaves every stored snapshot as it is;
    the only change is the new entry of [createSnapshot], whose id has a
    number above the counter. *)
Lemma runOp_frame (op : Op) (s : VFS) (id : string) :
  good s -> keepsSnapshots op = true ->
  (forall n, snapshotCounter s < n -> id <> snapshotId n) ->
  JSMap.get id (snapshots (runOp op s)) = JSMap.get id (snapshots s) /\
  snapshotCounter s <= snapshotCounter (runOp op s).
Proof.
  intros Hg Hkeep Hid. pose proof (evolved_refl s Hg) as Hev.
  assert (Hframe : forall s', evolved s s' ->
            JSMap.get id (snapshots s') = JSMap.get id (snapshots s) /\
            snapshotCounter s <= snapshotCounter s').
  { intros s' (_ & -> & -> & _). split; [reflexivity|lia]. }
  destruct op; simpl; try discriminate Hkeep;
    try (apply Hframe;
         first [ now apply writeFile_evolved
               | now apply appendFile_evolved
               | now apply deleteFile_evolved
               | now apply createDirectory_evolved
               | now apply deleteDirectory_evolved
               | now apply createSymlink_evolved
               | now apply copyFile_evolved
               | now apply moveFile_evolved
               | now apply restoreSnapshot_evolved ]).
  destruct (createSnapshot_run nm s) as (_ & _ & Hctr & _ & info & Hsnaps).
  rewrite Hctr, Hsnaps. split; [|lia].
  apply get_set_other. apply Hid. lia.
Qed.

Lemma runOps_frame (ops : list Op) (s : VFS) (id : string) :
  good s -> forallb keepsSnapshots ops = true ->
  (forall n, snapshotCounter s < n -> id <> snapshotId n) ->
  JSMap.get id (snapshots (runOps ops s)) = JSMap.get id (snapshots s).
Proof.
  revert s. induction ops as [|op ops IH]; intros s Hg Hkeep Hid; [reflexivity|].
  simpl in *. apply andb_true_iff in Hkeep as [Hop Hops].
  destruct (runOp_frame op s id Hg Hop Hid) as [Hget Hctr].
  rewrite IH; [exact Hget|now apply runOp_good|exact Hops|].
  intros n Hn. apply Hid. lia.
Qed.

(* ================================================================= *)
(** ** Emptying and refilling the root *)

Lemma mutate_root (o : nat) (f : VFSNode -> VFSNode) (s : VFS) :
  oidOf (root s) = o -> root (exec (mutate o f) s) = f (root s).
Proof.
  intros <-. unfold exec, mutate. simpl.
  destruct (root s); simpl; now rewrite Nat.eqb_refl.
Qed.

Lemma removeChild_oid (nm : string) (n : VFSNode) :
  oidOf (removeChild nm n) = oidOf n.
Proof. now destruct n. Qed.

Lemma addChild_oid (node n : VFSNode) : oidOf (addChild node n) = oidOf n.
Proof. now destruct n. Qed.

Lemma removeChildren_run (o : nat) (names : list string) (s : VFS) :
  removeChildren o names s = (exec (removeChildren o names) s, Ok tt).
Proof.
  revert s. induction names as [|nm rest IH]; intros s; [reflexivity|].
  simpl. unfold exec. rewrite !bind_run, mutate_run. now rewrite IH.
Qed.

Lemma addChildren_run (o : nat) (nodes : list VFSNode) (s : VFS) :
  addChildren o nodes s = (exec (addChildren o nodes) s, Ok tt).
Proof.
  revert s. induction nodes as [|node rest IH]; intros s; [reflexivity|].
  simpl. unfold exec. rewrite !bind_run, mutate_run. now rewrite IH.
Qed.

Lemma removeChildren_root (o : nat) (names : list string) (s : VFS) :
  oidOf (root s) = o ->
  root (exec (removeChildren o names) s) =
  fold_left (fun n nm => removeChild nm n) names (root s).
Proof.
  revert s. induction names as [|nm rest IH]; intros s Ho; [reflexivity|].
  simpl. rewrite exec_bind. unfold outcome. rewrite mutate_run. simpl.
  rewrite IH by (rewrite (mutate_root _ _ _ Ho); now rewrite removeChild_oid).
  now rewrite (mutate_root _ _ _ Ho).
Qed.

Lemma addChildren_root (o : nat) (nodes : list VFSNode) (s : VFS) :
  oidOf (root s) = o ->
  root (exec (addChildren o nodes) s) =
  fold_left (fun n node => addChild node n) nodes (root s).
Proof.
  revert s. induction nodes as [|node rest IH]; intros s Ho; [reflexivity|].
  simpl. rewrite exec_bind. unfold outcome. rewrite mutate_run. simpl.
  rewrite IH by (rewrite (mutate_root _ _ _ Ho); now rewrite addChild_oid).
  now rewrite (mutate_root _ _ _ Ho).
Qed.

(** One [removeChild] per name empties a directory. *)
Lemma removeChild_all (o : nat) (nm : string) (md : N)
    (ch : list (string * VFSNode)) :
  fold_left (fun n k => removeChild k n) (map fst ch) (VFSDirectory o nm ch md)
  = VFSDirectory o nm [] md.
Proof.
  induction ch as [|[k v] rest IH]; [reflexivity|].
  simpl. now rewrite String.eqb_refl.
Qed.

Lemma removeChild_all_children (n : VFSNode) :
  let n' := fold_left (fun n k => removeChild k n) (getChildNames n) n in
  childrenOf n' = [] /\ oidOf n' = oidOf n /\ nodeName n' = nodeName n /\
  isDirectory n' = isDirectory n.
Proof.
  destruct n as [| o nm ch md |]; try (now repeat split).
  unfold getChildNames.
  change (childrenOf (VFSDirectory o nm ch md)) with ch.
  cbv zeta. rewrite removeChild_all. now repeat split.
Qed.

Lemma addChild_all (o : nat) (nm : string) (md : N) (nodes : list VFSNode) :
  forall ch,
    fold_left (fun n node => addChild node n) nodes (VFSDirectory o nm ch md)
    = VFSDirectory o nm
        (fold_left (fun m node => JSMap.set (nodeName node) node m) nodes ch) md.
Proof.
  induction nodes as [|node rest IH]; intros ch; [reflexivity|].
  simpl. now rewrite IH.
Qed.

(** Setting the entries of a map keyed by the names, one by one, rebuilds
    it. *)
Lemma set_all (ch acc : list (string * VFSNode)) :
  NoDup (map fst (acc ++ ch)) ->
  Forall (fun kv => nodeName (snd kv) = fst kv) ch ->
  fold_left (fun m node => JSMap.set (nodeName node) node m) (map snd ch) acc
  = (acc ++ ch)%list.
Proof.
  revert acc. induction ch as [|[k v] rest IH]; intros acc Hnd Hall.
  - simpl. now rewrite app_nil_r.
  - inversion Hall as [|? ? Hk Hrest]; subst. simpl in Hk. simpl.
    rewrite Hk, set_fresh.
    + rewrite IH; [now rewrite <- app_assoc| |exact Hrest].
      now rewrite <- app_assoc.
    + rewrite map_app in Hnd. simpl in Hnd.
      apply NoDup_remove_2 in Hnd. intros Hin. apply Hnd.
      apply in_or_app. now left.
Qed.

Lemma wellKeyed_children (n : VFSNode) :
  wellKeyed n ->
  fold_left (fun m node => JSMap.set (nodeName node) node m) (getChildren n) []
  = childrenOf n.
Proof.
  intros Hk. destruct n as [| o nm ch md |]; try reflexivity.
  inversion Hk as [| |? ? ? ? Hnd Hall]; subst.
  unfold getChildren. simpl. apply (set_all ch []); [exact Hnd|].
  eapply Forall_impl; [|exact Hall]. now intros kv [H _].
Qed.

Lemma cloneSnapshotRoot_run (id : string) (s : VFS) (snapshot : Snapshot) :
  JSMap.get id (snapshots s) = Some snapshot ->
  outcome (cloneSnapshotRoot id) s =
    Ok (fst (clone (snapRoot snapshot) (nextOid s))) /\
  root (exec (cloneSnapshotRoot id) s) = root s.
Proof.
  intros Hget. unfold outcome, exec, cloneSnapshotRoot. rewrite Hget.
  now destruct (clone (snapRoot snapshot) (nextOid s)).
Qed.

(** Restoring a stored snapshot gives the root the entries of the stored
    tree. *)
Lemma restoreSnapshot_exact (id : string) (s : VFS) (snapshot : Snapshot) :
  good s ->
  JSMap.get id (snapshots s) = Some snapshot ->
  outcome (restoreSnapshot id) s = Ok tt /\
  contents (root (exec (restoreSnapshot id) s)) = contents (snapRoot snapshot).
Proof.
  intros Hg Hget.
  pose proof Hg as (Hl & Hd & Hb & Hk).
  assert (Hhas : JSMap.has id (snapshots s) = true)
    by (unfold JSMap.has; now rewrite Hget).
  set (o := oidOf (root s)).
  set (s1 := exec (removeChildren o (getChildNames (root s))) s).
  pose proof (removeChildren_evolved o (getChildNames (root s)) s s
                (evolved_refl s Hg) (root_not_stored s Hg)) as Hev1.
  fold s1 in Hev1.
  assert (Hget1 : JSMap.get id (snapshots s1) = Some snapshot).
  { destruct Hev1 as (_ & -> & _). exact Hget. }
  destruct (cloneSnapshotRoot_run id s1 snapshot Hget1) as (Hout2 & Hroot2).
  set (cloned := fst (clone (snapRoot snapshot) (nextOid s1))) in *.
  set (s2 := exec (cloneSnapshotRoot id) s1) in *.
  assert (Hroot1 : root s1 = fold_left (fun n k => removeChild k n)
                               (getChildNames (root s)) (root s))
    by (apply removeChildren_root; reflexivity).
  destruct (removeChild_all_children (root s)) as (Hch & Hoid & _ & Hdir).
  cbv zeta in Hch, Hoid, Hdir. rewrite <- Hroot1 in Hch, Hoid, Hdir.
  assert (Hrun : restoreSnapshot id s =
                 (exec (addChildren o (getChildren cloned)) s2, Ok tt)).
  { unfold restoreSnapshot.
    rewrite bind_run. unfold reading at 1. rewrite Hhas. cbv beta iota.
    change (negb true) with false. cbv iota.
    rewrite bind_run. unfold reading at 1. cbv beta iota.
    rewrite bind_run. fold o. rewrite removeChildren_run. fold s1. cbv beta iota.
    rewrite bind_run.
    replace (cloneSnapshotRoot id s1) with (s2, Ok cloned)
      by (unfold s2, exec; unfold outcome in Hout2;
          destruct (cloneSnapshotRoot id s1); simpl in *; now subst).
    cbv beta iota. apply addChildren_run. }
  unfold outcome, exec. rewrite Hrun. simpl. split; [reflexivity|].
  rewrite addChildren_root by (rewrite Hroot2; exact Hoid).
  rewrite Hroot2. rewrite Hd in Hdir.
  destruct (root s1) as [| o1 nm1 ch1 md1 |] eqn:Er; try discriminate Hdir.
  simpl in Hch. subst ch1.
  rewrite addChild_all.
  assert (Hkeyed : wellKeyed cloned).
  { apply (clone_facts (snapRoot snapshot) (nextOid s1)).
    exact (get_stored id (snapshots s) snapshot
             (fun v => wellKeyed (snapRoot v)) Hk Hget). }
  rewrite (wellKeyed_children cloned Hkeyed).
  unfold contents at 1. simpl childrenOf.
  apply clone_contents.
Qed.

(** C5. Take any state reached from a new file system, and create a
    snapshot there.  Whatever calls come next, as long as none deletes or
    clears the snapshots (writes, appends, deletions, directory and symlink
    creations, copies, moves, other snapshots, and restorations of this or
    another snapshot), the stored snapshot stays the very same tree, made
    of the same objects, and restoring it succeeds and gives the root the
    entries (names, kinds, contents, targets, modes) it had when the
    snapshot was created. *)
Theorem snapshot_never_mutated (opts : VFSOptions) (before after : list Op)
    (nm : option string)
    (Hkeep : forallb keepsSnapshots after = true) :
  let s := runOps before (createVFS opts) in
  let id := snapshotId (S (snapshotCounter s)) in
  let s1 := exec (createSnapshot nm) s in
  let s2 := runOps after s1 in
  outcome (createSnapshot nm) s = Ok id /\
  (exists snapshot,
      JSMap.get id (snapshots s1) = Some snapshot /\
      JSMap.get id (snapshots s2) = Some snapshot /\
      erase (snapRoot snapshot) = erase (root s)) /\
  outcome (restoreSnapshot id) s2 = Ok tt /\
  contents (root (exec (restoreSnapshot id) s2)) = contents (root s).
Proof.
  intros s id s1 s2.
  assert (Hg : good s) by apply runOps_good, createVFS_good.
  assert (Hg1 : good s1) by now apply createSnapshot_good.
  assert (Hg2 : good s2) by now apply runOps_good.
  destruct (createSnapshot_run nm s) as (Hout & _ & Hctr & _ & info & Hsnaps).
  fold s1 in Hctr, Hsnaps. fold id in Hout, Hsnaps.
  set (snapshot := {| snapRoot := fst (clone (root s) (nextOid s));
                      snapInfo := info |}) in *.
  assert (Hget1 : JSMap.get id (snapshots s1) = Some snapshot)
    by (rewrite Hsnaps; apply get_set_same).
  assert (Hget2 : JSMap.get id (snapshots s2) = Some snapshot).
  { unfold s2. rewrite runOps_frame; auto.
    intros n Hn Heq. apply snapshotId_injective in Heq. lia. }
  destruct (restoreSnapshot_exact id s2 snapshot Hg2 Hget2) as (Hok & Hcontents).
  split; [exact Hout|]. split; [|split; [exact Hok|]].
  - exists snapshot. split; [exact Hget1|]. split; [exact Hget2|].
    apply (clone_facts (root s) (nextOid s)).
  - rewrite Hcontents. apply clone_contents.
Qed.

(** An instance: an empty file is written, the snapshot is taken, the file
    is rewritten, the snapshot restored, the file deleted. *)
Lemma snapshot_never_mutated_witness :
  let before := [OpWriteFile "/empty.txt" (Str "") None] in
  let after := [OpWriteFile "/empty.txt" (Str "not empty anymore") None;
                OpRestoreSnapshot "snapshot-1";
                OpDeleteFile "/empty.txt"] in
  forallb keepsSnapshots after = true /\
  let s := runOps before (createVFS DEFAULT_OPTIONS) in
  let id := snapshotId (S (snapshotCounter s)) in
  let s1 := exec (createSnapshot None) s in
  let s2 := runOps after s1 in
  outcome (createSnapshot None) s = Ok id /\
  (exists snapshot,
      JSMap.get id (snapshots s1) = Some snapshot /\
      JSMap.get id (snapshots s2) = Some snapshot /\
      erase (snapRoot snapshot) = erase (root s)) /\
  outcome (restoreSnapshot id) s2 = Ok tt /\
  contents (root (exec (restoreSnapshot id) s2)) = contents (root s).
Proof.
  intros before after.
  assert (H : forallb keepsSnapshots after = true) by reflexivity.
  split; [exact H|].
  exact (snapshot_never_mutated DEFAULT_OPTIONS before after None H).
Defined.

(** The test of the repository: the snapshot keeps the empty file. *)
Example snapshot_keeps_empty_file :
  let s := exec (writeFile "/empty.txt" (Str "") None ;;;
                 createSnapshot None ;;;
                 writeFile "/empty.txt" (Str "not empty anymore") None ;;;
                 restoreSnapshot "snapshot-1") emptyVFS in
  outcome (readFile "/empty.txt") s = Ok [].
Proof. reflexivity. Qed.

(* ================================================================= *)
(** ** The root directory *)

Lemma reset_root (s : VFS) :
  root (exec reset s) =
  root (exec (removeChildren (oidOf (root s)) (getChildNames (root s))) s).
Proof.
  unfold exec at 1, reset.
  rewrite bind_run. unfold reading at 1. cbv beta iota.
  rewrite bind_run, removeChildren_run. reflexivity.
Qed.

(** Every call leaves the root object in place. *)
Lemma runOp_root_oid (op : Op) (s : VFS) :
  good s -> oidOf (root (runOp op s)) = oidOf (root s).
Proof.
  intros Hg. pose proof (evolved_refl s Hg) as Hev.
  assert (Hframe : forall s', evolved s s' -> oidOf (root s') = oidOf (root s))
    by (intros s' H; apply H).
  destruct op; simpl;
    try (apply Hframe;
         first [ now apply writeFile_evolved
               | now apply appendFile_evolved
               | now apply deleteFile_evolved
               | now apply createDirectory_evolved
               | now apply deleteDirectory_evolved
               | now apply createSymlink_evolved
               | now apply copyFile_evolved
               | now apply moveFile_evolved
               | now apply restoreSnapshot_evolved ]).
  - now destruct (createSnapshot_run nm s) as (_ & -> & _).
  - reflexivity.
  - rewrite reset_root. apply Hframe.
    apply removeChildren_evolved; [exact Hev|now apply root_not_stored].
Qed.

Lemma runOps_root (opts : VFSOptions) (ops : list Op) :
  isDirectory (root (runOps ops (createVFS opts))) = true /\
  oidOf (root (runOps ops (createVFS opts))) = 0.
Proof.
  assert (H : forall s, good s ->
            isDirectory (root (runOps ops s)) = true /\
            oidOf (root (runOps ops s)) = oidOf (root s)).
  { induction ops as [|op ops IH]; intros s Hg.
    - split; [apply Hg|reflexivity].
    - simpl. destruct (IH (runOp op s) (runOp_good op s Hg)) as [Hd Ho].
      split; [exact Hd|]. rewrite Ho. now apply runOp_root_oid. }
  destruct (H (createVFS opts) (createVFS_good opts)) as [Hd Ho].
  split; [exact Hd|exact Ho].
Qed.

(** C10. [deleteDirectory('/')] without [recursive] raises
    [DirectoryNotEmpty] in every state, also when the root has no child, and
    leaves the store as it is.  With [recursive] it returns, the root has no
    child left and is the same object, of the same kind and name.  In every
    state reached from a new file system the root is a directory, and it is
    the object built with the file system. *)
Theorem deleteDirectory_root_never_removed (s : VFS) (opts : VFSOptions)
    (ops : list Op) :
  deleteDirectory "/" false s = (s, Throw (DirectoryNotEmptyError "/")) /\
  deleteDirectory "/" false (createVFS opts) =
    (createVFS opts, Throw (DirectoryNotEmptyError "/")) /\
  (let s' := exec (deleteDirectory "/" true) s in
   outcome (deleteDirectory "/" true) s = Ok tt /\
   childrenOf (root s') = [] /\
   oidOf (root s') = oidOf (root s) /\
   nodeName (root s') = nodeName (root s) /\
   isDirectory (root s') = isDirectory (root s)) /\
  (isDirectory (root (runOps ops (createVFS opts))) = true /\
   oidOf (root (runOps ops (createVFS opts))) = 0).
Proof.
  split; [reflexivity|]. split; [reflexivity|]. split; [|apply runOps_root].
  assert (Hrun : deleteDirectory "/" true s =
                 removeChildren (oidOf (root s)) (getChildNames (root s)) s)
    by reflexivity.
  cbv zeta. unfold outcome, exec. rewrite Hrun, removeChildren_run.
  simpl fst. simpl snd. split; [reflexivity|].
  rewrite removeChildren_root by reflexivity.
  apply removeChild_all_children.
Qed.

(** The fifth scenario of the specification. *)
Example deleteDirectory_scenario :
  let s := exec (writeFile "/d/file.txt" (Str "x") None) emptyVFS in
  outcome (deleteDirectory "/d" false) s = Throw (DirectoryNotEmptyError "/d") /\
  outcome (deleteDirectory "/d" true) s = Ok tt /\
  exists_ (exec (deleteDirectory "/d" true) s) "/d" = false.
Proof. repeat split; reflexivity. Qed.

(* ================================================================= *)
(** ** The shape of a normalized path *)

(** Every normalized path is the rendering of a canonical stack. *)
Lemma normalizePath_canonical (p : string) :
  exists isAbs stack,
    canonicalStack isAbs stack /\ normalizePath p = renderPath isAbs stack.
Proof.
  destruct (string_dec p "") as [->|Hne].
  - exists true, []. split; [|reflexivity].
    split; [constructor|split; [exact I|intros _ []]].
  - rewrite (normalizePath_unfold _ Hne). cbv zeta.
    eexists _, _. split; [|reflexivity].
    apply normLoop_canonical.
    + apply split_parts_free.
    + assert (H : JS.includesChar JS.backslash
                    (JS.collapseSlashes (JS.replaceBackslashes p)) = false)
        by (apply collapseSlashes_keeps_free, replaceBackslashes_free).
      revert H. generalize (JS.collapseSlashes (JS.replaceBackslashes p)).
      intros s. induction s as [|d s IH]; simpl; intros H.
      * constructor; [reflexivity|constructor].
      * apply orb_false_iff in H as [Hd Hs]. specialize (IH Hs).
        destruct (Ascii.eqb d JS.slash).
        -- constructor; [reflexivity|exact IH].
        -- destruct (JS.split JS.slash s) as [|q qs];
             inversion IH; subst; constructor; simpl; try rewrite Hd; auto.
    + split; [constructor|split; [exact I|intros _ []]].
Qed.

(** The parts of a canonical stack, bottom first. *)
Lemma canonical_rev_clean (isAbs : bool) (stack : list string) :
  canonicalStack isAbs stack -> Forall cleanPart (rev stack).
Proof. intros (H & _ & _). now apply Forall_rev. Qed.

Lemma join_nonempty (x : string) (rest : list string) :
  x <> "" -> JS.join "/" (x :: rest) <> "".
Proof.
  intros Hne. destruct x; [congruence|]. destruct rest; discriminate.
Qed.

(** The rendering of a stack that is not empty. *)
Lemma renderPath_cons (isAbs : bool) (stack : list string) (x : string)
    (rest : list string) :
  rev stack = x :: rest -> x <> "" ->
  renderPath isAbs stack =
  if isAbs then "/" ++ JS.join "/" (x :: rest) else JS.join "/" (x :: rest).
Proof.
  intros Hrev Hne. unfold renderPath. rewrite Hrev.
  destruct isAbs; [reflexivity|].
  pose proof (join_nonempty x rest Hne) as H.
  destruct (JS.join "/" (x :: rest)); [congruence|reflexivity].
Qed.

Lemma renderPath_nil (isAbs : bool) :
  renderPath isAbs [] = if isAbs then "/" else ".".
Proof. now destruct isAbs. Qed.

Lemma rev_cases {A} (l : list A) : l = [] \/ exists x rest, rev l = x :: rest.
Proof.
  destruct l as [|a l]; [now left|right].
  destruct (rev (a :: l)) as [|x rest] eqn:E; [|eauto].
  apply (f_equal (@List.length A)) in E. rewrite length_rev in E. discriminate.
Qed.

Lemma filterBoolean_clean (parts : list string) :
  Forall cleanPart parts -> JS.filterBoolean parts = parts.
Proof.
  induction 1 as [|x l (Hne & _) _ IH]; [reflexivity|].
  simpl. destruct x; [congruence|]. simpl. now rewrite IH.
Qed.

Lemma clean_free (parts : list string) :
  Forall cleanPart parts ->
  Forall (fun p => JS.includesChar JS.slash p = false) parts.
Proof. apply Forall_impl. now intros x (_ & _ & H & _). Qed.

(** The segments of a rendered canonical stack. *)
Lemma segments_render (isAbs : bool) (stack : list string) :
  canonicalStack isAbs stack ->
  JS.filterBoolean (JS.split JS.slash (renderPath isAbs stack)) =
  match stack with
  | [] => if isAbs then [] else ["."]
  | _ => rev stack
  end.
Proof.
  intros Hc.
  pose proof (canonical_rev_clean _ _ Hc) as Hclean.
  destruct (rev_cases stack) as [->|(x & rest & Hrev)].
  { now destruct isAbs. }
  assert (Hx : x <> "") by (rewrite Hrev in Hclean; inversion Hclean as [|? ? (H & _)]; auto).
  rewrite (renderPath_cons _ _ _ _ Hrev Hx).
  assert (Hstack : stack <> []) by (intros ->; discriminate).
  replace (match stack with [] => if isAbs then [] else ["."] | _ => rev stack end)
    with (rev stack) by (destruct stack; congruence).
  rewrite <- Hrev.
  destruct isAbs.
  - change ("/" ++ JS.join "/" (rev stack))
      with (String JS.slash (JS.join "/" (rev stack))).
    change (JS.split JS.slash (String JS.slash (JS.join "/" (rev stack))))
      with ("" :: JS.split JS.slash (JS.join "/" (rev stack))).
    rewrite split_join_slash; [|rewrite Hrev; discriminate|now apply clean_free].
    simpl. now apply filterBoolean_clean.
  - rewrite split_join_slash; [|rewrite Hrev; discriminate|now apply clean_free].
    now apply filterBoolean_clean.
Qed.

Lemma splitPath_render (isAbs : bool) (stack : list string) :
  canonicalStack isAbs stack ->
  splitPath (renderPath isAbs stack) =
  match stack with
  | [] => if isAbs then [] else ["."]
  | _ => rev stack
  end.
Proof.
  intros Hc. unfold splitPath. rewrite normalizePath_render by exact Hc.
  now apply segments_render.
Qed.

Lemma renderPath_isAbsolute (isAbs : bool) (stack : list string) :
  canonicalStack isAbs stack -> isAbsolute (renderPath isAbs stack) = isAbs.
Proof.
  intros Hc. pose proof (canonical_rev_clean _ _ Hc) as Hclean.
  destruct (rev_cases stack) as [->|(x & rest & Hrev)].
  { now destruct isAbs. }
  rewrite Hrev in Hclean. inversion Hclean as [|? ? (Hx & _ & Hs & _) _]; subst.
  rewrite (renderPath_cons _ _ _ _ Hrev Hx).
  destruct isAbs; [reflexivity|].
  now apply startsWithChar_join_free.
Qed.

(* A normalized path, from its segments. *)
Lemma normalizePath_split_join_eq (p : string) :
  normalizePath p =
  (if isAbsolute (normalizePath p) then "/" else "") ++ JS.join "/" (splitPath p).
Proof.
  destruct (normalizePath_canonical p) as (isAbs & stack & Hc & Hp).
  unfold splitPath.
  rewrite Hp, (renderPath_isAbsolute _ _ Hc), (segments_render _ _ Hc).
  pose proof (canonical_rev_clean _ _ Hc) as Hclean.
  destruct (rev_cases stack) as [->|(x & rest & Hrev)].
  { now destruct isAbs. }
  assert (Hx : x <> "") by (rewrite Hrev in Hclean; inversion Hclean as [|? ? (H & _)]; auto).
  rewrite (renderPath_cons _ _ _ _ Hrev Hx).
  replace (match stack with [] => if isAbs then [] else ["."] | _ => rev stack end)
    with (rev stack) by (destruct stack; [discriminate|reflexivity]).
  rewrite Hrev. now destruct isAbs.
Qed.

(** X2. A normalized path is its segments joined by single slashes, after
    a leading slash when it is absolute. *)
Theorem normalizePath_split_join (p : string) :
  normalizePath p =
  (if isAbsolute (normalizePath p) then "/" else "") ++ JS.join "/" (splitPath p).
Proof. exact (normalizePath_split_join_eq p). Qed.

Lemma normalizePath_fixed (p : string) :
  normalizePath (normalizePath p) = normalizePath p.
Proof.
  destruct (normalizePath_canonical p) as (isAbs & stack & Hc & ->).
  now apply normalizePath_render.
Qed.

Lemma endsWithChar_app (c : ascii) (s t : string) :
  t <> "" -> JS.endsWithChar c (s ++ t) = JS.endsWithChar c t.
Proof.
  intros Ht. induction s as [|a s IH]; [reflexivity|].
  simpl. destruct (s ++ t) eqn:E; [|exact IH].
  destruct s; [simpl in E; congruence|discriminate].
Qed.

Lemma endsWithChar_free (c : ascii) (x : string) :
  JS.includesChar c x = false -> JS.endsWithChar c x = false.
Proof.
  induction x as [|a x IH]; [reflexivity|]. simpl.
  intros H. apply orb_false_iff in H as [Ha Hx].
  destruct x; [exact Ha|now apply IH].
Qed.

Lemma append_assoc (a b c : string) : (a ++ b) ++ c = a ++ (b ++ c).
Proof. induction a as [|x a IH]; simpl; congruence. Qed.

Lemma length_append (a b : string) :
  String.length (a ++ b) = String.length a + String.length b.
Proof. induction a as [|x a IH]; simpl; congruence. Qed.

Lemma join_snoc (parts : list string) (x : string) :
  parts <> [] ->
  JS.join "/" (parts ++ [x]) = JS.join "/" parts ++ "/" ++ x.
Proof.
  induction parts as [|y rest IH]; [congruence|]. intros _.
  destruct rest as [|z rest'].
  - reflexivity.
  - change (JS.join "/" ((y :: z :: rest') ++ [x]))
      with (y ++ "/" ++ JS.join "/" ((z :: rest') ++ [x])).
    rewrite IH by discriminate.
    change (JS.join "/" (y :: z :: rest'))
      with (y ++ "/" ++ JS.join "/" (z :: rest')).
    now rewrite !append_assoc.
Qed.

Lemma join_last_clean (c : ascii) (parts : list string) (x : string) :
  x <> "" -> JS.includesChar c x = false ->
  JS.endsWithChar c (JS.join "/" (parts ++ [x])) = false.
Proof.
  intros Hne Hx. destruct parts as [|y rest].
  - now apply endsWithChar_free.
  - rewrite join_snoc by discriminate.
    rewrite endsWithChar_app by discriminate.
    change ("/" ++ x) with (String "/" x).
    simpl. destruct x; [congruence|]. now apply endsWithChar_free.
Qed.

Lemma rev_snoc_cases {A} (l : list A) :
  l = [] \/ exists init last, rev l = (init ++ [last])%list /\ l = last :: rev init.
Proof.
  destruct l as [|a l]; [now left|right].
  exists (rev l), a. split; [reflexivity|now rewrite rev_involutive].
Qed.

(* What every normalized path looks like, in one statement for the proofs
   below. *)
Lemma normalizePath_facts (p : string) :
  let q := normalizePath p in
  q <> "" /\
  JS.includesChar JS.backslash q = false /\
  JS.collapseSlashes q = q /\
  (JS.endsWithChar JS.slash q = true -> q = "/") /\
  Forall (fun seg => seg <> "" /\ JS.includesChar JS.slash seg = false)
    (splitPath p) /\
  (isAbsolute q = true -> ~ In "." (splitPath p) /\ ~ In ".." (splitPath p)).
Proof.
  cbv zeta. unfold splitPath.
  destruct (normalizePath_canonical p) as (isAbs & stack & Hc & ->).
  rewrite (renderPath_isAbsolute _ _ Hc), (segments_render _ _ Hc).
  pose proof (canonical_rev_clean _ _ Hc) as Hclean.
  destruct (rev_snoc_cases stack) as [->|(init & last & Hrev & Hstack)].
  { destruct isAbs; simpl; repeat split; try discriminate; auto;
      try (constructor; [split; [discriminate|reflexivity]|constructor]);
      intros [H|[]]; discriminate. }
  assert (Hne : stack <> []) by (rewrite Hstack; discriminate).
  replace (match stack with [] => if isAbs then [] else ["."] | _ => rev stack end)
    with (rev stack) by (destruct stack; congruence).
  destruct (rev stack) as [|x rest] eqn:Ex; [now destruct init|].
  assert (Hx : x <> "") by (inversion Hclean as [|? ? (H & _)]; auto).
  rewrite (renderPath_cons _ _ _ _ Ex Hx).
  assert (Hlast : last <> "" /\ JS.includesChar JS.slash last = false).
  { rewrite Hrev in Hclean. apply Forall_app in Hclean as [_ Hl].
    inversion Hl as [|? ? (H1 & _ & H2 & _)]; auto. }
  assert (Hfree_b : JS.includesChar JS.backslash (JS.join "/" (x :: rest)) = false).
  { apply includesChar_join; [reflexivity|].
    eapply Forall_impl; [|exact Hclean]. now intros y (_ & _ & _ & H). }
  assert (Hcollapse : JS.collapseSlashes (JS.join "/" (x :: rest))
                      = JS.join "/" (x :: rest)).
  { apply collapseSlashes_join.
    eapply Forall_impl; [|exact Hclean]. now intros y (? & _ & ? & _). }
  assert (Hstart : JS.startsWithChar JS.slash (JS.join "/" (x :: rest)) = false).
  { inversion Hclean as [|? ? (_ & _ & Hs & _)]; subst.
    now apply startsWithChar_join_free. }
  assert (Hend : JS.endsWithChar JS.slash (JS.join "/" (x :: rest)) = false)
    by (rewrite Hrev; now apply join_last_clean).
  assert (Hsegs : Forall (fun seg => seg <> "" /\ JS.includesChar JS.slash seg = false)
                    (x :: rest)).
  { eapply Forall_impl; [|exact Hclean]. now intros y (? & _ & ? & _). }
  assert (Hdots : isAbs = true -> ~ In "." (x :: rest) /\ ~ In ".." (x :: rest)).
  { intros Ha. split.
    - intros Hin. rewrite Forall_forall in Hclean.
      destruct (Hclean _ Hin) as (_ & H & _). congruence.
    - intros Hin. destruct Hc as (_ & _ & Hnd). apply (Hnd Ha).
      apply in_rev. now rewrite Ex. }
  destruct isAbs.
  - change ("/" ++ JS.join "/" (x :: rest))
      with (String JS.slash (JS.join "/" (x :: rest))).
    split; [discriminate|]. split; [exact Hfree_b|].
    split; [rewrite collapseSlashes_sep by exact Hstart; now rewrite Hcollapse|].
    split; [|split; [exact Hsegs|exact Hdots]].
    change (String JS.slash (JS.join "/" (x :: rest)))
      with ("/" ++ JS.join "/" (x :: rest)).
    rewrite endsWithChar_app by (now apply join_nonempty). congruence.
  - split; [now apply join_nonempty|]. split; [exact Hfree_b|].
    split; [exact Hcollapse|]. split; [congruence|].
    split; [exact Hsegs|discriminate].
Qed.

(** X1. The result of [normalizePath] is never empty, has no backslash and
    no two slashes in a row, ends with a slash only when it is the root, is
    made of segments that are not empty and hold no slash, and, when it is
    absolute, has no [.] and no [..] segment. *)
Theorem normalizePath_shape (p : string) :
  let q := normalizePath p in
  q <> "" /\
  JS.includesChar JS.backslash q = false /\
  JS.collapseSlashes q = q /\
  (JS.endsWithChar JS.slash q = true -> q = "/") /\
  Forall (fun seg => seg <> "" /\ JS.includesChar JS.slash seg = false)
    (splitPath p) /\
  (isAbsolute q = true -> ~ In "." (splitPath p) /\ ~ In ".." (splitPath p)).
Proof. exact (normalizePath_facts p). Qed.

(** *** [dirname] and [basename] *)

Lemma lastIndexOf_none (c : ascii) (s : string) :
  JS.lastIndexOf c s = None -> JS.includesChar c s = false.
Proof.
  induction s as [|d s IH]; [reflexivity|]. simpl.
  destruct (JS.lastIndexOf c s); [discriminate|].
  destruct (Ascii.eqb d c); [discriminate|]. intros _. now apply IH.
Qed.

(** The string around the last occurrence of a character. *)
Lemma lastIndexOf_split (c : ascii) (s : string) (k : nat) :
  JS.lastIndexOf c s = Some k ->
  s = JS.sliceTo k s ++ String c (JS.sliceFrom (S k) s).
Proof.
  revert k. induction s as [|d s IH]; intros k; [discriminate|]. simpl.
  destruct (JS.lastIndexOf c s) as [i|] eqn:E.
  - intros H. injection H as <-. simpl. f_equal. now apply IH.
  - destruct (Ascii.eqb d c) eqn:Ed; [|discriminate].
    intros H. injection H as <-. apply Ascii.eqb_eq in Ed. now subst.
Qed.

(** A leading slash more does not change the normalized path. *)
Lemma normalizePath_extra_slash (q : string) :
  JS.startsWithChar JS.slash q = true ->
  normalizePath (String JS.slash q) = normalizePath q.
Proof.
  intros Hq. destruct q as [|d q]; [discriminate|]. simpl in Hq.
  apply Ascii.eqb_eq in Hq. subst d. reflexivity.
Qed.

(** A leading [./] does not change the normalized path of a relative
    normalized path. *)
Lemma normalizePath_dot_slash (q : string) :
  q <> "" -> JS.startsWithChar JS.slash q = false ->
  JS.startsWithChar JS.backslash q = false ->
  normalizePath ("./" ++ q) = normalizePath q.
Proof.
  intros Hne Hs Hb.
  rewrite (normalizePath_unfold q Hne), (normalizePath_unfold ("./" ++ q))
    by discriminate.
  cbv zeta.
  assert (Hstart : JS.startsWithChar JS.slash (JS.replaceBackslashes q) = false).
  { destruct q as [|d q]; [congruence|]. simpl in *.
    rewrite Hb. exact Hs. }
  assert (Hcollapse : JS.collapseSlashes (JS.replaceBackslashes ("./" ++ q))
                      = String "."
                          (String JS.slash
                             (JS.collapseSlashes (JS.replaceBackslashes q)))).
  { change (JS.replaceBackslashes ("./" ++ q))
      with (String "." (String JS.slash (JS.replaceBackslashes q))).
    change (JS.collapseSlashes
              (String "." (String JS.slash (JS.replaceBackslashes q))))
      with (String "." (JS.collapseSlashes
                          (String JS.slash (JS.replaceBackslashes q)))).
    now rewrite collapseSlashes_sep. }
  rewrite Hcollapse.
  assert (Hstart' : JS.startsWithChar JS.slash
                      (JS.collapseSlashes (JS.replaceBackslashes q)) = false).
  { destruct (JS.replaceBackslashes q) as [|d r]; [reflexivity|].
    simpl in Hstart. simpl. rewrite Hstart. exact Hstart. }
  rewrite Hstart'.
  change (JS.startsWithChar JS.slash (String "." _)) with false.
  change (JS.split JS.slash
            (String "." (String JS.slash
                           (JS.collapseSlashes (JS.replaceBackslashes q)))))
    with (match JS.split JS.slash
                  (String JS.slash (JS.collapseSlashes (JS.replaceBackslashes q)))
          with
          | [] => ["."]
          | p0 :: ps => String "." p0 :: ps
          end).
  change (JS.split JS.slash
            (String JS.slash (JS.collapseSlashes (JS.replaceBackslashes q))))
    with ("" :: JS.split JS.slash (JS.collapseSlashes (JS.replaceBackslashes q))).
  reflexivity.
Qed.

(** X3. A path is put together again from its [dirname] and its
    [basename]: joining the two gives the normalized path, for every
    path. *)
Theorem dirname_basename_join (p : string) :
  join [dirname p; basename p] = normalizePath p.
Proof.
  pose proof (normalizePath_facts p) as (Hne & Hnb & _ & Hend & _).
  cbv zeta in *.
  pose proof (normalizePath_fixed p) as Hfix.
  unfold dirname, basename. set (q := normalizePath p) in *.
  destruct (String.eqb q "/") eqn:Eroot.
  { apply String.eqb_eq in Eroot. now rewrite Eroot. }
  apply String.eqb_neq in Eroot.
  destruct (JS.lastIndexOf JS.slash q) as [k|] eqn:Ek.
  - pose proof (lastIndexOf_split _ _ _ Ek) as Hsplit.
    rewrite Nat.add_1_r.
    set (b := JS.sliceFrom (S k) q) in *.
    assert (Hb : b <> "").
    { intros Hb. rewrite Hb in Hsplit.
      apply Eroot, Hend. rewrite Hsplit.
      now rewrite endsWithChar_app by discriminate. }
    destruct k as [|k].
    + simpl in Hsplit. unfold join. simpl fold_left. unfold joinStep at 2.
      simpl JS.isEmpty. unfold joinStep.
      destruct b as [|c b'] eqn:Eb; [congruence|]. simpl JS.isEmpty. cbv iota.
      change ("/" ++ "/" ++ String c b') with (String JS.slash (String JS.slash (String c b'))).
      rewrite normalizePath_extra_slash by reflexivity.
      change (String JS.slash (String c b')) with (String JS.slash (String c b')).
      rewrite <- Hsplit. exact Hfix.
    + set (d := JS.sliceTo (S k) q) in *.
      assert (Hd : d <> "").
      { unfold d. destruct q; [congruence|]. discriminate. }
      unfold join. simpl fold_left. unfold joinStep.
      destruct d as [|c d'] eqn:Ed; [congruence|].
      destruct b as [|c' b'] eqn:Eb; [congruence|]. simpl JS.isEmpty. cbv iota.
      change (String c d' ++ "/" ++ String c' b')
        with (String c d' ++ String JS.slash (String c' b')).
      rewrite <- Hsplit. exact Hfix.
  - pose proof (lastIndexOf_none _ _ Ek) as Hfree.
    unfold join. simpl fold_left. unfold joinStep.
    destruct q as [|c q'] eqn:Eq; [congruence|]. simpl JS.isEmpty. cbv iota.
    change ("." ++ "/" ++ String c q') with ("./" ++ String c q').
    rewrite normalizePath_dot_slash; [exact Hfix|discriminate| |].
    + simpl in Hfree. apply orb_false_iff in Hfree as [H _]. exact H.
    + simpl in Hnb. apply orb_false_iff in Hnb as [H _]. exact H.
Qed.

(* ================================================================= *)
(** ** The path tools: extension, parent, sub-path, common ancestor *)

Lemma slice_split (k : nat) (s : string) :
  JS.sliceTo k s ++ JS.sliceFrom k s = s.
Proof.
  revert s. induction k as [|k IH]; intros s; [reflexivity|].
  destruct s as [|c s]; [reflexivity|]. simpl. now rewrite IH.
Qed.

Lemma length_sliceFrom (k : nat) (s : string) :
  String.length (JS.sliceFrom k s) = String.length s - k.
Proof.
  revert s. induction k as [|k IH]; intros s; [simpl; lia|].
  destruct s as [|c s]; [reflexivity|]. simpl. apply IH.
Qed.

(** Where the last occurrence of a character is. *)
Lemma lastIndexOf_at (c : ascii) (s : string) (k : nat) :
  JS.lastIndexOf c s = Some k ->
  k < String.length s /\
  JS.sliceFrom k s = String c (JS.sliceFrom (S k) s) /\
  JS.includesChar c (JS.sliceFrom (S k) s) = false.
Proof.
  revert k. induction s as [|d s IH]; intros k; [discriminate|]. simpl.
  destruct (JS.lastIndexOf c s) as [i|] eqn:E.
  - intros H. injection H as <-. destruct (IH i eq_refl) as (H1 & H2 & H3).
    split; [lia|]. split; assumption.
  - destruct (Ascii.eqb d c) eqn:Ed; [|discriminate].
    intros H. injection H as <-. apply Ascii.eqb_eq in Ed. subst d.
    split; [lia|]. split; [reflexivity|]. simpl.
    now apply lastIndexOf_none.
Qed.

(** X4. A file name is its stem followed by its extension:
    [basename(p, extname(p))] followed by [extname(p)] is [basename(p)],
    for every path.  The extension is empty or starts at the last period
    of the name, and this period is not the first character of the name. *)
Theorem extname_round_trip (p : string) :
  basenameExt p (extname p) ++ extname p = basename p /\
  (extname p = "" \/
   exists stem rest,
     stem <> "" /\ basenameExt p (extname p) = stem /\
     extname p = String "." rest /\ JS.includesChar "." rest = false).
Proof.
  unfold basenameExt, extname. set (name := basename p).
  destruct (JS.lastIndexOf "." name) as [[|k]|] eqn:Ek.
  - simpl. split; [apply app_empty_r|now left].
  - destruct (lastIndexOf_at _ _ _ Ek) as (Hlt & Hslice & Hfree).
    set (ext := JS.sliceFrom (S k) name) in *.
    assert (Hlen : String.length ext = String.length name - S k)
      by apply length_sliceFrom.
    assert (Hends : JSMore.endsWith ext name = true).
    { unfold JSMore.endsWith. apply andb_true_intro. split.
      - apply Nat.leb_le. lia.
      - replace (String.length name - String.length ext) with (S k) by lia.
        apply String.eqb_refl. }
    rewrite Hends, Hslice. simpl negb. cbv iota. simpl andb. cbv iota.
    replace (String.length name -
             String.length (String "." (JS.sliceFrom (S (S k)) name)))
      with (S k) by (rewrite <- Hslice; lia).
    rewrite <- Hslice. split; [apply slice_split|].
    right. exists (JS.sliceTo (S k) name), (JS.sliceFrom (S (S k)) name).
    split; [|split; [reflexivity|split; [exact Hslice|exact Hfree]]].
    destruct name; [simpl in Hlt; lia|discriminate].
  - simpl. split; [apply app_empty_r|now left].
Qed.

(** *** The parent and the last segment, on the stack of [normalizePath] *)

Lemma lastIndexOf_free (c : ascii) (s : string) :
  JS.includesChar c s = false -> JS.lastIndexOf c s = None.
Proof.
  induction s as [|d s IH]; [reflexivity|]. simpl.
  intros H. apply orb_false_iff in H as [Hd Hs].
  now rewrite (IH Hs), Hd.
Qed.

Lemma lastIndexOf_app (c : ascii) (a b : string) :
  JS.includesChar c b = false ->
  JS.lastIndexOf c (a ++ String c b) = Some (String.length a).
Proof.
  intros Hb. induction a as [|d a IH]; simpl.
  - now rewrite (lastIndexOf_free _ _ Hb), Ascii.eqb_refl.
  - now rewrite IH.
Qed.

Lemma sliceTo_app (a b : string) : JS.sliceTo (String.length a) (a ++ b) = a.
Proof. induction a as [|d a IH]; simpl; [now destruct b|now rewrite IH]. Qed.

Lemma sliceFrom_app (a b : string) : JS.sliceFrom (String.length a) (a ++ b) = b.
Proof. induction a as [|d a IH]; simpl; [reflexivity|exact IH]. Qed.

Lemma canonicalStack_tl (isAbs : bool) (stack : list string) :
  canonicalStack isAbs stack -> canonicalStack isAbs (tl stack).
Proof.
  destruct stack as [|x below]; [trivial|]. simpl.
  intros (Hclean & Hdots & Habs). split; [|split].
  - now inversion Hclean.
  - apply Hdots.
  - intros Ha Hin. apply (Habs Ha). now right.
Qed.

(** What [dirname] and [basename] return, in terms of the stack. *)
Lemma dirname_basename_stack (p : string) (isAbs : bool) (stack : list string) :
  canonicalStack isAbs stack ->
  normalizePath p = renderPath isAbs stack ->
  dirname p = renderPath isAbs (tl stack) /\
  basename p = match stack with
               | [] => if isAbs then "" else "."
               | x :: _ => x
               end.
Proof.
  intros Hc Hq. unfold dirname, basename. rewrite Hq. clear Hq.
  destruct stack as [|last below].
  { destruct isAbs; split; reflexivity. }
  assert (Hlast : cleanPart last) by (destruct Hc as (H & _); now inversion H).
  destruct Hlast as (Hne & _ & Hfree & _).
  simpl tl.
  destruct (rev_cases below) as [->|(x & rest & Hrev)].
  - assert (Hr : renderPath isAbs [last] = if isAbs then "/" ++ last else last).
    { rewrite (renderPath_cons isAbs [last] last [] eq_refl Hne). reflexivity. }
    rewrite Hr, renderPath_nil. destruct isAbs.
    + change ("/" ++ last) with ("" ++ String JS.slash last).
      rewrite (lastIndexOf_app _ "" _ Hfree). simpl String.length.
      replace (String.eqb ("" ++ String JS.slash last) "/") with false.
      * split; reflexivity.
      * symmetry. apply String.eqb_neq. simpl. intros H.
        injection H as H. contradiction.
    + rewrite (lastIndexOf_free _ _ Hfree).
      replace (String.eqb last "/") with false; [split; reflexivity|].
      symmetry. apply String.eqb_neq. intros ->. discriminate.
  - assert (Hx : x <> "").
    { apply canonicalStack_tl in Hc. simpl in Hc.
      pose proof (canonical_rev_clean _ _ Hc) as H. rewrite Hrev in H.
      inversion H as [|? ? (H1 & _)]. exact H1. }
    assert (Hrev' : rev (last :: below) = x :: (rest ++ [last])%list)
      by (simpl; now rewrite Hrev).
    rewrite (renderPath_cons _ _ _ _ Hrev' Hx).
    rewrite (renderPath_cons _ _ _ _ Hrev Hx).
    change (x :: (rest ++ [last])%list) with ((x :: rest) ++ [last])%list.
    rewrite join_snoc by discriminate.
    set (body := JS.join "/" (x :: rest)).
    assert (Hbody : body <> "") by now apply join_nonempty.
    set (a := if isAbs then "/" ++ body else body).
    assert (Ha : (if isAbs then "/" ++ body ++ "/" ++ last
                  else body ++ "/" ++ last) = a ++ String JS.slash last).
    { unfold a. destruct isAbs; [|reflexivity].
      now rewrite append_assoc. }
    rewrite Ha, (lastIndexOf_app _ a _ Hfree).
    assert (Hlen : String.length a <> 0).
    { unfold a. destruct isAbs; [discriminate|].
      destruct body; [congruence|discriminate]. }
    replace (String.eqb (a ++ String JS.slash last) "/") with false.
    + rewrite Nat.add_1_r.
      destruct (String.length a) as [|k] eqn:Ek; [congruence|].
      rewrite <- Ek. rewrite sliceTo_app. split; [reflexivity|].
      replace (S (String.length a)) with (String.length (a ++ "/"))
        by (rewrite length_append; simpl; lia).
      replace (a ++ String JS.slash last) with ((a ++ "/") ++ last)
        by (now rewrite append_assoc).
      apply sliceFrom_app.
    + symmetry. apply String.eqb_neq. intros H.
      apply (f_equal String.length) in H. rewrite length_append in H.
      simpl in H. lia.
Qed.

(* The parent and the last segment of a path, for the proofs below. *)
Lemma dirname_parent_facts (p : string) :
  normalizePath (dirname p) = dirname p /\
  JS.includesChar JS.slash (basename p) = false /\
  (isAbsolute (normalizePath p) = true -> normalizePath p <> "/" ->
   isAbsolute (dirname p) = true /\
   basename p <> "" /\
   splitPath p = (splitPath (dirname p) ++ [basename p])%list).
Proof.
  destruct (normalizePath_canonical p) as (isAbs & stack & Hc & Hq).
  destruct (dirname_basename_stack p isAbs stack Hc Hq) as (Hd & Hb).
  pose proof (canonicalStack_tl _ _ Hc) as Hc'.
  split; [rewrite Hd; now apply normalizePath_render|]. split.
  - rewrite Hb. destruct stack as [|x ?]; [now destruct isAbs|].
    destruct Hc as (H & _). inversion H as [|? ? (_ & _ & Hs & _)]. exact Hs.
  - rewrite Hq, (renderPath_isAbsolute _ _ Hc). intros -> Hroot.
    destruct stack as [|last below]; [now rewrite renderPath_nil in Hroot|].
    split; [rewrite Hd; now apply renderPath_isAbsolute|]. split.
    + rewrite Hb. destruct Hc as (H & _). inversion H as [|? ? (H1 & _)]. exact H1.
    + unfold splitPath. rewrite Hq, Hd, (normalizePath_render _ _ Hc').
      rewrite (segments_render _ _ Hc), (segments_render _ _ Hc'), Hb.
      simpl tl. destruct below; reflexivity.
Qed.

(** X5. The parent given by [dirname] is a normalized path and [basename]
    has no slash.  For an absolute path other than the root, the parent is
    absolute and the segments of the path are the segments of its parent
    followed by its [basename]. *)
Theorem dirname_parent (p : string) :
  normalizePath (dirname p) = dirname p /\
  JS.includesChar JS.slash (basename p) = false /\
  (isAbsolute (normalizePath p) = true -> normalizePath p <> "/" ->
   isAbsolute (dirname p) = true /\
   basename p <> "" /\
   splitPath p = (splitPath (dirname p) ++ [basename p])%list).
Proof. exact (dirname_parent_facts p). Qed.

(** An instance: [/a/b/c.txt]. *)
Lemma dirname_parent_witness :
  isAbsolute (normalizePath "/a/b/c.txt") = true /\
  normalizePath "/a/b/c.txt" <> "/" /\
  splitPath "/a/b/c.txt" = (splitPath (dirname "/a/b/c.txt") ++ [basename "/a/b/c.txt"])%list.
Proof.
  assert (H1 : isAbsolute (normalizePath "/a/b/c.txt") = true) by reflexivity.
  assert (H2 : normalizePath "/a/b/c.txt" <> "/") by discriminate.
  split; [exact H1|]. split; [exact H2|].
  exact (proj2 (proj2 (proj2 (proj2 (dirname_parent "/a/b/c.txt")) H1 H2))).
Defined.

(** *** Sub-paths *)

Lemma prefix_app (a t : string) : String.prefix a (a ++ t) = true.
Proof.
  induction a as [|c a IH]; simpl; [now destruct t|].
  destruct (ascii_dec c c); [exact IH|congruence].
Qed.

Lemma prefix_inv (a b : string) :
  String.prefix a b = true -> exists t, b = a ++ t.
Proof.
  revert b. induction a as [|c a IH]; intros b H; [now exists b|].
  destruct b as [|d b]; [discriminate|]. simpl in H.
  destruct (ascii_dec c d) as [->|]; [|discriminate].
  destruct (IH b H) as (t & ->). now exists t.
Qed.

Lemma isSubPath_inv (child parent : string) :
  isSubPath child parent = true ->
  normalizePath child <> normalizePath parent /\
  exists t, normalizePath child = parentPrefix (normalizePath parent) ++ t.
Proof.
  unfold isSubPath.
  destruct (String.eqb (normalizePath child) (normalizePath parent)) eqn:E;
    [discriminate|].
  apply String.eqb_neq in E. intros H. split; [exact E|].
  exact (prefix_inv _ _ H).
Qed.

Lemma isSubPath_intro (child parent t : string) :
  normalizePath child <> normalizePath parent ->
  normalizePath child = parentPrefix (normalizePath parent) ++ t ->
  isSubPath child parent = true.
Proof.
  intros Hne Heq. unfold isSubPath.
  apply String.eqb_neq in Hne. rewrite Hne.
  fold (parentPrefix (normalizePath parent)). rewrite Heq.
  unfold JS.startsWith. apply prefix_app.
Qed.

Lemma parentPrefix_length (q : string) :
  q <> "" ->
  String.length q <= String.length (parentPrefix q) /\
  (String.length (parentPrefix q) = String.length q -> q = "/").
Proof.
  intros Hq. unfold parentPrefix. destruct (String.eqb q "/") eqn:E.
  - apply String.eqb_eq in E. subst q. split; [simpl; lia|reflexivity].
  - rewrite length_append. simpl. split; lia.
Qed.

(** X6. [isSubPath] is a strict order on paths: no path is a sub-path of
    itself, two paths are never sub-paths of each other, and a sub-path of
    a sub-path is a sub-path.  An absolute path other than the root is a
    sub-path of its [dirname]. *)
Theorem isSubPath_strict_order (a b c : string) :
  isSubPath a a = false /\
  (isSubPath a b = true -> isSubPath b a = false) /\
  (isSubPath a b = true -> isSubPath b c = true -> isSubPath a c = true) /\
  (isAbsolute (normalizePath a) = true -> normalizePath a <> "/" ->
   isSubPath a (dirname a) = true).
Proof.
  split; [unfold isSubPath; now rewrite String.eqb_refl|].
  assert (Hnonempty : forall p, normalizePath p <> "")
    by (intros p; apply (normalizePath_facts p)).
  split; [|split].
  - intros Hab. destruct (isSubPath b a) eqn:Hba; [|reflexivity]. exfalso.
    apply isSubPath_inv in Hab as (Hne & t & Ha).
    apply isSubPath_inv in Hba as (_ & t' & Hb).
    destruct (parentPrefix_length _ (Hnonempty a)) as (Ha1 & Ha2).
    destruct (parentPrefix_length _ (Hnonempty b)) as (Hb1 & Hb2).
    apply (f_equal String.length) in Ha, Hb.
    rewrite length_append in Ha, Hb.
    apply Hne. rewrite Ha2, Hb2 by lia. reflexivity.
  - intros Hab Hbc.
    apply isSubPath_inv in Hab as (_ & t & Ha).
    apply isSubPath_inv in Hbc as (Hne & t' & Hb).
    set (A := normalizePath a) in *. set (B := normalizePath b) in *.
    set (C := normalizePath c) in *.
    assert (HB : B <> "/").
    { intros HB. rewrite HB in Hb, Hne. unfold parentPrefix in Hb.
      destruct (String.eqb C "/") eqn:E.
      - apply String.eqb_eq in E. congruence.
      - pose proof (Hnonempty c) as HC. fold C in HC.
        destruct C as [|x C']; [congruence|].
        simpl in Hb. injection Hb as Hx Hb. destruct C'; discriminate. }
    assert (HpB : parentPrefix B = B ++ "/").
    { unfold parentPrefix. apply String.eqb_neq in HB. now rewrite HB. }
    rewrite HpB, Hb, !append_assoc in Ha.
    apply (isSubPath_intro a c (t' ++ "/" ++ t)); fold A C; [|exact Ha].
    intros HAC. apply (f_equal String.length) in Ha.
    destruct (parentPrefix_length _ (Hnonempty c)) as (Hc1 & _). fold C in Hc1.
    rewrite !length_append in Ha. simpl in Ha. rewrite HAC in Ha. lia.
  - intros Habs Hroot.
    destruct (normalizePath_canonical a) as (isAbs & stack & Hc & Hq).
    destruct (dirname_basename_stack a isAbs stack Hc Hq) as (Hd & _).
    rewrite Hq, (renderPath_isAbsolute _ _ Hc) in Habs. subst isAbs.
    destruct stack as [|last below]; [now rewrite Hq, renderPath_nil in Hroot|].
    simpl tl in Hd.
    assert (Hlast : cleanPart last) by (destruct Hc as (H & _); now inversion H).
    destruct Hlast as (Hne & _ & Hfree & _).
    pose proof (canonicalStack_tl _ _ Hc) as Hc'. simpl tl in Hc'.
    assert (Hnd : normalizePath (dirname a) = renderPath true below)
      by (rewrite Hd; now apply normalizePath_render).
    assert (Hshape : normalizePath a
                     = parentPrefix (renderPath true below) ++ last).
    { rewrite Hq. destruct (rev_cases below) as [->|(x & rest & Hrev)].
      - rewrite (renderPath_cons true [last] last [] eq_refl Hne). reflexivity.
      - assert (Hx : x <> "").
        { pose proof (canonical_rev_clean _ _ Hc') as H. rewrite Hrev in H.
          inversion H as [|? ? (H1 & _)]. exact H1. }
        assert (Hrev' : rev (last :: below) = x :: (rest ++ [last])%list)
          by (simpl; now rewrite Hrev).
        rewrite (renderPath_cons _ _ _ _ Hrev' Hx).
        rewrite (renderPath_cons _ _ _ _ Hrev Hx).
        change (x :: (rest ++ [last])%list) with ((x :: rest) ++ [last])%list.
        rewrite join_snoc by discriminate.
        unfold parentPrefix.
        replace (String.eqb ("/" ++ JS.join "/" (x :: rest)) "/") with false.
        + now rewrite !append_assoc.
        + symmetry. apply String.eqb_neq. intros H. injection H as H.
          now apply (join_nonempty x rest Hx). }
    apply (isSubPath_intro a (dirname a) last); rewrite Hnd; [|exact Hshape].
    intros Heq. rewrite Heq in Hshape.
    apply (f_equal String.length) in Hshape. rewrite length_append in Hshape.
    assert (Hr : renderPath true below <> "").
    { rewrite <- Hnd. apply Hnonempty. }
    destruct (parentPrefix_length _ Hr) as (H1 & _).
    assert (Hl : 0 < String.length last)
      by (destruct last; [congruence|simpl; lia]).
    lia.
Qed.

(** An instance: [/a/b/c] lies under [/a/b], which lies under [/a]. *)
Lemma isSubPath_strict_order_witness :
  isSubPath "/a/b/c" "/a/b" = true /\ isSubPath "/a/b" "/a" = true /\
  isSubPath "/a/b" "/a/b/c" = false /\ isSubPath "/a/b/c" "/a" = true.
Proof.
  assert (H1 : isSubPath "/a/b/c" "/a/b" = true) by reflexivity.
  assert (H2 : isSubPath "/a/b" "/a" = true) by reflexivity.
  split; [exact H1|]. split; [exact H2|].
  destruct (isSubPath_strict_order "/a/b/c" "/a/b" "/a") as (_ & Hasym & Htrans & _).
  split; [exact (Hasym H1)|exact (Htrans H1 H2)].
Defined.

(** *** The common ancestor *)

Lemma commonSegments_comm (a b : list string) :
  commonSegments a b = commonSegments b a.
Proof.
  revert b. induction a as [|x a IH]; intros [|y b]; simpl; try reflexivity.
  rewrite (String.eqb_sym y x).
  destruct (String.eqb x y) eqn:E; [|reflexivity].
  apply String.eqb_eq in E. subst y. now rewrite IH.
Qed.

Lemma commonSegments_self (a : list string) : commonSegments a a = a.
Proof.
  induction a as [|x a IH]; simpl; [reflexivity|].
  now rewrite String.eqb_refl, IH.
Qed.

(** The common segments are a leading part of both lists. *)
Lemma commonSegments_prefix (a b : list string) :
  exists ra rb,
    a = (commonSegments a b ++ ra)%list /\ b = (commonSegments a b ++ rb)%list /\
    match ra, rb with
    | x :: _, y :: _ => x <> y
    | _, _ => True
    end.
Proof.
  revert b. induction a as [|x a IH]; intros [|y b]; simpl.
  - now exists [], [].
  - now exists [], (y :: b).
  - now exists (x :: a), [].
  - destruct (String.eqb x y) eqn:E.
    + apply String.eqb_eq in E. subst y.
      destruct (IH b) as (ra & rb & Ha & Hb & Hdiff).
      exists ra, rb. simpl. repeat split; [congruence|congruence|exact Hdiff].
    + apply String.eqb_neq in E. now exists (x :: a), (y :: b).
Qed.

(** X7. [getCommonAncestor] does not depend on the order of its two
    arguments, the common ancestor of an absolute path with itself is the
    normalized path, and the result is the root followed by the longest run
    of segments that starts both paths: after it the two paths go on with
    different segments, or one of them ends. *)
Theorem getCommonAncestor_facts (path1 path2 : string) :
  getCommonAncestor path1 path2 = getCommonAncestor path2 path1 /\
  (isAbsolute (normalizePath path1) = true ->
   getCommonAncestor path1 path1 = normalizePath path1) /\
  exists common rest1 rest2,
    getCommonAncestor path1 path2 = "/" ++ JS.join "/" common /\
    splitPath path1 = (common ++ rest1)%list /\
    splitPath path2 = (common ++ rest2)%list /\
    match rest1, rest2 with
    | next1 :: _, next2 :: _ => next1 <> next2
    | _, _ => True
    end.
Proof.
  split; [|split].
  - unfold getCommonAncestor.
    now rewrite (commonSegments_comm (splitPath path1) (splitPath path2)).
  - intros Habs. unfold getCommonAncestor. rewrite commonSegments_self.
    rewrite (normalizePath_split_join_eq path1), Habs.
    now destruct (splitPath path1).
  - destruct (commonSegments_prefix (splitPath path1) (splitPath path2))
      as (ra & rb & Ha & Hb & Hdiff).
    exists (commonSegments (splitPath path1) (splitPath path2)), ra, rb.
    split; [|split; [|split]; assumption].
    unfold getCommonAncestor.
    now destruct (commonSegments (splitPath path1) (splitPath path2)).
Qed.

(** *** File names *)

Lemma collapseSlashes_free (s : string) :
  JS.includesChar JS.slash s = false -> JS.collapseSlashes s = s.
Proof.
  intros H. rewrite <- (app_empty_r s) at 1.
  rewrite (collapseSlashes_free_app s "" H). apply app_empty_r.
Qed.

Lemma endsWithChar_dots (s : string) :
  s = "." \/ s = ".." -> JS.endsWithChar "." s = true.
Proof. intros [->| ->]; reflexivity. Qed.

(** X8. A name accepted by [validateFileName] that holds no control
    character is accepted by [validatePath], and it is a path of one
    segment, which [normalizePath] leaves as it is.  [validateFileName]
    itself does not look for control characters. *)
Theorem validFileName_validPath (nm : string)
    (Hvalid : isValidFileName nm = true)
    (Hcontrol : JS.hasControlChar nm = false) :
  isValidPath nm = true /\
  normalizePath nm = nm /\
  splitPath nm = [nm].
Proof.
  unfold isValidFileName, validateFileName in Hvalid.
  destruct nm as [|c0 nm0] eqn:Enm; [discriminate|]. rewrite <- Enm in *.
  assert (Hne : nm <> "") by (rewrite Enm; discriminate).
  replace (JS.isEmpty nm) with false in Hvalid by (now rewrite Enm).
  destruct (JS.includesChar JS.slash nm) eqn:Hslash; [discriminate|].
  destruct (JS.includesChar JS.backslash nm) eqn:Hback; [discriminate|].
  simpl orb in Hvalid. cbv iota in Hvalid.
  destruct (validatePathSegment nm nm) as [[]|e] eqn:Hseg; [|discriminate].
  clear Hvalid.
  assert (Hlen : (255 <? String.length nm)%nat = false).
  { unfold validatePathSegment in Hseg.
    destruct (255 <? String.length nm)%nat; [discriminate|reflexivity]. }
  assert (Hdots : String.eqb nm "." || String.eqb nm ".." = false).
  { unfold validatePathSegment in Hseg. rewrite Hlen in Hseg.
    destruct (existsb _ RESERVED_NAMES); [discriminate|].
    destruct (JS.endsWithChar " " nm || JS.endsWithChar "." nm) eqn:E;
      [discriminate|].
    apply orb_false_iff in E as [_ E].
    apply orb_false_iff. split; apply String.eqb_neq; intros ->; discriminate. }
  assert (Hnorm : normalizePath nm = nm).
  { rewrite (normalizePath_unfold nm Hne). cbv zeta.
    rewrite (replaceBackslashes_id nm Hback), (collapseSlashes_free nm Hslash).
    rewrite (split_free JS.slash nm Hslash).
    replace (JS.startsWithChar JS.slash nm) with false
      by (rewrite Enm in *; simpl in *; apply orb_false_iff in Hslash as [H _];
          now rewrite H).
    simpl fold_left. unfold normStep.
    apply orb_false_iff in Hdots as [Hd1 Hd2].
    replace (String.eqb nm "") with false
      by (symmetry; now apply String.eqb_neq).
    rewrite Hd1, Hd2. simpl orb. cbv iota.
    rewrite (renderPath_cons false [nm] nm [] eq_refl Hne). reflexivity. }
  split; [|split].
  - unfold isValidPath, validatePath.
    replace (JS.isEmpty nm) with false by (now rewrite Enm).
    rewrite Hcontrol.
    replace (4096 <? String.length nm)%nat with false.
    + rewrite (split_free JS.slash nm Hslash).
      unfold JS.filterBoolean. simpl filter.
      replace (JS.isEmpty nm) with false by (now rewrite Enm).
      simpl negb. cbv iota. unfold validateParts.
      rewrite Hdots, Hseg. reflexivity.
    + symmetry. apply Nat.ltb_ge. apply Nat.ltb_ge in Hlen. lia.
  - exact Hnorm.
  - unfold splitPath. rewrite Hnorm, (split_free JS.slash nm Hslash).
    unfold JS.filterBoolean. simpl filter.
    replace (JS.isEmpty nm) with false by (now rewrite Enm). reflexivity.
Qed.

(** An instance: [notes.txt]. *)
Lemma validFileName_validPath_witness :
  isValidFileName "notes.txt" = true /\
  JS.hasControlChar "notes.txt" = false /\
  isValidPath "notes.txt" = true.
Proof.
  assert (H1 : isValidFileName "notes.txt" = true) by reflexivity.
  assert (H2 : JS.hasControlChar "notes.txt" = false) by reflexivity.
  split; [exact H1|]. split; [exact H2|].
  exact (proj1 (validFileName_validPath "notes.txt" H1 H2)).
Defined.

(* ================================================================= *)
(** ** The glob matcher *)

(** *** The order of the results *)

Lemma insertSorted_perm (x : string) (l : list string) :
  Permutation (x :: l) (insertSorted x l).
Proof.
  induction l as [|y l IH]; simpl; [apply Permutation_refl|].
  destruct (String.leb x y); [apply Permutation_refl|].
  eapply perm_trans; [apply perm_swap|]. now apply perm_skip.
Qed.

Lemma insertSorted_sorted (x : string) (l : list string) :
  Sorted (fun a b => String.leb a b = true) l ->
  Sorted (fun a b => String.leb a b = true) (insertSorted x l).
Proof.
  induction 1 as [|y l Hs IH Hhd]; simpl.
  - constructor; constructor.
  - destruct (String.leb x y) eqn:E.
    + constructor; [now constructor|now constructor].
    + constructor; [exact IH|].
      assert (Hyx : String.leb y x = true)
        by (destruct (String.leb_total x y); congruence).
      destruct l as [|z l]; simpl.
      * now constructor.
      * destruct (String.leb x z); constructor; [exact Hyx|].
        now inversion Hhd.
Qed.

Lemma sortStrings_sorted (l : list string) :
  Sorted (fun a b => String.leb a b = true) (sortStrings l) /\
  Permutation l (sortStrings l).
Proof.
  induction l as [|x l (Hs & Hp)]; simpl.
  - split; constructor.
  - split; [now apply insertSorted_sorted|].
    eapply perm_trans; [apply perm_skip, Hp|apply insertSorted_perm].
Qed.

(** X9. The list [glob] returns is in ascending order of code units, and
    it holds the paths its traversal pushed, each as many times as it was
    pushed. *)
Theorem glob_sorted (fuel : nat) (s : VFS) (pattern : string) (o : GlobOptions)
    (results : list string)
    (Hglob : glob fuel s pattern o = Some (Ok results)) :
  Sorted (fun a b => String.leb a b = true) results /\
  (forall startDir, getDirectoryOrNull s (globCwd o) = Some startDir ->
   exists pushed,
     traverse fuel s o (patternToRegex pattern) (globCwd o) startDir (globCwd o) 0
       = Some (Ok pushed) /\
     Permutation pushed results).
Proof.
  unfold glob in Hglob.
  destruct (getDirectoryOrNull s (globCwd o)) as [startDir|].
  - destruct (traverse fuel s o (patternToRegex pattern) (globCwd o) startDir
                (globCwd o) 0) as [[pushed|e]|] eqn:Ht; try discriminate.
    injection Hglob as <-.
    destruct (sortStrings_sorted pushed) as (Hs & Hp).
    split; [exact Hs|].
    intros d Hd. injection Hd as <-. now exists pushed.
  - injection Hglob as <-. split; [constructor|discriminate].
Qed.

(** An instance: two files written in descending order. *)
Lemma glob_sorted_witness :
  glob 5 twoFiles "*" defaultGlobOptions = Some (Ok ["/a"; "/b"]) /\
  Sorted (fun a b => String.leb a b = true) ["/a"; "/b"].
Proof.
  assert (H : glob 5 twoFiles "*" defaultGlobOptions = Some (Ok ["/a"; "/b"]))
    by reflexivity.
  split; [exact H|].
  exact (proj1 (glob_sorted 5 twoFiles "*" defaultGlobOptions _ H)).
Defined.

(** *** The replacements of [patternToRegex] *)

Section ReplaceAll.

Variables (p r : string).
Hypothesis p_not_empty : p <> "".

Lemma length_sliceFrom_le (k : nat) (s : string) :
  String.length (JS.sliceFrom k s) <= String.length s.
Proof. rewrite length_sliceFrom. lia. Qed.

(** Any bound at least the length of the text gives the same result. *)
Lemma replaceAll_fuel_enough (n fuel1 fuel2 : nat) (s : string) :
  String.length s <= n -> String.length s <= fuel1 -> String.length s <= fuel2 ->
  JS.replaceAll_fuel fuel1 p r s = JS.replaceAll_fuel fuel2 p r s.
Proof.
  revert fuel1 fuel2 s. induction n as [|n IH]; intros fuel1 fuel2 s Hn H1 H2.
  - destruct s; [|simpl in Hn; lia]. now destruct fuel1, fuel2.
  - destruct s as [|d s]; [now destruct fuel1, fuel2|].
    destruct fuel1 as [|f1]; [simpl in H1; lia|].
    destruct fuel2 as [|f2]; [simpl in H2; lia|].
    simpl in Hn, H1, H2. cbn [JS.replaceAll_fuel].
    destruct (String.prefix p (String d s)).
    + f_equal.
      assert (Hlen : String.length (JS.sliceFrom (String.length p) (String d s))
                     <= String.length s).
      { destruct p as [|c p']; [congruence|]. simpl.
        apply length_sliceFrom_le. }
      apply IH; lia.
    + f_equal. apply IH; lia.
Qed.

Lemma replaceAll_nil : JS.replaceAll p r "" = "".
Proof. reflexivity. Qed.

(** One turn of the replacement. *)
Lemma replaceAll_cons (d : ascii) (s : string) :
  JS.replaceAll p r (String d s) =
  if String.prefix p (String d s)
  then r ++ JS.replaceAll p r (JS.sliceFrom (String.length p) (String d s))
  else String d (JS.replaceAll p r s).
Proof.
  unfold JS.replaceAll. cbn [String.length JS.replaceAll_fuel].
  destruct (String.prefix p (String d s)).
  - f_equal.
    assert (Hlen : String.length (JS.sliceFrom (String.length p) (String d s))
                   <= String.length s).
    { destruct p as [|c p']; [congruence|]. simpl. apply length_sliceFrom_le. }
    apply (replaceAll_fuel_enough (String.length s)); lia.
  - reflexivity.
Qed.

End ReplaceAll.

(** A match at the head is replaced. *)
Lemma replaceAll_hit (c : ascii) (p' r t : string) :
  JS.replaceAll (String c p') r (String c p' ++ t) =
  r ++ JS.replaceAll (String c p') r t.
Proof.
  change (String c p' ++ t) with (String c (p' ++ t)).
  rewrite replaceAll_cons by discriminate.
  change (String c (p' ++ t)) with (String c p' ++ t).
  now rewrite prefix_app, sliceFrom_app.
Qed.

(** A chunk without the first character of the pattern is copied. *)
Lemma replaceAll_skip (c : ascii) (p' r x t : string) :
  JS.includesChar c x = false ->
  JS.replaceAll (String c p') r (x ++ t) = x ++ JS.replaceAll (String c p') r t.
Proof.
  induction x as [|d x IH]; [reflexivity|]. simpl.
  intros H. apply orb_false_iff in H as [Hd Hx].
  rewrite replaceAll_cons by discriminate. simpl String.prefix.
  destruct (ascii_dec c d) as [->|_]; [now rewrite Ascii.eqb_refl in Hd|].
  now rewrite (IH Hx).
Qed.

(** *** A pattern and its constructs *)

Lemma string_pair_ind (P : string -> Prop) :
  P "" ->
  (forall c, P (String c "")) ->
  (forall c d s, P s -> P (String d s) -> P (String c (String d s))) ->
  forall s, P s.
Proof.
  intros H0 H1 H2.
  assert (H : forall s, P s /\ forall c, P (String c s)).
  { induction s as [|d s (IH1 & IH2)].
    - split; [exact H0|exact H1].
    - split; [apply IH2|]. intros c. apply H2; [exact IH1|apply IH2]. }
  intros s. apply H.
Qed.

Lemma parseGlob_cons (c : ascii) (rest : string) :
  Ascii.eqb c "*" = false ->
  parseGlob (String c rest) =
  (if Ascii.eqb c "?" then GQuestion else GChar c) :: parseGlob rest.
Proof. intros H. simpl. rewrite H. now destruct (Ascii.eqb c "?"). Qed.

(** The escaped pattern is the text of its constructs. *)
Lemma escapeSpecial_render (pattern : string) :
  escapeSpecial pattern = render 0 (parseGlob pattern).
Proof.
  induction pattern as [|c|c d s IH1 IH2] using string_pair_ind.
  - reflexivity.
  - simpl. destruct (Ascii.eqb c "*") eqn:E1.
    + apply Ascii.eqb_eq in E1. now subst c.
    + destruct (Ascii.eqb c "?") eqn:E2.
      * apply Ascii.eqb_eq in E2. now subst c.
      * simpl. now destruct (isRegexSpecial c).
  - destruct (Ascii.eqb c "*") eqn:E1.
    + apply Ascii.eqb_eq in E1. subst c.
      destruct (Ascii.eqb d "*") eqn:E2.
      * apply Ascii.eqb_eq in E2. subst d.
        change (parseGlob (String "*" (String "*" s)))
          with (GGlobstar :: parseGlob s).
        change (escapeSpecial (String "*" (String "*" s)))
          with (String "*" (String "*" (escapeSpecial s))).
        rewrite IH1. reflexivity.
      * replace (parseGlob (String "*" (String d s)))
          with (GStar :: parseGlob (String d s))
          by (simpl; now rewrite E2).
        change (escapeSpecial (String "*" (String d s)))
          with (String "*" (escapeSpecial (String d s))).
        rewrite IH2. reflexivity.
    + rewrite (parseGlob_cons c (String d s) E1).
      change (escapeSpecial (String c (String d s)))
        with (if isRegexSpecial c
              then String "\" (String c (escapeSpecial (String d s)))
              else String c (escapeSpecial (String d s))).
      rewrite IH2.
      destruct (Ascii.eqb c "?") eqn:E2.
      * apply Ascii.eqb_eq in E2. now subst c.
      * simpl. now destruct (isRegexSpecial c).
Qed.

Lemma parseGlob_parsed (pattern : string) :
  JS.includesChar "<" pattern = false -> parsed (parseGlob pattern).
Proof.
  induction pattern as [|c|c d s IH1 IH2] using string_pair_ind.
  - intros _. exact I.
  - intros H. simpl in H. apply orb_false_iff in H as [Hc _].
    simpl. destruct (Ascii.eqb c "*") eqn:E1; [simpl; auto|].
    destruct (Ascii.eqb c "?") eqn:E2; [simpl; auto|].
    simpl. split; [|exact I].
    split; [|split]; intros ->; discriminate.
  - intros H.
    assert (Hc : Ascii.eqb c "<" = false /\
                 JS.includesChar "<" (String d s) = false)
      by (simpl in H; now apply orb_false_iff in H).
    destruct Hc as (Hc & Hds).
    assert (Hs : JS.includesChar "<" s = false)
      by (simpl in Hds; now apply orb_false_iff in Hds).
    destruct (Ascii.eqb c "*") eqn:E1.
    + apply Ascii.eqb_eq in E1. subst c.
      destruct (Ascii.eqb d "*") eqn:E2.
      * apply Ascii.eqb_eq in E2. subst d.
        change (parseGlob (String "*" (String "*" s)))
          with (GGlobstar :: parseGlob s).
        split; [exact I|now apply IH1].
      * replace (parseGlob (String "*" (String d s)))
          with (GStar :: parseGlob (String d s))
          by (simpl; now rewrite E2).
        split; [|now apply IH2].
        rewrite (parseGlob_cons d s E2). now destruct (Ascii.eqb d "?").
    + rewrite (parseGlob_cons c (String d s) E1).
      destruct (Ascii.eqb c "?") eqn:E2.
      * split; [exact I|now apply IH2].
      * split; [|now apply IH2].
        split; [|split]; intros ->; discriminate.
Qed.

Lemma prefix_cons (c d : ascii) (p s : string) :
  String.prefix (String c p) (String d s) = Ascii.eqb c d && String.prefix p s.
Proof.
  cbn [String.prefix]. destruct (ascii_dec c d) as [->|Hn].
  - now rewrite Ascii.eqb_refl.
  - apply Ascii.eqb_neq in Hn. now rewrite Hn.
Qed.

(** The text of a character does not start with a star. *)
Lemma glyph_char_head (stage : nat) (c : ascii) (rest : string) :
  c <> "*"%char ->
  String.prefix "*" (glyph stage (GChar c) ++ rest) = false.
Proof.
  intros Hc. unfold glyph. destruct (isRegexSpecial c).
  - change (String "\" (String c "") ++ rest)
      with (String "\" (String c rest)).
    now rewrite prefix_cons.
  - change (String c "" ++ rest) with (String c rest).
    rewrite prefix_cons. apply not_eq_sym in Hc.
    apply Ascii.eqb_neq in Hc. now rewrite Hc.
Qed.

(** The text of a character holds none of [*], [?] and [<]. *)
Lemma glyph_char_free (stage : nat) (c x : ascii) :
  c <> "*"%char /\ c <> "?"%char /\ c <> "<"%char ->
  x = "*"%char \/ x = "?"%char \/ x = "<"%char ->
  JS.includesChar x (glyph stage (GChar c)) = false.
Proof.
  intros (H1 & H2 & H3) Hx. unfold glyph.
  assert (Hc : Ascii.eqb c x = false).
  { apply Ascii.eqb_neq. destruct Hx as [->|[->| ->]]; assumption. }
  destruct (isRegexSpecial c); simpl; rewrite Hc;
    destruct Hx as [->|[->| ->]]; reflexivity.
Qed.

Lemma render_cons (stage : nat) (t : GlobToken) (ts : list GlobToken) :
  render stage (t :: ts) = glyph stage t ++ render stage ts.
Proof. reflexivity. Qed.

(** The first replacement: [**] becomes the placeholder. *)
Lemma stage_globstar (ts : list GlobToken) :
  parsed ts ->
  JS.replaceAll "**" "<<<GLOBSTAR>>>" (render 0 ts) = render 1 ts.
Proof.
  induction ts as [|t ts IH]; [reflexivity|].
  intros (Ht & Hts). specialize (IH Hts). rewrite !render_cons.
  destruct t as [c| | |].
  - rewrite replaceAll_skip by (apply glyph_char_free; auto).
    now rewrite IH.
  - rewrite (replaceAll_skip "*" "*" _ "?" _ eq_refl). now rewrite IH.
  - change (glyph 0 GStar ++ render 0 ts) with (String "*" (render 0 ts)).
    rewrite replaceAll_cons by discriminate.
    replace (String.prefix "**" (String "*" (render 0 ts))) with false.
    + now rewrite IH.
    + rewrite prefix_cons. simpl Ascii.eqb. simpl andb.
      destruct ts as [|[c| | |] ts']; try reflexivity; try contradiction.
      rewrite render_cons. destruct Hts as ((Hc & _) & _).
      symmetry. now apply glyph_char_head.
  - change (glyph 0 GGlobstar ++ render 0 ts) with ("**" ++ render 0 ts).
    rewrite replaceAll_hit. now rewrite IH.
Qed.

(** The second replacement: [*] becomes [[^/]*]. *)
Lemma stage_star (ts : list GlobToken) :
  parsed ts ->
  JS.replaceAll "*" "[^/]*" (render 1 ts) = render 2 ts.
Proof.
  induction ts as [|t ts IH]; [reflexivity|].
  intros (Ht & Hts). specialize (IH Hts). rewrite !render_cons.
  destruct t as [c| | |].
  - rewrite replaceAll_skip by (apply glyph_char_free; auto).
    now rewrite IH.
  - rewrite (replaceAll_skip "*" "" _ "?" _ eq_refl). now rewrite IH.
  - change (glyph 1 GStar ++ render 1 ts) with ("*" ++ render 1 ts).
    rewrite replaceAll_hit. now rewrite IH.
  - rewrite (replaceAll_skip "*" "" _ "<<<GLOBSTAR>>>" _ eq_refl).
    now rewrite IH.
Qed.

(** The third replacement: [?] becomes [[^/]]. *)
Lemma stage_question (ts : list GlobToken) :
  parsed ts ->
  JS.replaceAll "?" "[^/]" (render 2 ts) = render 3 ts.
Proof.
  induction ts as [|t ts IH]; [reflexivity|].
  intros (Ht & Hts). specialize (IH Hts). rewrite !render_cons.
  destruct t as [c| | |].
  - rewrite replaceAll_skip by (apply glyph_char_free; auto).
    now rewrite IH.
  - change (glyph 2 GQuestion ++ render 2 ts) with ("?" ++ render 2 ts).
    rewrite replaceAll_hit. now rewrite IH.
  - rewrite (replaceAll_skip "?" "" _ "[^/]*" _ eq_refl). now rewrite IH.
  - rewrite (replaceAll_skip "?" "" _ "<<<GLOBSTAR>>>" _ eq_refl).
    now rewrite IH.
Qed.

(** The last replacement: the placeholder becomes [.*]. *)
Lemma stage_placeholder (ts : list GlobToken) :
  parsed ts ->
  JS.replaceAll "<<<GLOBSTAR>>>" ".*" (render 3 ts) = render 4 ts.
Proof.
  induction ts as [|t ts IH]; [reflexivity|].
  intros (Ht & Hts). specialize (IH Hts). rewrite !render_cons.
  destruct t as [c| | |].
  - rewrite replaceAll_skip by (apply glyph_char_free; auto).
    now rewrite IH.
  - rewrite (replaceAll_skip "<" "<<GLOBSTAR>>>" _ "[^/]" _ eq_refl).
    now rewrite IH.
  - rewrite (replaceAll_skip "<" "<<GLOBSTAR>>>" _ "[^/]*" _ eq_refl).
    now rewrite IH.
  - change (glyph 3 GGlobstar ++ render 3 ts)
      with ("<<<GLOBSTAR>>>" ++ render 3 ts).
    rewrite replaceAll_hit. now rewrite IH.
Qed.

(** The source text built from a pattern without [<]. *)
Lemma patternToRegex_render (pattern : string) :
  JS.includesChar "<" pattern = false ->
  patternToRegex pattern = render 4 (parseGlob pattern).
Proof.
  intros H. pose proof (parseGlob_parsed pattern H) as Hp.
  unfold patternToRegex.
  rewrite escapeSpecial_render, (stage_globstar _ Hp), (stage_star _ Hp),
    (stage_question _ Hp).
  now apply stage_placeholder.
Qed.

(** *** Reading the source text back *)

Lemma tokensFuel_enough (n fuel1 fuel2 : nat) (src : string) :
  String.length src <= n ->
  String.length src <= fuel1 -> String.length src <= fuel2 ->
  tokensFuel fuel1 src = tokensFuel fuel2 src.
Proof.
  revert fuel1 fuel2 src.
  induction n as [|n IH]; intros fuel1 fuel2 src Hn H1 H2.
  - destruct src; [|simpl in Hn; lia]. now destruct fuel1, fuel2.
  - destruct src as [|c rest]; [now destruct fuel1, fuel2|].
    destruct fuel1 as [|f1]; [simpl in H1; lia|].
    destruct fuel2 as [|f2]; [simpl in H2; lia|].
    simpl in Hn, H1, H2. cbn [tokensFuel].
    destruct (Ascii.eqb c "\").
    + destruct rest as [|d rest']; [reflexivity|]. f_equal.
      simpl in Hn, H1, H2. apply IH; lia.
    + assert (Hlen : forall k, String.length (JS.sliceFrom (S k) (String c rest))
                               <= String.length rest)
        by (intros k; simpl; apply length_sliceFrom_le).
      destruct (String.prefix "[^/]*" (String c rest));
        [f_equal; apply IH; (apply Hlen || (eapply Nat.le_trans; [apply Hlen|lia]))|].
      destruct (String.prefix "[^/]" (String c rest));
        [f_equal; apply IH; (apply Hlen || (eapply Nat.le_trans; [apply Hlen|lia]))|].
      destruct (String.prefix ".*" (String c rest));
        [f_equal; apply IH; (apply Hlen || (eapply Nat.le_trans; [apply Hlen|lia]))|].
      f_equal. apply IH; lia.
Qed.

(** One turn of the reading. *)
Lemma tokens_cons (c : ascii) (rest : string) :
  tokens (String c rest) =
  if Ascii.eqb c "\" then
    match rest with
    | String d rest' => Lit d :: tokens rest'
    | EmptyString => [Lit c]
    end
  else if String.prefix "[^/]*" (String c rest)
  then StarNonSlash :: tokens (JS.sliceFrom 5 (String c rest))
  else if String.prefix "[^/]" (String c rest)
  then NonSlash :: tokens (JS.sliceFrom 4 (String c rest))
  else if String.prefix ".*" (String c rest)
  then StarAny :: tokens (JS.sliceFrom 2 (String c rest))
  else Lit c :: tokens rest.
Proof.
  unfold tokens. cbn [String.length tokensFuel].
  assert (Hlen : forall k, String.length (JS.sliceFrom (S k) (String c rest))
                           <= String.length rest)
    by (intros k; simpl; apply length_sliceFrom_le).
  destruct (Ascii.eqb c "\").
  - destruct rest as [|d rest']; [reflexivity|]. f_equal.
    apply (tokensFuel_enough (String.length rest')); simpl; lia.
  - destruct (String.prefix "[^/]*" (String c rest));
      [f_equal; apply (tokensFuel_enough (String.length rest));
       [apply Hlen|apply Hlen|lia]|].
    destruct (String.prefix "[^/]" (String c rest));
      [f_equal; apply (tokensFuel_enough (String.length rest));
       [apply Hlen|apply Hlen|lia]|].
    destruct (String.prefix ".*" (String c rest));
      [f_equal; apply (tokensFuel_enough (String.length rest));
       [apply Hlen|apply Hlen|lia]|].
    reflexivity.
Qed.

(** No text of a construct starts with a star. *)
Lemma render_no_star (ts : list GlobToken) :
  parsed ts -> String.prefix "*" (render 4 ts) = false.
Proof.
  destruct ts as [|[c| | |] ts]; try reflexivity.
  intros ((Hc & _) & _). rewrite render_cons. now apply glyph_char_head.
Qed.

(** The source text reads back as the constructs of the pattern. *)
Lemma tokens_render (ts : list GlobToken) :
  parsed ts -> tokens (render 4 ts) = map regexOf ts.
Proof.
  induction ts as [|t ts IH]; [reflexivity|].
  intros (Ht & Hts). specialize (IH Hts). rewrite render_cons.
  pose proof (render_no_star ts Hts) as Hstar.
  destruct t as [c| | |].
  - unfold glyph. destruct (isRegexSpecial c) eqn:Esp.
    + change (String "\" (String c "") ++ render 4 ts)
        with (String "\" (String c (render 4 ts))).
      rewrite tokens_cons. simpl Ascii.eqb. cbv iota. now rewrite IH.
    + change (String c "" ++ render 4 ts) with (String c (render 4 ts)).
      rewrite tokens_cons.
      assert (Hc : Ascii.eqb c "\" = false /\ c <> "["%char /\ c <> "."%char).
      { split; [|split]; [apply Ascii.eqb_neq| |]; intros ->; discriminate. }
      destruct Hc as (-> & Hb & Hd).
      rewrite !prefix_cons.
      apply not_eq_sym, Ascii.eqb_neq in Hb, Hd. rewrite Hb, Hd.
      simpl andb. cbv iota. now rewrite IH.
  - change (glyph 4 GQuestion ++ render 4 ts)
      with (String "[" ("^/]" ++ render 4 ts)).
    rewrite tokens_cons. simpl Ascii.eqb. cbv iota.
    replace (String.prefix "[^/]*" (String "[" ("^/]" ++ render 4 ts)))
      with (String.prefix "*" (render 4 ts)) by reflexivity.
    rewrite Hstar.
    replace (String.prefix "[^/]" (String "[" ("^/]" ++ render 4 ts)))
      with true by (simpl; now destruct (render 4 ts)).
    simpl JS.sliceFrom. now rewrite IH.
  - change (glyph 4 GStar ++ render 4 ts)
      with (String "[" ("^/]*" ++ render 4 ts)).
    rewrite tokens_cons. simpl Ascii.eqb. cbv iota.
    replace (String.prefix "[^/]*" (String "[" ("^/]*" ++ render 4 ts)))
      with true by (simpl; now destruct (render 4 ts)).
    simpl JS.sliceFrom. now rewrite IH.
  - change (glyph 4 GGlobstar ++ render 4 ts)
      with (String "." ("*" ++ render 4 ts)).
    rewrite tokens_cons. simpl Ascii.eqb. cbv iota.
    replace (String.prefix "[^/]*" (String "." ("*" ++ render 4 ts)))
      with false by reflexivity.
    replace (String.prefix "[^/]" (String "." ("*" ++ render 4 ts)))
      with false by reflexivity.
    replace (String.prefix ".*" (String "." ("*" ++ render 4 ts)))
      with true by (simpl; now destruct (render 4 ts)).
    simpl JS.sliceFrom. now rewrite IH.
Qed.

(** X10. For a pattern that holds no [<], the regular expression built by
    [patternToRegex] is the pattern read construct by construct: [**]
    stands for any run of characters, [*] for any run of characters other
    than the slash, [?] for one character other than the slash, and every
    other character for itself, whatever it means in a regular
    expression. *)
Theorem patternToRegex_constructs (pattern path : string)
    (Hangle : JS.includesChar "<" pattern = false) :
  tokens (patternToRegex pattern) = map regexOf (parseGlob pattern) /\
  regexTest (patternToRegex pattern) path
  = matchTokens (map regexOf (parseGlob pattern)) path.
Proof.
  assert (H : tokens (patternToRegex pattern) = map regexOf (parseGlob pattern)).
  { rewrite (patternToRegex_render pattern Hangle).
    apply tokens_render. now apply parseGlob_parsed. }
  split; [exact H|]. unfold regexTest. now rewrite H.
Qed.

(** An instance: the pattern [src/**/*.ts?]. *)
Lemma patternToRegex_constructs_witness :
  JS.includesChar "<" "src/**/*.ts?" = false /\
  tokens (patternToRegex "src/**/*.ts?") =
  [Lit "s"; Lit "r"; Lit "c"; Lit "/"; StarAny; Lit "/"; StarNonSlash;
   Lit "."; Lit "t"; Lit "s"; NonSlash].
Proof.
  assert (H : JS.includesChar "<" "src/**/*.ts?" = false) by reflexivity.
  split; [exact H|].
  exact (proj1 (patternToRegex_constructs "src/**/*.ts?" "" H)).
Defined.

(** The placeholder itself, written in a pattern, is taken for [**]. *)
Example placeholder_in_pattern :
  regexTest (patternToRegex "<<<GLOBSTAR>>>") "any/path" = true.
Proof. reflexivity. Qed.

(** *** Patterns without wildcards *)

Lemma parseGlob_literal (pattern : string) :
  JS.includesChar "*" pattern = false ->
  JS.includesChar "?" pattern = false ->
  map regexOf (parseGlob pattern) = map Lit (list_ascii_of_string pattern).
Proof.
  induction pattern as [|c rest IH]; [reflexivity|].
  intros H1 H2. simpl in H1, H2.
  apply orb_false_iff in H1 as [Hc1 Hr1].
  apply orb_false_iff in H2 as [Hc2 Hr2].
  rewrite (parseGlob_cons c rest Hc1), Hc2. simpl. f_equal. now apply IH.
Qed.

Lemma matchTokens_literal (l : list ascii) (s : string) :
  matchTokens (map Lit l) s = String.eqb s (string_of_list_ascii l).
Proof.
  revert s. induction l as [|c l IH]; intros s; simpl.
  - now destruct s.
  - destruct s as [|d s]; [reflexivity|]. simpl. now rewrite IH.
Qed.

(** X11. A pattern that holds none of [*], [?] and [<] matches one path
    only, the pattern itself: every character that means something in a
    regular expression is escaped. *)
Theorem literal_pattern_matches_itself (pattern path : string)
    (Hstar : JS.includesChar "*" pattern = false)
    (Hquestion : JS.includesChar "?" pattern = false)
    (Hangle : JS.includesChar "<" pattern = false) :
  regexTest (patternToRegex pattern) path = String.eqb path pattern.
Proof.
  unfold regexTest.
  rewrite (patternToRegex_render pattern Hangle).
  rewrite (tokens_render _ (parseGlob_parsed pattern Hangle)).
  rewrite (parseGlob_literal pattern Hstar Hquestion), matchTokens_literal.
  now rewrite string_of_list_ascii_of_string.
Qed.

(** An instance: the pattern [a.b+(c)|[d]$], made of characters of regular
    expressions, does not match [aXb+(c)|[d]$]. *)
Lemma literal_pattern_matches_itself_witness :
  regexTest (patternToRegex "a.b+(c)|[d]$") "a.b+(c)|[d]$" = true /\
  regexTest (patternToRegex "a.b+(c)|[d]$") "aXb+(c)|[d]$" = false.
Proof.
  split.
  - exact (literal_pattern_matches_itself "a.b+(c)|[d]$" "a.b+(c)|[d]$"
             eq_refl eq_refl eq_refl).
  - exact (literal_pattern_matches_itself "a.b+(c)|[d]$" "aXb+(c)|[d]$"
             eq_refl eq_refl eq_refl).
Defined.

(** *** The paths [glob] returns *)

Lemma leadsTo_path (s : VFS) (o : GlobOptions) (dir : VFSNode)
    (currentPath : string) (entries : list VFSNode) (path : string) :
  leadsTo s o dir currentPath entries path ->
  entries <> [] /\
  path = fold_left childPath (map nodeName entries) currentPath.
Proof.
  induction 1 as [dir currentPath node eff Hin Heff
                 |dir currentPath node eff entries path Hin Heff Hdir _ IH].
  - split; [discriminate|reflexivity].
  - split; [discriminate|]. simpl. apply IH.
Qed.

Lemma reported_child (s : VFS) (o : GlobOptions) (dir : VFSNode)
    (currentPath : string) (node effective : VFSNode) (depth : nat) :
  In node (getChildren dir) ->
  effectiveNode s o (childPath currentPath (nodeName node)) node
  = Some effective ->
  exceedsDepth depth (maxDepth o) = false ->
  negb (dot o) && JS.startsWithChar "." (nodeName node) = false ->
  reported s o dir currentPath depth (childPath currentPath (nodeName node)).
Proof.
  intros Hin Heff Hd Hh. exists [node].
  split; [now apply (leadsTo_entry s o dir _ node effective)|]. split.
  - intros Hdot. rewrite Hdot in Hh. simpl in Hh. now constructor.
  - intros m Hm. rewrite Hm in Hd. simpl in Hd. apply Nat.ltb_ge in Hd.
    simpl. lia.
Qed.

Lemma reported_below (s : VFS) (o : GlobOptions) (dir : VFSNode)
    (currentPath : string) (node effective : VFSNode) (depth : nat)
    (path : string) :
  In node (getChildren dir) ->
  effectiveNode s o (childPath currentPath (nodeName node)) node
  = Some effective ->
  isDirectory effective = true ->
  negb (dot o) && JS.startsWithChar "." (nodeName node) = false ->
  reported s o effective (childPath currentPath (nodeName node)) (depth + 1)
    path ->
  reported s o dir currentPath depth path.
Proof.
  intros Hin Heff Hdir Hh (entries & Hlead & Hdots & Hdepth).
  exists (node :: entries). split; [now apply (leadsTo_below s o dir _ node effective)|].
  split.
  - intros Hdot. constructor; [|now apply Hdots].
    rewrite Hdot in Hh. exact Hh.
  - intros m Hm. specialize (Hdepth m Hm). simpl. lia.
Qed.

Lemma traverse_reported (s : VFS) (o : GlobOptions) (regex cwd : string)
    (Habs : absolute o = true) (fuel : nat) :
  forall (dir : VFSNode) (currentPath : string) (depth : nat)
         (pushed : list string),
    traverse fuel s o regex cwd dir currentPath depth = Some (Ok pushed) ->
    Forall (reported s o dir currentPath depth) pushed.
Proof.
  induction fuel as [|fuel IH]; intros dir currentPath depth pushed; [discriminate|].
  cbn [traverse].
  destruct (exceedsDepth depth (maxDepth o)) eqn:Edepth.
  { intros H. injection H as <-. constructor. }
  assert (Hincl : incl (getChildren dir) (getChildren dir)) by apply incl_refl.
  revert Hincl. generalize (getChildren dir) at 1 3. intros nodes. revert pushed.
  induction nodes as [|node nodes IHn]; intros pushed Hincl.
  { intros H. injection H as <-. constructor. }
  intros H.
  assert (Hin : In node (getChildren dir)) by (apply Hincl; now left).
  assert (Hrest : incl nodes (getChildren dir))
    by (intros x Hx; apply Hincl; now right).
  specialize (fun pushed => IHn pushed Hrest).
  match type of IHn with
  | forall pushed, ?e nodes = _ -> _ => set (each := e) in *
  end.
  fold (childPath currentPath (nodeName node)) in H.
  set (nodePath := childPath currentPath (nodeName node)) in *.
  destruct (negb (dot o) && JS.startsWithChar "." (nodeName node)) eqn:Ehid;
    [now apply IHn|].
  destruct (matchesIgnore nodePath (ignore o)); [now apply IHn|].
  rewrite Habs in H.
  assert (Hvisit : forall (eff : VFSNode) (here : list string),
    effectiveNode s o nodePath node = Some eff ->
    match (if isDirectory eff
           then traverse fuel s o regex cwd eff nodePath (depth + 1)
           else Some (Ok []))
    with
    | None => None
    | Some (Throw e) => Some (Throw e)
    | Some (Ok sub) =>
        match each nodes with
        | None => None
        | Some (Throw e) => Some (Throw e)
        | Some (Ok others) => Some (Ok (here ++ sub ++ others)%list)
        end
    end = Some (Ok pushed) ->
    Forall (reported s o dir currentPath depth) here ->
    Forall (reported s o dir currentPath depth) pushed).
  { intros eff here Heff Hrun Hhere.
    destruct (if isDirectory eff
              then traverse fuel s o regex cwd eff nodePath (depth + 1)
              else Some (Ok [])) as [[sub|e]|] eqn:Ebelow; try discriminate.
    destruct (each nodes) as [[others|e]|] eqn:Eothers; try discriminate.
    injection Hrun as <-.
    apply Forall_app. split; [exact Hhere|]. apply Forall_app.
    split; [|now apply IHn].
    destruct (isDirectory eff) eqn:Edir.
    - apply IH in Ebelow. eapply Forall_impl; [|exact Ebelow].
      intros path. now apply (reported_below s o dir currentPath node eff).
    - injection Ebelow as <-. constructor. }
  assert (Hhere : forall (eff : VFSNode) (b : bool),
             effectiveNode s o nodePath node = Some eff ->
             Forall (reported s o dir currentPath depth)
               (if b then [nodePath] else [])).
  { intros eff [|] Heff; constructor; [|constructor].
    now apply (reported_child s o dir currentPath node eff). }
  unfold effectiveNode in Hvisit, Hhere.
  destruct (isSymlink node && followSymlinks o).
  - destruct (resolveNode s nodePath true) as [[resolved|]|e];
      [|now apply IHn|discriminate].
    eapply Hvisit; [reflexivity|exact H|now apply (Hhere resolved)].
  - eapply Hvisit; [reflexivity|exact H|now apply (Hhere node)].
Qed.

Lemma childPath_prefix (cwd : string) (names : list string) :
  names <> [] ->
  String.prefix (parentPrefix cwd) (fold_left childPath names cwd) = true.
Proof.
  destruct names as [|nm names]; [congruence|]. intros _. simpl fold_left.
  assert (H0 : exists t, childPath cwd nm = parentPrefix cwd ++ t).
  { unfold childPath, parentPrefix. destruct (String.eqb cwd "/").
    - now exists nm.
    - exists nm. now rewrite append_assoc. }
  revert H0. generalize (childPath cwd nm). clear nm.
  induction names as [|nm names IH]; intros cp (t & Hcp); simpl.
  - rewrite Hcp. apply prefix_app.
  - apply IH. unfold childPath. destruct (String.eqb cp "/") eqn:E.
    + apply String.eqb_eq in E. rewrite E in Hcp. clear E.
      assert (Hpp : parentPrefix cwd = "/").
      { unfold parentPrefix in *. destruct (String.eqb cwd "/"); [reflexivity|].
        destruct cwd as [|c cwd]; [reflexivity|].
        simpl in Hcp. injection Hcp as Hc Hrest. now destruct cwd. }
      rewrite Hpp. now exists nm.
    + exists (t ++ "/" ++ nm). rewrite Hcp. now rewrite append_assoc.
Qed.

(** X12. When absolute paths are asked for, every path [glob] returns is
    reached from the directory [cwd] by going down through one entry of the
    tree or more, each an entry of the directory reached before it, the path
    growing by the name of one entry at a time; so the path starts with
    [cwd] and a slash.  No entry on the way has a name that starts with a
    period unless [dot] is set, and the entries are no more than
    [maxDepth + 1]. *)
Theorem glob_results_below_cwd (fuel : nat) (s : VFS) (pattern : string)
    (o : GlobOptions) (results : list string)
    (Hglob : glob fuel s pattern o = Some (Ok results))
    (Habs : absolute o = true) :
  Forall (fun path =>
            (exists startDir,
                getDirectory s (globCwd o) = Ok startDir /\
                reported s o startDir (globCwd o) 0 path) /\
            String.prefix (parentPrefix (globCwd o)) path = true)
         results.
Proof.
  unfold glob, getDirectoryOrNull in Hglob.
  destruct (getDirectory s (globCwd o)) as [startDir|];
    [|injection Hglob as <-; constructor].
  destruct (traverse fuel s o (patternToRegex pattern) (globCwd o) startDir
              (globCwd o) 0) as [[pushed|e]|] eqn:Ht; try discriminate.
  injection Hglob as <-.
  apply (Permutation_Forall (proj2 (sortStrings_sorted pushed))).
  eapply Forall_impl; [|exact (traverse_reported s o _ _ Habs fuel _ _ _ _ Ht)].
  intros path Hrep. split; [now exists startDir|].
  destruct Hrep as (entries & Hlead & _).
  destruct (leadsTo_path _ _ _ _ _ _ Hlead) as (Hne & ->).
  apply childPath_prefix. now destruct entries.
Qed.

(** An instance: the hidden file and the file below [maxDepth] are left
    out. *)
Lemma glob_results_below_cwd_witness :
  glob 5 hiddenAndDeep "**" shallow = Some (Ok ["/d"; "/d/a"; "/d/e"]) /\
  absolute shallow = true /\
  Forall (fun path =>
            (exists startDir,
                getDirectory hiddenAndDeep (globCwd shallow) = Ok startDir /\
                reported hiddenAndDeep shallow startDir (globCwd shallow) 0
                  path) /\
            String.prefix (parentPrefix (globCwd shallow)) path = true)
         ["/d"; "/d/a"; "/d/e"].
Proof.
  assert (H : glob 5 hiddenAndDeep "**" shallow = Some (Ok ["/d"; "/d/a"; "/d/e"]))
    by reflexivity.
  split; [exact H|]. split; [reflexivity|].
  exact (glob_results_below_cwd 5 hiddenAndDeep "**" shallow _ H eq_refl).
Defined.

(* ================================================================= *)
(** ** Lookups: what exists, what can be read *)

Lemma resolveLoop_without_follow (rec : string -> Result (option VFSNode))
    (rest visited : list string) (current node : VFSNode) :
  resolveLoop rec true visited rest current = Ok (Some node) ->
  exists node', resolveLoop rec false visited rest current = Ok (Some node').
Proof.
  revert visited current. induction rest as [|segment rest IH];
    intros visited current; simpl.
  - intros H. now exists current.
  - destruct (negb (isDirectory current)); [discriminate|].
    destruct (getChild current segment) as [child|]; [|discriminate].
    destruct (isSymlink child).
    + destruct rest as [|next rest'].
      * intros _. now exists child.
      * cbn [isNil negb orb].
        destruct (rec (symlinkTargetPath visited child)) as [[resolved|]|e];
          try discriminate.
        apply IH.
    + apply IH.
Qed.

Lemma resolveNode_without_follow (s : VFS) (p : string) (node : VFSNode) :
  resolveNode s p true = Ok (Some node) ->
  exists node', resolveNode s p false = Ok (Some node').
Proof.
  unfold resolveNode, resolveNodeAt.
  destruct (S (maxSymlinkDepth (options s)) - 0) as [|fuel]; [discriminate|].
  cbn [resolveNodeFuel].
  destruct (resolvePath p) as [r|e]; [|discriminate].
  destruct (isRoot r); [intros H; now exists (root s)|].
  apply resolveLoop_without_follow.
Qed.

(** Following links never ends on a link. *)
Lemma resolveLoop_follows (rec : string -> Result (option VFSNode))
    (Hrec : forall p n, rec p = Ok (Some n) -> isSymlink n = false)
    (rest visited : list string) (current node : VFSNode) :
  isSymlink current = false ->
  resolveLoop rec true visited rest current = Ok (Some node) ->
  isSymlink node = false.
Proof.
  revert visited current. induction rest as [|segment rest IH];
    intros visited current Hcur; simpl.
  - intros H. injection H as <-. exact Hcur.
  - destruct (negb (isDirectory current)); [discriminate|].
    destruct (getChild current segment) as [child|]; [|discriminate].
    destruct (isSymlink child) eqn:Echild.
    + destruct (rec (symlinkTargetPath visited child)) as [[resolved|]|e] eqn:Er;
        try discriminate.
      pose proof (Hrec _ _ Er) as Hres.
      destruct (isNil rest).
      * intros H. injection H as <-. exact Hres.
      * now apply IH.
    + now apply IH.
Qed.

Lemma resolveNodeFuel_follows (fuel : nat) (rt : VFSNode) :
  isSymlink rt = false ->
  forall p node, resolveNodeFuel fuel rt p true = Ok (Some node) ->
                 isSymlink node = false.
Proof.
  intros Hrt. induction fuel as [|fuel IH]; intros p node; [discriminate|].
  cbn [resolveNodeFuel].
  destruct (resolvePath p) as [r|e]; [|discriminate].
  destruct (isRoot r); [intros H; injection H as <-; exact Hrt|].
  now apply resolveLoop_follows.
Qed.

(** X13. What can be read exists: when [readFile] returns a content,
    [exists] and [isFile] answer true, [isDirectory] answers false, and
    [getStats] reports a file of the size of the content. *)
Theorem readable_exists (s : VFS) (p : string) (content : Buffer)
    (Hread : outcome (readFile p) s = Ok content) :
  exists_ s p = true /\ isFileAt s p = true /\ isDirectoryAt s p = false /\
  exists st, getStats s p = Ok st /\ statsIsFile st = true /\
             statsSize st = List.length content.
Proof.
  unfold outcome, readFile, bind, reading in Hread.
  destruct (resolveNode s p true) as [[node|]|e] eqn:Er; try discriminate.
  destruct node as [o nm c md| |]; try discriminate.
  simpl in Hread. injection Hread as <-.
  destruct (resolveNode_without_follow s p _ Er) as (node' & Er').
  unfold exists_, isFileAt, isDirectoryAt, getStats. rewrite Er, Er'.
  repeat split. now eexists.
Qed.

(** An instance: the file [/ab]. *)
Lemma readable_exists_witness :
  outcome (readFile "/ab") oneFile = Ok (utf8 "x") /\
  exists_ oneFile "/ab" = true /\ isFileAt oneFile "/ab" = true.
Proof.
  assert (H : outcome (readFile "/ab") oneFile = Ok (utf8 "x")) by reflexivity.
  destruct (readable_exists oneFile "/ab" _ H) as (H1 & H2 & _).
  split; [exact H|]. split; [exact H1|exact H2].
Defined.

(** X14. In every state reached from a new file system, a lookup that
    follows symlinks never ends on a symlink: the stats of [getStats] are
    those of a file or of a directory, and they say file exactly when
    [readFile] returns.  So the last [FileNotFoundError] of [readFile] is
    raised for a missing path only. *)
Theorem following_never_ends_on_link (opts : VFSOptions) (ops : list Op)
    (p : string) :
  let s := runOps ops (createVFS opts) in
  (forall st, getStats s p = Ok st ->
     statsIsSymlink st = false /\
     statsIsFile st = negb (statsIsDirectory st) /\
     (statsIsFile st = true <-> exists c, outcome (readFile p) s = Ok c)) /\
  (forall e, outcome (readFile p) s = Throw e ->
     resolveNode s p true = Throw e \/
     (resolveNode s p true = Ok None /\ e = FileNotFoundError p) \/
     (isDirectoryAt s p = true /\ e = NotAFileError p)).
Proof.
  intros s.
  assert (Hg : good s) by apply runOps_good, createVFS_good.
  assert (Hroot : isSymlink (root s) = false).
  { destruct Hg as (_ & Hd & _). now destruct (root s). }
  assert (Hlink : forall node, resolveNode s p true = Ok (Some node) ->
                               isSymlink node = false).
  { intros node. unfold resolveNode, resolveNodeAt.
    now apply resolveNodeFuel_follows. }
  split.
  - intros st. unfold getStats.
    destruct (resolveNode s p true) as [[node|]|e] eqn:Er; try discriminate.
    intros H. injection H as <-. specialize (Hlink node eq_refl).
    unfold outcome, readFile, bind, reading. rewrite Er.
    destruct node; try discriminate; simpl; repeat split;
      try (intros _; now eexists); try discriminate;
      intros (c & H); discriminate.
  - intros e. unfold outcome, readFile, bind, reading, isDirectoryAt.
    destruct (resolveNode s p true) as [[node|]|e'] eqn:Er.
    + specialize (Hlink node eq_refl).
      destruct node; try discriminate; simpl.
      intros H. injection H as <-. right. right. now split.
    + simpl. intros H. injection H as <-. right. left. now split.
    + simpl. intros H. injection H as <-. now left.
Qed.

(** *** Deletions that fail *)

(** X15. A [deleteFile] or a [deleteDirectory] that raises an error has
    changed nothing: every check is made before the entry is removed. *)
Theorem failed_delete_changes_nothing (s : VFS) (p : string) (recursive : bool)
    (e : FileSystemError) :
  (outcome (deleteFile p) s = Throw e -> exec (deleteFile p) s = s) /\
  (outcome (deleteDirectory p recursive) s = Throw e ->
   exec (deleteDirectory p recursive) s = s).
Proof.
  split.
  - unfold outcome, exec, deleteFile, bind, liftR, reading, throw.
    destruct (resolvePath p) as [r|e0]; [|reflexivity].
    destruct (getDirectoryOrNull s (parentPath r)) as [parent|]; [|reflexivity].
    destruct (getChild parent (name r)) as [node|]; [|reflexivity].
    destruct (isDirectory node); [reflexivity|].
    cbv beta. rewrite mutate_run. unfold notifyWatchers, ret. discriminate.
  - unfold outcome, exec, deleteDirectory, bind, liftR, reading, throw.
    destruct (resolvePath p) as [r|e0]; [|reflexivity].
    destruct (isRoot r).
    + destruct recursive; [|reflexivity].
      change (negb true) with false. cbv beta iota.
      rewrite removeChildren_run. discriminate.
    + destruct (getDirectory s (parentPath r)) as [parent|e1]; [|reflexivity].
      destruct (getChild parent (name r)) as [node|]; [|reflexivity].
      destruct (negb (isDirectory node)); [reflexivity|].
      destruct (negb recursive && negb (dirIsEmpty node)); [reflexivity|].
      cbv beta. rewrite mutate_run. unfold notifyWatchers, ret. discriminate.
Qed.

(** An instance: [deleteFile] on a directory, [deleteDirectory] on a
    directory that is not empty. *)
Lemma failed_delete_changes_nothing_witness :
  outcome (deleteFile "/d") oneFileInDir = Throw (NotAFileError "/d") /\
  outcome (deleteDirectory "/d" false) oneFileInDir
    = Throw (DirectoryNotEmptyError "/d") /\
  exec (deleteFile "/d") oneFileInDir = oneFileInDir /\
  exec (deleteDirectory "/d" false) oneFileInDir = oneFileInDir.
Proof.
  assert (H1 : outcome (deleteFile "/d") oneFileInDir
               = Throw (NotAFileError "/d")) by reflexivity.
  assert (H2 : outcome (deleteDirectory "/d" false) oneFileInDir
               = Throw (DirectoryNotEmptyError "/d")) by reflexivity.
  split; [exact H1|]. split; [exact H2|]. split.
  - exact (proj1 (failed_delete_changes_nothing oneFileInDir "/d" false _) H1).
  - exact (proj2 (failed_delete_changes_nothing oneFileInDir "/d" false _) H2).
Defined.

(** *** Listing a directory *)

Lemma wellKeyed_names (d : VFSNode) :
  wellKeyed d -> NoDup (map nodeName (getChildren d)).
Proof.
  intros Hk. destruct d as [| o nm ch md |]; try constructor.
  inversion Hk as [| |? ? ? ? Hnd Hall]; subst.
  unfold getChildren. simpl. rewrite map_map.
  replace (map (fun kv => nodeName (snd kv)) ch) with (map fst ch); [exact Hnd|].
  apply map_ext_in. intros kv Hin. rewrite Forall_forall in Hall.
  now destruct (Hall kv Hin) as (-> & _).
Qed.

(** X16. In every state reached from a new file system, [readDirectory]
    lists no name twice: a directory holds one entry per name.  Each entry
    is of one kind, and the path listed is a directory for
    [isDirectory]. *)
Theorem readDirectory_lists_each_name_once (opts : VFSOptions) (ops : list Op)
    (p : string) (entries : list DirectoryEntry) :
  let s := runOps ops (createVFS opts) in
  readDirectory s p = Ok entries ->
  NoDup (map entryName entries) /\
  isDirectoryAt s p = true /\
  Forall (fun e =>
            (entryIsFile e = true /\ entryIsDirectory e = false /\
             entryIsSymlink e = false) \/
            (entryIsFile e = false /\ entryIsDirectory e = true /\
             entryIsSymlink e = false /\ entrySize e = 4096) \/
            (entryIsFile e = false /\ entryIsDirectory e = false /\
             entryIsSymlink e = true))
         entries.
Proof.
  intros s. assert (Hg : good s) by apply runOps_good, createVFS_good.
  unfold readDirectory.
  destruct (getDirectory s p) as [dir|e] eqn:Hdir; [|discriminate].
  intros H. injection H as <-.
  pose proof (getDirectory_live s p dir Hg Hdir) as (_ & Hkeyed).
  split; [|split].
  - rewrite map_map. simpl. now apply wellKeyed_names.
  - unfold getDirectory in Hdir. unfold isDirectoryAt.
    destruct (resolveNode s p true) as [[node|]|e]; try discriminate.
    destruct (isDirectory node); [reflexivity|discriminate].
  - apply Forall_map. apply Forall_forall. intros node _. simpl.
    destruct node; simpl; auto 10.
Qed.

(** An instance: the two files of the root. *)
Lemma readDirectory_lists_each_name_once_witness :
  map entryName (match readDirectory twoFiles "/" with
                 | Ok l => l | Throw _ => [] end) = ["b"; "a"] /\
  NoDup ["b"; "a"].
Proof.
  split; [reflexivity|].
  exact (proj1 (readDirectory_lists_each_name_once DEFAULT_OPTIONS
                  [OpWriteFile "/b" (Str "x") None; OpWriteFile "/a" (Str "y") None]
                  "/" _ eq_refl)).
Defined.

(* ================================================================= *)
(** ** The snapshot table, the counts and the diff *)

(** *** The table of the snapshots *)

Lemma evolved_table (s0 s : VFS) : evolved s0 s -> tableOk s0 -> tableOk s.
Proof. intros (_ & Hs & Hc & _). unfold tableOk. now rewrite Hs, Hc. Qed.

Lemma createSnapshot_table (nm : option string) (s : VFS) :
  tableOk s -> tableOk (exec (createSnapshot nm) s).
Proof.
  intros (Hnd & Hids).
  destruct (createSnapshot_run nm s) as (_ & _ & Hctr & _ & info & Hsnaps).
  unfold tableOk. rewrite Hctr, Hsnaps. split; [now apply set_NoDup|].
  intros id Hin. apply set_keys in Hin as [->|Hin].
  - exists (S (snapshotCounter s)). split; [reflexivity|lia].
  - destruct (Hids id Hin) as (n & -> & Hn). exists n. split; [reflexivity|lia].
Qed.

Lemma deleteSnapshot_table (id : string) (s : VFS) :
  tableOk s -> tableOk (exec (deleteSnapshot id) s).
Proof.
  intros (Hnd & Hids). unfold tableOk, exec, deleteSnapshot. simpl.
  split; [now apply delete_NoDup|].
  intros id' Hin. apply Hids.
  apply in_map_iff in Hin as (kv & <- & Hin). apply in_map.
  now apply delete_In in Hin.
Qed.

Lemma reset_table (s : VFS) : tableOk (exec reset s).
Proof.
  unfold exec, reset. rewrite bind_run. unfold reading at 1. cbv beta iota.
  rewrite bind_run, removeChildren_run. cbv beta iota.
  unfold tableOk. simpl. split; [constructor|intros ? []].
Qed.

Lemma runOp_table (op : Op) (s : VFS) :
  good s -> tableOk s -> tableOk (runOp op s).
Proof.
  intros Hg Ht. pose proof (evolved_refl s Hg) as Hev.
  destruct op; simpl;
    try (eapply evolved_table; [|exact Ht];
         first [ now apply writeFile_evolved
               | now apply appendFile_evolved
               | now apply deleteFile_evolved
               | now apply createDirectory_evolved
               | now apply deleteDirectory_evolved
               | now apply createSymlink_evolved
               | now apply copyFile_evolved
               | now apply moveFile_evolved
               | now apply restoreSnapshot_evolved ]).
  - now apply createSnapshot_table.
  - now apply deleteSnapshot_table.
  - apply reset_table.
Qed.

Lemma runOps_table (ops : list Op) (s : VFS) :
  good s -> tableOk s -> tableOk (runOps ops s).
Proof.
  revert s. induction ops as [|op ops IH]; intros s Hg Ht; [exact Ht|].
  simpl. apply IH; [now apply runOp_good|now apply runOp_table].
Qed.

Lemma createVFS_table (opts : VFSOptions) : tableOk (createVFS opts).
Proof. split; [constructor|intros ? []]. Qed.

Lemma get_absent {V} (k : string) (m : list (string * V)) :
  ~ In k (map fst m) -> JSMap.get k m = None.
Proof.
  induction m as [|[k' v] m IH]; simpl; [reflexivity|]. intros Hn.
  destruct (String.eqb k' k) eqn:E.
  - apply String.eqb_eq in E. subst. exfalso. apply Hn. now left.
  - apply IH. intros Hin. apply Hn. now right.
Qed.

Lemma get_delete_same {V} (k : string) (m : list (string * V)) :
  NoDup (map fst m) -> JSMap.get k (JSMap.delete k m) = None.
Proof.
  induction m as [|[k' v] m IH]; simpl; [reflexivity|]. intros Hnd.
  inversion Hnd as [|? ? Hnotin Hnd']; subst.
  destruct (String.eqb k' k) eqn:E.
  - apply String.eqb_eq in E. subst. now apply get_absent.
  - simpl. rewrite E. now apply IH.
Qed.

Lemma get_delete_other {V} (k k' : string) (m : list (string * V)) :
  k <> k' -> JSMap.get k (JSMap.delete k' m) = JSMap.get k m.
Proof.
  intros Hne. induction m as [|[k0 v] m IH]; simpl; [reflexivity|].
  destruct (String.eqb k0 k') eqn:E.
  - apply String.eqb_eq in E. subst k0.
    apply not_eq_sym, String.eqb_neq in Hne. now rewrite Hne.
  - simpl. now rewrite IH.
Qed.

(** *** Counting *)

Lemma countTraverse_erase (a : VFSNode) :
  forall b acc, erase a = erase b -> countTraverse a acc = countTraverse b acc.
Proof.
  induction a as [o nm c md|o nm ch md IH|o nm t md] using node_induction;
    intros [o' nm' c' md'|o' nm' ch' md'|o' nm' t' md'] acc H;
    try discriminate; simpl in H.
  - injection H as _ -> _. reflexivity.
  - injection H as _ Hch _. simpl.
    generalize {| cFiles := cFiles acc; cDirectories := S (cDirectories acc);
                  cSize := cSize acc |}.
    clear acc. revert ch' Hch.
    induction IH as [|kv ch Hkv _ IHch]; intros [|kv' ch'] Hch acc;
      try discriminate; [reflexivity|].
    simpl in Hch. injection Hch as _ He Hrest.
    rewrite (Hkv _ acc He). now apply IHch.
  - reflexivity.
Qed.

Lemma countNodes_clone (n : VFSNode) (next : nat) :
  countNodes (fst (clone n next)) = countNodes n.
Proof.
  unfold countNodes. apply countTraverse_erase.
  apply (clone_facts n next).
Qed.

(** X17. In every state reached from a new file system, [createSnapshot]
    returns an id that names no stored snapshot.  The new snapshot is listed
    last by [listSnapshots], after the ones listed before; its info carries
    the id and the name given, and counts the files, the directories and
    the bytes of the tree that is stored; the other snapshots keep their
    infos. *)
Theorem createSnapshot_adds_one (opts : VFSOptions) (ops : list Op)
    (nm : option string) :
  let s := runOps ops (createVFS opts) in
  let id := snapshotId (S (snapshotCounter s)) in
  let s1 := exec (createSnapshot nm) s in
  outcome (createSnapshot nm) s = Ok id /\
  getSnapshotInfo s id = None /\
  (forall id', id' <> id -> getSnapshotInfo s1 id' = getSnapshotInfo s id') /\
  exists snapshot,
    JSMap.get id (snapshots s1) = Some snapshot /\
    getSnapshotInfo s1 id = Some (snapInfo snapshot) /\
    listSnapshots s1 = (listSnapshots s ++ [snapInfo snapshot])%list /\
    infoId (snapInfo snapshot) = id /\
    infoName (snapInfo snapshot) = nm /\
    fileCount (snapInfo snapshot) = cFiles (countNodes (snapRoot snapshot)) /\
    directoryCount (snapInfo snapshot)
      = cDirectories (countNodes (snapRoot snapshot)) /\
    totalSize (snapInfo snapshot) = cSize (countNodes (snapRoot snapshot)).
Proof.
  intros s id s1.
  assert (Hg : good s) by apply runOps_good, createVFS_good.
  assert (Ht : tableOk s)
    by (apply runOps_table; [apply createVFS_good|apply createVFS_table]).
  assert (Hfresh : ~ In id (map fst (snapshots s))).
  { intros Hin. destruct Ht as (_ & Hids).
    destruct (Hids id Hin) as (n & Heq & Hn).
    apply snapshotId_injective in Heq. lia. }
  set (snapshot :=
         {| snapRoot := fst (clone (root s) (nextOid s));
            snapInfo := {| infoId := id; infoName := nm;
                           fileCount := cFiles (countNodes (root s));
                           directoryCount := cDirectories (countNodes (root s));
                           totalSize := cSize (countNodes (root s)) |} |}).
  assert (Hsnaps : snapshots s1 = JSMap.set id snapshot (snapshots s)).
  { unfold s1, exec, createSnapshot, snapshot, id.
    now destruct (clone (root s) (nextOid s)). }
  split; [apply createSnapshot_run|].
  split; [unfold getSnapshotInfo; now rewrite (get_absent _ _ Hfresh)|].
  split.
  - intros id' Hne. unfold getSnapshotInfo.
    now rewrite Hsnaps, get_set_other.
  - exists snapshot.
    assert (Hget : JSMap.get id (snapshots s1) = Some snapshot)
      by (rewrite Hsnaps; apply get_set_same).
    split; [exact Hget|]. split; [unfold getSnapshotInfo; now rewrite Hget|].
    split.
    + unfold listSnapshots. rewrite Hsnaps, (set_fresh _ _ _ Hfresh).
      now rewrite map_app.
    + simpl. rewrite countNodes_clone. repeat split.
Qed.

(** X18. In every state reached from a new file system, after
    [deleteSnapshot(id)] the snapshot [id] is gone and the others are as
    they were, stored tree and info: the call returns whether the snapshot
    was there, the live tree is untouched, [restoreSnapshot(id)] raises its
    error and changes nothing, and so does [diff(id)] when [id] is not the
    empty string (which [diff] takes for no id). *)
Theorem deleteSnapshot_removes_one (opts : VFSOptions) (ops : list Op)
    (id : string) :
  let s := runOps ops (createVFS opts) in
  let s' := exec (deleteSnapshot id) s in
  outcome (deleteSnapshot id) s
    = Ok (match getSnapshotInfo s id with Some _ => true | None => false end) /\
  root s' = root s /\
  JSMap.get id (snapshots s') = None /\
  getSnapshotInfo s' id = None /\
  (forall id', id' <> id ->
     JSMap.get id' (snapshots s') = JSMap.get id' (snapshots s) /\
     getSnapshotInfo s' id' = getSnapshotInfo s id') /\
  restoreSnapshot id s' = (s', Throw (SnapshotNotFound id)) /\
  (id <> "" -> diff s' (Some id) None = Throw (SnapshotNotFound id)).
Proof.
  intros s s'.
  assert (Ht : tableOk s)
    by (apply runOps_table; [apply createVFS_good|apply createVFS_table]).
  destruct Ht as (Hnd & _).
  assert (Hgone : JSMap.get id (snapshots s') = None)
    by (apply get_delete_same, Hnd).
  assert (Hothers : forall id', id' <> id ->
            JSMap.get id' (snapshots s') = JSMap.get id' (snapshots s))
    by (intros id' Hne; unfold s', exec, deleteSnapshot; simpl;
        now rewrite get_delete_other).
  split; [|split; [reflexivity|split; [exact Hgone|split; [|split; [|split]]]]].
  - unfold outcome, deleteSnapshot, getSnapshotInfo, JSMap.has. simpl.
    now destruct (JSMap.get id (snapshots s)).
  - unfold getSnapshotInfo. now rewrite Hgone.
  - intros id' Hne. split; [now apply Hothers|].
    unfold getSnapshotInfo. now rewrite (Hothers id' Hne).
  - unfold restoreSnapshot. rewrite bind_run. unfold reading at 1.
    unfold JSMap.has. now rewrite Hgone.
  - intros Hid. unfold diff, givenId, snapshotRoot.
    destruct id; [congruence|]. simpl JS.isEmpty. cbv iota. now rewrite Hgone.
Qed.

(** *** A diff between equal trees *)

(** [computeDiff], with the two maps it builds and the function it applies
    to each entry of [to]. *)
Lemma computeDiff_unfold (from : option VFSNode) (to : VFSNode) (basePath : string) :
  computeDiff from to basePath =
  let fromChildren :=
    match from with
    | Some f => childMap nodeName (getChildren f)
    | None => []
    end in
  let toChildren :=
    childMap (fun item => nodeName (fst item))
      (map (fun kv => (snd kv, fun from path => computeDiff from (snd kv) path))
           (childrenOf to)) in
  (flat_map (diffEntry fromChildren basePath) toChildren
   ++ deletedDiffs fromChildren toChildren basePath)%list.
Proof. destruct to; reflexivity. Qed.

Lemma set_all_items {V} (nameOf : V -> string) (items : list V)
    (acc : list (string * V)) :
  NoDup (map fst acc ++ map nameOf items) ->
  fold_left (fun m item => JSMap.set (nameOf item) item m) items acc
  = (acc ++ map (fun item => (nameOf item, item)) items)%list.
Proof.
  revert acc. induction items as [|item rest IH]; intros acc Hnd; simpl.
  - now rewrite app_nil_r.
  - rewrite set_fresh.
    + rewrite IH; [now rewrite <- app_assoc|].
      rewrite map_app. simpl. now rewrite <- app_assoc.
    + simpl in Hnd. apply NoDup_remove_2 in Hnd.
      intros Hin. apply Hnd. apply in_or_app. now left.
Qed.

Lemma get_erased (a b : list (string * VFSNode)) (nm : string) (y : VFSNode) :
  map (fun kv => (fst kv, erase (snd kv))) a
  = map (fun kv => (fst kv, erase (snd kv))) b ->
  NoDup (map fst b) -> In (nm, y) b ->
  exists x, JSMap.get nm a = Some x /\ erase x = erase y.
Proof.
  revert b. induction a as [|[k x] a IH]; intros [|[k' y'] b] Heq Hnd Hin;
    try discriminate; [contradiction|].
  simpl in Heq. injection Heq as -> He Hrest.
  inversion Hnd as [|? ? Hnotin Hnd']; subst. simpl.
  destruct Hin as [Hin|Hin].
  - injection Hin as -> ->. rewrite String.eqb_refl. now exists x.
  - destruct (String.eqb k' nm) eqn:E.
    + apply String.eqb_eq in E. subst k'. exfalso. apply Hnotin.
      apply in_map_iff. now exists (nm, y).
    + now apply (IH b).
Qed.

Lemma erased_keys (a b : list (string * VFSNode)) :
  map (fun kv => (fst kv, erase (snd kv))) a
  = map (fun kv => (fst kv, erase (snd kv))) b ->
  map fst a = map fst b.
Proof.
  intros H. apply (f_equal (map fst)) in H. rewrite !map_map in H. exact H.
Qed.

Lemma has_key {V} (k : string) (m : list (string * V)) :
  In k (map fst m) -> JSMap.has k m = true.
Proof.
  unfold JSMap.has. induction m as [|[k' v] m IH]; simpl; [contradiction|].
  destruct (String.eqb k' k) eqn:E; [reflexivity|].
  intros [H|H]; [simpl in H; subst; now rewrite String.eqb_refl in E|now apply IH].
Qed.

Lemma erase_kinds (x y : VFSNode) :
  erase x = erase y ->
  isFile x = isFile y /\ isDirectory x = isDirectory y /\
  read x = read y /\ contents x = contents y.
Proof.
  destruct x, y; try discriminate; simpl; intros H; injection H as H1 H2 H3;
    unfold contents; simpl; repeat split; congruence.
Qed.

Lemma bufferEquals_refl (b : Buffer) : bufferEquals b b = true.
Proof. unfold bufferEquals. now destruct (list_eq_dec Byte.byte_eq_dec b b). Qed.

(** Two trees with the same entries do not differ. *)
Lemma computeDiff_same (to : VFSNode) :
  forall from path,
    wellKeyed to -> wellKeyed from -> contents from = contents to ->
    computeDiff (Some from) to path = [].
Proof.
  induction to as [o nm c md|o nm ch md IH|o nm t md] using node_induction;
    intros from path Hto Hfrom Hsame; rewrite computeDiff_unfold; cbv zeta;
    replace (childMap nodeName (getChildren from)) with (childrenOf from)
      by (symmetry; apply (wellKeyed_children from Hfrom)).
  1,3: (unfold contents in Hsame; simpl in Hsame;
        destruct (childrenOf from); [reflexivity|discriminate]).
  inversion Hto as [| |? ? ? ? Hnd Hall]; subst.
  unfold contents in Hsame. simpl childrenOf in *.
  set (fch := childrenOf from) in *.
  set (R := fun kv : string * VFSNode =>
              (snd kv, fun (from : option VFSNode) (path : string) =>
                         computeDiff from (snd kv) path)).
  assert (HtoCh : childMap
                    (fun item : VFSNode * (option VFSNode -> string -> list FileDiff)
                     => nodeName (fst item)) (map R ch)
                  = map (fun kv => (fst kv, R kv)) ch).
  { unfold childMap. rewrite set_all_items.
    - simpl. rewrite map_map. apply map_ext_in. intros kv Hin.
      rewrite Forall_forall in Hall. destruct (Hall kv Hin) as (Hn & _).
      unfold R at 1. simpl. now rewrite Hn.
    - simpl. rewrite map_map.
      replace (map (fun x => nodeName (fst (R x))) ch) with (map fst ch); [exact Hnd|].
      apply map_ext_in. intros kv Hin.
      rewrite Forall_forall in Hall. destruct (Hall kv Hin) as (Hn & _).
      now rewrite <- Hn. }
  fold R. rewrite HtoCh.
  assert (Hentries : flat_map (diffEntry fch path)
                       (map (fun kv => (fst kv, R kv)) ch) = []).
  { rewrite flat_map_concat_map, map_map.
    apply concat_nil_Forall. apply Forall_map. apply Forall_forall.
    intros [k y] Hin. unfold diffEntry. simpl.
    destruct (get_erased fch ch k y Hsame Hnd Hin) as (x & Hget & He).
    rewrite Hget.
    rewrite Forall_forall in IH, Hall.
    specialize (IH _ Hin). simpl in IH.
    destruct (Hall _ Hin) as (_ & Hky). simpl in Hky.
    assert (Hkx : wellKeyed x).
    { apply get_In in Hget. destruct from; try contradiction.
      inversion Hfrom as [| |? ? ? ? _ Hall']; subst.
      rewrite Forall_forall in Hall'. now destruct (Hall' _ Hget). }
    destruct (erase_kinds x y He) as (Hf & Hd & Hr & Hc).
    rewrite Hf, Hd, Hr, bufferEquals_refl.
    replace (if isFile y && isFile y then if negb true then _ else [] else [])
      with (@nil FileDiff) by (now destruct (isFile y)).
    simpl app. destruct (isDirectory y); [|reflexivity].
    unfold R. cbn [fst snd]. now apply IH. }
  rewrite Hentries. simpl.
  unfold deletedDiffs. rewrite flat_map_concat_map.
  apply concat_nil_Forall. apply Forall_map. apply Forall_forall.
  intros [k x] Hin. simpl.
  rewrite has_key; [reflexivity|].
  rewrite map_map. simpl.
  change (In k (map fst ch)).
  rewrite <- (erased_keys fch ch Hsame). apply in_map_iff. now exists (k, x).
Qed.

(** X19. A snapshot does not differ from the tree it was taken from, nor
    from the tree it is restored to: in every state reached from a new file
    system, [diff(id)] is empty right after [createSnapshot] returned [id],
    and it is empty again right after [restoreSnapshot(id)], whatever calls
    were made in between, as long as none deletes or clears the
    snapshots. *)
Theorem diff_of_unchanged_tree_empty (opts : VFSOptions) (before after : list Op)
    (nm : option string)
    (Hkeep : forallb keepsSnapshots after = true) :
  let s := runOps before (createVFS opts) in
  let id := snapshotId (S (snapshotCounter s)) in
  let s1 := exec (createSnapshot nm) s in
  let s3 := exec (restoreSnapshot id) (runOps after s1) in
  diff s1 (Some id) None = Ok [] /\ diff s3 (Some id) None = Ok [].
Proof.
  intros s id s1 s3. set (s2 := runOps after s1) in *.
  assert (Hg : good s) by apply runOps_good, createVFS_good.
  assert (Hg1 : good s1) by now apply createSnapshot_good.
  assert (Hg2 : good s2) by now apply runOps_good.
  destruct (createSnapshot_run nm s) as (_ & Hroot & Hctr & _ & info & Hsnaps).
  fold s1 in Hroot, Hctr, Hsnaps. fold id in Hsnaps.
  set (snapshot := {| snapRoot := fst (clone (root s) (nextOid s));
                      snapInfo := info |}) in *.
  assert (Hget1 : JSMap.get id (snapshots s1) = Some snapshot)
    by (rewrite Hsnaps; apply get_set_same).
  assert (Hget2 : JSMap.get id (snapshots s2) = Some snapshot).
  { unfold s2. rewrite runOps_frame; auto.
    intros n Hn Heq. apply snapshotId_injective in Heq. lia. }
  assert (Hkeyed : wellKeyed (snapRoot snapshot)).
  { simpl. apply (clone_facts (root s) (nextOid s)). apply Hg. }
  assert (Hid : givenId (Some id) = Some id) by reflexivity.
  split.
  - unfold diff. rewrite Hid. unfold snapshotRoot. rewrite Hget1.
    simpl givenId. cbv iota. f_equal.
    apply computeDiff_same; [rewrite Hroot; apply Hg|exact Hkeyed|].
    rewrite Hroot. apply clone_contents.
  - destruct (restoreSnapshot_exact id s2 snapshot Hg2 Hget2) as (_ & Hcontents).
    fold s3 in Hcontents.
    pose proof (restoreSnapshot_evolved id s2 s2 (evolved_refl s2 Hg2)) as Hev.
    fold s3 in Hev. destruct Hev as (Hg3 & Hsn3 & _).
    unfold diff. rewrite Hid. unfold snapshotRoot. rewrite Hsn3, Hget2.
    simpl givenId. cbv iota. f_equal.
    apply computeDiff_same; [apply Hg3|exact Hkeyed|now symmetry].
Qed.

(** An instance: a file is written, the snapshot taken, the file rewritten
    and another one added; the diff then shows both, and it is empty again
    once the snapshot is restored. *)
Lemma diff_of_unchanged_tree_empty_witness :
  let before := [OpWriteFile "/a" (Str "x") None] in
  let after := [OpWriteFile "/a" (Str "y") None; OpWriteFile "/b" (Str "z") None] in
  forallb keepsSnapshots after = true /\
  let s1 := exec (createSnapshot None) (runOps before (createVFS DEFAULT_OPTIONS)) in
  List.length (match diff (runOps after s1) (Some "snapshot-1") None with
               | Ok l => l | Throw _ => [] end) = 2 /\
  diff (exec (restoreSnapshot "snapshot-1") (runOps after s1))
       (Some "snapshot-1") None = Ok [].
Proof.
  intros before after.
  assert (H : forallb keepsSnapshots after = true) by reflexivity.
  split; [exact H|]. split; [reflexivity|].
  exact (proj2 (diff_of_unchanged_tree_empty DEFAULT_OPTIONS before after None H)).
Defined.

(* ================================================================= *)
(** ** One object, one place: the objects of the live tree are distinct *)

(** *** A method called on one object of a tree of distinct objects *)

Lemma NoDup_app_intro {A} (l1 l2 : list A) :
  NoDup l1 -> NoDup l2 -> (forall x, In x l1 -> ~ In x l2) -> NoDup (l1 ++ l2).
Proof.
  induction l1 as [|a l1 IH]; intros H1 H2 Hd; [exact H2|].
  inversion H1 as [|? ? Hn H1']; subst. simpl. constructor.
  - intros Hin. apply in_app_or in Hin as [Hin|Hin]; [contradiction|].
    apply (Hd a); [now left|exact Hin].
  - apply IH; auto. intros x Hx. apply Hd. now right.
Qed.

Lemma NoDup_app_inv {A} (l1 l2 : list A) :
  NoDup (l1 ++ l2) ->
  NoDup l1 /\ NoDup l2 /\ (forall x, In x l1 -> ~ In x l2).
Proof.
  induction l1 as [|a l1 IH]; intros H.
  - split; [constructor|]. split; [exact H|intros x []].
  - simpl in H. inversion H as [|? ? Hn H']; subst.
    destruct (IH H') as (H1 & H2 & Hd). split; [|split; [exact H2|]].
    + constructor; [|exact H1]. intros Hin. apply Hn. apply in_or_app. now left.
    + intros x [<-|Hx]; [|now apply Hd].
      intros Hin. apply Hn. apply in_or_app. now right.
Qed.

Lemma updateChildren_distinct (o : nat) (f : VFSNode -> VFSNode)
    (extra : list nat) (ch : list (string * VFSNode)) :
  Forall (fun kv =>
            NoDup (oids (snd kv)) ->
            (forall x, In x extra -> ~ In x (oids (snd kv))) ->
            NoDup (oids (updateNode o f (snd kv))) /\
            incl (oids (updateNode o f (snd kv))) (oids (snd kv) ++ extra)) ch ->
  NoDup (flat_map (fun kv => oids (snd kv)) ch) ->
  (forall x, In x extra -> ~ In x (flat_map (fun kv => oids (snd kv)) ch)) ->
  NoDup (flat_map (fun kv => oids (updateNode o f (snd kv))) ch) /\
  incl (flat_map (fun kv => oids (updateNode o f (snd kv))) ch)
       (flat_map (fun kv => oids (snd kv)) ch ++ extra).
Proof.
  induction 1 as [|kv ch Hkv _ IH]; intros Hnd Hx; simpl.
  - split; [constructor|intros x []].
  - simpl in Hnd, Hx. apply NoDup_app_inv in Hnd as (Hnd1 & Hnd2 & Hdisj).
    assert (Hx1 : forall x, In x extra -> ~ In x (oids (snd kv)))
      by (intros x Hin Hin'; apply (Hx x Hin); apply in_or_app; now left).
    assert (Hx2 : forall x, In x extra ->
                            ~ In x (flat_map (fun kv => oids (snd kv)) ch))
      by (intros x Hin Hin'; apply (Hx x Hin); apply in_or_app; now right).
    destruct (Hkv Hnd1 Hx1) as (Hk1 & Hk2).
    destruct (IH Hnd2 Hx2) as (Hr1 & Hr2).
    split.
    + apply NoDup_app_intro; [exact Hk1|exact Hr1|].
      intros x Hin1 Hin2.
      destruct (in_dec Nat.eq_dec o (oids (snd kv))) as [Ho|Ho].
      * (* the object is in the head: the others are untouched *)
        assert (Hsame : flat_map (fun kv => oids (updateNode o f (snd kv))) ch
                        = flat_map (fun kv => oids (snd kv)) ch).
        { rewrite !flat_map_concat_map. f_equal. apply map_ext_in.
          intros kv' Hin'.
          rewrite updateNode_absent; [reflexivity|].
          intros Ho'. apply (Hdisj o Ho). apply in_flat_map. now exists kv'. }
        rewrite Hsame in Hin2.
        apply Hk2 in Hin1. apply in_app_or in Hin1 as [Hin1|Hin1].
        -- exact (Hdisj x Hin1 Hin2).
        -- exact (Hx2 x Hin1 Hin2).
      * rewrite (updateNode_absent o f _ Ho) in Hin1.
        apply Hr2 in Hin2. apply in_app_or in Hin2 as [Hin2|Hin2].
        -- exact (Hdisj x Hin1 Hin2).
        -- exact (Hx1 x Hin2 Hin1).
    + intros x Hin. apply in_app_or in Hin as [Hin|Hin].
      * apply Hk2 in Hin. apply in_app_or in Hin as [Hin|Hin];
          apply in_or_app; [left; apply in_or_app; now left|now right].
      * apply Hr2 in Hin. apply in_app_or in Hin as [Hin|Hin];
          apply in_or_app; [left; apply in_or_app; now right|now right].
Qed.

Lemma updateNode_distinct (o : nat) (f : VFSNode -> VFSNode)
    (extra : list nat) (Hf : grows f extra) (n : VFSNode) :
  NoDup (oids n) -> (forall x, In x extra -> ~ In x (oids n)) ->
  NoDup (oids (updateNode o f n)) /\
  incl (oids (updateNode o f n)) (oids n ++ extra).
Proof.
  induction n as [o' nm c md|o' nm ch md IH|o' nm t md] using node_induction;
    intros Hnd Hx; cbn [updateNode oidOf];
    (destruct (Nat.eqb o' o); [now apply Hf|]);
    try (split; [exact Hnd|intros x Hin; apply in_or_app; now left]).
  simpl in Hnd, Hx. inversion Hnd as [|? ? Hhead Hrest]; subst.
  assert (Hx' : forall x, In x extra ->
                          ~ In x (flat_map (fun kv => oids (snd kv)) ch))
    by (intros x Hin Hin'; apply (Hx x Hin); now right).
  destruct (updateChildren_distinct o f extra ch IH Hrest Hx') as (H1 & H2).
  simpl. rewrite flat_map_concat_map, map_map, <- flat_map_concat_map.
  simpl. split.
  - constructor; [|exact H1]. intros Hin. apply H2 in Hin.
    apply in_app_or in Hin as [Hin|Hin]; [contradiction|].
    apply (Hx o' Hin). now left.
  - intros x [<-|Hin]; [now left|]. right. now apply H2.
Qed.

(** The methods that change a file or remove an entry bring nothing in. *)
Lemma grows_same (f : VFSNode -> VFSNode) :
  (forall n, oids (f n) = oids n) -> grows f [].
Proof.
  intros Hf n Hnd _. rewrite Hf. split; [exact Hnd|apply incl_appl, incl_refl].
Qed.

Lemma grows_write (c : Content) : grows (write c) [].
Proof. apply grows_same. now intros []. Qed.

Lemma grows_append (c : Content) : grows (append c) [].
Proof. apply grows_same. now intros []. Qed.

Lemma delete_oids (nm : string) (ch : list (string * VFSNode)) :
  NoDup (flat_map (fun kv => oids (snd kv)) ch) ->
  NoDup (flat_map (fun kv => oids (snd kv)) (JSMap.delete nm ch)) /\
  incl (flat_map (fun kv => oids (snd kv)) (JSMap.delete nm ch))
       (flat_map (fun kv => oids (snd kv)) ch).
Proof.
  induction ch as [|[k c] ch IH]; simpl; intros Hnd.
  - split; [constructor|intros x []].
  - apply NoDup_app_inv in Hnd as (H1 & H2 & Hd).
    destruct (String.eqb k nm).
    + split; [exact H2|]. intros x Hin. apply in_or_app. now right.
    + destruct (IH H2) as (IH1 & IH2). simpl. split.
      * apply NoDup_app_intro; auto. intros x Hx Hin. apply (Hd x Hx). now apply IH2.
      * intros x Hin. apply in_app_or in Hin as [Hin|Hin]; apply in_or_app;
          [now left|right; now apply IH2].
Qed.

Lemma grows_removeChild (nm : string) : grows (removeChild nm) [].
Proof.
  intros n Hnd _. destruct n as [| o n ch md |];
    try (split; [exact Hnd|apply incl_appl, incl_refl]).
  simpl in Hnd. inversion Hnd as [|? ? Hhead Hrest]; subst.
  destruct (delete_oids nm ch Hrest) as (H1 & H2). simpl. split.
  - constructor; [|exact H1]. intros Hin. apply Hhead. now apply H2.
  - intros x [<-|Hin]; [now left|]. right. apply in_or_app. left. now apply H2.
Qed.

Lemma set_oids (node : VFSNode) (nm : string) (ch : list (string * VFSNode)) :
  NoDup (oids node) ->
  NoDup (flat_map (fun kv => oids (snd kv)) ch) ->
  (forall x, In x (oids node) ->
             ~ In x (flat_map (fun kv => oids (snd kv)) ch)) ->
  NoDup (flat_map (fun kv => oids (snd kv)) (JSMap.set nm node ch)) /\
  incl (flat_map (fun kv => oids (snd kv)) (JSMap.set nm node ch))
       (flat_map (fun kv => oids (snd kv)) ch ++ oids node).
Proof.
  intros Hnode. induction ch as [|[k c] ch IH]; simpl; intros Hnd Hx.
  - rewrite app_nil_r. split; [exact Hnode|intros x Hin; exact Hin].
  - apply NoDup_app_inv in Hnd as (H1 & H2 & Hd).
    assert (Hx2 : forall x, In x (oids node) ->
                            ~ In x (flat_map (fun kv => oids (snd kv)) ch))
      by (intros x Hin Hin'; apply (Hx x Hin); apply in_or_app; now right).
    destruct (String.eqb k nm); simpl.
    + split.
      * apply NoDup_app_intro; auto.
      * intros x Hin. apply in_app_or in Hin as [Hin|Hin]; apply in_or_app;
          [now right|left; apply in_or_app; now right].
    + destruct (IH H2 Hx2) as (IH1 & IH2). split.
      * apply NoDup_app_intro; auto. intros x Hin1 Hin2.
        apply IH2 in Hin2. apply in_app_or in Hin2 as [Hin2|Hin2].
        -- exact (Hd x Hin1 Hin2).
        -- apply (Hx x Hin2). apply in_or_app. now left.
      * intros x Hin. apply in_app_or in Hin as [Hin|Hin].
        -- apply in_or_app. left. apply in_or_app. now left.
        -- apply IH2 in Hin. apply in_app_or in Hin as [Hin|Hin];
             apply in_or_app; [left; apply in_or_app; now right|now right].
Qed.

Lemma grows_addChild (node : VFSNode) :
  NoDup (oids node) -> grows (addChild node) (oids node).
Proof.
  intros Hnode n Hnd Hx. destruct n as [| o nm ch md |];
    try (split; [exact Hnd|apply incl_appl, incl_refl]).
  simpl in Hnd, Hx. inversion Hnd as [|? ? Hhead Hrest]; subst.
  assert (Hx' : forall x, In x (oids node) ->
                          ~ In x (flat_map (fun kv => oids (snd kv)) ch))
    by (intros x Hin Hin'; apply (Hx x Hin); now right).
  destruct (set_oids node (nodeName node) ch Hnode Hrest Hx') as (H1 & H2).
  simpl. split.
  - constructor; [|exact H1]. intros Hin. apply H2 in Hin.
    apply in_app_or in Hin as [Hin|Hin]; [contradiction|].
    apply (Hx o Hin). now left.
  - intros x [<-|Hin]; [now left|]. right. now apply H2.
Qed.

(** *** Operations and invariants *)

Lemma keeps_bind {A B} (I : VFS -> Prop) (m : M A) (k : A -> M B) :
  keeps I m -> (forall a, keeps I (k a)) -> keeps I (bind m k).
Proof.
  intros Hm Hk s Hs. rewrite exec_bind.
  destruct (outcome m s); [apply Hk|]; now apply Hm.
Qed.

Lemma keeps_reading {A} (I : VFS -> Prop) (f : VFS -> Result A) :
  keeps I (reading f).
Proof. intros s Hs. exact Hs. Qed.

Lemma keeps_liftR {A} (I : VFS -> Prop) (r : Result A) : keeps I (liftR r).
Proof. intros s Hs. exact Hs. Qed.

Lemma keeps_throw {A} (I : VFS -> Prop) (e : FileSystemError) :
  keeps I (@throw A e).
Proof. intros s Hs. exact Hs. Qed.

Lemma keeps_ret {A} (I : VFS -> Prop) (a : A) : keeps I (ret a).
Proof. intros s Hs. exact Hs. Qed.

Lemma keeps_notify (I : VFS -> Prop) (path : string) (kind : ChangeKind) :
  keeps I (notifyWatchers path kind).
Proof. intros s Hs. now rewrite notifyWatchers_state. Qed.

(** The operations on files and directories keep every invariant that the
    three plain methods keep, and that putting a new file or a new empty
    directory into a directory keeps. *)
Section Keeps.

Variable I : VFS -> Prop.

Hypothesis I_plain :
  forall o f, plainMethod f -> keeps I (mutate o f).

Hypothesis I_leaf :
  forall build o s,
    leafBuilder build -> I s ->
    I (exec (mutate o (addChild (build (nextOid s)))) (exec fresh s)).

Lemma keeps_new_child {B} (build : nat -> VFSNode) (o : nat)
    (k : VFSNode -> M B) :
  leafBuilder build ->
  (forall node, keeps I (k node)) ->
  keeps I (node <- (x <- fresh ;; ret (build x)) ;;
           mutate o (addChild node) ;;; k node).
Proof.
  intros Hbuild Hk s Hs.
  unfold exec, bind, fresh, ret. cbv beta iota. rewrite mutate_run.
  cbv beta iota. apply Hk. exact (I_leaf build o s Hbuild Hs).
Qed.

Lemma createDirectoryLoop_keeps (recursive : bool) (segs : list string) :
  forall current currentPath,
    keeps I (createDirectoryLoop recursive segs current currentPath).
Proof.
  induction segs as [|segment rest IH]; intros current currentPath.
  - apply keeps_ret.
  - rewrite createDirectoryLoop_cons. cbv zeta.
    destruct (getChild current segment) as [child|].
    + destruct (isDirectory child); [apply IH|].
      destruct (isSymlink child); [|apply keeps_throw].
      apply keeps_bind; [apply keeps_reading|]. intros [r|]; [|apply keeps_throw].
      destruct (isDirectory r); [apply IH|apply keeps_throw].
    + destruct (negb recursive && negb (isNil rest)); [apply keeps_throw|].
      apply keeps_bind; [apply keeps_reading|]. intros md.
      apply (keeps_new_child (fun x => VFSDirectory x segment [] md)
               (oidOf current)
               (fun newDir => notifyWatchers (currentPath ++ "/" ++ segment) AddDir ;;;
                              createDirectoryLoop recursive rest newDir
                                (currentPath ++ "/" ++ segment))).
      * constructor.
      * intros node. apply keeps_bind; [apply keeps_notify|]. intros _. apply IH.
Qed.

Lemma createDirectory_keeps (dirPath : string) (recursive : bool) :
  keeps I (createDirectory dirPath recursive).
Proof.
  unfold createDirectory. apply keeps_bind; [apply keeps_liftR|]. intros r.
  destruct (String.eqb (fullPath r) "/"); [apply keeps_ret|].
  apply keeps_bind; [apply keeps_reading|]. intros rt.
  apply createDirectoryLoop_keeps.
Qed.

Lemma writeNewFile_keeps (parent : VFSNode) (r : PathResolution) (c : Content) :
  keeps I (writeNewFile parent r c).
Proof.
  unfold writeNewFile. apply keeps_bind; [apply keeps_reading|]. intros md.
  apply (keeps_new_child (fun x => VFSFile x (name r) (toBuffer c) md)
           (oidOf parent) (fun _ => notifyWatchers (fullPath r) Add)).
  - constructor.
  - intros _. apply keeps_notify.
Qed.

Lemma write_notify_keeps (o : nat) (c : Content) (path : string) :
  keeps I (mutate o (write c) ;;; notifyWatchers path Change).
Proof.
  apply keeps_bind; [apply I_plain; constructor|]. intros _. apply keeps_notify.
Qed.

Lemma writeFileInternal_keeps (filePath : string) (c : Content) :
  keeps I (writeFileInternal filePath c).
Proof.
  unfold writeFileInternal. apply keeps_bind; [apply keeps_liftR|]. intros r.
  apply keeps_bind; [apply createDirectory_keeps|]. intros _.
  apply keeps_bind; [apply keeps_reading|]. intros parent.
  destruct (getChild parent (name r)) as [existing|]; [|apply writeNewFile_keeps].
  destruct (isDirectory existing); [apply keeps_throw|].
  destruct (isFile existing); [apply write_notify_keeps|].
  apply keeps_bind; [apply keeps_reading|]. intros [rn|]; [|apply writeNewFile_keeps].
  destruct (isFile rn); [apply write_notify_keeps|apply writeNewFile_keeps].
Qed.

Lemma readFile_keeps (p : string) : keeps I (readFile p).
Proof.
  unfold readFile. apply keeps_bind; [apply keeps_reading|]. intros [node|];
    [|apply keeps_throw].
  destruct (isDirectory node); [apply keeps_throw|].
  destruct (isFile node); [apply keeps_ret|apply keeps_throw].
Qed.

Lemma deleteFile_keeps (p : string) : keeps I (deleteFile p).
Proof.
  unfold deleteFile. apply keeps_bind; [apply keeps_liftR|]. intros r.
  apply keeps_bind; [apply keeps_reading|]. intros [parent|]; [|apply keeps_throw].
  destruct (getChild parent (name r)) as [node|]; [|apply keeps_throw].
  destruct (isDirectory node); [apply keeps_throw|].
  apply keeps_bind; [apply I_plain; constructor|]. intros _. apply keeps_notify.
Qed.

Lemma copyFile_keeps (a b : string) : keeps I (copyFile a b).
Proof.
  unfold copyFile, writeFilePlain.
  apply keeps_bind; [apply readFile_keeps|]. intros c.
  apply writeFileInternal_keeps.
Qed.

Lemma moveFile_keeps (a b : string) : keeps I (moveFile a b).
Proof.
  unfold moveFile. apply keeps_bind; [apply copyFile_keeps|]. intros _.
  apply deleteFile_keeps.
Qed.

Lemma writeFile_keeps (p : string) (c : Content) (t : option string) :
  keeps I (writeFile p c t).
Proof.
  unfold writeFile. destruct (tempSuffixOf t); [|apply writeFileInternal_keeps].
  apply keeps_bind; [apply writeFileInternal_keeps|]. intros _.
  apply moveFile_keeps.
Qed.

Lemma appendFile_keeps (p : string) (c : Content) : keeps I (appendFile p c).
Proof.
  unfold appendFile. apply keeps_bind; [apply keeps_reading|].
  intros [node|]; [|apply writeFile_keeps].
  destruct (negb (isFile node)); [apply keeps_throw|].
  apply I_plain. constructor.
Qed.

Lemma removeChildren_keeps (o : nat) (names : list string) :
  keeps I (removeChildren o names).
Proof.
  induction names as [|nm rest IH]; [apply keeps_ret|].
  simpl. apply keeps_bind; [apply I_plain; constructor|]. intros _. exact IH.
Qed.

Lemma deleteDirectory_keeps (p : string) (recursive : bool) :
  keeps I (deleteDirectory p recursive).
Proof.
  unfold deleteDirectory. apply keeps_bind; [apply keeps_liftR|]. intros r.
  destruct (isRoot r).
  - destruct (negb recursive); [apply keeps_throw|].
    apply keeps_bind; [apply keeps_reading|]. intros rt.
    apply removeChildren_keeps.
  - apply keeps_bind; [apply keeps_reading|]. intros parent.
    destruct (getChild parent (name r)) as [node|]; [|apply keeps_throw].
    destruct (negb (isDirectory node)); [apply keeps_throw|].
    destruct (negb recursive && negb (dirIsEmpty node)); [apply keeps_throw|].
    apply keeps_bind; [apply I_plain; constructor|]. intros _.
    apply keeps_notify.
Qed.

(** The calls other than those on snapshots and symlinks. *)
Lemma runOp_keeps (op : Op) (s : VFS) :
  (forall t l, op <> OpCreateSymlink t l) ->
  (forall nm, op <> OpCreateSnapshot nm) ->
  (forall id, op <> OpRestoreSnapshot id) ->
  (forall id, op <> OpDeleteSnapshot id) ->
  op <> OpReset ->
  I s -> I (runOp op s).
Proof.
  intros H1 H2 H3 H4 H5.
  destruct op as [p c t|p c|p|p r|p r|t l|a b|a b|nm|id|id|]; simpl;
    first [ apply writeFile_keeps | apply appendFile_keeps
          | apply deleteFile_keeps | apply createDirectory_keeps
          | apply deleteDirectory_keeps | apply copyFile_keeps
          | apply moveFile_keeps
          | now specialize (H1 t l) | now specialize (H2 nm)
          | now specialize (H3 id) | now specialize (H4 id)
          | congruence ].
Qed.

End Keeps.

(** *** The objects stay distinct *)

Lemma mutate_distinct (o : nat) (f : VFSNode -> VFSNode) (extra : list nat)
    (s : VFS) :
  grows f extra ->
  (forall x, In x extra -> ~ In x (oids (root s)) /\ x < nextOid s) ->
  distinct s -> distinct (exec (mutate o f) s).
Proof.
  intros Hf Hextra (Hnd & Hb).
  destruct (updateNode_distinct o f extra Hf (root s) Hnd
              (fun x Hx => proj1 (Hextra x Hx))) as (H1 & H2).
  split; [exact H1|].
  intros x Hin. apply H2 in Hin. apply in_app_or in Hin as [Hin|Hin].
  - now apply Hb.
  - now apply Hextra.
Qed.

Lemma distinct_plain (o : nat) (f : VFSNode -> VFSNode) :
  plainMethod f -> keeps distinct (mutate o f).
Proof.
  intros Hf s Hs. apply (mutate_distinct o f [] s); [|intros x []|exact Hs].
  destruct Hf; [apply grows_write|apply grows_append|apply grows_removeChild].
Qed.

(** A new object, put into a directory at once. *)
Lemma distinct_new (build : nat -> VFSNode) (o : nat) (s : VFS) :
  (forall x, oids (build x) = [x]) -> distinct s ->
  distinct (exec (mutate o (addChild (build (nextOid s)))) (exec fresh s)).
Proof.
  intros Hbuild (Hnd & Hb).
  apply (mutate_distinct o _ (oids (build (nextOid s)))).
  - apply grows_addChild. rewrite Hbuild. constructor; [intros []|constructor].
  - intros x Hx. rewrite Hbuild in Hx. destruct Hx as [<-|[]]. simpl. split.
    + intros Hin. specialize (Hb _ Hin). lia.
    + lia.
  - split; [exact Hnd|]. simpl. intros x Hin. specialize (Hb x Hin). lia.
Qed.

Lemma distinct_leaf (build : nat -> VFSNode) (o : nat) (s : VFS) :
  leafBuilder build -> distinct s ->
  distinct (exec (mutate o (addChild (build (nextOid s)))) (exec fresh s)).
Proof. intros Hb. apply distinct_new. now destruct Hb. Qed.

Lemma createSymlink_distinct (tgt link : string) :
  keeps distinct (createSymlink tgt link).
Proof.
  unfold createSymlink. apply keeps_bind; [apply keeps_liftR|]. intros r.
  apply keeps_bind;
    [apply (createDirectory_keeps distinct distinct_leaf)|].
  intros _. apply keeps_bind; [apply keeps_reading|]. intros parent.
  destruct (hasChild parent (name r)); [apply keeps_throw|].
  intros s Hs.
  exact (distinct_new (fun x => VFSSymlink x (name r) tgt DEFAULT_SYMLINK_MODE)
           (oidOf parent) s (fun x => eq_refl) Hs).
Qed.

(** *** Clones are made of distinct objects *)

Lemma cloneChildren_distinct (ch : list (string * VFSNode)) :
  Forall (fun kv => forall next, NoDup (oids (fst (clone (snd kv) next)))) ch ->
  forall next,
    NoDup (flat_map (fun kv => oids (snd kv)) (fst (cloneChildren ch next))).
Proof.
  induction 1 as [|[k c] rest Hc _ IH]; intros next; simpl; [constructor|].
  pose proof (clone_facts c next) as (_ & Hrange & _). simpl in Hc.
  specialize (Hc next).
  destruct (clone c next) as [c' nx1] eqn:Ec. simpl in Hrange, Hc.
  specialize (IH nx1).
  pose proof (cloneChildren_facts rest
                (proj2 (Forall_forall _ _) (fun kv _ => clone_facts (snd kv)))
                nx1) as (_ & Hrange' & _).
  destruct (cloneChildren rest nx1) as [rest' nx2] eqn:Er. simpl in *.
  apply NoDup_app_intro; [exact Hc|exact IH|].
  intros x Hx Hin. apply in_flat_map in Hin as (kv & Hkv & Hin).
  specialize (Hrange x Hx). specialize (Hrange' kv x Hkv Hin). lia.
Qed.

Lemma clone_distinct (n : VFSNode) :
  forall next, NoDup (oids (fst (clone n next))).
Proof.
  induction n as [o nm c md|o nm ch md IH|o nm t md] using node_induction;
    intros next; try (simpl; constructor; [intros []|constructor]).
  rewrite clone_directory.
  pose proof (cloneChildren_distinct ch IH (S next)) as Hnd.
  pose proof (cloneChildren_facts ch
                (proj2 (Forall_forall _ _) (fun kv _ => clone_facts (snd kv)))
                (S next)) as (_ & Hrange & _).
  destruct (cloneChildren ch (S next)) as [ch' nx'] eqn:Ec. simpl in *.
  constructor; [|exact Hnd].
  intros Hin. apply in_flat_map in Hin as (kv & Hkv & Hin).
  specialize (Hrange kv next Hkv Hin). lia.
Qed.

(** *** Restoring *)

Lemma addChildren_distinct (o : nat) (nodes : list VFSNode) :
  forall s,
    distinct s ->
    NoDup (flat_map oids nodes) ->
    (forall x, In x (flat_map oids nodes) ->
               ~ In x (oids (root s)) /\ x < nextOid s) ->
    distinct (exec (addChildren o nodes) s).
Proof.
  induction nodes as [|node rest IH]; intros s Hs Hnd Hx; [exact Hs|].
  simpl in Hnd, Hx. apply NoDup_app_inv in Hnd as (H1 & H2 & Hd).
  simpl. rewrite exec_bind. unfold outcome. rewrite mutate_run. simpl snd.
  cbv iota.
  assert (Hs1 : distinct (exec (mutate o (addChild node)) s)).
  { apply (mutate_distinct o _ (oids node)); [now apply grows_addChild| |exact Hs].
    intros x Hin. apply Hx. apply in_or_app. now left. }
  apply IH; [exact Hs1|exact H2|].
  intros x Hin. split.
  - intros Hroot.
    destruct (updateNode_distinct o (addChild node) (oids node)
                (grows_addChild node H1) (root s) (proj1 Hs)
                (fun y Hy => proj1 (Hx y (in_or_app _ _ _ (or_introl Hy)))))
      as (_ & Hincl).
    apply Hincl in Hroot. apply in_app_or in Hroot as [Hroot|Hroot].
    + exact (proj1 (Hx x (in_or_app _ _ _ (or_intror Hin))) Hroot).
    + exact (Hd x Hroot Hin).
  - apply (Hx x). apply in_or_app. now right.
Qed.

Lemma restoreSnapshot_distinct (id : string) (s : VFS) :
  distinct s -> distinct (exec (restoreSnapshot id) s).
Proof.
  intros Hs. unfold restoreSnapshot.
  rewrite exec_bind, outcome_reading, exec_reading.
  destruct (negb (JSMap.has id (snapshots s))); [exact Hs|].
  rewrite exec_bind, outcome_reading, exec_reading.
  rewrite exec_bind. unfold outcome at 1. rewrite removeChildren_run.
  simpl snd. cbv iota.
  pose proof (removeChildren_keeps distinct distinct_plain
                (oidOf (root s)) (getChildNames (root s)) s Hs) as Hs1.
  set (s1 := exec (removeChildren (oidOf (root s)) (getChildNames (root s))) s) in *.
  rewrite exec_bind. unfold outcome, exec at 2 3, cloneSnapshotRoot.
  destruct (JSMap.get id (snapshots s1)) as [snapshot|]; [|exact Hs1].
  pose proof (clone_facts (snapRoot snapshot) (nextOid s1)) as (Hlt & Hrange & _).
  pose proof (clone_distinct (snapRoot snapshot) (nextOid s1)) as Hnd.
  destruct (clone (snapRoot snapshot) (nextOid s1)) as [cloned next] eqn:Ec.
  simpl in Hlt, Hrange, Hnd. simpl fst. simpl snd. cbv iota.
  destruct Hs1 as (Hnd1 & Hb1).
  assert (Hsub : forall x, In x (flat_map oids (getChildren cloned)) ->
                           In x (oids cloned)).
  { intros x Hin. destruct cloned as [| o nm ch md |]; try contradiction.
    simpl. right. unfold getChildren in Hin. simpl in Hin.
    rewrite flat_map_concat_map, map_map, <- flat_map_concat_map in Hin.
    exact Hin. }
  apply addChildren_distinct.
  - split; [exact Hnd1|]. simpl. intros x Hin. specialize (Hb1 x Hin). lia.
  - destruct cloned as [| o nm ch md |]; try constructor.
    unfold getChildren. simpl.
    rewrite flat_map_concat_map, map_map, <- flat_map_concat_map.
    simpl in Hnd. now inversion Hnd.
  - intros x Hin. apply Hsub in Hin. specialize (Hrange x Hin). simpl. split.
    + intros Hroot. specialize (Hb1 x Hroot). lia.
    + lia.
Qed.

Lemma createSnapshot_distinct (nm : option string) (s : VFS) :
  distinct s -> distinct (exec (createSnapshot nm) s).
Proof.
  intros (Hnd & Hb).
  destruct (createSnapshot_run nm s) as (_ & Hroot & _ & Hnext & _).
  pose proof (clone_facts (root s) (nextOid s)) as (Hlt & _).
  unfold distinct. rewrite Hroot, Hnext. split; [exact Hnd|].
  intros x Hin. specialize (Hb x Hin). lia.
Qed.

Lemma reset_distinct (s : VFS) : distinct s -> distinct (exec reset s).
Proof.
  intros Hs.
  pose proof (removeChildren_keeps distinct distinct_plain
                (oidOf (root s)) (getChildNames (root s)) s Hs) as Hs1.
  unfold exec at 1, reset. rewrite bind_run. unfold reading at 1.
  cbv beta iota. rewrite bind_run, removeChildren_run. exact Hs1.
Qed.

Lemma runOp_distinct (op : Op) (s : VFS) : distinct s -> distinct (runOp op s).
Proof.
  destruct op;
    try (apply (runOp_keeps distinct distinct_plain distinct_leaf); discriminate).
  - apply createSymlink_distinct.
  - apply createSnapshot_distinct.
  - apply restoreSnapshot_distinct.
  - intros Hs. exact Hs.
  - apply reset_distinct.
Qed.

Lemma runOps_distinct (ops : list Op) (s : VFS) :
  distinct s -> distinct (runOps ops s).
Proof.
  revert s. induction ops as [|op ops IH]; intros s Hs; [exact Hs|].
  simpl. apply IH. now apply runOp_distinct.
Qed.

Lemma createVFS_distinct (opts : VFSOptions) : distinct (createVFS opts).
Proof.
  split; simpl.
  - constructor; [intros []|constructor].
  - intros x [<-|[]]. lia.
Qed.

(* ================================================================= *)
(** ** Changing the content of a file *)

(** *** The objects of a tree *)

Lemma nodes_oids (n : VFSNode) : map oidOf (nodes n) = oids n.
Proof.
  induction n as [o nm c md|o nm ch md IH|o nm t md] using node_induction;
    try reflexivity.
  simpl. f_equal. induction IH as [|kv ch Hkv _ IHch]; [reflexivity|].
  simpl. now rewrite map_app, Hkv, IHch.
Qed.

Lemma nodes_self (n : VFSNode) : In n (nodes n).
Proof. destruct n; now left. Qed.

Lemma nodes_trans (a b : VFSNode) :
  In a (nodes b) -> forall c, In b (nodes c) -> In a (nodes c).
Proof.
  intros Hab c.
  induction c as [o nm x md|o nm ch md IH|o nm t md] using node_induction;
    simpl; intros [<-|Hin]; try contradiction; try exact Hab.
  right. apply in_flat_map in Hin as (kv & Hkv & Hin).
  apply in_flat_map. exists kv. split; [exact Hkv|].
  rewrite Forall_forall in IH. now apply IH.
Qed.

Lemma nodes_child (d : VFSNode) (nm : string) (c : VFSNode) :
  getChild d nm = Some c -> In c (nodes d).
Proof.
  intros H. apply getChild_In in H as (o & n & ch & md & -> & Hin).
  simpl. right. apply in_flat_map. exists (nm, c). split; [exact Hin|].
  apply nodes_self.
Qed.

(** In a tree of distinct objects, an identity names one object. *)
Lemma distinct_same (rt a b : VFSNode) :
  NoDup (oids rt) -> In a (nodes rt) -> In b (nodes rt) ->
  oidOf a = oidOf b -> a = b.
Proof.
  rewrite <- nodes_oids. generalize (nodes rt). intros l.
  induction l as [|x l IH]; simpl; intros Hnd Ha Hb Heq; [contradiction|].
  inversion Hnd as [|? ? Hn Hnd']; subst.
  destruct Ha as [<-|Ha], Hb as [<-|Hb]; auto.
  - exfalso. apply Hn. rewrite Heq. now apply in_map.
  - exfalso. apply Hn. rewrite <- Heq. now apply in_map.
Qed.

Lemma resolveNode_inside (s : VFS) (p : string) (follow : bool) (n : VFSNode) :
  resolveNode s p follow = Ok (Some n) -> In n (nodes (root s)).
Proof.
  unfold resolveNode, resolveNodeAt.
  apply (resolveNodeFuel_invariant (fun n => In n (nodes (root s)))).
  - intros d nm c Hd Hc. exact (nodes_trans _ _ (nodes_child _ _ _ Hc) _ Hd).
  - apply nodes_self.
Qed.

(** *** Lookups after the content of a file has changed *)

Lemma get_map {V W} (g : V -> W) (k : string) (m : list (string * V)) :
  JSMap.get k (map (fun kv => (fst kv, g (snd kv))) m)
  = option_map g (JSMap.get k m).
Proof.
  induction m as [|[k' v] m IH]; simpl; [reflexivity|].
  now destruct (String.eqb k' k).
Qed.

Section ContentChange.

Variables (o : nat) (f : VFSNode -> VFSNode).
Hypothesis f_other : forall n, isFile n = false -> f n = n.
Hypothesis f_file : forall n, isFile n = true -> isFile (f n) = true.

Lemma update_kind (n : VFSNode) :
  isDirectory (updateNode o f n) = isDirectory n /\
  isSymlink (updateNode o f n) = isSymlink n /\
  isFile (updateNode o f n) = isFile n /\
  target (updateNode o f n) = target n.
Proof.
  destruct n as [o' nm c md|o' nm ch md|o' nm t md]; cbn [updateNode oidOf];
    destruct (Nat.eqb o' o); try (repeat split; reflexivity).
  - pose proof (f_file (VFSFile o' nm c md) eq_refl) as H.
    destruct (f (VFSFile o' nm c md)); try discriminate. repeat split.
  - now rewrite f_other.
  - now rewrite f_other.
Qed.

Lemma update_getChild (d : VFSNode) (segment : string) :
  noDirectoryAt o d ->
  getChild (updateNode o f d) segment
  = option_map (updateNode o f) (getChild d segment).
Proof.
  intros Hd. destruct d as [o' nm c md|o' nm ch md|o' nm t md];
    cbn [updateNode oidOf].
  - destruct (Nat.eqb o' o); [|reflexivity].
    pose proof (f_file (VFSFile o' nm c md) eq_refl) as H.
    destruct (f (VFSFile o' nm c md)); try discriminate. reflexivity.
  - assert (Ho : Nat.eqb o' o = false).
    { apply Nat.eqb_neq. apply (Hd (VFSDirectory o' nm ch md)); [|reflexivity].
      apply nodes_self. }
    rewrite Ho. unfold getChild. simpl. apply get_map.
  - destruct (Nat.eqb o' o); [|reflexivity]. now rewrite f_other.
Qed.

Lemma noDirectoryAt_child (d : VFSNode) (segment : string) (c : VFSNode) :
  noDirectoryAt o d -> getChild d segment = Some c -> noDirectoryAt o c.
Proof.
  intros Hd Hc x Hx. apply Hd.
  exact (nodes_trans _ _ Hx _ (nodes_child _ _ _ Hc)).
Qed.

Lemma resolveLoop_updated (rec rec' : string -> Result (option VFSNode))
    (follow : bool) (rest : list string) :
  (forall p, rec' p = updated o f (rec p)) ->
  (forall p n, rec p = Ok (Some n) -> noDirectoryAt o n) ->
  forall visited current,
    noDirectoryAt o current ->
    resolveLoop rec' follow visited rest (updateNode o f current)
    = updated o f (resolveLoop rec follow visited rest current).
Proof.
  intros Hrec Hinv.
  induction rest as [|segment rest IH]; intros visited current Hcur;
    [reflexivity|].
  cbn [resolveLoop].
  destruct (update_kind current) as (-> & _).
  destruct (negb (isDirectory current)); [reflexivity|].
  rewrite (update_getChild current segment Hcur).
  destruct (getChild current segment) as [child|] eqn:Ec; [|reflexivity].
  cbn [option_map].
  pose proof (noDirectoryAt_child _ _ _ Hcur Ec) as Hchild.
  destruct (update_kind child) as (_ & -> & _ & Ht).
  destruct (isSymlink child).
  - destruct (follow || negb (isNil rest)); [|reflexivity].
    unfold symlinkTargetPath. rewrite Ht.
    fold (symlinkTargetPath visited child).
    rewrite Hrec.
    destruct (rec (symlinkTargetPath visited child)) as [[resolved|]|e] eqn:Er;
      try reflexivity.
    cbn [updated].
    destruct (isNil rest); [now destruct follow|].
    apply IH. exact (Hinv _ _ Er).
  - now apply IH.
Qed.

Lemma resolveNodeFuel_updated (rt : VFSNode) (Hrt : noDirectoryAt o rt)
    (fuel : nat) :
  forall p follow,
    resolveNodeFuel fuel (updateNode o f rt) p follow
    = updated o f (resolveNodeFuel fuel rt p follow).
Proof.
  induction fuel as [|fuel IH]; intros p follow; [reflexivity|].
  cbn [resolveNodeFuel].
  destruct (resolvePath p) as [r|e]; [|reflexivity].
  destruct (isRoot r); [reflexivity|].
  apply resolveLoop_updated; [intros q; apply IH| |exact Hrt].
  intros q n Hq.
  apply (resolveNodeFuel_invariant (noDirectoryAt o)
           (fun d nm c Hd Hc => noDirectoryAt_child d nm c Hd Hc)
           fuel rt q true n Hrt Hq).
Qed.

End ContentChange.

(** The object of a file of the live tree is no directory of the tree. *)
Lemma file_noDirectoryAt (s : VFS) (node : VFSNode) :
  distinct s -> In node (nodes (root s)) -> isFile node = true ->
  noDirectoryAt (oidOf node) (root s).
Proof.
  intros (Hnd & _) Hin Hfile d Hd Hdir Heq.
  assert (d = node) by (apply (distinct_same (root s)); assumption).
  subst d. destruct node; discriminate.
Qed.

(** The state after a method that changes the content of a file. *)
Lemma resolveNode_content_change (s : VFS) (node : VFSNode)
    (f : VFSNode -> VFSNode) (q : string) (follow : bool) :
  (forall n, isFile n = false -> f n = n) ->
  (forall n, isFile n = true -> isFile (f n) = true) ->
  distinct s -> In node (nodes (root s)) -> isFile node = true ->
  resolveNode (exec (mutate (oidOf node) f) s) q follow
  = updated (oidOf node) f (resolveNode s q follow).
Proof.
  intros Hf1 Hf2 Hs Hin Hfile. unfold resolveNode, resolveNodeAt.
  change (options (exec (mutate (oidOf node) f) s)) with (options s).
  change (root (exec (mutate (oidOf node) f) s))
    with (updateNode (oidOf node) f (root s)).
  apply resolveNodeFuel_updated; auto.
  now apply file_noDirectoryAt.
Qed.

(** *** [appendFile] on a file that is there *)

Lemma append_other (c : Content) (n : VFSNode) : isFile n = false -> append c n = n.
Proof. now destruct n. Qed.

Lemma append_file (c : Content) (n : VFSNode) :
  isFile n = true -> isFile (append c n) = true.
Proof. now destruct n. Qed.

Lemma readFile_inv (s : VFS) (p : string) (b : Buffer) :
  outcome (readFile p) s = Ok b ->
  exists node, resolveNode s p true = Ok (Some node) /\
               isFile node = true /\ read node = b.
Proof.
  unfold outcome, readFile, bind, reading.
  destruct (resolveNode s p true) as [[node|]|e]; try discriminate.
  destruct node; try discriminate. simpl. intros H. injection H as <-.
  now eexists.
Qed.

(** What [appendFile] does when the path leads to a file. *)
Lemma appendFile_run (s : VFS) (p : string) (c : Content) (node : VFSNode) :
  resolveNode s p true = Ok (Some node) -> isFile node = true ->
  appendFile p c s = (exec (mutate (oidOf node) (append c)) s, Ok tt).
Proof.
  intros Hres Hfile. unfold appendFile. rewrite bind_run. unfold reading at 1.
  rewrite Hres, Hfile. reflexivity.
Qed.

Lemma update_file (o : nat) (f : VFSNode -> VFSNode) (n : VFSNode) :
  isFile n = true ->
  updateNode o f n = if Nat.eqb (oidOf n) o then f n else n.
Proof. destruct n; try discriminate. reflexivity. Qed.

(** X20. In every state reached from a new file system, [appendFile] on a
    path that [readFile] can read returns, and [readFile] then gives the
    old content followed by the bytes appended. *)
Theorem appendFile_appends (opts : VFSOptions) (ops : list Op) (p : string)
    (c : Content) (old : Buffer) :
  let s := runOps ops (createVFS opts) in
  outcome (readFile p) s = Ok old ->
  outcome (appendFile p c) s = Ok tt /\
  outcome (readFile p) (exec (appendFile p c) s) = Ok (old ++ toBuffer c)%list.
Proof.
  intros s Hread.
  assert (Hs : distinct s) by apply runOps_distinct, createVFS_distinct.
  destruct (readFile_inv s p old Hread) as (node & Hres & Hfile & Hold).
  pose proof (resolveNode_inside s p true node Hres) as Hin.
  unfold outcome at 1, exec. rewrite (appendFile_run s p c node Hres Hfile).
  split; [reflexivity|]. simpl fst.
  unfold outcome, readFile, bind, reading.
  rewrite (resolveNode_content_change s node (append c) p true
             (append_other c) (append_file c) Hs Hin Hfile).
  rewrite Hres. cbn [updated].
  rewrite (update_file _ _ _ Hfile), Nat.eqb_refl.
  destruct node; try discriminate. simpl in *. now rewrite Hold.
Qed.

(** An instance: two bytes appended to [/ab]. *)
Lemma appendFile_appends_witness :
  outcome (readFile "/ab") oneFile = Ok (utf8 "x") /\
  outcome (readFile "/ab") (exec (appendFile "/ab" (Str "yz")) oneFile)
  = Ok (utf8 "xyz").
Proof.
  assert (H : outcome (readFile "/ab")
                (runOps [OpWriteFile "/ab" (Str "x") None]
                        (createVFS DEFAULT_OPTIONS))
              = Ok (utf8 "x")) by reflexivity.
  split; [exact H|].
  exact (proj2 (appendFile_appends DEFAULT_OPTIONS
                  [OpWriteFile "/ab" (Str "x") None] "/ab" (Str "yz") _ H)).
Defined.

(** X21. In every state reached from a new file system, an [appendFile]
    on a path that [readFile] can read changes nothing else: every path
    exists, is a file, a directory or a symlink as before, every symlink has
    its target, every path that could not be read fails as before, and
    every path that could be read gives the content it gave before, with the
    bytes appended after it exactly when the path leads to the very file
    that was appended to. *)
Theorem appendFile_frame (opts : VFSOptions) (ops : list Op) (p q : string)
    (c : Content) (old : Buffer) :
  let s := runOps ops (createVFS opts) in
  let s' := exec (appendFile p c) s in
  outcome (readFile p) s = Ok old ->
  exists_ s' q = exists_ s q /\
  isFileAt s' q = isFileAt s q /\
  isDirectoryAt s' q = isDirectoryAt s q /\
  isSymlinkAt s' q = isSymlinkAt s q /\
  readSymlink s' q = readSymlink s q /\
  (forall e, outcome (readFile q) s = Throw e ->
             outcome (readFile q) s' = Throw e) /\
  (forall b, outcome (readFile q) s = Ok b ->
             outcome (readFile q) s'
             = Ok (if sameObject s p q then (b ++ toBuffer c)%list else b) /\
             (sameObject s p q = true -> b = old)).
Proof.
  intros s s' Hread.
  assert (Hs : distinct s) by apply runOps_distinct, createVFS_distinct.
  destruct (readFile_inv s p old Hread) as (node & Hres & Hfile & Hold).
  pose proof (resolveNode_inside s p true node Hres) as Hin.
  assert (Hs' : s' = exec (mutate (oidOf node) (append c)) s).
  { unfold s', exec. now rewrite (appendFile_run s p c node Hres Hfile). }
  assert (Hq : forall follow,
             resolveNode s' q follow
             = updated (oidOf node) (append c) (resolveNode s q follow)).
  { intros follow. rewrite Hs'.
    apply resolveNode_content_change; auto using append_other, append_file. }
  assert (Hkind := update_kind (oidOf node) (append c)
                     (append_other c) (append_file c)).
  assert (Hlast : forall b, outcome (readFile q) s = Ok b ->
             outcome (readFile q) s'
             = Ok (if sameObject s p q then (b ++ toBuffer c)%list else b) /\
             (sameObject s p q = true -> b = old)).
  { intros b Hb.
    destruct (readFile_inv s q b Hb) as (n1 & Hq1 & Hf1 & Hb1).
    unfold sameObject. rewrite Hres, Hq1.
    unfold outcome, readFile, bind, reading. rewrite Hq, Hq1. cbn [updated].
    rewrite (update_file _ _ _ Hf1), (Nat.eqb_sym (oidOf node) (oidOf n1)).
    destruct (Nat.eqb (oidOf n1) (oidOf node)) eqn:Eo.
    - apply Nat.eqb_eq in Eo.
      assert (n1 = node)
        by (apply (distinct_same (root s)); auto; [apply Hs|];
            exact (resolveNode_inside s q true n1 Hq1)).
      subst n1. split; [|congruence].
      destruct node; try discriminate. simpl in *. now subst.
    - split; [|discriminate].
      destruct n1; try discriminate. simpl in *. now subst. }
  unfold exists_, isFileAt, isDirectoryAt, isSymlinkAt, readSymlink.
  rewrite !Hq.
  assert (Hfail : forall e, outcome (readFile q) s = Throw e ->
                            outcome (readFile q) s' = Throw e).
  { intros e. unfold outcome, readFile, bind, reading. rewrite Hq.
    destruct (resolveNode s q true) as [[n1|]|e1]; cbn [updated]; auto.
    destruct (Hkind n1) as (Hd1 & Hl1 & Hf1 & Ht1). rewrite Hd1, Hf1.
    destruct (isDirectory n1); [auto|]. destruct (isFile n1); [discriminate|auto]. }
  destruct (resolveNode s q false) as [[n0|]|e0];
    destruct (resolveNode s q true) as [[n1|]|e1]; cbn [updated];
    try destruct (Hkind n0) as (Hd0 & Hl0 & Hf0 & Ht0);
    try destruct (Hkind n1) as (Hd1 & Hl1 & Hf1 & Ht1);
    rewrite ?Hd0, ?Hl0, ?Hf0, ?Ht0, ?Hd1, ?Hl1, ?Hf1;
    repeat (split; [reflexivity|]); (split; [exact Hfail|exact Hlast]).
Qed.

(** An instance: [/a/t] is left alone by an append to [/a/b/t], and the link
    [/a/b/link], which leads to [/a/t], reads the same; the file itself
    reads longer. *)
Lemma appendFile_frame_witness :
  let ops := [OpWriteFile "/a/b/t" (Str "x") None;
              OpWriteFile "/a/t" (Str "y") None;
              OpCreateSymlink "t" "/a/b/link"] in
  let s := runOps ops (createVFS DEFAULT_OPTIONS) in
  let s' := exec (appendFile "/a/b/t" (Str "z")) s in
  outcome (readFile "/a/b/t") s = Ok (utf8 "x") /\
  exists_ s' "/a/b/link" = exists_ s "/a/b/link" /\
  readSymlink s' "/a/b/link" = readSymlink s "/a/b/link" /\
  outcome (readFile "/a/b/link") s' = Ok (utf8 "y").
Proof.
  intros ops s s'.
  assert (H : outcome (readFile "/a/b/t") s = Ok (utf8 "x")) by reflexivity.
  destruct (appendFile_frame DEFAULT_OPTIONS ops "/a/b/t" "/a/b/link" (Str "z")
              (utf8 "x") H) as (H1 & _ & _ & _ & H5 & _ & H7).
  split; [exact H|]. split; [exact H1|]. split; [exact H5|].
  exact (proj1 (H7 (utf8 "y") eq_refl)).
Defined.

(* ================================================================= *)
(** ** File systems without symlinks *)

(** *** Trees without symlinks *)

Lemma linkFree_child (d : VFSNode) (nm : string) (c : VFSNode) :
  linkFree d -> getChild d nm = Some c -> linkFree c /\ isSymlink c = false.
Proof.
  intros Hd Hc. apply getChild_In in Hc as (o & n & ch & md & -> & Hin).
  inversion Hd as [|? ? ? ? Hall]; subst. rewrite Forall_forall in Hall.
  specialize (Hall _ Hin). simpl in Hall. split; [exact Hall|].
  now destruct Hall.
Qed.

Lemma linkFree_not_symlink (n : VFSNode) : linkFree n -> isSymlink n = false.
Proof. now intros []. Qed.

Lemma updateNode_linkFree (o : nat) (f : VFSNode -> VFSNode) (n : VFSNode) :
  (forall m, linkFree m -> linkFree (f m)) ->
  linkFree n -> linkFree (updateNode o f n).
Proof.
  intros Hf.
  induction n as [o' nm c md|o' nm ch md IH|o' nm t md] using node_induction;
    intros Hn; cbn [updateNode oidOf];
    (destruct (Nat.eqb o' o); [now apply Hf|]); try exact Hn.
  inversion Hn as [|? ? ? ? Hall]; subst. constructor.
  apply Forall_map. simpl.
  rewrite Forall_forall in *. intros kv Hin. apply IH; [exact Hin|now apply Hall].
Qed.

Lemma linkFree_plain (f : VFSNode -> VFSNode) :
  plainMethod f -> forall m, linkFree m -> linkFree (f m).
Proof.
  intros [c|c|nm] m Hm; destruct Hm as [|o n ch md Hall]; simpl;
    constructor; auto.
  rewrite Forall_forall in *. intros kv Hin. apply Hall.
  now apply delete_In in Hin.
Qed.

Lemma linkFree_addChild (node : VFSNode) :
  linkFree node -> forall m, linkFree m -> linkFree (addChild node m).
Proof.
  intros Hnode m Hm. destruct Hm as [|o n ch md Hall]; simpl; constructor.
  rewrite Forall_forall in *. intros kv Hin.
  apply set_In in Hin as [->|Hin]; [exact Hnode|now apply Hall].
Qed.

Lemma linkFree_leaf (build : nat -> VFSNode) (x : nat) :
  leafBuilder build -> linkFree (build x).
Proof. intros []; constructor. constructor. Qed.

Lemma linkFree_erase (a : VFSNode) :
  forall b, erase a = erase b -> linkFree a -> linkFree b.
Proof.
  induction a as [o nm c md|o nm ch md IH|o nm t md] using node_induction;
    intros [o' nm' c' md'|o' nm' ch' md'|o' nm' t' md'] He Ha;
    try discriminate; try constructor; [|inversion Ha].
  simpl in He. injection He as _ Hch _.
  inversion Ha as [|? ? ? ? Hall]; subst. clear Ha.
  revert ch' Hch. induction IH as [|kv ch Hkv _ IHch]; intros [|kv' ch'] Hch;
    try discriminate; constructor.
  - inversion Hall; subst. simpl in Hch. injection Hch as _ He _.
    now apply (Hkv (snd kv')).
  - inversion Hall; subst. simpl in Hch. injection Hch as _ _ Hrest.
    now apply IHch.
Qed.

Lemma linkFree_clone (n : VFSNode) (next : nat) :
  linkFree n -> linkFree (fst (clone n next)).
Proof.
  apply linkFree_erase. symmetry. apply (clone_facts n next).
Qed.

(** *** The invariant: no symlink in the store *)

Lemma mutate_noLinks (o : nat) (f : VFSNode -> VFSNode) (s : VFS) :
  (forall m, linkFree m -> linkFree (f m)) ->
  noLinks s -> noLinks (exec (mutate o f) s).
Proof.
  intros Hf (Hroot & Hsnaps). split; simpl.
  - now apply updateNode_linkFree.
  - apply Forall_map. simpl. eapply Forall_impl; [|exact Hsnaps].
    intros kv Hkv. now apply updateNode_linkFree.
Qed.

Lemma noLinks_plain (o : nat) (f : VFSNode -> VFSNode) :
  plainMethod f -> keeps noLinks (mutate o f).
Proof. intros Hf s Hs. apply mutate_noLinks; [now apply linkFree_plain|exact Hs]. Qed.

Lemma noLinks_leaf (build : nat -> VFSNode) (o : nat) (s : VFS) :
  leafBuilder build -> noLinks s ->
  noLinks (exec (mutate o (addChild (build (nextOid s)))) (exec fresh s)).
Proof.
  intros Hb Hs. apply mutate_noLinks; [|exact Hs].
  apply linkFree_addChild. now apply linkFree_leaf.
Qed.

Lemma createSnapshot_noLinks (nm : option string) (s : VFS) :
  noLinks s -> noLinks (exec (createSnapshot nm) s).
Proof.
  intros (Hroot & Hsnaps).
  destruct (createSnapshot_run nm s) as (_ & Hr & _ & _ & info & Hsn).
  unfold noLinks. rewrite Hr, Hsn. split; [exact Hroot|].
  apply Forall_forall. intros kv Hin. apply set_In in Hin as [->|Hin].
  - simpl. now apply linkFree_clone.
  - rewrite Forall_forall in Hsnaps. now apply Hsnaps.
Qed.

Lemma addChildren_noLinks (o : nat) (nodes : list VFSNode) :
  Forall linkFree nodes -> keeps noLinks (addChildren o nodes).
Proof.
  induction 1 as [|node rest Hnode _ IH]; [apply keeps_ret|].
  simpl. apply keeps_bind; [|intros _; exact IH].
  intros s Hs. apply mutate_noLinks; [now apply linkFree_addChild|exact Hs].
Qed.

Lemma restoreSnapshot_noLinks (id : string) :
  keeps noLinks (restoreSnapshot id).
Proof.
  unfold restoreSnapshot. apply keeps_bind; [apply keeps_reading|].
  intros found. destruct (negb found); [apply keeps_throw|].
  apply keeps_bind; [apply keeps_reading|]. intros rt.
  apply keeps_bind; [apply (removeChildren_keeps noLinks noLinks_plain)|].
  intros _ s Hs. rewrite exec_bind.
  unfold outcome, exec at 2 3, cloneSnapshotRoot.
  destruct (JSMap.get id (snapshots s)) as [snapshot|] eqn:Hget; [|exact Hs].
  assert (Hsnap : linkFree (snapRoot snapshot)).
  { destruct Hs as (_ & Hsnaps).
    exact (get_stored id (snapshots s) snapshot
             (fun v => linkFree (snapRoot v)) Hsnaps Hget). }
  pose proof (linkFree_clone (snapRoot snapshot) (nextOid s) Hsnap) as Hc.
  destruct (clone (snapRoot snapshot) (nextOid s)) as [cloned next].
  simpl in Hc. simpl fst. simpl snd. cbv iota.
  apply addChildren_noLinks.
  - destruct Hc as [|o nm ch md Hall]; [constructor|].
    unfold getChildren. simpl. now apply Forall_map.
  - exact Hs.
Qed.

Lemma reset_noLinks (s : VFS) : noLinks s -> noLinks (exec reset s).
Proof.
  intros Hs.
  pose proof (removeChildren_keeps noLinks noLinks_plain
                (oidOf (root s)) (getChildNames (root s)) s Hs) as (Hs1 & _).
  unfold exec at 1, reset. rewrite bind_run. unfold reading at 1.
  cbv beta iota. rewrite bind_run, removeChildren_run.
  split; [exact Hs1|constructor].
Qed.

Lemma runOp_noLinks (op : Op) (s : VFS) :
  createsNoLink op = true -> noLinks s -> noLinks (runOp op s).
Proof.
  intros Hop.
  destruct op;
    try (apply (runOp_keeps noLinks noLinks_plain noLinks_leaf); discriminate);
    try discriminate Hop.
  - apply createSnapshot_noLinks.
  - apply restoreSnapshot_noLinks.
  - intros (Hroot & Hsnaps). split; [exact Hroot|]. simpl.
    apply Forall_forall. intros kv Hin. apply delete_In in Hin.
    rewrite Forall_forall in Hsnaps. now apply Hsnaps.
  - apply reset_noLinks.
Qed.

Lemma runOps_noLinks (ops : list Op) (s : VFS) :
  forallb createsNoLink ops = true -> noLinks s -> noLinks (runOps ops s).
Proof.
  revert s. induction ops as [|op ops IH]; intros s Hops Hs; [exact Hs|].
  simpl in *. apply andb_true_iff in Hops as [Hop Hops].
  apply IH; [exact Hops|now apply runOp_noLinks].
Qed.

Lemma createVFS_noLinks (opts : VFSOptions) : noLinks (createVFS opts).
Proof. split; simpl; constructor. constructor. Qed.

(** *** Lookups without symlinks *)

Lemma resolveLoop_walk (rec : string -> Result (option VFSNode))
    (follow : bool) (rest : list string) :
  forall visited current,
    linkFree current ->
    resolveLoop rec follow visited rest current = Ok (walk current rest).
Proof.
  induction rest as [|segment rest IH]; intros visited current Hcur;
    [reflexivity|].
  cbn [resolveLoop walk].
  destruct (negb (isDirectory current)); [reflexivity|].
  destruct (getChild current segment) as [child|] eqn:Ec; [|reflexivity].
  destruct (linkFree_child _ _ _ Hcur Ec) as (Hchild & ->).
  now apply IH.
Qed.

Lemma resolveNode_walk (s : VFS) (p : string) (follow : bool) :
  linkFree (root s) ->
  resolveNode s p follow =
  match resolvePath p with
  | Throw e => Throw e
  | Ok r => Ok (walk (root s) (segments r))
  end.
Proof.
  intros Hroot. unfold resolveNode, resolveNodeAt.
  rewrite Nat.sub_0_r. cbn [resolveNodeFuel].
  destruct (resolvePath p) as [r|e] eqn:Hr; [|reflexivity].
  destruct (isRoot r) eqn:Eroot; [|now apply resolveLoop_walk].
  unfold resolvePath in Hr. destruct (validatePath p); [|discriminate].
  injection Hr as <-. simpl in *. apply String.eqb_eq in Eroot.
  now rewrite Eroot.
Qed.

Lemma walk_app (a b : list string) :
  forall current,
    walk current (a ++ b) =
    match walk current a with
    | Some d => walk d b
    | None => None
    end.
Proof.
  induction a as [|segment a IH]; intros current; [reflexivity|].
  simpl. destruct (negb (isDirectory current)); [reflexivity|].
  destruct (getChild current segment); [apply IH|reflexivity].
Qed.

Lemma walk_inside (rest : list string) :
  forall current n, walk current rest = Some n -> In n (nodes current).
Proof.
  induction rest as [|segment rest IH]; intros current n; simpl.
  - intros H. injection H as <-. apply nodes_self.
  - destruct (negb (isDirectory current)); [discriminate|].
    destruct (getChild current segment) as [child|] eqn:Ec; [|discriminate].
    intros H. exact (nodes_trans _ _ (IH _ _ H) _ (nodes_child _ _ _ Ec)).
Qed.

Lemma NoDup_flat_map {A B} (g : A -> list B) (l : list A) (x : A) :
  NoDup (flat_map g l) -> In x l -> NoDup (g x).
Proof.
  induction l as [|y l IH]; simpl; intros Hnd Hin; [contradiction|].
  apply NoDup_app_inv in Hnd as (H1 & H2 & _).
  destruct Hin as [->|Hin]; [exact H1|now apply IH].
Qed.

(** A method called on the object the walk ends on: the walk ends on the
    object the method leaves. *)
Lemma walk_update (f : VFSNode -> VFSNode) (P : VFSNode) (rest : list string) :
  forall current,
    NoDup (oids current) ->
    walk current rest = Some P ->
    walk (updateNode (oidOf P) f current) rest = Some (f P).
Proof.
  induction rest as [|segment rest IH]; intros current Hnd; simpl.
  - intros H. injection H as ->.
    destruct P; simpl; now rewrite Nat.eqb_refl.
  - destruct (isDirectory current) eqn:Edir; [|discriminate]. simpl.
    destruct (getChild current segment) as [child|] eqn:Ec; [|discriminate].
    intros Hwalk.
    destruct current as [| o nm ch md |]; try discriminate.
    pose proof (walk_inside _ _ _ Hwalk) as Hin.
    apply get_In in Ec as Hentry.
    assert (Ho : Nat.eqb o (oidOf P) = false).
    { apply Nat.eqb_neq. intros ->. simpl in Hnd.
      inversion Hnd as [|? ? Hhead _]; subst. apply Hhead.
      apply in_flat_map. exists (segment, child). split; [exact Hentry|].
      rewrite <- nodes_oids. now apply in_map. }
    cbn [updateNode oidOf]. rewrite Ho. simpl.
    unfold getChild in *. simpl in *. rewrite get_map, Ec. simpl.
    apply IH; [|exact Hwalk].
    inversion Hnd as [|? ? _ Hrest]; subst.
    exact (NoDup_flat_map (fun kv => oids (snd kv)) ch (segment, child)
             Hrest Hentry).
Qed.

(** *** What [writeFile] does *)

Lemma bind_inv {A B} (m : M A) (k : A -> M B) (s : VFS) (b : B) :
  outcome (bind m k) s = Ok b ->
  exists a, outcome m s = Ok a /\
            outcome (k a) (exec m s) = Ok b /\
            exec (bind m k) s = exec (k a) (exec m s).
Proof.
  unfold outcome, exec, bind. destruct (m s) as [s' [a|e]]; simpl.
  - intros H. now exists a.
  - discriminate.
Qed.

(** The path of a file and the path of its directory. *)
Lemma resolvePath_parent (p : string) (r : PathResolution) :
  resolvePath p = Ok r ->
  isAbsolute (fullPath r) = true -> isRoot r = false ->
  name r <> "" /\
  segments r = (splitPath (parentPath r) ++ [name r])%list /\
  forall r', resolvePath (parentPath r) = Ok r' ->
             segments r' = splitPath (parentPath r).
Proof.
  unfold resolvePath. destruct (validatePath p); [|discriminate].
  intros H. injection H as <-. simpl.
  set (q := normalizePath p). intros Habs Hroot. rewrite Hroot.
  apply String.eqb_neq in Hroot.
  pose proof (normalizePath_fixed p) as Hfix. fold q in Hfix.
  destruct (dirname_parent_facts q) as (Hd & _ & Hsplit).
  rewrite Hfix in Hsplit. destruct (Hsplit Habs Hroot) as (_ & Hb & Hs).
  split; [exact Hb|]. split; [exact Hs|].
  intros r'. destruct (validatePath (dirname q)); [|discriminate].
  intros H. injection H as <-. simpl. unfold splitPath. now rewrite !Hd.
Qed.

(** The three ways [writeFileInternal] returns: an entry that is a file is
    rewritten, the file a symlink leads to is rewritten, or a new file is
    put under the name. *)
Lemma writeFileInternal_returns (p : string) (c : Content) (s : VFS) :
  outcome (writeFileInternal p c) s = Ok tt ->
  exists r parent,
    let s1 := exec (createDirectory (parentPath r) true) s in
    resolvePath p = Ok r /\
    outcome (createDirectory (parentPath r) true) s = Ok tt /\
    getDirectory s1 (parentPath r) = Ok parent /\
    ((exists existing,
         getChild parent (name r) = Some existing /\
         isFile existing = true /\
         exec (writeFileInternal p c) s
         = exec (mutate (oidOf existing) (write c)) s1) \/
     (exists existing rn,
         getChild parent (name r) = Some existing /\
         isSymlink existing = true /\
         resolveNode s1 p true = Ok (Some rn) /\ isFile rn = true /\
         exec (writeFileInternal p c) s
         = exec (mutate (oidOf rn) (write c)) s1) \/
     ((getChild parent (name r) = None \/
       exists existing, getChild parent (name r) = Some existing /\
                        isSymlink existing = true) /\
      exec (writeFileInternal p c) s
      = exec (mutate (oidOf parent)
                (addChild (VFSFile (nextOid s1) (name r) (toBuffer c)
                             (defaultFileMode (options s1)))))
             (exec fresh s1))).
Proof.
  intros Hout. unfold writeFileInternal in *.
  apply bind_inv in Hout as (r & Hr & Hout & ->).
  rewrite outcome_liftR in Hr. rewrite exec_liftR in *.
  apply bind_inv in Hout as ([] & Hcreate & Hout & ->).
  set (s1 := exec (createDirectory (parentPath r) true) s) in *.
  apply bind_inv in Hout as (parent & Hparent & Hout & ->).
  rewrite outcome_reading in Hparent. rewrite exec_reading in *.
  exists r, parent. cbv zeta. fold s1.
  split; [exact Hr|]. split; [exact Hcreate|]. split; [exact Hparent|].
  assert (Hnew : exec (writeNewFile parent r c) s1
                 = exec (mutate (oidOf parent)
                           (addChild (VFSFile (nextOid s1) (name r) (toBuffer c)
                                        (defaultFileMode (options s1)))))
                        (exec fresh s1)).
  { unfold writeNewFile. rewrite exec_bind, outcome_reading, exec_reading.
    unfold newFile.
    change (exec (file <- (o <- fresh;; ret (VFSFile o (name r) (toBuffer c)
                                               (defaultFileMode (options s1))));;
                  mutate (oidOf parent) (addChild file);;;
                  notifyWatchers (fullPath r) Add) s1)
      with (exec (notifyWatchers (fullPath r) Add)
              (exec (mutate (oidOf parent)
                       (addChild (VFSFile (nextOid s1) (name r) (toBuffer c)
                                    (defaultFileMode (options s1)))))
                    (exec fresh s1))).
    apply notifyWatchers_state. }
  assert (Hwrite : forall o, exec (mutate o (write c) ;;;
                                   notifyWatchers (fullPath r) Change) s1
                             = exec (mutate o (write c)) s1).
  { intros o. rewrite exec_bind. unfold outcome at 1. rewrite mutate_run.
    simpl snd. cbv iota. apply notifyWatchers_state. }
  destruct (getChild parent (name r)) as [existing|] eqn:Ec.
  - destruct (isDirectory existing) eqn:Edir; [discriminate|].
    destruct (isFile existing) eqn:Efile.
    + left. exists existing. split; [reflexivity|]. split; [exact Efile|].
      apply Hwrite.
    + assert (Hlink : isSymlink existing = true)
        by (destruct existing; simpl in *; congruence).
      apply bind_inv in Hout as (resolved & Hres & Hout & ->).
      rewrite outcome_reading in Hres. rewrite exec_reading in *.
      destruct resolved as [rn|].
      * destruct (isFile rn) eqn:Ern.
        -- right. left. exists existing, rn.
           split; [reflexivity|]. split; [exact Hlink|]. split; [exact Hres|].
           split; [exact Ern|]. apply Hwrite.
        -- right. right. split; [|exact Hnew]. right. now exists existing.
      * right. right. split; [|exact Hnew]. right. now exists existing.
  - right. right. split; [now left|exact Hnew].
Qed.
Lemma walk_linkFree (rest : list string) :
  forall current n, linkFree current -> walk current rest = Some n -> linkFree n.
Proof.
  induction rest as [|segment rest IH]; intros current n Hcur; simpl.
  - intros H. now injection H as <-.
  - destruct (negb (isDirectory current)); [discriminate|].
    destruct (getChild current segment) as [child|] eqn:Ec; [|discriminate].
    apply IH. exact (proj1 (linkFree_child _ _ _ Hcur Ec)).
Qed.

(** The directory [getDirectory] returns, as the end of a walk. *)
Lemma getDirectory_walk (s : VFS) (dirPath : string) (dir : VFSNode) :
  linkFree (root s) -> getDirectory s dirPath = Ok dir ->
  exists r, resolvePath dirPath = Ok r /\
            walk (root s) (segments r) = Some dir /\
            isDirectory dir = true.
Proof.
  intros Hroot. unfold getDirectory. rewrite (resolveNode_walk s dirPath true Hroot).
  destruct (resolvePath dirPath) as [r|e]; [|discriminate].
  destruct (walk (root s) (segments r)) as [node|] eqn:Hw; [|discriminate].
  destruct (isDirectory node) eqn:Ed; [|discriminate].
  simpl. intros H. injection H as <-. now exists r.
Qed.

Lemma walk_last (current parent : VFSNode) (init : list string) (nm : string) :
  walk current init = Some parent -> isDirectory parent = true ->
  walk current (init ++ [nm]) = getChild parent nm.
Proof.
  intros Hw Hd. rewrite walk_app, Hw. simpl. rewrite Hd. simpl.
  now destruct (getChild parent nm).
Qed.

Lemma fresh_noLinks (s : VFS) : noLinks s -> noLinks (exec fresh s).
Proof. intros Hs. exact Hs. Qed.

Lemma readFile_walk (s : VFS) (p : string) (r : PathResolution) (node : VFSNode) :
  linkFree (root s) -> resolvePath p = Ok r ->
  walk (root s) (segments r) = Some node -> isFile node = true ->
  outcome (readFile p) s = Ok (read node).
Proof.
  intros Hroot Hr Hw Hf. unfold outcome, readFile, bind, reading.
  rewrite (resolveNode_walk s p true Hroot), Hr, Hw.
  destruct node; try discriminate. reflexivity.
Qed.

(** Without symlinks, what [writeFileInternal] wrote is what [readFile]
    reads. *)
Lemma writeFileInternal_read (s : VFS) (p : string) (c : Content) :
  distinct s -> noLinks s ->
  isAbsolute (normalizePath p) = true -> normalizePath p <> "/" ->
  outcome (writeFileInternal p c) s = Ok tt ->
  outcome (readFile p) (exec (writeFileInternal p c) s) = Ok (toBuffer c).
Proof.
  intros Hd Hl Habs Hnotroot Hout.
  destruct (writeFileInternal_returns p c s Hout)
    as (r & parent & Hr & _ & Hparent & Hcases).
  cbv zeta in *.
  set (s1 := exec (createDirectory (parentPath r) true) s) in *.
  assert (Hd1 : distinct s1)
    by exact (createDirectory_keeps distinct distinct_leaf _ _ s Hd).
  assert (Hl1 : noLinks s1)
    by exact (createDirectory_keeps noLinks noLinks_leaf _ _ s Hl).
  assert (Hfull : fullPath r = normalizePath p /\
                  isRoot r = String.eqb (normalizePath p) "/").
  { unfold resolvePath in Hr. destruct (validatePath p); [|discriminate].
    injection Hr as <-. now split. }
  destruct Hfull as (Hfull & Hisroot).
  assert (Hnr : isRoot r = false)
    by (rewrite Hisroot; now apply String.eqb_neq).
  rewrite <- Hfull in Habs.
  destruct (resolvePath_parent p r Hr Habs Hnr) as (Hname & Hsegs & Hpsegs).
  destruct (getDirectory_walk s1 _ _ (proj1 Hl1) Hparent)
    as (r' & Hr' & Hwalk & Hdir).
  rewrite (Hpsegs r' Hr') in Hwalk.
  assert (Hlp : linkFree parent) by exact (walk_linkFree _ _ _ (proj1 Hl1) Hwalk).
  destruct Hcases as [(existing & Hc & Hfile & ->)
                     |[(existing & rn & Hc & Hlink & _)
                      |([Hc|(existing & Hc & Hlink)] & ->)]].
  - (* the entry is a file *)
    assert (Hw : walk (root s1) (segments r) = Some existing)
      by (rewrite Hsegs, (walk_last _ _ _ _ Hwalk Hdir); exact Hc).
    pose proof (walk_update (write c) existing _ _ (proj1 Hd1) Hw) as Hw2.
    rewrite (readFile_walk _ p r (write c existing)); auto.
    + destruct existing; try discriminate; reflexivity.
    + apply (mutate_noLinks _ _ s1 (linkFree_plain _ (plain_write c)) Hl1).
    + destruct existing; try discriminate; reflexivity.
  - rewrite (proj2 (linkFree_child _ _ _ Hlp Hc)) in Hlink. discriminate.
  - (* a new file *)
    set (file := VFSFile (nextOid s1) (name r) (toBuffer c)
                   (defaultFileMode (options s1))).
    pose proof (walk_update (addChild file) parent _ _ (proj1 Hd1) Hwalk) as Hw2.
    assert (Hw3 : walk (root (exec (mutate (oidOf parent) (addChild file))
                                (exec fresh s1))) (segments r) = Some file).
    { rewrite Hsegs.
      rewrite (walk_last _ (addChild file parent) _ _ Hw2);
        [|destruct parent; try discriminate; reflexivity].
      destruct parent as [| o nm ch md |]; try discriminate.
      unfold getChild. simpl. apply get_set_same. }
    rewrite (readFile_walk _ p r file); auto.
    apply (mutate_noLinks _ _ (exec fresh s1)); [|exact Hl1].
    apply linkFree_addChild. constructor.
  - rewrite (proj2 (linkFree_child _ _ _ Hlp Hc)) in Hlink. discriminate.
Qed.

(** X22. In a file system where no symlink was ever created, a write can be
    read back: when [writeFile] returns on an absolute path other than the
    root, [readFile] on the same path returns the content written. *)
Theorem write_then_read_without_symlinks (opts : VFSOptions) (ops : list Op)
    (p : string) (c : Content)
    (Hops : forallb createsNoLink ops = true) :
  let s := runOps ops (createVFS opts) in
  isAbsolute (normalizePath p) = true -> normalizePath p <> "/" ->
  outcome (writeFile p c None) s = Ok tt ->
  outcome (readFile p) (exec (writeFile p c None) s) = Ok (toBuffer c).
Proof.
  intros s Habs Hnotroot Hout.
  change (writeFile p c None) with (writeFileInternal p c) in *.
  apply writeFileInternal_read; auto.
  - apply runOps_distinct, createVFS_distinct.
  - apply runOps_noLinks; [exact Hops|apply createVFS_noLinks].
Qed.

(** An instance: a file two directories down, in a new file system. *)
Lemma write_then_read_without_symlinks_witness :
  forallb createsNoLink [OpCreateDirectory "/a" false] = true /\
  outcome (writeFile "/a/b/c.txt" (Str "hi") None)
    (runOps [OpCreateDirectory "/a" false] (createVFS DEFAULT_OPTIONS)) = Ok tt /\
  outcome (readFile "/a/b/c.txt")
    (exec (writeFile "/a/b/c.txt" (Str "hi") None)
       (runOps [OpCreateDirectory "/a" false] (createVFS DEFAULT_OPTIONS)))
  = Ok (utf8 "hi").
Proof.
  assert (H1 : forallb createsNoLink [OpCreateDirectory "/a" false] = true)
    by reflexivity.
  assert (H2 : outcome (writeFile "/a/b/c.txt" (Str "hi") None)
                 (runOps [OpCreateDirectory "/a" false]
                    (createVFS DEFAULT_OPTIONS)) = Ok tt) by reflexivity.
  assert (H3 : normalizePath "/a/b/c.txt" <> "/") by discriminate.
  split; [exact H1|]. split; [exact H2|].
  exact (write_then_read_without_symlinks DEFAULT_OPTIONS
           [OpCreateDirectory "/a" false] "/a/b/c.txt" (Str "hi") H1
           eq_refl H3 H2).
Defined.

(** *** Deleting, and creating directories *)

(** Without symlinks, the file [deleteFile] removed is found no more. *)
Lemma deleteFile_gone (s : VFS) (p : string) :
  good s -> distinct s -> noLinks s ->
  let s' := exec (deleteFile p) s in
  isAbsolute (normalizePath p) = true -> normalizePath p <> "/" ->
  outcome (deleteFile p) s = Ok tt ->
  exists_ s' p = false /\
  outcome (readFile p) s' = Throw (FileNotFoundError p).
Proof.
  intros Hg Hd Hl s' Habs Hnotroot Hout.
  assert (Hl' : noLinks s')
    by exact (deleteFile_keeps noLinks noLinks_plain p s Hl).
  unfold s' in *. clear s'. unfold deleteFile in *.
  apply bind_inv in Hout as (r & Hr & Hout & Hexec).
  rewrite outcome_liftR in Hr. rewrite exec_liftR in *.
  apply bind_inv in Hout as (parent0 & Hparent & Hout & Hexec2).
  rewrite outcome_reading in Hparent. rewrite exec_reading in *.
  injection Hparent as Hparent.
  destruct parent0 as [parent|]; [|discriminate].
  destruct (getChild parent (name r)) as [node|] eqn:Ec; [|discriminate].
  destruct (isDirectory node); [discriminate|].
  assert (Hstate : exec (mutate (oidOf parent) (removeChild (name r));;;
                         notifyWatchers (fullPath r) Unlink) s
                   = exec (mutate (oidOf parent) (removeChild (name r))) s)
    by reflexivity.
  rewrite Hexec, Hexec2, Hstate in *. clear Hexec Hexec2 Hstate Hout.
  assert (Hfull : fullPath r = normalizePath p /\
                  isRoot r = String.eqb (normalizePath p) "/").
  { unfold resolvePath in Hr. destruct (validatePath p); [|discriminate].
    injection Hr as <-. now split. }
  destruct Hfull as (Hfull & Hisroot).
  assert (Hnr : isRoot r = false)
    by (rewrite Hisroot; now apply String.eqb_neq).
  rewrite <- Hfull in Habs.
  destruct (resolvePath_parent p r Hr Habs Hnr) as (Hname & Hsegs & Hpsegs).
  assert (Hgd : getDirectory s (parentPath r) = Ok parent).
  { unfold getDirectoryOrNull in Hparent.
    destruct (getDirectory s (parentPath r)); [congruence|discriminate]. }
  destruct (getDirectory_walk s _ _ (proj1 Hl) Hgd) as (r' & Hr' & Hwalk & Hdir).
  rewrite (Hpsegs r' Hr') in Hwalk.
  pose proof (getDirectory_live s _ _ Hg Hgd) as (_ & Hkeyed).
  pose proof (walk_update (removeChild (name r)) parent _ _ (proj1 Hd) Hwalk)
    as Hw2.
  set (s2 := exec (mutate (oidOf parent) (removeChild (name r))) s) in *.
  assert (Hgone : walk (root s2) (segments r) = None).
  { rewrite Hsegs.
    rewrite (walk_last _ (removeChild (name r) parent) _ _ Hw2);
      [|destruct parent; try discriminate; reflexivity].
    destruct parent as [| o nm ch md |]; try discriminate.
    unfold getChild. simpl. apply get_delete_same.
    now inversion Hkeyed. }
  unfold exists_, outcome, readFile, bind, reading.
  rewrite !(resolveNode_walk s2 p _ (proj1 Hl')), Hr, Hgone.
  split; reflexivity.
Qed.

(** X23. In a file system where no symlink was ever created, a file that
    is deleted is gone: when [deleteFile] returns on an absolute path other
    than the root, [exists] answers false on that path and [readFile]
    raises [FileNotFoundError]. *)
Theorem deleted_file_is_gone (opts : VFSOptions) (ops : list Op) (p : string)
    (Hops : forallb createsNoLink ops = true) :
  let s := runOps ops (createVFS opts) in
  let s' := exec (deleteFile p) s in
  isAbsolute (normalizePath p) = true -> normalizePath p <> "/" ->
  outcome (deleteFile p) s = Ok tt ->
  exists_ s' p = false /\
  outcome (readFile p) s' = Throw (FileNotFoundError p).
Proof.
  intros s s'. apply deleteFile_gone.
  - apply runOps_good, createVFS_good.
  - apply runOps_distinct, createVFS_distinct.
  - apply runOps_noLinks; [exact Hops|apply createVFS_noLinks].
Qed.

(** An instance: [/d/ab]. *)
Lemma deleted_file_is_gone_witness :
  outcome (deleteFile "/d/ab")
    (runOps [OpWriteFile "/d/ab" (Str "x") None] (createVFS DEFAULT_OPTIONS))
  = Ok tt /\
  exists_ (exec (deleteFile "/d/ab")
             (runOps [OpWriteFile "/d/ab" (Str "x") None]
                (createVFS DEFAULT_OPTIONS))) "/d/ab" = false.
Proof.
  assert (H1 : forallb createsNoLink [OpWriteFile "/d/ab" (Str "x") None] = true)
    by reflexivity.
  assert (H2 : outcome (deleteFile "/d/ab")
                 (runOps [OpWriteFile "/d/ab" (Str "x") None]
                    (createVFS DEFAULT_OPTIONS)) = Ok tt) by reflexivity.
  assert (H3 : normalizePath "/d/ab" <> "/") by discriminate.
  split; [exact H2|].
  exact (proj1 (deleted_file_is_gone DEFAULT_OPTIONS
                  [OpWriteFile "/d/ab" (Str "x") None] "/d/ab" H1
                  eq_refl H3 H2)).
Defined.

(** The loop of [createDirectory], when there is no symlink: it ends in the
    directory that the names lead to. *)
Lemma createDirectoryLoop_walk (recursive : bool) (segs : list string) :
  forall visited current currentPath s,
    distinct s -> noLinks s ->
    walk (root s) visited = Some current -> isDirectory current = true ->
    outcome (createDirectoryLoop recursive segs current currentPath) s = Ok tt ->
    exists d,
      walk (root (exec (createDirectoryLoop recursive segs current currentPath) s))
           (visited ++ segs) = Some d /\
      isDirectory d = true.
Proof.
  induction segs as [|segment rest IH];
    intros visited current currentPath s Hd Hl Hwalk Hdir Hout.
  - exists current. rewrite app_nil_r. now split.
  - rewrite createDirectoryLoop_cons in *. cbv zeta in *.
    replace (visited ++ segment :: rest)%list
      with ((visited ++ [segment]) ++ rest)%list
      by (now rewrite <- app_assoc).
    pose proof (walk_linkFree _ _ _ (proj1 Hl) Hwalk) as Hlc.
    destruct (getChild current segment) as [child|] eqn:Ec.
    + destruct (linkFree_child _ _ _ Hlc Ec) as (_ & Hnl).
      rewrite Hnl in *.
      destruct (isDirectory child) eqn:Edc; [|discriminate].
      apply IH; auto.
      rewrite (walk_last _ _ _ _ Hwalk Hdir). exact Ec.
    + destruct (negb recursive && negb (isNil rest)); [discriminate|].
      apply bind_inv in Hout as (md & Hmd & Hout & ->).
      rewrite outcome_reading in Hmd. rewrite exec_reading in *.
      injection Hmd as <-.
      set (newDir := VFSDirectory (nextOid s) segment []
                       (defaultDirectoryMode (options s))).
      set (s2 := exec (mutate (oidOf current) (addChild newDir)) (exec fresh s)).
      set (path := currentPath ++ "/" ++ segment) in *.
      assert (Hrun :
                 (newDir0 <- newDirectory segment
                                (defaultDirectoryMode (options s)) ;;
                  mutate (oidOf current) (addChild newDir0) ;;;
                  notifyWatchers path AddDir ;;;
                  createDirectoryLoop recursive rest newDir0 path) s
                 = (notifyWatchers path AddDir ;;;
                    createDirectoryLoop recursive rest newDir path) s2)
        by reflexivity.
      unfold outcome in Hout. unfold exec at 1. rewrite Hrun in *.
      fold (outcome (notifyWatchers path AddDir;;;
                     createDirectoryLoop recursive rest newDir path) s2) in Hout.
      fold (exec (notifyWatchers path AddDir;;;
                  createDirectoryLoop recursive rest newDir path) s2).
      apply bind_inv in Hout as ([] & _ & Hout & ->).
      rewrite notifyWatchers_state in *.
      assert (Hd2 : distinct s2)
        by exact (distinct_leaf
                    (fun x => VFSDirectory x segment []
                                (defaultDirectoryMode (options s)))
                    (oidOf current) s (build_directory _ _) Hd).
      assert (Hl2 : noLinks s2)
        by exact (noLinks_leaf
                    (fun x => VFSDirectory x segment []
                                (defaultDirectoryMode (options s)))
                    (oidOf current) s (build_directory _ _) Hl).
      apply IH; auto.
      pose proof (walk_update (addChild newDir) current _ _ (proj1 Hd) Hwalk)
        as Hw2.
      change (root s2) with (updateNode (oidOf current) (addChild newDir) (root s)).
      rewrite (walk_last _ (addChild newDir current) _ _ Hw2);
        [|destruct current; try discriminate; reflexivity].
      destruct current as [| o nm ch md |]; try discriminate.
      unfold getChild. simpl. apply get_set_same.
Qed.

(** X24. In a file system where no symlink was ever created, a directory
    that is created is there: when [createDirectory] returns, [isDirectory]
    answers true on the path, whatever the path. *)
Theorem created_directory_is_there (opts : VFSOptions) (ops : list Op)
    (p : string) (recursive : bool)
    (Hops : forallb createsNoLink ops = true) :
  let s := runOps ops (createVFS opts) in
  outcome (createDirectory p recursive) s = Ok tt ->
  isDirectoryAt (exec (createDirectory p recursive) s) p = true.
Proof.
  intros s Hout.
  assert (Hg : good s) by apply runOps_good, createVFS_good.
  assert (Hd : distinct s) by apply runOps_distinct, createVFS_distinct.
  assert (Hl : noLinks s) by (apply runOps_noLinks; [exact Hops|apply createVFS_noLinks]).
  assert (Hl' : noLinks (exec (createDirectory p recursive) s))
    by exact (createDirectory_keeps noLinks noLinks_leaf p recursive s Hl).
  unfold isDirectoryAt. rewrite (resolveNode_walk _ p true (proj1 Hl')).
  unfold createDirectory in *.
  apply bind_inv in Hout as (r & Hr & Hout & ->).
  rewrite outcome_liftR in Hr. rewrite exec_liftR in *. rewrite Hr.
  destruct (String.eqb (fullPath r) "/") eqn:Eroot.
  - assert (Hsegs : segments r = []).
    { unfold resolvePath in Hr. destruct (validatePath p); [|discriminate].
      injection Hr as <-. simpl in *. apply String.eqb_eq in Eroot.
      now rewrite Eroot. }
    rewrite Hsegs. simpl. apply Hg.
  - apply bind_inv in Hout as (rt & Hrt & Hout & ->).
    rewrite outcome_reading in Hrt. rewrite exec_reading in *.
    injection Hrt as <-.
    destruct (createDirectoryLoop_walk recursive (segments r) [] (root s) "" s
                Hd Hl eq_refl (proj1 (proj2 Hg)) Hout) as (d & Hw & Hdir).
    simpl in Hw. now rewrite Hw.
Qed.

(** An instance: three directories at once. *)
Lemma created_directory_is_there_witness :
  outcome (createDirectory "/a/b/c" true) (runOps [] (createVFS DEFAULT_OPTIONS))
  = Ok tt /\
  isDirectoryAt (exec (createDirectory "/a/b/c" true)
                   (runOps [] (createVFS DEFAULT_OPTIONS))) "/a/b/c" = true.
Proof.
  assert (H : outcome (createDirectory "/a/b/c" true)
                (runOps [] (createVFS DEFAULT_OPTIONS)) = Ok tt) by reflexivity.
  split; [exact H|].
  exact (created_directory_is_there DEFAULT_OPTIONS [] "/a/b/c" true eq_refl H).
Defined.

(* ================================================================= *)
(** ** What a call leaves alone, without symlinks *)

Lemma NoDup_flat_map_same {A B} (g : A -> list B) (l : list A) (x y : A) (z : B) :
  NoDup (flat_map g l) -> In x l -> In y l -> In z (g x) -> In z (g y) -> x = y.
Proof.
  induction l as [|e l IH]; simpl; intros Hnd Hx Hy Hzx Hzy; [contradiction|].
  apply NoDup_app_inv in Hnd as (H1 & H2 & H3).
  destruct Hx as [->|Hx], Hy as [->|Hy]; auto.
  - exfalso. apply (H3 z Hzx). apply in_flat_map. now exists y.
  - exfalso. apply (H3 z Hzy). apply in_flat_map. now exists x.
Qed.

Lemma walk_oid_inside (rest : list string) (current n : VFSNode) :
  walk current rest = Some n -> In (oidOf n) (oids current).
Proof.
  intros H. rewrite <- nodes_oids. apply in_map. exact (walk_inside _ _ _ H).
Qed.

(** Two walks that end on the same object went by the same names. *)
Lemma walk_unique (a : list string) :
  forall b current x y,
    NoDup (oids current) ->
    walk current a = Some x -> walk current b = Some y ->
    oidOf x = oidOf y -> a = b.
Proof.
  assert (Hhead : forall seg rest current y,
             NoDup (oids current) ->
             walk current (seg :: rest) = Some y -> oidOf current <> oidOf y).
  { intros seg rest current y Hnd. simpl.
    destruct (isDirectory current) eqn:Edir; [|discriminate]. simpl.
    destruct (getChild current seg) as [child|] eqn:Ec; [|discriminate].
    intros Hw Heq. apply walk_oid_inside in Hw.
    destruct current as [| o nm ch md |]; try discriminate.
    simpl in *. apply NoDup_cons_iff in Hnd as (Hn & _). apply Hn.
    apply in_flat_map. exists (seg, child). split; [now apply get_In|].
    now rewrite Heq. }
  induction a as [|s a IH]; intros [|t b] current x y Hnd Ha Hb Heq.
  - reflexivity.
  - exfalso. injection Ha as <-. exact (Hhead _ _ _ _ Hnd Hb Heq).
  - exfalso. injection Hb as <-. exact (Hhead _ _ _ _ Hnd Ha (eq_sym Heq)).
  - simpl in Ha, Hb.
    destruct (isDirectory current) eqn:Edir; [|discriminate]. simpl in *.
    destruct (getChild current s) as [cs|] eqn:Es; [|discriminate].
    destruct (getChild current t) as [ct|] eqn:Et; [|discriminate].
    destruct current as [| o nm ch md |]; try discriminate.
    unfold getChild in Es, Et. simpl in *.
    apply get_In in Es as Hs. apply get_In in Et as Ht.
    apply NoDup_cons_iff in Hnd as (_ & Hrest).
    assert (Hsame : (s, cs) = (t, ct)).
    { apply (NoDup_flat_map_same (fun kv => oids (snd kv)) ch _ _ (oidOf x)
               Hrest Hs Ht).
      - exact (walk_oid_inside _ _ _ Ha).
      - rewrite Heq. exact (walk_oid_inside _ _ _ Hb). }
    injection Hsame as <- <-. f_equal.
    apply (IH b cs x y); auto.
    exact (NoDup_flat_map (fun kv => oids (snd kv)) ch (s, cs) Hrest Hs).
Qed.

(** A method called on the object [P] leaves the walk to a file [n] as it
    was, when it keeps the directories below [P] and [n] itself. *)
Lemma walk_frame (f : VFSNode -> VFSNode) (rt P n : VFSNode) :
  NoDup (oids rt) -> In P (nodes rt) ->
  isDirectory (f P) = isDirectory P ->
  (forall seg c, getChild P seg = Some c ->
                 isDirectory c = true \/ c = n ->
                 getChild (f P) seg = Some c) ->
  isFile n = true -> oidOf n <> oidOf P ->
  forall path current,
    In current (nodes rt) -> walk current path = Some n ->
    walk (updateNode (oidOf P) f current) path = Some n.
Proof.
  intros Hnd HP Hkind Hkeep Hfile Hne.
  induction path as [|seg rest IH]; intros current Hcur Hw.
  - injection Hw as ->. simpl. rewrite (update_file _ _ _ Hfile).
    apply Nat.eqb_neq in Hne. now rewrite Hne.
  - simpl in Hw.
    destruct (isDirectory current) eqn:Edir; [|discriminate]. simpl in Hw.
    destruct (getChild current seg) as [child|] eqn:Ec; [|discriminate].
    destruct (Nat.eqb (oidOf current) (oidOf P)) eqn:Eo.
    + apply Nat.eqb_eq in Eo.
      assert (current = P) as -> by exact (distinct_same rt _ _ Hnd Hcur HP Eo).
      replace (updateNode (oidOf P) f P) with (f P)
        by (destruct P; simpl; now rewrite Nat.eqb_refl).
      simpl. rewrite Hkind, Edir. simpl.
      rewrite (Hkeep seg child Ec); [exact Hw|].
      destruct rest as [|seg' rest]; [right; now injection Hw|left].
      simpl in Hw. now destruct (isDirectory child).
    + destruct current as [| o nm ch md |]; try discriminate.
      simpl in Eo. cbn [updateNode oidOf]. rewrite Eo. simpl.
      unfold getChild in *. simpl in *. rewrite get_map, Ec. simpl.
      apply IH; [|exact Hw].
      exact (nodes_trans _ _ (nodes_child (VFSDirectory o nm ch md) seg child Ec)
               _ Hcur).
Qed.

Lemma file_directory_oids (rt n P : VFSNode) :
  NoDup (oids rt) -> In n (nodes rt) -> In P (nodes rt) ->
  isFile n = true -> isDirectory P = true -> oidOf n <> oidOf P.
Proof.
  intros Hnd Hn HP Hfile Hdir Heq.
  rewrite (distinct_same rt _ _ Hnd Hn HP Heq) in Hfile.
  destruct P; discriminate.
Qed.

(** A new entry leaves the walk to every file as it was. *)
Lemma walk_addChild (s : VFS) (visited : list string) (current node n : VFSNode)
    (path : list string) :
  distinct s ->
  walk (root s) visited = Some current -> isDirectory current = true ->
  getChild current (nodeName node) = None ->
  walk (root s) path = Some n -> isFile n = true ->
  walk (root (exec (mutate (oidOf current) (addChild node)) (exec fresh s))) path
  = Some n.
Proof.
  intros (Hnd & _) Hcur Hdir Hnone Hw Hfile.
  change (root (exec (mutate (oidOf current) (addChild node)) (exec fresh s)))
    with (updateNode (oidOf current) (addChild node) (root s)).
  pose proof (walk_inside _ _ _ Hcur) as Hin.
  apply (walk_frame (addChild node) (root s) current n); auto.
  - now destruct current.
  - intros seg c Hc _. destruct current as [| o nm ch md |]; try discriminate.
    unfold getChild in *. simpl in *.
    rewrite get_set_other; [exact Hc|]. intros ->. congruence.
  - apply (file_directory_oids (root s)); auto. exact (walk_inside _ _ _ Hw).
  - apply nodes_self.
Qed.

(** [createDirectory] leaves every file where it was. *)
Lemma createDirectoryLoop_frame (recursive : bool) (path : list string)
    (n : VFSNode) (segs : list string) :
  isFile n = true ->
  forall visited current currentPath s,
    distinct s -> noLinks s ->
    walk (root s) visited = Some current -> isDirectory current = true ->
    walk (root s) path = Some n ->
    walk (root (exec (createDirectoryLoop recursive segs current currentPath) s))
         path = Some n.
Proof.
  intros Hfile.
  induction segs as [|segment rest IH];
    intros visited current currentPath s Hd Hl Hwalk Hdir Hn; [exact Hn|].
  rewrite createDirectoryLoop_cons. cbv zeta.
  pose proof (walk_linkFree _ _ _ (proj1 Hl) Hwalk) as Hlc.
  destruct (getChild current segment) as [child|] eqn:Ec.
  - destruct (linkFree_child _ _ _ Hlc Ec) as (_ & Hnl). rewrite Hnl.
    destruct (isDirectory child) eqn:Edc; [|exact Hn].
    apply (IH (visited ++ [segment])%list); auto.
    rewrite (walk_last _ _ _ _ Hwalk Hdir). exact Ec.
  - destruct (negb recursive && negb (isNil rest)); [exact Hn|].
    rewrite exec_bind, outcome_reading, exec_reading.
    set (newDir := VFSDirectory (nextOid s) segment []
                     (defaultDirectoryMode (options s))).
    set (s2 := exec (mutate (oidOf current) (addChild newDir)) (exec fresh s)).
    set (cp := currentPath ++ "/" ++ segment) in *.
    assert (Hrun :
               exec (newDir0 <- newDirectory segment
                                  (defaultDirectoryMode (options s)) ;;
                     mutate (oidOf current) (addChild newDir0) ;;;
                     notifyWatchers cp AddDir ;;;
                     createDirectoryLoop recursive rest newDir0 cp) s
               = exec (notifyWatchers cp AddDir ;;;
                       createDirectoryLoop recursive rest newDir cp) s2)
      by reflexivity.
    rewrite Hrun, exec_bind, notifyWatchers_state.
    assert (Hn2 : walk (root s2) path = Some n)
      by (apply (walk_addChild s visited current newDir n path); auto).
    destruct (outcome (notifyWatchers cp AddDir) s2); [|exact Hn2].
    assert (Hd2 : distinct s2)
      by exact (distinct_leaf
                  (fun x => VFSDirectory x segment []
                              (defaultDirectoryMode (options s)))
                  (oidOf current) s (build_directory _ _) Hd).
    assert (Hl2 : noLinks s2)
      by exact (noLinks_leaf
                  (fun x => VFSDirectory x segment []
                              (defaultDirectoryMode (options s)))
                  (oidOf current) s (build_directory _ _) Hl).
    apply (IH (visited ++ [segment])%list); auto.
    pose proof (walk_update (addChild newDir) current _ _ (proj1 Hd) Hwalk)
      as Hw2.
    change (root s2) with (updateNode (oidOf current) (addChild newDir) (root s)).
    rewrite (walk_last _ (addChild newDir current) _ _ Hw2);
      [|destruct current; try discriminate; reflexivity].
    destruct current as [| o nm ch md |]; try discriminate.
    unfold getChild. simpl. apply get_set_same.
Qed.

Lemma createDirectory_frame (dirPath : string) (recursive : bool) (s : VFS)
    (path : list string) (n : VFSNode) :
  good s -> distinct s -> noLinks s ->
  walk (root s) path = Some n -> isFile n = true ->
  walk (root (exec (createDirectory dirPath recursive) s)) path = Some n.
Proof.
  intros Hg Hd Hl Hn Hfile. unfold createDirectory.
  rewrite exec_bind, outcome_liftR, exec_liftR.
  destruct (resolvePath dirPath) as [r|e]; [|exact Hn].
  destruct (String.eqb (fullPath r) "/"); [exact Hn|].
  rewrite exec_bind, outcome_reading, exec_reading.
  apply (createDirectoryLoop_frame recursive path n (segments r) Hfile []);
    auto.
  apply Hg.
Qed.

Lemma resolvePath_fields (p : string) (r : PathResolution) :
  resolvePath p = Ok r ->
  fullPath r = normalizePath p /\ segments r = splitPath p /\
  isRoot r = String.eqb (normalizePath p) "/".
Proof.
  unfold resolvePath. destruct (validatePath p); [|discriminate].
  intros H. injection H as <-. simpl. unfold splitPath.
  now rewrite normalizePath_fixed.
Qed.

(** Where the file of a path is found: under its name in the directory the
    parent path leads to. *)
Lemma parent_walk (s : VFS) (p : string) (r : PathResolution) (parent : VFSNode) :
  linkFree (root s) -> resolvePath p = Ok r ->
  isAbsolute (normalizePath p) = true -> normalizePath p <> "/" ->
  getDirectory s (parentPath r) = Ok parent ->
  exists init,
    splitPath p = (init ++ [name r])%list /\
    walk (root s) init = Some parent /\ isDirectory parent = true /\
    walk (root s) (splitPath p) = getChild parent (name r).
Proof.
  intros Hl Hr Habs Hnotroot Hparent.
  destruct (resolvePath_fields p r Hr) as (Hfull & Hsegs & Hisroot).
  assert (Hnr : isRoot r = false)
    by (rewrite Hisroot; now apply String.eqb_neq).
  rewrite <- Hfull in Habs.
  destruct (resolvePath_parent p r Hr Habs Hnr) as (_ & Hsplit & Hpsegs).
  destruct (getDirectory_walk s _ _ Hl Hparent) as (r' & Hr' & Hwalk & Hdir).
  rewrite (Hpsegs r' Hr') in Hwalk.
  exists (splitPath (parentPath r)). rewrite <- Hsegs, Hsplit.
  repeat split; auto. now apply walk_last.
Qed.

(** [writeFileInternal] rewrites the file of its path and leaves every other
    file as it was. *)
Lemma writeFileInternal_frame (s : VFS) (p : string) (c : Content)
    (path : list string) (n : VFSNode) :
  good s -> distinct s -> noLinks s ->
  isAbsolute (normalizePath p) = true -> normalizePath p <> "/" ->
  outcome (writeFileInternal p c) s = Ok tt ->
  walk (root s) path = Some n -> isFile n = true ->
  walk (root (exec (writeFileInternal p c) s)) path
  = Some (if list_eq_dec string_dec path (splitPath p) then write c n else n).
Proof.
  intros Hg Hd Hl Habs Hnotroot Hout Hn Hfile.
  destruct (writeFileInternal_returns p c s Hout)
    as (r & parent & Hr & _ & Hparent & Hcases).
  cbv zeta in *.
  set (s1 := exec (createDirectory (parentPath r) true) s) in *.
  assert (Hd1 : distinct s1)
    by exact (createDirectory_keeps distinct distinct_leaf _ _ s Hd).
  assert (Hl1 : noLinks s1)
    by exact (createDirectory_keeps noLinks noLinks_leaf _ _ s Hl).
  assert (Hn1 : walk (root s1) path = Some n)
    by (apply createDirectory_frame; auto).
  destruct (parent_walk s1 p r parent (proj1 Hl1) Hr Habs Hnotroot Hparent)
    as (init & Hsplit & Hwalk & Hdir & Hlast).
  assert (Hlp : linkFree parent) by exact (walk_linkFree _ _ _ (proj1 Hl1) Hwalk).
  destruct Hcases as [(existing & Hc & Hef & ->)
                     |[(existing & rn & Hc & Hlink & _)
                      |([Hc|(existing & Hc & Hlink)] & ->)]].
  - rewrite Hc in Hlast.
    change (root (exec (mutate (oidOf existing) (write c)) s1))
      with (updateNode (oidOf existing) (write c) (root s1)).
    destruct (list_eq_dec string_dec path (splitPath p)) as [->|Hne].
    + assert (n = existing) as -> by congruence.
      exact (walk_update (write c) existing _ _ (proj1 Hd1) Hlast).
    + apply (walk_frame (write c) (root s1) existing n); auto.
      * apply proj1 in Hd1. exact Hd1.
      * exact (walk_inside _ _ _ Hlast).
      * now destruct existing.
      * intros seg ch Hch. destruct existing; discriminate.
      * intros Heq. apply Hne.
        exact (walk_unique _ _ _ _ _ (proj1 Hd1) Hn1 Hlast Heq).
      * apply nodes_self.
  - rewrite (proj2 (linkFree_child _ _ _ Hlp Hc)) in Hlink. discriminate.
  - rewrite Hc in Hlast.
    destruct (list_eq_dec string_dec path (splitPath p)) as [->|Hne];
      [congruence|].
    apply (walk_addChild s1 init parent); auto.
  - rewrite (proj2 (linkFree_child _ _ _ Hlp Hc)) in Hlink. discriminate.
Qed.

(** [deleteFile] leaves every other file as it was. *)
Lemma deleteFile_frame (s : VFS) (p : string) (path : list string) (n : VFSNode) :
  distinct s -> noLinks s ->
  isAbsolute (normalizePath p) = true -> normalizePath p <> "/" ->
  outcome (deleteFile p) s = Ok tt ->
  walk (root s) path = Some n -> isFile n = true -> path <> splitPath p ->
  walk (root (exec (deleteFile p) s)) path = Some n.
Proof.
  intros Hd Hl Habs Hnotroot Hout Hn Hfile Hne.
  unfold deleteFile in *.
  apply bind_inv in Hout as (r & Hr & Hout & Hexec).
  rewrite outcome_liftR in Hr. rewrite exec_liftR in *.
  apply bind_inv in Hout as (parent0 & Hparent & Hout & Hexec2).
  rewrite outcome_reading in Hparent. rewrite exec_reading in *.
  injection Hparent as Hparent.
  destruct parent0 as [parent|]; [|discriminate].
  destruct (getChild parent (name r)) as [node|] eqn:Ec; [|discriminate].
  destruct (isDirectory node) eqn:Edn; [discriminate|].
  assert (Hstate : exec (mutate (oidOf parent) (removeChild (name r));;;
                         notifyWatchers (fullPath r) Unlink) s
                   = exec (mutate (oidOf parent) (removeChild (name r))) s)
    by reflexivity.
  rewrite Hexec, Hexec2, Hstate. clear Hexec Hexec2 Hstate Hout.
  assert (Hgd : getDirectory s (parentPath r) = Ok parent).
  { unfold getDirectoryOrNull in Hparent.
    destruct (getDirectory s (parentPath r)); [congruence|discriminate]. }
  destruct (parent_walk s p r parent (proj1 Hl) Hr Habs Hnotroot Hgd)
    as (init & Hsplit & Hwalk & Hdir & Hlast).
  rewrite Ec in Hlast.
  change (root (exec (mutate (oidOf parent) (removeChild (name r))) s))
    with (updateNode (oidOf parent) (removeChild (name r)) (root s)).
  pose proof (walk_inside _ _ _ Hwalk) as Hin.
  apply (walk_frame (removeChild (name r)) (root s) parent n); auto.
  - apply Hd.
  - now destruct parent.
  - intros seg ch Hch Hkind.
    destruct parent as [| o nm chs md |]; try discriminate.
    unfold getChild in *. simpl in *.
    rewrite get_delete_other; [exact Hch|]. intros ->.
    assert (ch = node) as -> by congruence.
    destruct Hkind as [Hk| ->]; [congruence|].
    apply Hne. exact (walk_unique _ _ _ _ _ (proj1 Hd) Hn Hlast eq_refl).
  - apply (file_directory_oids (root s)); auto.
    + apply Hd.
    + exact (walk_inside _ _ _ Hn).
  - apply nodes_self.
Qed.

(** Reading a file, as a walk. *)
Lemma readFile_walk_inv (s : VFS) (q : string) (b : Buffer) :
  linkFree (root s) -> outcome (readFile q) s = Ok b ->
  exists r node, resolvePath q = Ok r /\
                 walk (root s) (splitPath q) = Some node /\
                 isFile node = true /\ read node = b.
Proof.
  intros Hl Hread.
  destruct (readFile_inv s q b Hread) as (node & Hres & Hfile & Hb).
  rewrite (resolveNode_walk s q true Hl) in Hres.
  destruct (resolvePath q) as [r|e] eqn:Hr; [|discriminate].
  destruct (resolvePath_fields q r Hr) as (_ & Hsegs & _).
  exists r, node. rewrite <- Hsegs. repeat split; auto. congruence.
Qed.

Lemma readFile_walk_splitPath (s : VFS) (q : string) (r : PathResolution)
    (node : VFSNode) :
  linkFree (root s) -> resolvePath q = Ok r ->
  walk (root s) (splitPath q) = Some node -> isFile node = true ->
  outcome (readFile q) s = Ok (read node).
Proof.
  intros Hl Hr Hw Hfile. apply (readFile_walk s q r node); auto.
  now rewrite (proj1 (proj2 (resolvePath_fields q r Hr))).
Qed.

(** The states that the theorems below are about. *)
Lemma runOps_tidy (opts : VFSOptions) (ops : list Op) :
  forallb createsNoLink ops = true ->
  let s := runOps ops (createVFS opts) in
  good s /\ distinct s /\ noLinks s.
Proof.
  intros Hops. split; [|split].
  - apply runOps_good, createVFS_good.
  - apply runOps_distinct, createVFS_distinct.
  - apply runOps_noLinks; [exact Hops|apply createVFS_noLinks].
Qed.

Lemma writeFileInternal_tidy (p : string) (c : Content) (s : VFS) :
  good s /\ distinct s /\ noLinks s ->
  let s' := exec (writeFileInternal p c) s in
  good s' /\ distinct s' /\ noLinks s'.
Proof.
  intros (Hg & Hd & Hl). split; [|split].
  - exact (evolved_good _ _ (writeFileInternal_evolved p c s s (evolved_refl s Hg))).
  - exact (writeFileInternal_keeps distinct distinct_plain distinct_leaf p c s Hd).
  - exact (writeFileInternal_keeps noLinks noLinks_plain noLinks_leaf p c s Hl).
Qed.

(** Two absolute paths with the same segments are one path. *)
Lemma splitPath_absolute (p q : string) :
  isAbsolute (normalizePath p) = true -> isAbsolute (normalizePath q) = true ->
  splitPath p = splitPath q -> normalizePath p = normalizePath q.
Proof.
  intros Hp Hq Heq.
  rewrite (normalizePath_split_join_eq p), (normalizePath_split_join_eq q).
  now rewrite Hp, Hq, Heq.
Qed.

(** What [copyFile] does, without symlinks. *)
Lemma copyFile_core (s : VFS) (src dest : string) :
  good s /\ distinct s /\ noLinks s ->
  let s' := exec (copyFile src dest) s in
  isAbsolute (normalizePath dest) = true -> normalizePath dest <> "/" ->
  outcome (copyFile src dest) s = Ok tt ->
  exists b,
    outcome (readFile src) s = Ok b /\
    s' = exec (writeFileInternal dest (Buf b)) s /\
    outcome (writeFileInternal dest (Buf b)) s = Ok tt /\
    outcome (readFile dest) s' = Ok b /\
    outcome (readFile src) s' = Ok b.
Proof.
  intros (Hg & Hd & Hl) s' Habs Hnotroot Hout. unfold s', copyFile in *.
  apply bind_inv in Hout as (b & Hread & Hout & ->).
  rewrite readFile_state in *. unfold writeFilePlain in *.
  exists b. split; [exact Hread|]. split; [reflexivity|]. split; [exact Hout|].
  split; [exact (writeFileInternal_read s dest (Buf b) Hd Hl Habs Hnotroot Hout)|].
  destruct (readFile_walk_inv s src b (proj1 Hl) Hread)
    as (r & node & Hr & Hw & Hfile & Hb).
  pose proof (writeFileInternal_frame s dest (Buf b) _ node Hg Hd Hl Habs
                Hnotroot Hout Hw Hfile) as Hframe.
  destruct (writeFileInternal_tidy dest (Buf b) s (conj Hg (conj Hd Hl)))
    as (_ & _ & Hl').
  rewrite (readFile_walk_splitPath _ src r _ (proj1 Hl') Hr Hframe).
  - destruct (list_eq_dec string_dec (splitPath src) (splitPath dest));
      destruct node; try discriminate; simpl in *; congruence.
  - destruct (list_eq_dec string_dec (splitPath src) (splitPath dest));
      destruct node; try discriminate; reflexivity.
Qed.

(** What [moveFile] does, without symlinks. *)
Lemma moveFile_core (s : VFS) (src dest : string) :
  good s /\ distinct s /\ noLinks s ->
  let s' := exec (moveFile src dest) s in
  isAbsolute (normalizePath src) = true -> normalizePath src <> "/" ->
  isAbsolute (normalizePath dest) = true -> normalizePath dest <> "/" ->
  outcome (moveFile src dest) s = Ok tt ->
  exists b,
    outcome (readFile src) s = Ok b /\
    exists_ s' src = false /\
    (normalizePath src <> normalizePath dest ->
     outcome (readFile dest) s' = Ok b).
Proof.
  intros Hs s' Has Hrs Had Hrd Hout. unfold s', moveFile in *.
  apply bind_inv in Hout as ([] & Hcopy & Hdel & ->).
  destruct (copyFile_core s src dest Hs Had Hrd Hcopy)
    as (b & Hread & Hstate & Hwrite & Hdest & _).
  cbv zeta in *.
  set (s1 := exec (copyFile src dest) s) in *.
  assert (Hs1 : good s1 /\ distinct s1 /\ noLinks s1)
    by (rewrite Hstate; now apply writeFileInternal_tidy).
  destruct Hs1 as (Hg1 & Hd1 & Hl1).
  exists b. split; [exact Hread|]. split.
  - exact (proj1 (deleteFile_gone s1 src Hg1 Hd1 Hl1 Has Hrs Hdel)).
  - intros Hne.
    destruct (readFile_walk_inv s1 dest b (proj1 Hl1) Hdest)
      as (r & node & Hr & Hw & Hfile & Hb).
    assert (Hl2 : noLinks (exec (deleteFile src) s1))
      by exact (deleteFile_keeps noLinks noLinks_plain src s1 Hl1).
    rewrite <- Hb.
    apply (readFile_walk_splitPath _ dest r node (proj1 Hl2) Hr); auto.
    apply deleteFile_frame; auto.
    intros Heq. apply Hne. symmetry. now apply splitPath_absolute.
Qed.

(** X25. In a file system where no symlink was ever created, a write or a
    delete touches one file only: when [writeFile] or [deleteFile] returns on
    an absolute path [p] other than the root, every file that could be read
    through a path with other segments than [p] reads the same afterwards. *)
Theorem other_files_untouched (opts : VFSOptions) (ops : list Op)
    (p q : string) (c : Content) (b : Buffer)
    (Hops : forallb createsNoLink ops = true) :
  let s := runOps ops (createVFS opts) in
  isAbsolute (normalizePath p) = true -> normalizePath p <> "/" ->
  splitPath q <> splitPath p ->
  outcome (readFile q) s = Ok b ->
  (outcome (writeFile p c None) s = Ok tt ->
   outcome (readFile q) (exec (writeFile p c None) s) = Ok b) /\
  (outcome (deleteFile p) s = Ok tt ->
   outcome (readFile q) (exec (deleteFile p) s) = Ok b).
Proof.
  intros s Habs Hnotroot Hne Hread.
  destruct (runOps_tidy opts ops Hops) as (Hg & Hd & Hl). fold s in Hg, Hd, Hl.
  destruct (readFile_walk_inv s q b (proj1 Hl) Hread)
    as (r & node & Hr & Hw & Hfile & <-).
  split; intros Hout.
  - change (writeFile p c None) with (writeFileInternal p c) in *.
    destruct (writeFileInternal_tidy p c s (conj Hg (conj Hd Hl)))
      as (_ & _ & Hl').
    apply (readFile_walk_splitPath _ q r node (proj1 Hl') Hr); auto.
    rewrite (writeFileInternal_frame s p c _ node Hg Hd Hl Habs Hnotroot Hout
               Hw Hfile).
    now destruct (list_eq_dec string_dec (splitPath q) (splitPath p)).
  - assert (Hl' : noLinks (exec (deleteFile p) s))
      by exact (deleteFile_keeps noLinks noLinks_plain p s Hl).
    apply (readFile_walk_splitPath _ q r node (proj1 Hl') Hr); auto.
    now apply deleteFile_frame.
Qed.

(** An instance: two files of one directory. *)
Lemma other_files_untouched_witness :
  let s := runOps [OpWriteFile "/a/x" (Str "1") None;
                   OpWriteFile "/a/y" (Str "2") None] (createVFS DEFAULT_OPTIONS) in
  outcome (readFile "/a/x") (exec (writeFile "/a/y" (Str "3") None) s)
  = Ok (utf8 "1") /\
  outcome (readFile "/a/x") (exec (deleteFile "/a/y") s) = Ok (utf8 "1").
Proof.
  intros s.
  assert (H1 : normalizePath "/a/y" <> "/") by discriminate.
  assert (H2 : splitPath "/a/x" <> splitPath "/a/y") by discriminate.
  assert (H3 : outcome (readFile "/a/x") s = Ok (utf8 "1")) by reflexivity.
  pose proof (other_files_untouched DEFAULT_OPTIONS
                [OpWriteFile "/a/x" (Str "1") None;
                 OpWriteFile "/a/y" (Str "2") None]
                "/a/y" "/a/x" (Str "3") (utf8 "1") eq_refl eq_refl H1 H2 H3)
    as (Hw & Hd).
  split; [apply Hw|apply Hd]; reflexivity.
Defined.

(** X26. In a file system where no symlink was ever created, [copyFile]
    copies: when it returns for a destination that is an absolute path other
    than the root, the source could be read, the destination now reads that
    content, and the source still does. *)
Theorem copyFile_copies (opts : VFSOptions) (ops : list Op) (src dest : string)
    (Hops : forallb createsNoLink ops = true) :
  let s := runOps ops (createVFS opts) in
  let s' := exec (copyFile src dest) s in
  isAbsolute (normalizePath dest) = true -> normalizePath dest <> "/" ->
  outcome (copyFile src dest) s = Ok tt ->
  exists b,
    outcome (readFile src) s = Ok b /\
    outcome (readFile dest) s' = Ok b /\
    outcome (readFile src) s' = Ok b.
Proof.
  intros s s' Habs Hnotroot Hout.
  destruct (copyFile_core s src dest (runOps_tidy opts ops Hops) Habs Hnotroot
              Hout) as (b & Hread & _ & _ & Hdest & Hsrc).
  now exists b.
Qed.

(** An instance: a copy into a directory that is not there yet. *)
Lemma copyFile_copies_witness :
  let s := runOps [OpWriteFile "/a/x" (Str "1") None] (createVFS DEFAULT_OPTIONS) in
  exists b,
    outcome (readFile "/a/x") s = Ok b /\
    outcome (readFile "/b/c/y") (exec (copyFile "/a/x" "/b/c/y") s) = Ok b /\
    outcome (readFile "/a/x") (exec (copyFile "/a/x" "/b/c/y") s) = Ok b.
Proof.
  assert (H1 : normalizePath "/b/c/y" <> "/") by discriminate.
  exact (copyFile_copies DEFAULT_OPTIONS [OpWriteFile "/a/x" (Str "1") None]
           "/a/x" "/b/c/y" eq_refl eq_refl H1 eq_refl).
Defined.

(** X27. In a file system where no symlink was ever created, [moveFile]
    moves: when it returns for two absolute paths other than the root, the
    source could be read and exists no more, and the destination reads its
    content when the two paths differ.  (When they do not, the file is
    deleted: the source is gone in every case.) *)
Theorem moveFile_moves (opts : VFSOptions) (ops : list Op) (src dest : string)
    (Hops : forallb createsNoLink ops = true) :
  let s := runOps ops (createVFS opts) in
  let s' := exec (moveFile src dest) s in
  isAbsolute (normalizePath src) = true -> normalizePath src <> "/" ->
  isAbsolute (normalizePath dest) = true -> normalizePath dest <> "/" ->
  outcome (moveFile src dest) s = Ok tt ->
  exists b,
    outcome (readFile src) s = Ok b /\
    exists_ s' src = false /\
    (normalizePath src <> normalizePath dest ->
     outcome (readFile dest) s' = Ok b).
Proof.
  intros s s'. apply moveFile_core. exact (runOps_tidy opts ops Hops).
Qed.

(** Two instances: a file moved to another directory, and a file moved onto
    itself. *)
Lemma moveFile_moves_witness :
  let s := runOps [OpWriteFile "/a/x" (Str "1") None] (createVFS DEFAULT_OPTIONS) in
  (exists b,
     outcome (readFile "/a/x") s = Ok b /\
     exists_ (exec (moveFile "/a/x" "/b/y") s) "/a/x" = false /\
     outcome (readFile "/b/y") (exec (moveFile "/a/x" "/b/y") s) = Ok b) /\
  outcome (moveFile "/a/x" "/a/x") s = Ok tt /\
  exists_ (exec (moveFile "/a/x" "/a/x") s) "/a/x" = false.
Proof.
  intros s.
  assert (H1 : normalizePath "/a/x" <> "/") by discriminate.
  assert (H2 : normalizePath "/b/y" <> "/") by discriminate.
  assert (H3 : normalizePath "/a/x" <> normalizePath "/b/y") by discriminate.
  assert (H4 : outcome (moveFile "/a/x" "/a/x") s = Ok tt) by reflexivity.
  split; [|split; [exact H4|]].
  - destruct (moveFile_moves DEFAULT_OPTIONS [OpWriteFile "/a/x" (Str "1") None]
                "/a/x" "/b/y" eq_refl eq_refl H1 eq_refl H2 eq_refl)
      as (b & Hr & Hg & Hd).
    exists b. split; [exact Hr|]. split; [exact Hg|]. exact (Hd H3).
  - destruct (moveFile_moves DEFAULT_OPTIONS [OpWriteFile "/a/x" (Str "1") None]
                "/a/x" "/a/x" eq_refl eq_refl H1 eq_refl H1 H4)
      as (b & _ & Hg & _).
    exact Hg.
Defined.

(** X28. In a file system where no symlink was ever created, a write through
    a temporary file can be read back: when [writeFile] with a temp suffix
    returns, the path and the temp path being two different absolute paths
    other than the root, [readFile] on the path returns the content written
    and the temp path exists no more. *)
Theorem atomic_write_then_read (opts : VFSOptions) (ops : list Op)
    (p suffix : string) (c : Content)
    (Hops : forallb createsNoLink ops = true) :
  let s := runOps ops (createVFS opts) in
  let temp := p ++ suffix in
  let s' := exec (writeFile p c (Some suffix)) s in
  suffix <> "" ->
  isAbsolute (normalizePath p) = true -> normalizePath p <> "/" ->
  isAbsolute (normalizePath temp) = true -> normalizePath temp <> "/" ->
  normalizePath temp <> normalizePath p ->
  outcome (writeFile p c (Some suffix)) s = Ok tt ->
  outcome (readFile p) s' = Ok (toBuffer c) /\
  exists_ s' temp = false.
Proof.
  intros s temp s' Hsuffix Hap Hrp Hat Hrt Hne Hout.
  unfold s', writeFile in *. clear s'.
  assert (Ht : tempSuffixOf (Some suffix) = Some suffix)
    by (destruct suffix; [congruence|reflexivity]).
  rewrite Ht in *. cbv zeta in *. fold temp in Hout |- *.
  apply bind_inv in Hout as ([] & Hwrite & Hmove & ->).
  pose proof (runOps_tidy opts ops Hops) as Hs. fold s in Hs. cbv zeta in Hs.
  pose proof (writeFileInternal_tidy temp c s Hs) as Hs1. cbv zeta in Hs1.
  pose proof (writeFileInternal_read s temp c (proj1 (proj2 Hs))
                (proj2 (proj2 Hs)) Hat Hrt Hwrite) as Hread.
  destruct (moveFile_core _ temp p Hs1 Hat Hrt Hap Hrp Hmove)
    as (b & Hb & Hgone & Hdest).
  assert (b = toBuffer c) as -> by congruence.
  split; [exact (Hdest Hne)|exact Hgone].
Qed.

(** An instance: the suffix [.tmp]. *)
Lemma atomic_write_then_read_witness :
  let s := runOps [OpCreateDirectory "/a" false] (createVFS DEFAULT_OPTIONS) in
  outcome (readFile "/a/x") (exec (writeFile "/a/x" (Str "1") (Some ".tmp")) s)
  = Ok (utf8 "1") /\
  exists_ (exec (writeFile "/a/x" (Str "1") (Some ".tmp")) s) "/a/x.tmp" = false.
Proof.
  intros s.
  assert (H0 : ".tmp" <> "") by discriminate.
  assert (H1 : normalizePath "/a/x" <> "/") by discriminate.
  assert (H2 : normalizePath ("/a/x" ++ ".tmp") <> "/") by discriminate.
  assert (H3 : normalizePath ("/a/x" ++ ".tmp") <> normalizePath "/a/x")
    by discriminate.
  exact (atomic_write_then_read DEFAULT_OPTIONS [OpCreateDirectory "/a" false]
           "/a/x" ".tmp" (Str "1") eq_refl H0 eq_refl H1 eq_refl H2 H3 eq_refl).
Defined.

(** *** Removing a directory, and emptying the file system *)

Lemma walk_none_app (a b : list string) (current : VFSNode) :
  walk current a = None -> walk current (a ++ b) = None.
Proof. intros H. now rewrite walk_app, H. Qed.

(** X29. In a file system where no symlink was ever created, a directory
    that is deleted is gone with all that was in it: when [deleteDirectory]
    returns on an absolute path other than the root, [exists] answers false
    on every path whose segments start with the segments of that path, the
    path itself included.  Without [recursive], the directory had no
    entry. *)
Theorem deleted_directory_is_gone (opts : VFSOptions) (ops : list Op)
    (p : string) (recursive : bool)
    (Hops : forallb createsNoLink ops = true) :
  let s := runOps ops (createVFS opts) in
  let s' := exec (deleteDirectory p recursive) s in
  isAbsolute (normalizePath p) = true -> normalizePath p <> "/" ->
  outcome (deleteDirectory p recursive) s = Ok tt ->
  (forall q below, splitPath q = (splitPath p ++ below)%list ->
                   exists_ s' q = false) /\
  isDirectoryAt s p = true /\
  (recursive = false -> readDirectory s p = Ok []).
Proof.
  intros s s' Habs Hnotroot Hout.
  destruct (runOps_tidy opts ops Hops) as (Hg & Hd & Hl). fold s in Hg, Hd, Hl.
  assert (Hl' : noLinks s')
    by exact (deleteDirectory_keeps noLinks noLinks_plain p recursive s Hl).
  unfold s' in *. clear s'. unfold deleteDirectory in *.
  apply bind_inv in Hout as (r & Hr & Hout & Hexec).
  rewrite outcome_liftR in Hr. rewrite exec_liftR in *.
  destruct (resolvePath_fields p r Hr) as (Hfull & Hsegs & Hisroot).
  assert (Hnr : isRoot r = false)
    by (rewrite Hisroot; now apply String.eqb_neq).
  rewrite Hnr in *.
  apply bind_inv in Hout as (parent & Hparent & Hout & Hexec2).
  rewrite outcome_reading in Hparent. rewrite exec_reading in *.
  destruct (getChild parent (name r)) as [node|] eqn:Ec; [|discriminate].
  destruct (isDirectory node) eqn:Edn; [|discriminate].
  simpl negb in *. cbv iota in *.
  destruct (negb recursive && negb (dirIsEmpty node)) eqn:Eempty;
    [discriminate|].
  assert (Hstate : exec (mutate (oidOf parent) (removeChild (name r));;;
                         notifyWatchers (fullPath r) UnlinkDir) s
                   = exec (mutate (oidOf parent) (removeChild (name r))) s)
    by reflexivity.
  rewrite Hexec, Hexec2, Hstate in *. clear Hexec Hexec2 Hstate Hout.
  destruct (parent_walk s p r parent (proj1 Hl) Hr Habs Hnotroot Hparent)
    as (init & Hsplit & Hwalk & Hdir & Hlast).
  rewrite Ec in Hlast.
  pose proof (getDirectory_live s _ _ Hg Hparent) as (_ & Hkeyed).
  pose proof (walk_update (removeChild (name r)) parent _ _ (proj1 Hd) Hwalk)
    as Hw2.
  set (s2 := exec (mutate (oidOf parent) (removeChild (name r))) s) in *.
  assert (Hgone : walk (root s2) (splitPath p) = None).
  { rewrite Hsplit.
    rewrite (walk_last _ (removeChild (name r) parent) _ _ Hw2);
      [|destruct parent; try discriminate; reflexivity].
    destruct parent as [| o nm ch md |]; try discriminate.
    unfold getChild. simpl. apply get_delete_same.
    now inversion Hkeyed. }
  split; [|split].
  - intros q below Hq. unfold exists_.
    rewrite (resolveNode_walk s2 q false (proj1 Hl')).
    destruct (resolvePath q) as [rq|e] eqn:Hrq; [|reflexivity].
    rewrite (proj1 (proj2 (resolvePath_fields q rq Hrq))), Hq.
    now rewrite (walk_none_app _ _ _ Hgone).
  - unfold isDirectoryAt. rewrite (resolveNode_walk s p true (proj1 Hl)), Hr.
    now rewrite Hsegs, Hlast.
  - intros ->. unfold readDirectory, getDirectory.
    rewrite (resolveNode_walk s p true (proj1 Hl)), Hr, Hsegs, Hlast, Edn.
    simpl. unfold getChildren, dirIsEmpty in *.
    destruct (childrenOf node); [reflexivity|discriminate].
Qed.

(** An instance: a directory with a file two levels down. *)
Lemma deleted_directory_is_gone_witness :
  let s := runOps [OpWriteFile "/a/b/x" (Str "1") None] (createVFS DEFAULT_OPTIONS) in
  outcome (deleteDirectory "/a" true) s = Ok tt /\
  exists_ s "/a/b/x" = true /\
  exists_ (exec (deleteDirectory "/a" true) s) "/a/b/x" = false.
Proof.
  intros s.
  assert (H1 : normalizePath "/a" <> "/") by discriminate.
  assert (H2 : outcome (deleteDirectory "/a" true) s = Ok tt) by reflexivity.
  split; [exact H2|]. split; [reflexivity|].
  exact (proj1 (deleted_directory_is_gone DEFAULT_OPTIONS
                  [OpWriteFile "/a/b/x" (Str "1") None] "/a" true eq_refl
                  eq_refl H1 H2) "/a/b/x" ["b"; "x"] eq_refl).
Defined.

Lemma splitPath_not_root (q : string) :
  normalizePath q <> "/" -> splitPath q <> [].
Proof.
  intros Hq Hnil. pose proof (normalizePath_split_join_eq q) as Heq.
  rewrite Hnil in Heq. destruct (normalizePath_facts q) as (Hne & _).
  cbv zeta in Hne. destruct (isAbsolute (normalizePath q)); simpl in Heq;
    congruence.
Qed.

Lemma reset_run (s : VFS) :
  let s1 := exec (removeChildren (oidOf (root s)) (getChildNames (root s))) s in
  reset s = ({| root := root s1; options := options s1; snapshots := [];
                snapshotCounter := 0; nextOid := nextOid s1 |}, Ok tt).
Proof.
  cbv zeta. unfold reset. rewrite bind_run. unfold reading at 1.
  cbv beta iota. rewrite bind_run, removeChildren_run. reflexivity.
Qed.

(** X30. [reset] gives back an empty file system, whatever was done before:
    it returns, the root is still there and lists no entry, no other path
    exists, no snapshot is left, and the snapshot ids start again at
    [snapshot-1]. *)
Theorem reset_empties (opts : VFSOptions) (ops : list Op) :
  let s := runOps ops (createVFS opts) in
  let s' := exec reset s in
  outcome reset s = Ok tt /\
  isDirectoryAt s' "/" = true /\
  readDirectory s' "/" = Ok [] /\
  (forall q, normalizePath q <> "/" -> exists_ s' q = false) /\
  listSnapshots s' = [] /\
  (forall id, getSnapshotInfo s' id = None) /\
  (forall nm, outcome (createSnapshot nm) s' = Ok "snapshot-1").
Proof.
  intros s s'.
  assert (Hg : good s) by apply runOps_good, createVFS_good.
  pose proof (reset_run s) as Hrun. cbv zeta in Hrun.
  assert (Hroot : childrenOf (root s') = [] /\ isDirectory (root s') = true).
  { unfold s'. rewrite reset_root, (removeChildren_root _ _ _ eq_refl).
    destruct (removeChild_all_children (root s)) as (Hch & _ & _ & Hdir).
    split; [exact Hch|]. rewrite Hdir. apply Hg. }
  destruct Hroot as (Hch & Hdir).
  assert (Hsnaps : snapshots s' = [] /\ snapshotCounter s' = 0).
  { unfold s', exec. rewrite Hrun. now split. }
  destruct Hsnaps as (Hsnaps & Hcounter).
  assert (Hslash : resolveNode s' "/" true = Ok (Some (root s')))
    by reflexivity.
  split; [unfold outcome; now rewrite Hrun|].
  split; [unfold isDirectoryAt; now rewrite Hslash|].
  split; [unfold readDirectory, getDirectory; rewrite Hslash; cbv iota;
          rewrite Hdir; cbn [negb]; cbv iota; unfold getChildren;
          now rewrite Hch|].
  split; [|split; [|split]].
  - intros q Hq. unfold exists_, resolveNode, resolveNodeAt.
    rewrite Nat.sub_0_r. cbn [resolveNodeFuel].
    destruct (resolvePath q) as [r|e] eqn:Hr; [|reflexivity].
    destruct (resolvePath_fields q r Hr) as (_ & Hsegs & Hisroot).
    apply String.eqb_neq in Hq as Hq'. rewrite Hisroot, Hq', Hsegs.
    pose proof (splitPath_not_root q Hq) as Hne.
    destruct (splitPath q) as [|seg rest]; [congruence|].
    cbn [resolveLoop]. rewrite Hdir. simpl negb. cbv iota.
    unfold getChild. now rewrite Hch.
  - unfold listSnapshots. now rewrite Hsnaps.
  - intros id. unfold getSnapshotInfo. now rewrite Hsnaps.
  - intros nm. unfold outcome, createSnapshot. rewrite Hcounter.
    now destruct (clone (root s') (nextOid s')).
Qed.
